(** * Ingestion pipeline of the BiTB RAG chatbot: a shallow embedding

  The development follows the Python sources of the repository:

  - [services/llamaindex_service/app/chunking.py]    modules [Chunking],
                                                     [Payloads]
  - [python/ingest_worker.py]      modules [WorkerChunker], [Faiss], [Crawler]
  - [python/ingest-worker.py]      modules [TokenChunker], [Faiss], [Crawler],
                                   [Purge]
  - [services/llamaindex_service/app/vector_store.py]   module [Chroma]
  - [services/llamaindex_service/app/embeddings.py]     modules [Sha256],
                                                        [Embeddings]
  - [python/reembed_runner.py]     modules [Reembed], [Retries]
  - [services/llamaindex_service/app/main.py]           module [Ingest]

  Python integers are [Z]; a Python [str] is a [string], read as its UTF-8
  bytes where it is hashed; lists are [list]; dictionaries used as maps are
  [gmap]; distances and scores are rationals, and the one float division
  of integers is rounded as binary64 does ([PyFloat]); a call that may
  raise returns an [outcome].
  The first part holds the definitions, the second part their properties. *)

From Stdlib Require Import ZArith QArith Lia Lqa List String Ascii Bool.
From Stdlib Require Import Sorting.Sorted Permutation DecimalString.
From stdpp Require Import base option list gmap strings.

Local Open Scope Z_scope.

Set Warnings "-clear-no-such-hyp".

(** ** Python values shared by all modules *)

(** Exceptions that the modelled code lets escape. *)
Inductive exn : Type :=
| ValueError (msg : string)
| IndexError
| BackendError
| OverflowError (msg : string).

(** The outcome of a call: it returns, it raises, or the model of a [while]
  loop ran out of fuel (every loop below is proved to have enough). *)
Inductive outcome (A : Type) : Type :=
| Returns (a : A)
| Raises (e : exn)
| OutOfFuel.
Arguments Returns {A} a.
Arguments Raises {A} e.
Arguments OutOfFuel {A}.

Module Py.

(** [len(l)] *)
Definition len {A} (l : list A) : Z := Z.of_nat (length l).

(** A slice bound as Python normalises it: a negative bound counts from the
    end, and every bound is clipped to [0 .. len]. *)
Definition clip_index (n i : Z) : Z :=
  if i <? 0 then Z.max 0 (n + i) else Z.min i n.

(** [l[start:stop]] *)
Definition slice {A} (l : list A) (start stop : Z) : list A :=
  let a := clip_index (len l) start in
  let b := clip_index (len l) stop in
  firstn (Z.to_nat (b - a)) (skipn (Z.to_nat a) l).

(** [l[i]]: a negative index counts from the end; out of range raises
    [IndexError]. *)
Definition index {A} (l : list A) (i : Z) : outcome A :=
  let j := if i <? 0 then len l + i else i in
  if j <? 0 then Raises IndexError
  else match nth_error l (Z.to_nat j) with
       | Some x => Returns x
       | None => Raises IndexError
       end.

(** [l[i] = x]: the same indexes as [l[i]]. *)
Definition setitem {A} (l : list A) (i : Z) (x : A) : outcome (list A) :=
  let j := if i <? 0 then len l + i else i in
  if (j <? 0) || (len l <=? j) then Raises IndexError
  else Returns (<[Z.to_nat j := x]> l).

(** [range(start, stop, step)] for a positive step, by fuel on the number
    of elements. *)
Fixpoint range_pos (fuel : nat) (start stop step : Z) : list Z :=
  match fuel with
  | O => []
  | S f => if start <? stop
           then start :: range_pos f (start + step) stop step
           else []
  end.

(** [range(0, stop, step)]: a zero step raises [ValueError]; a negative
    step from 0 to a non-negative [stop] is empty. *)
Definition range0 (stop step : Z) : outcome (list Z) :=
  if step =? 0 then Raises (ValueError "range() arg 3 must not be zero")
  else if step <? 0 then Returns []
  else Returns (range_pos (Z.to_nat stop) 0 stop step).

End Py.

(** ** Float division of integers

    [a / b] on two positive integers is the binary64 number nearest to the
    exact quotient, ties going to the even mantissa, whatever the size of
    the integers; it raises [OverflowError] when that number would be
    [2 ^ 1024] or more. [int(x)] of the float is its integer part. The
    float is kept as a mantissa of 53 bits and an exponent. *)

Module PyFloat.

(** [x * 2 ^ e <= y], for an exponent of either sign. *)
Definition scaled_le (x e y : Z) : bool :=
  if 0 <=? e then x * 2 ^ e <=? y else x <=? y * 2 ^ (- e).

(** The integer part of the binary logarithm of [a / b]. *)
Definition quotient_log2 (a b : Z) : Z :=
  let l := Z.log2 a - Z.log2 b in
  if scaled_le b l a then l else l - 1.

(** [num / den] rounded to the nearest integer, ties to even. *)
Definition round_half_even (num den : Z) : Z :=
  let q := num / den in
  let r := num mod den in
  if 2 * r <? den then q
  else if den <? 2 * r then q + 1
  else if Z.even q then q else q + 1.

(** The float [a / b] as [(m, e)], standing for [m * 2 ^ e]. *)
Definition true_div (a b : Z) : Z * Z :=
  let e := quotient_log2 a b - 52 in
  let m := if 0 <=? e then round_half_even a (b * 2 ^ e)
           else round_half_even (a * 2 ^ (- e)) b in
  (m, e).

(** [int(a / b)] for positive [a] and [b]. *)
Definition int_true_div (a b : Z) : outcome Z :=
  let '(m, e) := true_div a b in
  if 0 <=? e then
    if 2 ^ 1024 <=? m * 2 ^ e
    then Raises (OverflowError
                   "integer division result too large for a float")
    else Returns (m * 2 ^ e)
  else Returns (m / 2 ^ (- e)).

End PyFloat.

(** ** chunking.py: [split_text_to_chunks] *)

Module Chunking.

(** A chunk as the function returns it: [(chunk_text, start_offset)]. *)
Definition chunk : Type := (string * Z)%type.

Definition chars (s : string) : list ascii := list_ascii_of_string s.

(** [text[start:end]] on a Python string. *)
Definition str_slice (text : string) (start stop : Z) : string :=
  string_of_list_ascii (Py.slice (chars text) start stop).

Definition str_len (text : string) : Z := Py.len (chars text).

(** The [while start < text_len] loop; [chunks] is the list built so far. *)
Fixpoint split_loop (fuel : nat) (text : string)
    (text_len chunk_size overlap start : Z) (chunks : list chunk)
    : outcome (list chunk) :=
  match fuel with
  | O => OutOfFuel
  | S f =>
      if start <? text_len then
        let end_ := start + chunk_size in
        let c := str_slice text start end_ in
        let chunks := chunks ++ [(c, start)] in
        if end_ >=? text_len then Returns chunks
        else split_loop f text text_len chunk_size overlap
               (Z.max 0 (end_ - overlap)) chunks
      else Returns chunks
  end.

(** [if overlap >= chunk_size: overlap = int(chunk_size / 10)]: the
    division is the float one, which raises for a quotient beyond the
    floats. *)
Definition clamp_overlap (chunk_size overlap : Z) : outcome Z :=
  if overlap >=? chunk_size then PyFloat.int_true_div chunk_size 10
  else Returns overlap.

Definition split_text_to_chunks (text : string) (chunk_size overlap : Z)
    : outcome (list chunk) :=
  match text with
  | EmptyString => Returns []
  | _ =>
      if chunk_size <=? 0 then Raises (ValueError "chunk_size must be > 0")
      else
        match clamp_overlap chunk_size overlap with
        | Returns overlap =>
            split_loop (S (String.length text)) text (str_len text)
              chunk_size overlap 0 []
        | Raises e => Raises e
        | OutOfFuel => OutOfFuel
        end
  end.

(** What the loop appends when it is entered at [start]: windows at
    [start], [start + step], ..., each cut from the text, the last one
    reaching the end of the text. *)
Definition windows_from (text : string) (chunk_size overlap start : Z)
    (rest : list chunk) : Prop :=
  rest <> [] /\
  (forall (i : nat) c o, rest !! i = Some (c, o) ->
     o = start + Z.of_nat i * (chunk_size - overlap) /\
     c = str_slice text o (o + chunk_size) /\
     0 <= o < str_len text) /\
  (forall c o, last rest = Some (c, o) -> str_len text <= o + chunk_size) /\
  (forall p, start <= p < str_len text ->
     exists c o, In (c, o) rest /\ o <= p < o + chunk_size).

End Chunking.


(** ** Digests

    [hashlib.md5(s).hexdigest()] is kept symbolic: a digest is recorded by the
    string that was hashed. *)
Inductive md5_hexdigest : Type :=
| MD5 (input : string).

(** [str(i)] for an integer, as an f-string prints it. *)
Definition str_of_Z (i : Z) : string :=
  DecimalString.NilZero.string_of_int (Z.to_int i).

(** ** ingest_worker.py: [TextChunker] (word based) *)

Module WorkerChunker.

(** Whitespace as [str.split()] sees it on ASCII text: tab, line feed,
    vertical tab, form feed, carriage return, the separators 28-31 and the
    space. *)
Definition is_space (c : ascii) : bool :=
  let n := nat_of_ascii c in
  ((9 <=? n) && (n <=? 13) || (28 <=? n) && (n <=? 32))%nat.

(** [text.split()]: maximal runs of non-whitespace characters. [word] is the
    run being read, in reverse. *)
Fixpoint split_go (cs : list ascii) (word : list ascii) : list string :=
  let flush (rest : list string) :=
    match word with
    | [] => rest
    | _ => string_of_list_ascii (rev word) :: rest
    end in
  match cs with
  | [] => flush []
  | c :: cs' =>
      if is_space c then flush (split_go cs' [])
      else split_go cs' (c :: word)
  end.

Definition split (text : string) : list string :=
  split_go (list_ascii_of_string text) [].

(** [' '.join(words)] *)
Definition join (words : list string) : string := String.concat " " words.

Record Chunk : Type := mkChunk {
  id : md5_hexdigest;
  text : string;
  source_url : string;
  chunk_index : Z;
  metadata : gmap string string
}.

Record TextChunker : Type := mkTextChunker {
  chunk_size : Z;
  overlap : Z
}.

(** The words below which a window is skipped ([if len(chunk_words) < 50]). *)
Definition min_chunk_words : Z := 50.

(** One round of the [for i in range(...)] loop, on the list built so far. *)
Definition chunk_step (self : TextChunker) (words : list string)
    (source_url : string) (metadata : gmap string string)
    (chunks : list Chunk) (i : Z) : list Chunk :=
  let chunk_words := Py.slice words i (i + chunk_size self) in
  let chunk_text := join chunk_words in
  if Py.len chunk_words <? min_chunk_words then chunks
  else
    let chunk_id := MD5 (source_url ++ ":" ++ str_of_Z i) in
    chunks ++ [mkChunk chunk_id chunk_text source_url (Py.len chunks)
                 metadata].

(** The window the loop looks at in round [i], and whether it is kept. *)
Definition window (self : TextChunker) (words : list string) (i : Z)
    : list string :=
  Py.slice words i (i + chunk_size self).

Definition kept (w : list string) : bool :=
  negb (Py.len w <? min_chunk_words).

(** The window of the last round of the loop, if there is a round. *)
Definition final_window (self : TextChunker) (words : list string)
    : option (list string) :=
  match Py.range0 (Py.len words) (chunk_size self - overlap self) with
  | Returns starts => window self words <$> last starts
  | _ => None
  end.

(** The loop body on the words of the text. *)
Definition chunk_words (self : TextChunker) (words : list string)
    (source_url : string) (metadata : gmap string string)
    : outcome (list Chunk) :=
  match Py.range0 (Py.len words) (chunk_size self - overlap self) with
  | Returns starts =>
      Returns (fold_left (chunk_step self words source_url metadata)
                 starts [])
  | Raises e => Raises e
  | OutOfFuel => OutOfFuel
  end.

(** [TextChunker.chunk_text(text, source_url, metadata)] *)
Definition chunk_text (self : TextChunker) (text : string)
    (source_url : string) (metadata : gmap string string)
    : outcome (list Chunk) :=
  chunk_words self (split text) source_url metadata.

End WorkerChunker.

(** ** ingest-worker.py: [TextChunker] (token based)

    The tokenizer ([tiktoken]) is a collaborator: [encode] and [decode] are
    taken as given, tokens are integers. *)

Module TokenChunker.

Record Encoder : Type := mkEncoder {
  encode : string -> list Z;
  decode : list Z -> string
}.

Record Chunk : Type := mkChunk {
  text : string;
  metadata : gmap string string;
  chunk_index : Z
}.

Record TextChunker : Type := mkTextChunker {
  chunk_size : Z;
  overlap : Z;
  encoder : Encoder
}.

Definition chunk_step (self : TextChunker) (tokens : list Z)
    (metadata : gmap string string) (chunks : list Chunk) (i : Z)
    : list Chunk :=
  let chunk_tokens := Py.slice tokens i (i + chunk_size self) in
  let chunk_text := decode (encoder self) chunk_tokens in
  chunks ++ [mkChunk chunk_text metadata (Py.len chunks)].

(** [TextChunker.chunk_text(text, metadata)], with [CONFIG['max_tokens']]
    passed in. *)
Definition chunk_text (max_tokens : Z) (self : TextChunker) (text : string)
    (metadata : gmap string string) : outcome (list Chunk) :=
  let tokens := encode (encoder self) text in
  let tokens :=
    if Py.len tokens >? max_tokens then Py.slice tokens 0 max_tokens
    else tokens in
  match Py.range0 (Py.len tokens) (chunk_size self - overlap self) with
  | Returns starts =>
      Returns (fold_left (chunk_step self tokens metadata) starts [])
  | Raises e => Raises e
  | OutOfFuel => OutOfFuel
  end.

End TokenChunker.

(** ** FAISS search: [FAISSVectorStore.search] (ingest-worker.py) and
    [FAISSIndexManager.search] (ingest_worker.py)

    Distances and scores are rationals: the arithmetic of the code is exact
    here, the rounding of floating point numbers is not modelled. *)

Module Faiss.

Local Open Scope Q_scope.

(** Row 0 of the two arrays [index.search(query, k)] returns. *)
Record search_output : Type := mkOutput {
  distances : list Q;
  labels : list Z
}.

(** The largest finite [float32], the distance FAISS reports in a slot for
    which it has no neighbour. *)
Definition FLT_MAX : Q := 340282346638528859811704183484516925440 # 1.

(** *** A reference model of [faiss.IndexFlatL2]

    The library is a collaborator of the repository. Its flat L2 index is
    modelled after its documentation: [search] returns, for [k] slots, the
    squared Euclidean distances of the [k] nearest stored vectors in
    ascending order with their positions as labels, and fills the slots for
    which there is no vector with label [-1] and distance [FLT_MAX]. *)

Fixpoint l2_sqr (x y : list Q) : Q :=
  match x, y with
  | a :: x', b :: y' => (a - b) * (a - b) + l2_sqr x' y'
  | _, _ => 0
  end.

Fixpoint insert_by_distance (e : Q * Z) (l : list (Q * Z)) : list (Q * Z) :=
  match l with
  | [] => [e]
  | e' :: l' =>
      if Qle_bool (fst e) (fst e') then e :: l
      else e' :: insert_by_distance e l'
  end.

Definition sort_by_distance (l : list (Q * Z)) : list (Q * Z) :=
  fold_right insert_by_distance [] l.

Fixpoint enumerate_from {A} (i : Z) (l : list A) : list (Z * A) :=
  match l with
  | [] => []
  | x :: l' => (i, x) :: enumerate_from (i + 1)%Z l'
  end.

Definition IndexFlatL2_search (xb : list (list Q)) (query : list Q)
    (k : nat) : search_output :=
  let scored :=
    map (fun e => (l2_sqr query (snd e), fst e)) (enumerate_from 0%Z xb) in
  let nearest := firstn k (sort_by_distance scored) in
  let padding := repeat (FLT_MAX, (-1)%Z) (k - length nearest) in
  let slots := nearest ++ padding in
  mkOutput (map fst slots) (map snd slots).

(** *** The searches of the repository *)

(** A result: the copy of the stored chunk, with the score added to it. *)
Record Result (C : Type) : Type := mkResult {
  chunk : C;
  score : Q
}.
Arguments mkResult {C} chunk score.
Arguments chunk {C} r.
Arguments score {C} r.

(** [1 / (1 + dist)] *)
Definition similarity (dist : Q) : Q := 1 / (1 + dist).

(** [FAISSVectorStore.search]: the loop over
    [zip(distances[0], indices[0])]. *)
Fixpoint search_loop {C} (chunks : list C) (pairs : list (Q * Z))
    (results : list (Result C)) : outcome (list (Result C)) :=
  match pairs with
  | [] => Returns results
  | (dist, idx) :: pairs' =>
      if (idx <? Py.len chunks)%Z then
        match Py.index chunks idx with
        | Returns c =>
            search_loop chunks pairs'
              (results ++ [mkResult c (similarity dist)])
        | Raises e => Raises e
        | OutOfFuel => OutOfFuel
        end
      else search_loop chunks pairs' results
  end.

Definition FAISSVectorStore_search {C} (chunks : list C)
    (out : search_output) : outcome (list (Result C)) :=
  search_loop chunks (zip (distances out) (labels out)) [].

(** [FAISSIndexManager.search]: the loop over [enumerate(indices[0])], which
    reads [distances[0][i]]. *)
Fixpoint manager_loop {C} (metadata : list C) (dists : list Q)
    (ilabels : list (Z * Z)) (results : list (Result C))
    : outcome (list (Result C)) :=
  match ilabels with
  | [] => Returns results
  | (i, idx) :: rest =>
      if (idx <? Py.len metadata)%Z then
        match Py.index metadata idx with
        | Returns c =>
            match Py.index dists i with
            | Returns dist =>
                manager_loop metadata dists rest
                  (results ++ [mkResult c (similarity dist)])
            | Raises e => Raises e
            | OutOfFuel => OutOfFuel
            end
        | Raises e => Raises e
        | OutOfFuel => OutOfFuel
        end
      else manager_loop metadata dists rest results
  end.

Definition FAISSIndexManager_search {C} (metadata : list C)
    (out : search_output) : outcome (list (Result C)) :=
  manager_loop metadata (distances out) (enumerate_from 0%Z (labels out)) [].

(** The slots of a search that pass the guard [idx < len(chunks)]. *)
Definition accepted {C} (chunks : list C) (out : search_output)
    : list (Q * Z) :=
  List.filter (fun p => (snd p <? Py.len chunks)%Z)
    (zip (distances out) (labels out)).

(** A returned result [r] and the slot [(dist, idx)] it was built from:
    [r] is [chunks[idx]] with the score [1 / (1 + dist)]. *)
Definition from_slot {C} (chunks : list C) (p : Q * Z) (r : Result C)
    : Prop :=
  Py.index chunks (snd p) = Returns (chunk r)
  /\ score r = similarity (fst p).

End Faiss.

(** ** vector_store.py: [ChromaVectorStore.search] *)

Module Chroma.

(** Row 0 of the lists [collection.query] returns for the one query that is
    passed. *)
Record QueryResult : Type := mkQueryResult {
  ids : list string;
  documents : list string;
  metadatas : list (gmap string string);
  distances : list Q
}.

Record Hit : Type := mkHit {
  id : string;
  score : Q;
  document : string;
  metadata : gmap string string
}.

Fixpoint hits_loop (results : QueryResult) (docs : list (Z * string))
    (hits : list Hit) : outcome (list Hit) :=
  match docs with
  | [] => Returns hits
  | (idx, doc) :: docs' =>
      match Py.index (ids results) idx with
      | Returns i =>
          match Py.index (distances results) idx with
          | Returns d =>
              match Py.index (metadatas results) idx with
              | Returns m =>
                  hits_loop results docs' (hits ++ [mkHit i d doc m])
              | Raises e => Raises e
              | OutOfFuel => OutOfFuel
              end
          | Raises e => Raises e
          | OutOfFuel => OutOfFuel
          end
      | Raises e => Raises e
      | OutOfFuel => OutOfFuel
      end
  end.

(** [ChromaVectorStore.search], from the result of the query on: the hits of
    the returned dictionary. *)
Definition search (results : QueryResult) : outcome (list Hit) :=
  hits_loop results (Faiss.enumerate_from 0 (documents results)) [].

(** The hit that round [j] of the loop builds from row [j] of the lists. *)
Definition hit_of_row (r : QueryResult) (j : nat) (h : Hit) : Prop :=
  ids r !! j = Some (id h)
  /\ distances r !! j = Some (score h)
  /\ documents r !! j = Some (document h)
  /\ metadatas r !! j = Some (metadata h).

End Chroma.

(** ** The score contract of the spec

    [scores] are the scores of a returned list, [dists] the distances the
    index reported for the same entries. *)
Definition scores_normalised (scores dists : list Q) : Prop :=
  scores = map Faiss.similarity dists
  /\ Forall (fun s => (0 < s)%Q /\ (s <= 1)%Q) scores
  /\ Sorted (fun s1 s2 => (s2 <= s1)%Q) scores.

(** ** ingest-worker.py: persisted indexes and [purge_expired_trials]

    The directory [CONFIG['faiss_dir']] holds, per trial token, an index file
    [<token>.index] and a metadata sidecar [<token>.json]. Both are keyed
    here by the stem of the file name. Times are integers (seconds). *)

Module Purge.

(** The fields of the sidecar that the purge reads. *)
Record Metadata : Type := mkMetadata {
  trial_token : string;
  created_at : Z;
  expires_at : Z
}.

(** A [*.json] file: [Some md] when it parses and has the fields, [None]
    when reading it raises (the purge logs the error and goes on). *)
Abbreviation JsonFile := (option Metadata).

Record Dir : Type := mkDir {
  metas : gmap string JsonFile;
  indexes : gset string
}.

(** [timedelta(days=3)] *)
Definition retention : Z := 3 * 24 * 3600.

(** [FAISSVectorStore.save] at time [now], for the store of [token]. *)
Definition save (token : string) (now : Z) (d : Dir) : Dir :=
  mkDir (<[token := Some (mkMetadata token now (now + retention))]> (metas d))
        ({[token]} ∪ indexes d).

(** One round of the loop over [glob("*.json")]: [stem] is the name of the
    metadata file, [file] what reading it gives. *)
Definition purge_step (now : Z) (st : Dir * Z) (entry : string * JsonFile)
    : Dir * Z :=
  let '(d, purged) := st in
  let '(stem, file) := entry in
  match file with
  | None => st
  | Some metadata =>
      if now >? expires_at metadata then
        let token := trial_token metadata in
        (mkDir (delete stem (metas d)) (indexes d ∖ {[token]}), purged + 1)
      else st
  end.

(** The loop on a listing of the metadata files. *)
Definition purge_loop (now : Z) (listing : list (string * JsonFile))
    (d : Dir) : Dir * Z :=
  foldl (purge_step now) (d, 0) listing.

(** [purge_expired_trials()] run at time [now]: the directory it leaves and
    the count it returns. *)
Definition purge_expired_trials (now : Z) (d : Dir) : Dir * Z :=
  purge_loop now (map_to_list (metas d)) d.

(** Sidecars written by [save]: the token inside is the stem of the file. *)
Definition consistent (d : Dir) : Prop :=
  forall stem md, metas d !! stem = Some (Some md) -> trial_token md = stem.

(** The sidecars that are readable and expired at [now], and the tenants
    they belong to. *)
Definition is_expired (now : Z) (file : JsonFile) : bool :=
  match file with
  | Some md => expires_at md <? now
  | None => false
  end.

Definition expired (now : Z) (d : Dir) : gset string :=
  dom (filter (fun e => is_expired now e.2) (metas d)).

End Purge.

(** ** Crawlers: [WebsiteCrawler.crawl] (ingest_worker.py) and
    [WebCrawler.crawl] (ingest-worker.py)

    The web is a collaborator: what a request answers, what robots.txt
    allows and what the HTML parser extracts are taken as given. *)

Module Crawler.

(** What one [requests.get] gives, with the text and the absolute links that
    the crawler's extraction finds in the HTML. *)
Record Response : Type := mkResponse {
  status_code : Z;
  is_html : bool;
  title : string;
  text : string;
  links : list string
}.

Record Web : Type := mkWeb {
  (** [robot_parser.can_fetch(agent, url)] *)
  can_fetch : string -> bool;
  (** [urlparse(url).netloc == base_domain] *)
  same_domain : string -> bool;
  (** [requests.get(url)]; [None] when it raises *)
  get : string -> option Response
}.

Record Page : Type := mkPage {
  page_url : string;
  page_title : string;
  page_text : string;
  page_depth : Z
}.

(** The loop variables: frontier, pages so far, visited set. *)
Record State : Type := mkState {
  to_visit : list (string * Z);
  crawled_pages : list Page;
  visited : gset string
}.

(** *** ingest_worker.py *)

Record WebsiteCrawler : Type := mkWebsiteCrawler {
  base_url : string;
  max_depth : Z;
  max_pages : Z
}.

(** The links appended to the frontier: those not visited, one level down. *)
Definition enqueue (seen : gset string) (depth : Z) (ls : list string)
    : list (string * Z) :=
  map (fun link => (link, depth + 1))
    (List.filter (fun link => negb (bool_decide (link ∈ seen))) ls).

(** The [while] condition. *)
Definition crawl_continues (self : WebsiteCrawler) (st : State) : bool :=
  negb (Nat.eqb (length (to_visit st)) 0)
  && (Py.len (crawled_pages st) <? max_pages self).

(** One round of the loop body, entered with a non-empty frontier. *)
Definition crawl_step (self : WebsiteCrawler) (web : Web) (st : State)
    : State :=
  match to_visit st with
  | [] => st
  | (url, depth) :: rest =>
      let st := mkState rest (crawled_pages st) (visited st) in
      if bool_decide (url ∈ visited st) || (depth >? max_depth self) then st
      else if negb (can_fetch web url) then st
      else
        let seen := {[url]} ∪ visited st in
        let st := mkState rest (crawled_pages st) seen in
        match get web url with
        | None => st
        | Some response =>
            if negb (status_code response =? 200) then st
            else
              let pages :=
                if Z.of_nat (String.length (text response)) >? 100
                then crawled_pages st
                       ++ [mkPage url (title response) (text response) depth]
                else crawled_pages st in
              let frontier :=
                if depth <? max_depth self
                then rest ++ enqueue seen depth (links response)
                else rest in
              mkState frontier pages seen
        end
  end.

Fixpoint crawl_loop (fuel : nat) (self : WebsiteCrawler) (web : Web)
    (st : State) : outcome State :=
  match fuel with
  | O => OutOfFuel
  | S f =>
      if crawl_continues self st
      then crawl_loop f self web (crawl_step self web st)
      else Returns st
  end.

(** The links a page can put on the frontier. *)
Definition links_of (web : Web) (url : string) : list string :=
  match get web url with
  | Some response => links response
  | None => []
  end.

(** A bound on the rounds spent on a frontier entry and on all that it can
    enqueue, [n] levels deep. *)
Fixpoint subtree_weight (web : Web) (n : nat) (url : string) : nat :=
  match n with
  | O => 1
  | S n' => S (list_sum (map (subtree_weight web n') (links_of web url)))
  end.

Definition entry_weight (web : Web) (max_depth : Z) (e : string * Z) : nat :=
  subtree_weight web (Z.to_nat (max_depth - snd e)) (fst e).

Definition frontier_weight (web : Web) (max_depth : Z)
    (frontier : list (string * Z)) : nat :=
  list_sum (map (entry_weight web max_depth) frontier).

Definition initial (url : string) : State := mkState [(url, 0)] [] ∅.

(** The states in which the [while] condition is evaluated, in order. *)
Fixpoint crawl_trace (fuel : nat) (self : WebsiteCrawler) (web : Web)
    (st : State) : list State :=
  match fuel with
  | O => []
  | S f =>
      st :: (if crawl_continues self st
             then crawl_trace f self web (crawl_step self web st)
             else [])
  end.

(** The state in which the loop of [crawl] is left. *)
Definition crawl_final (self : WebsiteCrawler) (web : Web) : outcome State :=
  crawl_loop (S (frontier_weight web (max_depth self) [(base_url self, 0)]))
    self web (initial (base_url self)).

(** [WebsiteCrawler.crawl()] *)
Definition crawl (self : WebsiteCrawler) (web : Web) : outcome (list Page) :=
  match crawl_final self web with
  | Returns st => Returns (crawled_pages st)
  | Raises e => Raises e
  | OutOfFuel => OutOfFuel
  end.

(** *** ingest-worker.py *)

Record WebCrawler : Type := mkWebCrawler {
  start_url : string;
  wc_max_depth : Z
}.

(** The pages of this crawler have no title; the field is left empty. *)

(** [text.strip()] is not empty. *)
Definition has_text (s : string) : bool :=
  existsb (fun c => negb (WorkerChunker.is_space c)) (list_ascii_of_string s).

Definition wc_continues (st : State) : bool :=
  negb (Nat.eqb (length (to_visit st)) 0).

(** [response.raise_for_status()] raises for the codes 400 to 599, and
    does nothing for any other code. *)
Definition raises_for_status (response : Response) : bool :=
  (400 <=? status_code response) && (status_code response <? 600).

Definition wc_step (self : WebCrawler) (web : Web) (st : State) : State :=
  match to_visit st with
  | [] => st
  | (url, depth) :: rest =>
      let st := mkState rest (crawled_pages st) (visited st) in
      if depth >? wc_max_depth self then st
      else if bool_decide (url ∈ visited st) then st
      else if negb (same_domain web url) then st
      else if negb (can_fetch web url) then st
      else
        match get web url with
        | None => st
        | Some response =>
            if raises_for_status response then st
            else if negb (is_html response) then st
            else
              let pages :=
                if has_text (text response)
                then crawled_pages st
                       ++ [mkPage url "" (text response) depth]
                else crawled_pages st in
              let seen := {[url]} ∪ visited st in
              let frontier :=
                if depth <? wc_max_depth self
                then rest ++ enqueue seen depth (links response)
                else rest in
              mkState frontier pages seen
        end
  end.

Fixpoint wc_loop (fuel : nat) (self : WebCrawler) (web : Web) (st : State)
    : outcome State :=
  match fuel with
  | O => OutOfFuel
  | S f =>
      if wc_continues st then wc_loop f self web (wc_step self web st)
      else Returns st
  end.

Definition wc_crawl_final (self : WebCrawler) (web : Web) : outcome State :=
  wc_loop (S (frontier_weight web (wc_max_depth self) [(start_url self, 0)]))
    self web (initial (start_url self)).

(** [WebCrawler.crawl()] *)
Definition wc_crawl (self : WebCrawler) (web : Web) : outcome (list Page) :=
  match wc_crawl_final self web with
  | Returns st => Returns (crawled_pages st)
  | Raises e => Raises e
  | OutOfFuel => OutOfFuel
  end.

(** The crawl input of a job: [{type: "url", url, crawl_depth, max_pages}]. *)
Record DataSource : Type := mkDataSource {
  ds_url : string;
  ds_crawl_depth : Z;
  ds_max_pages : Z
}.

(** [IngestionPipeline._crawl_website] of ingest-worker.py: it reads [url]
    and [crawl_depth] from the data source, nothing else. *)
Definition wc_crawl_website (data_source : DataSource) (web : Web)
    : outcome (list Page) :=
  wc_crawl (mkWebCrawler (ds_url data_source) (ds_crawl_depth data_source))
    web.

(** [IngestionPipeline._crawl_website] of ingest_worker.py. *)
Definition crawl_website (config : DataSource) (web : Web)
    : outcome (list Page) :=
  crawl (mkWebsiteCrawler (ds_url config) (ds_crawl_depth config)
           (ds_max_pages config)) web.

(** *** What both crawls keep

    [linked web base d url]: [url] is [d] links away from [base], along
    pages that the site answered. *)
Inductive linked (web : Web) (base : string) : Z -> string -> Prop :=
| linked_base : linked web base 0 base
| linked_step (d : Z) (u v : string) (r : Response) :
    linked web base d u -> get web u = Some r -> In v (links r) ->
    linked web base (d + 1) v.

(** The loop is a breadth-first walk: collected pages are visited and
    distinct, the frontier holds linked entries in the order of their
    depths, one level apart at most, and behind every collected page. *)
Definition bfs_inv (web : Web) (base : string) (st : State) : Prop :=
  (forall p, In p (crawled_pages st) -> page_url p ∈ visited st)
  /\ NoDup (map page_url (crawled_pages st))
  /\ Forall (fun e => linked web base (snd e) (fst e)) (to_visit st)
  /\ StronglySorted Z.le (map page_depth (crawled_pages st))
  /\ StronglySorted Z.le (map snd (to_visit st))
  /\ (forall p e, In p (crawled_pages st) -> In e (to_visit st) ->
        page_depth p <= snd e)
  /\ (forall e e', In e (to_visit st) -> In e' (to_visit st) ->
        snd e' <= snd e + 1).

(** A page as [WebsiteCrawler.crawl] stores it. *)
Definition page_ok (self : WebsiteCrawler) (web : Web) (p : Page) : Prop :=
  0 <= page_depth p <= max_depth self
  /\ can_fetch web (page_url p) = true
  /\ linked web (base_url self) (page_depth p) (page_url p)
  /\ exists r, get web (page_url p) = Some r
       /\ status_code r = 200
       /\ page_title p = title r
       /\ page_text p = text r
       /\ 100 < Z.of_nat (String.length (text r)).

(** A page as [WebCrawler.crawl] stores it. *)
Definition wc_page_ok (self : WebCrawler) (web : Web) (p : Page) : Prop :=
  0 <= page_depth p <= wc_max_depth self
  /\ same_domain web (page_url p) = true
  /\ can_fetch web (page_url p) = true
  /\ linked web (start_url self) (page_depth p) (page_url p)
  /\ exists r, get web (page_url p) = Some r
       /\ raises_for_status r = false
       /\ is_html r = true
       /\ page_text p = text r
       /\ has_text (text r) = true.

End Crawler.

(** ** [hashlib.sha256]

    SHA-256 (FIPS 180-4) on a list of bytes; 32-bit words are [Z] with the
    wrap-around written out. *)

Module Sha256.

Definition w32 (x : Z) : Z := x mod 2 ^ 32.

Definition add32 (x y : Z) : Z := w32 (x + y).

Definition rotr (n x : Z) : Z :=
  Z.lor (Z.shiftr x n) (w32 (Z.shiftl x (32 - n))).

Definition not32 (x : Z) : Z := Z.lxor x (2 ^ 32 - 1).

Definition Ch (x y z : Z) : Z :=
  Z.lxor (Z.land x y) (Z.land (not32 x) z).

Definition Maj (x y z : Z) : Z :=
  Z.lxor (Z.lxor (Z.land x y) (Z.land x z)) (Z.land y z).

Definition Sigma0 (x : Z) : Z :=
  Z.lxor (Z.lxor (rotr 2 x) (rotr 13 x)) (rotr 22 x).

Definition Sigma1 (x : Z) : Z :=
  Z.lxor (Z.lxor (rotr 6 x) (rotr 11 x)) (rotr 25 x).

Definition sigma0 (x : Z) : Z :=
  Z.lxor (Z.lxor (rotr 7 x) (rotr 18 x)) (Z.shiftr x 3).

Definition sigma1 (x : Z) : Z :=
  Z.lxor (Z.lxor (rotr 17 x) (rotr 19 x)) (Z.shiftr x 10).

Definition K : list Z :=
  [
   1116352408; 1899447441; 3049323471; 3921009573; 961987163; 1508970993;
   2453635748; 2870763221; 3624381080; 310598401; 607225278; 1426881987;
   1925078388; 2162078206; 2614888103; 3248222580; 3835390401; 4022224774;
   264347078; 604807628; 770255983; 1249150122; 1555081692; 1996064986;
   2554220882; 2821834349; 2952996808; 3210313671; 3336571891; 3584528711;
   113926993; 338241895; 666307205; 773529912; 1294757372; 1396182291;
   1695183700; 1986661051; 2177026350; 2456956037; 2730485921; 2820302411;
   3259730800; 3345764771; 3516065817; 3600352804; 4094571909; 275423344;
   430227734; 506948616; 659060556; 883997877; 958139571; 1322822218;
   1537002063; 1747873779; 1955562222; 2024104815; 2227730452; 2361852424;
   2428436474; 2756734187; 3204031479; 3329325298
  ].

Definition H0 : list Z :=
  [
   1779033703; 3144134277; 1013904242; 2773480762;
   1359893119; 2600822924; 528734635; 1541459225
  ].

(** The [n] low bytes of [x], most significant first. *)
Fixpoint be_bytes (n : nat) (x : Z) : list Z :=
  match n with
  | O => []
  | S n' => be_bytes n' (Z.shiftr x 8) ++ [x mod 256]
  end.

(** The message, the bit 1, zeros up to 56 modulo 64, then the length in
    bits on 8 bytes. *)
Definition pad (msg : list Z) : list Z :=
  let n := Z.of_nat (length msg) in
  let zeros := Z.to_nat ((55 - n) mod 64) in
  msg ++ [128] ++ repeat 0 zeros ++ be_bytes 8 (8 * n).

Fixpoint words (fuel : nat) (bytes : list Z) : list Z :=
  match fuel, bytes with
  | S f, b0 :: b1 :: b2 :: b3 :: rest =>
      (((b0 * 256 + b1) * 256 + b2) * 256 + b3) :: words f rest
  | _, _ => []
  end.

(** The message schedule, kept newest word first. *)
Fixpoint schedule (n : nat) (rev_w : list Z) : list Z :=
  match n with
  | O => rev_w
  | S n' =>
      let w := add32 (add32 (sigma1 (nth 1 rev_w 0)) (nth 6 rev_w 0))
                 (add32 (sigma0 (nth 14 rev_w 0)) (nth 15 rev_w 0)) in
      schedule n' (w :: rev_w)
  end.

Record Regs : Type := mkRegs { ra : Z; rb : Z; rc : Z; rd : Z;
                               re : Z; rf : Z; rg : Z; rh : Z }.

Definition round (r : Regs) (kw : Z * Z) : Regs :=
  let t1 := add32 (add32 (add32 (rh r) (Sigma1 (re r)))
                     (add32 (Ch (re r) (rf r) (rg r)) (fst kw))) (snd kw) in
  let t2 := add32 (Sigma0 (ra r)) (Maj (ra r) (rb r) (rc r)) in
  mkRegs (add32 t1 t2) (ra r) (rb r) (rc r)
         (add32 (rd r) t1) (re r) (rf r) (rg r).

Definition compress (h : Regs) (block : list Z) : Regs :=
  let w := rev (schedule 48 (rev (words 16 block))) in
  let r := fold_left round (combine K w) h in
  mkRegs (add32 (ra h) (ra r)) (add32 (rb h) (rb r))
         (add32 (rc h) (rc r)) (add32 (rd h) (rd r))
         (add32 (re h) (re r)) (add32 (rf h) (rf r))
         (add32 (rg h) (rg r)) (add32 (rh h) (rh r)).

Fixpoint blocks (fuel : nat) (h : Regs) (bytes : list Z) : Regs :=
  match fuel, bytes with
  | S f, _ :: _ => blocks f (compress h (firstn 64 bytes)) (skipn 64 bytes)
  | _, _ => h
  end.

Definition initial : Regs :=
  mkRegs (nth 0 H0 0) (nth 1 H0 0) (nth 2 H0 0) (nth 3 H0 0)
         (nth 4 H0 0) (nth 5 H0 0) (nth 6 H0 0) (nth 7 H0 0).

Definition digest_words (msg : list Z) : list Z :=
  let padded := pad msg in
  let r := blocks (length padded) initial padded in
  [ra r; rb r; rc r; rd r; re r; rf r; rg r; rh r].

Definition hex_digit (d : Z) : ascii :=
  ascii_of_nat (Z.to_nat (if d <? 10 then 48 + d else 87 + d)).

(** The [n] low hexadecimal digits of [x], most significant first. *)
Fixpoint hex (n : nat) (x : Z) : list ascii :=
  match n with
  | O => []
  | S n' => hex n' (Z.shiftr x 4) ++ [hex_digit (x mod 16)]
  end.

(** [hashlib.sha256(msg).hexdigest()] *)
Definition hexdigest (msg : list Z) : string :=
  string_of_list_ascii (flat_map (hex 8) (digest_words msg)).

End Sha256.

(** ** embeddings.py: [EmbeddingProvider] *)

Module Embeddings.

(** [s.encode("utf-8")]: a [string] holds the UTF-8 bytes of the Python
    string. *)
Definition encode (s : string) : list Z :=
  map (fun c => Z.of_nat (nat_of_ascii c)) (list_ascii_of_string s).

(** [model or ""] *)
Definition or_empty (model : option string) : string :=
  match model with
  | Some m => m
  | None => EmptyString
  end.

(** The bytes fed to the hash by the four [h.update] calls. *)
Definition hash_input (text : string) (model : option string)
    (provider : string) : list Z :=
  encode provider ++ encode (or_empty model) ++ [0] ++ encode text.

(** [EmbeddingProvider._hash_key(text, model, provider)] *)
Definition _hash_key (text : string) (model : option string)
    (provider : string) : string :=
  "emb:" ++ Sha256.hexdigest (hash_input text model provider).

(** A lower-case hexadecimal digit, as [hexdigest] writes them. *)
Definition is_lower_hex (c : ascii) : bool :=
  existsb (Ascii.eqb c) (list_ascii_of_string "0123456789abcdef").

(** *** [get_batch_embeddings] *)

(** An embedding: a list of floats, here rationals. *)
Abbreviation Vec := (list Q).

(** The cache behind [_get_cached] and [_set_cached]: Redis, the LRU cache
    or a plain dictionary. Nothing is assumed of it. *)
Class Cache (C : Type) : Type := {
  get_cached : C -> string -> option Vec;
  set_cached : C -> string -> Vec -> C
}.

(** The embedding backends; [None] when the call raises. *)
Record Backends : Type := mkBackends {
  embed_local_batch : list string -> option string -> Z -> option (list Vec);
  embed_openai_batch : list string -> option string -> option (list Vec);
  (** [openai is not None and os.getenv("OPENAI_API_KEY")] *)
  openai_available : bool
}.

(** The environment variables that are read. *)
Record Env : Type := mkEnv {
  EMBEDDING_PROVIDER : option string;
  EMBEDDING_MODEL : option string;
  EMBEDDING_BATCH_SIZE : option Z
}.

Inductive Backend : Type := Local | OpenAI.

(** What a call works on: the cache, and the log of the calls made to the
    backends, each with the texts it was given. *)
Record World (C : Type) : Type := mkWorld {
  cache : C;
  calls : list (Backend * list string)
}.
Arguments mkWorld {C} cache calls.
Arguments cache {C} w.
Arguments calls {C} w.

(** [s.lower()] on ASCII letters. *)
Definition lower_char (c : ascii) : ascii :=
  let n := nat_of_ascii c in
  if ((65 <=? n) && (n <=? 90))%nat then ascii_of_nat (n + 32) else c.

Definition lower (s : string) : string :=
  string_of_list_ascii (map lower_char (list_ascii_of_string s)).

(** [a or b] on optional strings: [None] and [""] are false. *)
Definition str_or (a : option string) (b : option string) : option string :=
  match a with
  | Some EmptyString | None => b
  | Some _ => a
  end.

(** [prov = (provider or os.getenv("EMBEDDING_PROVIDER", "local")).lower()] *)
Definition effective_provider (env : Env) (provider : option string)
    : string :=
  match provider with
  | Some EmptyString | None =>
      lower (match EMBEDDING_PROVIDER env with
             | Some p => p
             | None => "local"
             end)
  | Some p => lower p
  end.

(** [model = model or os.getenv("EMBEDDING_MODEL", None)] *)
Definition effective_model (env : Env) (model : option string)
    : option string :=
  str_or model (EMBEDDING_MODEL env).

(** [int(batch_size or int(os.getenv("EMBEDDING_BATCH_SIZE", "64")))] *)
Definition effective_batch_size (env : Env) (batch_size : option Z) : Z :=
  match batch_size with
  | Some 0 | None =>
      match EMBEDDING_BATCH_SIZE env with
      | Some n => n
      | None => 64
      end
  | Some n => n
  end.

(** One round of the deduplication loop over [texts]. *)
Definition dedup_step (acc : gmap string Z * list string * list Z)
    (t : string) : gmap string Z * list string * list Z :=
  let '(uniq_map, uniq_texts, indices) := acc in
  match uniq_map !! t with
  | None =>
      let uniq_map := <[t := Py.len uniq_texts]> uniq_map in
      (uniq_map, uniq_texts ++ [t], indices ++ [Py.len uniq_texts])
  | Some k => (uniq_map, uniq_texts, indices ++ [k])
  end.

Definition dedup (texts : list string)
    : gmap string Z * list string * list Z :=
  fold_left dedup_step texts (∅, [], []).

(** The loop that collects the texts without a cached vector, with their
    positions among the unique texts; [i] is the position of the head. *)
Fixpoint find_missing (i : Z) (uniq_texts : list string)
    (results_by_uniq : list (option Vec)) : list string * list Z :=
  match uniq_texts, results_by_uniq with
  | t :: ts, v :: vs =>
      let '(missing, missing_idxs) := find_missing (i + 1) ts vs in
      match v with
      | None => (t :: missing, i :: missing_idxs)
      | Some _ => (missing, missing_idxs)
      end
  | _, _ => ([], [])
  end.

Section GetBatchEmbeddings.

Context {C : Type} `{Cache C}.
Variable backends : Backends.
Variable env : Env.

(** The backend call of one batch, with the fallback from the local model
    to OpenAI; the log gets every call that is made. *)
Definition embed_chunk (prov : string) (model : option string)
    (batch_size : Z) (chunk : list string)
    (log : list (Backend * list string))
    : option (list Vec) * list (Backend * list string) :=
  if String.eqb prov "local" then
    match embed_local_batch backends chunk model batch_size with
    | Some embs => (Some embs, log ++ [(Local, chunk)])
    | None =>
        if openai_available backends
        then (embed_openai_batch backends chunk model,
              log ++ [(Local, chunk); (OpenAI, chunk)])
        else (None, log ++ [(Local, chunk)])
    end
  else (embed_openai_batch backends chunk model, log ++ [(OpenAI, chunk)]).

(** [for j, emb in enumerate(embs)]: assign and cache. *)
Fixpoint assign (prov : string) (model : option string)
    (missing : list string) (missing_idxs : list Z) (i j : Z)
    (embs : list Vec) (results_by_uniq : list (option Vec)) (c : C)
    : outcome (list (option Vec)) * C :=
  match embs with
  | [] => (Returns results_by_uniq, c)
  | emb :: embs' =>
      match Py.index missing_idxs (i + j) with
      | Returns uniq_idx =>
          match Py.setitem results_by_uniq uniq_idx (Some emb) with
          | Returns results_by_uniq =>
              match Py.index missing (i + j) with
              | Returns t =>
                  let key := _hash_key t model prov in
                  assign prov model missing missing_idxs i (j + 1) embs'
                    results_by_uniq (set_cached c key emb)
              | Raises e => (Raises e, c)
              | OutOfFuel => (OutOfFuel, c)
              end
          | Raises e => (Raises e, c)
          | OutOfFuel => (OutOfFuel, c)
          end
      | Raises e => (Raises e, c)
      | OutOfFuel => (OutOfFuel, c)
      end
  end.

(** [for i in range(0, len(missing), batch_size)] *)
Fixpoint embed_batches (prov : string) (model : option string)
    (batch_size : Z) (missing : list string) (missing_idxs : list Z)
    (starts : list Z) (results_by_uniq : list (option Vec)) (w : World C)
    : outcome (list (option Vec)) * World C :=
  match starts with
  | [] => (Returns results_by_uniq, w)
  | i :: starts' =>
      let chunk := Py.slice missing i (i + batch_size) in
      match embed_chunk prov model batch_size chunk (calls w) with
      | (None, log) => (Raises BackendError, mkWorld (cache w) log)
      | (Some embs, log) =>
          match assign prov model missing missing_idxs i 0 embs
                  results_by_uniq (cache w) with
          | (Returns results_by_uniq, c) =>
              embed_batches prov model batch_size missing missing_idxs
                starts' results_by_uniq (mkWorld c log)
          | (Raises e, c) => (Raises e, mkWorld c log)
          | (OutOfFuel, c) => (OutOfFuel, mkWorld c log)
          end
      end
  end.

(** [[results_by_uniq[idx] for idx in indices]] *)
Fixpoint map_back (results_by_uniq : list (option Vec)) (indices : list Z)
    : outcome (list (option Vec)) :=
  match indices with
  | [] => Returns []
  | idx :: indices' =>
      match Py.index results_by_uniq idx with
      | Returns v =>
          match map_back results_by_uniq indices' with
          | Returns rest => Returns (v :: rest)
          | other => other
          end
      | Raises e => Raises e
      | OutOfFuel => OutOfFuel
      end
  end.

(** [EmbeddingProvider.get_batch_embeddings(texts, provider, model,
    batch_size)]. An entry [None] of the returned list is Python's [None]. *)
Definition get_batch_embeddings (texts : list string)
    (provider model : option string) (batch_size : option Z) (w : World C)
    : outcome (list (option Vec)) * World C :=
  match texts with
  | [] => (Returns [], w)
  | _ =>
      let prov := effective_provider env provider in
      let model := effective_model env model in
      let batch_size := effective_batch_size env batch_size in
      let '(_, uniq_texts, indices) := dedup texts in
      let results_by_uniq :=
        map (fun t => get_cached (cache w) (_hash_key t model prov))
          uniq_texts in
      let '(missing, missing_idxs) :=
        find_missing 0 uniq_texts results_by_uniq in
      let embedded :=
        match missing with
        | [] => (Returns results_by_uniq, w)
        | _ =>
            match Py.range0 (Py.len missing) batch_size with
            | Returns starts =>
                embed_batches prov model batch_size missing missing_idxs
                  starts results_by_uniq w
            | Raises e => (Raises e, w)
            | OutOfFuel => (OutOfFuel, w)
            end
        end in
      match embedded with
      | (Returns results_by_uniq, w) => (map_back results_by_uniq indices, w)
      | (other, w) => (other, w)
      end
  end.

(** [EmbeddingProvider.get_embedding(text, provider, model)]: the batch call
    on [[text]], without a batch size, and [res[0]] of its answer. *)
Definition get_embedding (text : string) (provider model : option string)
    (w : World C) : outcome (option Vec) * World C :=
  match get_batch_embeddings [text] provider model None w with
  | (Returns res, w) => (Py.index res 0, w)
  | (Raises e, w) => (Raises e, w)
  | (OutOfFuel, w) => (OutOfFuel, w)
  end.

End GetBatchEmbeddings.

(** What the deduplication loop keeps true, after the texts [seen]: the
    unique texts are distinct and are the texts seen; the dictionary maps a
    text to its position among them; and [indices] gives, for every text
    seen, the position of that text. *)
Definition dedup_inv (acc : gmap string Z * list string * list Z)
    (seen : list string) : Prop :=
  let '(uniq_map, uniq_texts, indices) := acc in
  NoDup uniq_texts
  /\ (forall t k, uniq_map !! t = Some k
                  <-> exists n : nat, k = Z.of_nat n
                                      /\ uniq_texts !! n = Some t)
  /\ (forall t, t ∈ uniq_texts <-> t ∈ seen)
  /\ length indices = length seen
  /\ (forall (n : nat) t, seen !! n = Some t ->
        exists k : nat, indices !! n = Some (Z.of_nat k)
                        /\ uniq_texts !! k = Some t).

(** The backend a provider name selects, and its answer to a batch. *)
Definition primary_backend (prov : string) : Backend :=
  if String.eqb prov "local" then Local else OpenAI.

Definition primary_embed (backends : Backends) (prov : string)
    (model : option string) (batch_size : Z) (chunk : list string)
    : option (list Vec) :=
  if String.eqb prov "local"
  then embed_local_batch backends chunk model batch_size
  else embed_openai_batch backends chunk model.

(** [v] is the vector a logged backend call returned for the text [t]. *)
Definition embedded_by (backends : Backends) (prov : string)
    (model : option string) (batch_size : Z)
    (log : list (Backend * list string)) (t : string) (v : Vec) : Prop :=
  exists chunk embs (j : nat),
    In (primary_backend prov, chunk) log
    /\ primary_embed backends prov model batch_size chunk = Some embs
    /\ chunk !! j = Some t /\ embs !! j = Some v.

(** A dictionary as cache: the fallback of [_get_lru] when [cachetools] is
    missing. *)
#[global] Instance dict_cache : Cache (gmap string Vec) := {
  get_cached c key := c !! key;
  set_cached c key emb := <[key := emb]> c
}.

End Embeddings.

(** ** reembed_runner.py: the backfill loop and its checkpoint

    Row ids are integers, ordered as the store orders them. The run is a
    machine that takes one step per action of the loop; a
    [KeyboardInterrupt] (or an exception of a request) arrives after a
    number of steps and sends the run to the handler that saves the
    checkpoint. The validation RPC and the sleep between batches change
    nothing and are left out. *)

Module Reembed.

Record Row : Type := mkRow {
  id : Z;
  tenant_id : string;
  content : string;
  embedding_768 : option (list Q)
}.

Record Args : Type := mkArgs {
  tenant : option string;
  batch_size : Z;
  max_rows : Z;
  resume : bool;
  dry_run : bool
}.

(** The checkpoint dictionary, in memory and in the file. *)
Abbreviation Checkpoint := (gmap string Z).

(** What a run does to its surroundings. *)
Inductive event : Type :=
| Fetched (last_id : option Z) (ids : list Z)
| Embedded (ids : list Z)
| Upserted (ids : list Z)
| WroteTmp (data : Checkpoint)
| Replaced (data : Checkpoint)
| Interrupted.

(** The store and the two files: the checkpoint file and [path + '.tmp'].
    A file that is absent or unreadable is [None]. *)
Record World : Type := mkWorld {
  store : list Row;
  path_file : option Checkpoint;
  tmp_file : option Checkpoint
}.

(** Where the run stands in the loop body. *)
Inductive pc : Type :=
| AtFetch
| AtEmbed (batch : list Row)
| AtUpsert (batch : list Row) (embeddings : list (list Q))
| AtAdvance (batch : list Row)
| AtWriteTmp (batch : list Row)
| AtReplace (batch : list Row)
| AtCount (batch : list Row)
| Finished.

(** The variables of [main], the world, and the events so far, newest
    first. *)
Record Run : Type := mkRun {
  world : World;
  checkpoint : Checkpoint;
  last_id : option Z;
  processed : Z;
  at_pc : pc;
  trace : list event
}.

(** [if args.tenant] *)
Definition truthy_str (s : option string) : bool :=
  match s with
  | Some EmptyString | None => false
  | Some _ => true
  end.

(** [if last_id], [if args.max_rows] *)
Definition truthy_int (i : Z) : bool := negb (i =? 0).

(** The key under which the cursor of a run is kept. *)
Definition cursor_key (args : Args) : string :=
  match tenant args with
  | Some EmptyString | None => "__global_last_id"
  | Some t => t
  end.

(** [load_checkpoint(path)] *)
Definition load_checkpoint (w : World) : Checkpoint :=
  match path_file w with
  | Some data => data
  | None => ∅
  end.

Fixpoint insert_by_id (r : Row) (l : list Row) : list Row :=
  match l with
  | [] => [r]
  | r' :: l' => if id r <=? id r' then r :: l else r' :: insert_by_id r l'
  end.

(** [order=id.asc] *)
Definition sort_by_id (l : list Row) : list Row :=
  fold_right insert_by_id [] l.

(** The rows the query of [fetch_batch] selects. *)
Definition selected (tenant : option string) (last_id : option Z) (r : Row)
    : bool :=
  match embedding_768 r with
  | None =>
      (if truthy_str tenant
       then String.eqb (tenant_id r) (default EmptyString tenant)
       else true)
      && match last_id with
         | Some l => if truthy_int l then l <? id r else true
         | None => true
         end
  | Some _ => false
  end.

(** [fetch_batch(session, tenant, last_id, batch_size)] *)
Definition fetch_batch (rows : list Row) (tenant : option string)
    (last_id : option Z) (batch_size : Z) : list Row :=
  take (Z.to_nat batch_size)
    (sort_by_id (List.filter (selected tenant last_id) rows)).

(** [upsert_embeddings] with [on_conflict=id]: the rows with these ids get
    the embeddings. *)
Fixpoint lookup_id (i : Z) (ids : list Z) (embs : list (list Q))
    : option (list Q) :=
  match ids, embs with
  | i' :: ids', e :: embs' => if i =? i' then Some e else lookup_id i ids' embs'
  | _, _ => None
  end.

Definition upsert_embeddings (rows : list Row) (ids : list Z)
    (embs : list (list Q)) : list Row :=
  map (fun r => match lookup_id (id r) ids embs with
                | Some e => mkRow (id r) (tenant_id r) (content r) (Some e)
                | None => r
                end) rows.

Definition ids_of (batch : list Row) : list Z := map id batch.

(** [ids[-1]] of a batch that is not empty. *)
Definition last_of (batch : list Row) : option Z := last (ids_of batch).

(** [if args.max_rows and processed >= args.max_rows: break] *)
Definition after_count (args : Args) (processed : Z) : pc :=
  if truthy_int (max_rows args) && (max_rows args <=? processed)
  then Finished else AtFetch.

Section Runner.

(** [embedder.embed_batch] on one text. *)
Variable embed : string -> list Q.
Variable args : Args.

(** The state in which [main] enters its loop. *)
Definition start (w : World) : Run :=
  let checkpoint := if resume args then load_checkpoint w else ∅ in
  mkRun w checkpoint (checkpoint !! cursor_key args) 0 AtFetch [].

(** One action of the loop. *)
Definition step (st : Run) : Run :=
  let w := world st in
  match at_pc st with
  | AtFetch =>
      let batch :=
        fetch_batch (store w) (tenant args) (last_id st) (batch_size args) in
      let tr := Fetched (last_id st) (ids_of batch) :: trace st in
      match batch with
      | [] => mkRun w (checkpoint st) (last_id st) (processed st) Finished tr
      | _ =>
          if dry_run args then
            let processed := processed st + Py.len batch in
            mkRun w (checkpoint st) (last_of batch) processed
              (after_count args processed) tr
          else
            mkRun w (checkpoint st) (last_id st) (processed st)
              (AtEmbed batch) tr
      end
  | AtEmbed batch =>
      let embeddings :=
        map (fun r => embed (content r)) batch in
      mkRun w (checkpoint st) (last_id st) (processed st)
        (AtUpsert batch embeddings) (Embedded (ids_of batch) :: trace st)
  | AtUpsert batch embeddings =>
      let rows := upsert_embeddings (store w) (ids_of batch) embeddings in
      mkRun (mkWorld rows (path_file w) (tmp_file w)) (checkpoint st)
        (last_id st) (processed st) (AtAdvance batch)
        (Upserted (ids_of batch) :: trace st)
  | AtAdvance batch =>
      let checkpoint :=
        match last_of batch with
        | Some l => <[cursor_key args := l]> (checkpoint st)
        | None => checkpoint st
        end in
      mkRun w checkpoint (last_of batch) (processed st) (AtWriteTmp batch)
        (trace st)
  | AtWriteTmp batch =>
      mkRun (mkWorld (store w) (path_file w) (Some (checkpoint st)))
        (checkpoint st) (last_id st) (processed st) (AtReplace batch)
        (WroteTmp (checkpoint st) :: trace st)
  | AtReplace batch =>
      match tmp_file w with
      | Some data =>
          mkRun (mkWorld (store w) (Some data) None) (checkpoint st)
            (last_id st) (processed st) (AtCount batch)
            (Replaced data :: trace st)
      | None => st
      end
  | AtCount batch =>
      let processed := processed st + Py.len batch in
      mkRun w (checkpoint st) (last_id st) processed
        (after_count args processed) (trace st)
  | Finished => st
  end.

(** [save_checkpoint(path, data)] in the handlers of [main]. *)
Definition handler (st : Run) : Run :=
  let w := world st in
  mkRun (mkWorld (store w) (Some (checkpoint st)) None) (checkpoint st)
    (last_id st) (processed st) Finished
    (Replaced (checkpoint st) :: WroteTmp (checkpoint st) :: Interrupted
       :: trace st).

Fixpoint steps (n : nat) (st : Run) : Run :=
  match n with
  | O => st
  | S n' => steps n' (step st)
  end.

(** A run of [main] that is interrupted after [budget] actions, unless its
    loop has ended before. *)
Definition main (budget : nat) (w : World) : Run :=
  let st := steps budget (start w) in
  match at_pc st with
  | Finished => st
  | _ => handler st
  end.

End Runner.

(** Every replacement of the checkpoint file follows the writing of the
    same data to the temporary file. *)
Fixpoint atomic_writes (tr : list event) : Prop :=
  match tr with
  | [] => True
  | Replaced data :: rest =>
      match rest with
      | WroteTmp data' :: _ => data = data'
      | _ => False
      end /\ atomic_writes rest
  | _ :: rest => atomic_writes rest
  end.

(** Every cursor put in the checkpoint file is the cursor the run started
    with, or the last id of a batch upserted before. *)
Fixpoint advanced_after_upsert (key : string) (initial : option Z)
    (tr : list event) : Prop :=
  match tr with
  | [] => True
  | Replaced data :: rest =>
      (data !! key = initial
       \/ exists ids, In (Upserted ids) rest /\ data !! key = last ids)
      /\ advanced_after_upsert key initial rest
  | _ :: rest => advanced_after_upsert key initial rest
  end.

(** The ids a run has fetched or embedded. *)
Fixpoint touched (tr : list event) : list Z :=
  match tr with
  | [] => []
  | Fetched _ ids :: rest => ids ++ touched rest
  | Embedded ids :: rest => ids ++ touched rest
  | _ :: rest => touched rest
  end.

(** The batch a run is working on. *)
Definition pc_batch (p : pc) : option (list Row) :=
  match p with
  | AtEmbed b | AtUpsert b _ | AtAdvance b | AtWriteTmp b | AtReplace b
  | AtCount b => Some b
  | AtFetch | Finished => None
  end.

(** What every state of a run satisfies, whatever its arguments. *)
Definition run_inv (key : string) (initial : option Z) (st : Run) : Prop :=
  atomic_writes (trace st)
  /\ advanced_after_upsert key initial (trace st)
  /\ (checkpoint st !! key = initial
      \/ exists ids, In (Upserted ids) (trace st)
                     /\ checkpoint st !! key = last ids)
  /\ match at_pc st with
     | AtAdvance batch => In (Upserted (ids_of batch)) (trace st)
     | AtReplace _ =>
         tmp_file (world st) = Some (checkpoint st)
         /\ exists rest, trace st = WroteTmp (checkpoint st) :: rest
     | _ => True
     end.

(** The row [r] with the embedding of its content. *)
Definition embedded_row (embed : string -> list Q) (r : Row) : Row :=
  mkRow (id r) (tenant_id r) (content r) (Some (embed (content r))).

(** The store after a complete backfill of [tenant]: every row that a fetch
    without cursor selects has its embedding, every other row is as it
    was. *)
Definition backfilled (embed : string -> list Q) (tenant : option string)
    (rows : list Row) : list Row :=
  map (fun r => if selected tenant None r then embedded_row embed r else r)
    rows.

(** The rows still to do. *)
Definition pending (tenant : option string) (rows : list Row) : list Row :=
  List.filter (selected tenant None) rows.

(** What every state of a run resumed from the cursor [c] satisfies. *)
Definition resume_inv (c : Z) (st : Run) : Prop :=
  (exists l, last_id st = Some l /\ c <= l)
  /\ Forall (fun i => c < i) (touched (trace st))
  /\ match pc_batch (at_pc st) with
     | Some b => b <> [] /\ Forall (fun r => c < id r) b
     | None => True
     end.

End Reembed.

(** ** chunking.py: [chunk_document_payloads] *)

(** ** reembed_runner.py: [request_with_retries]

    The session is what the loop talks to: [session n] is what the request
    number [n] of a call gives (the first one has number 0). *)

Module Retries.

Local Open Scope Q_scope.

Inductive reply : Type :=
| NetworkError               (** [requests.RequestException] is raised *)
| Status (code : Z).         (** a response with this status code *)

(** How a call ends; [Running] when the fuel of the model is used up and
    the loop is still going, [SleepTooLong] when the loop comes to a sleep
    that the model does not follow. *)
Inductive result : Type :=
| Response (code : Z)
| RaisedRequestException
| RaisedHTTPError (code : Z)
| Raised (e : exn)
| SleepTooLong
| Running.

(** The result, the number of requests made, and the sleeps in order. *)
Record Call : Type := mkCall {
  outcome_of : result;
  requests_made : nat;
  sleeps : list Q
}.

(** [resp.raise_for_status()] raises for the codes 400 to 599, and does
    nothing for any other code. *)
Definition raises_for_status (code : Z) : bool :=
  ((400 <=? code) && (code <? 600))%Z.

(** [resp.status_code in (200, 201, 204)] *)
Definition accepted (code : Z) : bool :=
  ((code =? 200) || (code =? 201) || (code =? 204))%Z.

(** [resp.status_code >= 500 or resp.status_code == 429] *)
Definition retried (code : Z) : bool :=
  ((500 <=? code) || (code =? 429))%Z.

(** [backoff * (2 ** (attempt - 1))] *)
Definition sleep_of (backoff : Q) (attempt : Z) : Q :=
  backoff * inject_Z (2 ^ (attempt - 1)).

(** The longest sleep the model follows: [2 ** 32] seconds. [time.sleep]
    counts the length in nanoseconds in 64 bits and hands a deadline to the
    clock of the platform; whether a length of centuries is slept or
    refused depends on the platform and is left open here. *)
Definition max_sleep : Q := inject_Z (2 ^ 32).

Inductive pause : Type :=
| Slept (seconds : Q)
| Stopped (r : result).

(** [sleep = backoff * (2 ** (attempt - 1))] followed by
    [time.sleep(sleep)], for a float [backoff]: the power is converted to
    a float, which raises from [2 ** 1024] on, whatever [backoff] is; a
    negative length makes [time.sleep] raise. *)
Definition pause_of (backoff : Q) (attempt : Z) : pause :=
  if (1024 <=? attempt - 1)%Z
  then Stopped (Raised (OverflowError "int too large to convert to float"))
  else
    let sleep := sleep_of backoff attempt in
    if negb (Qle_bool (- max_sleep) sleep && Qle_bool sleep max_sleep)
    then Stopped SleepTooLong
    else if negb (Qle_bool 0 sleep)
    then Stopped (Raised (ValueError "sleep length must be non-negative"))
    else Slept sleep.

(** The [while True] loop; [n] requests were made so far. *)
Fixpoint request_loop (fuel : nat) (session : nat -> reply)
    (max_retries : Z) (backoff : Q) (n : nat) (attempt : Z)
    (slept : list Q) : Call :=
  match fuel with
  | O => mkCall Running n slept
  | S f =>
      match session n with
      | NetworkError =>
          let attempt := (attempt + 1)%Z in
          if (attempt >? max_retries)%Z
          then mkCall RaisedRequestException (S n) slept
          else
            match pause_of backoff attempt with
            | Slept sleep =>
                request_loop f session max_retries backoff (S n) attempt
                  (slept ++ [sleep])
            | Stopped r => mkCall r (S n) slept
            end
      | Status code =>
          if accepted code then mkCall (Response code) (S n) slept
          else if retried code then
            let attempt := (attempt + 1)%Z in
            if (attempt >? max_retries)%Z && raises_for_status code
            then mkCall (RaisedHTTPError code) (S n) slept
            else
              match pause_of backoff attempt with
              | Slept sleep =>
                  request_loop f session max_retries backoff (S n) attempt
                    (slept ++ [sleep])
              | Stopped r => mkCall r (S n) slept
              end
          else if raises_for_status code
          then mkCall (RaisedHTTPError code) (S n) slept
          else request_loop f session max_retries backoff (S n) attempt slept
      end
  end.

(** [request_with_retries(session, method, url, max_retries, backoff)] *)
Definition request_with_retries (fuel : nat) (session : nat -> reply)
    (max_retries : Z) (backoff : Q) : Call :=
  request_loop fuel session max_retries backoff 0 0 [].

(** A reply after which the loop sleeps and asks again, while attempts are
    left: a network error, 429, or a server error. *)
Definition transient (r : reply) : bool :=
  match r with
  | NetworkError => true
  | Status code => ((code =? 429) || ((500 <=? code) && (code <? 600)))%Z
  end.

(** What the call raises when the attempts run out on this reply. *)
Definition gives_up (r : reply) : result :=
  match r with
  | NetworkError => RaisedRequestException
  | Status code => RaisedHTTPError code
  end.

(** The sleeps before the attempts [1] to [k]: [backoff], [2 * backoff],
    [4 * backoff], ... *)
Definition backoffs (backoff : Q) (k : nat) : list Q :=
  map (fun i => sleep_of backoff (Z.of_nat i + 1)) (seq 0 k).

End Retries.

Module Payloads.

(** A metadata value: the documents carry strings, the chunker adds
    integers. *)
Inductive value : Type :=
| VStr (s : string)
| VInt (i : Z).

Record Payload : Type := mkPayload {
  tenant_id : string;
  doc_id : string;
  content : string;
  metadata : gmap string value
}.

(** [md = dict(metadata or {}); md.update({...})] *)
Definition chunk_metadata (metadata : option (gmap string value))
    (doc_id : string) (i : Z) (c : Chunking.chunk) : gmap string value :=
  <["chunk_length" := VInt (Chunking.str_len (fst c))]>
    (<["chunk_offset" := VInt (snd c)]>
       (<["chunk_index" := VInt i]>
          (<["parent_doc_id" := VStr doc_id]> (default ∅ metadata)))).

(** The [for i, (chunk_text, offset) in enumerate(chunks)] loop; [i] is the
    index of the head. *)
Fixpoint payloads_loop (tenant_id doc_id : string)
    (metadata : option (gmap string value)) (i : Z)
    (chunks : list Chunking.chunk) : list Payload :=
  match chunks with
  | [] => []
  | c :: chunks' =>
      mkPayload tenant_id (doc_id ++ "::chunk::" ++ str_of_Z i) (fst c)
        (chunk_metadata metadata doc_id i c)
      :: payloads_loop tenant_id doc_id metadata (i + 1) chunks'
  end.

(** [chunk_document_payloads(tenant_id, doc_id, content, metadata,
    chunk_size, overlap)] *)
Definition chunk_document_payloads (tenant_id doc_id content : string)
    (metadata : option (gmap string value)) (chunk_size overlap : Z)
    : outcome (list Payload) :=
  match Chunking.split_text_to_chunks content chunk_size overlap with
  | Returns chunks =>
      Returns (payloads_loop tenant_id doc_id metadata 0 chunks)
  | Raises e => Raises e
  | OutOfFuel => OutOfFuel
  end.

(** The keys the chunker writes into the metadata. *)
Definition reserved_keys : list string :=
  ["parent_doc_id"; "chunk_index"; "chunk_offset"; "chunk_length"]%string.

End Payloads.

(** ** vector_store.py and main.py: ingesting documents

    The Chroma collections are collaborators: what the code does to them is
    the list of its [col.add] calls. The embedding provider is the one of
    embeddings.py, seen from here as a function that answers a list of
    texts with their vectors, or raises ([None]). *)

Module Ingest.

Import Payloads.

(** One [col.add(ids, documents, metadatas, embeddings)] on the collection
    of the name [collection]. *)
Record Add : Type := mkAdd {
  collection : string;
  add_ids : list string;
  add_documents : list string;
  add_metadatas : list (gmap string value);
  add_embeddings : list (list Q)
}.

Inductive failure : Type :=
| ProviderUnavailable       (** the [RuntimeError] of the availability test *)
| EmbeddingFailed           (** what the embedding call raised *)
| Raised (e : exn).

(** What a store method returns: [{"added": n}], or the exception. *)
Inductive result : Type :=
| Added (total : Z)
| Failed (f : failure).

(** What the endpoint answers: [{"success": True, "result": res}], or
    [HTTPException(status_code=500, detail=str(e))]. *)
Inductive response : Type :=
| Success (added : Z)
| ServerError (f : failure).

(** [by_tenant.setdefault(d["tenant_id"], []).append(d)], the dictionary
    kept in the order of insertion. *)
Fixpoint group_append (by_tenant : list (string * list Payload))
    (d : Payload) : list (string * list Payload) :=
  match by_tenant with
  | [] => [(tenant_id d, [d])]
  | (t, docs) :: rest =>
      if String.eqb t (tenant_id d) then (t, docs ++ [d]) :: rest
      else (t, docs) :: group_append rest d
  end.

Definition group_by_tenant (documents : list Payload)
    : list (string * list Payload) :=
  fold_left group_append documents [].

(** [f"tenant_{tenant_id}"] *)
Definition collection_name (tenant_id : string) : string :=
  ("tenant_" ++ tenant_id)%string.

Section Store.

(** [EmbeddingProvider.available()] *)
Variable available : bool.
(** [EmbeddingProvider.get_batch_embeddings(texts)] *)
Variable get_batch_embeddings : list string -> option (list (list Q)).

(** The loop over [by_tenant.items()]. *)
Fixpoint add_loop (groups : list (string * list Payload)) (total : Z)
    (log : list Add) : result * list Add :=
  match groups with
  | [] => (Added total, log)
  | (t, docs) :: rest =>
      match get_batch_embeddings (map content docs) with
      | None => (Failed EmbeddingFailed, log)
      | Some embs =>
          add_loop rest (total + Py.len docs)
            (log ++ [mkAdd (collection_name t) (map doc_id docs)
                       (map content docs) (map metadata docs) embs])
      end
  end.

(** [ChromaVectorStore.add_documents_batch(documents)], and what it has
    added. *)
Definition add_documents_batch (documents : list Payload)
    : result * list Add :=
  if negb available then (Failed ProviderUnavailable, [])
  else add_loop (group_by_tenant documents) 0 [].

(** [ChromaVectorStore.add_document(tenant_id, doc_id, content, metadata)];
    the embedding is [get_batch_embeddings([content])[0]]. *)
Definition add_document (tenant doc text : string)
    (md : option (gmap string value)) : result * list Add :=
  if negb available then (Failed ProviderUnavailable, [])
  else
    match get_batch_embeddings [text] with
    | None => (Failed EmbeddingFailed, [])
    | Some [] => (Failed (Raised IndexError), [])
    | Some (emb :: _) =>
        (Added 1,
         [mkAdd (collection_name tenant) [doc] [text] [default ∅ md] [emb]])
    end.

(** The endpoint [POST /ingest]. *)
Definition ingest (tenant doc text : string)
    (md : option (gmap string value)) (chunk : bool)
    (chunk_size overlap : Z) : response * list Add :=
  let '(res, log) :=
    if chunk then
      match chunk_document_payloads tenant doc text (Some (default ∅ md))
              chunk_size overlap with
      | Returns payloads => add_documents_batch payloads
      | Raises e => (Failed (Raised e), [])
      | OutOfFuel => (Failed (Raised BackendError), [])
      end
    else add_document tenant doc text md in
  match res with
  | Added n => (Success n, log)
  | Failed f => (ServerError f, log)
  end.

End Store.

(** The documents of one tenant, in the order of the input. *)
Definition of_tenant (t : string) (documents : list Payload) : list Payload :=
  List.filter (fun d => String.eqb (tenant_id d) t) documents.

(** The keys of [by_tenant] after the grouping loop: the tenants of the
    input, each once, in the order in which they first appear. *)
Definition add_key (keys : list string) (d : Payload) : list string :=
  if existsb (String.eqb (tenant_id d)) keys then keys
  else keys ++ [tenant_id d].

Definition tenants (documents : list Payload) : list string :=
  fold_left add_key documents [].

(** The [col.add] that puts all documents of [t] into its collection. *)
Definition adds_tenant
    (get_batch_embeddings : list string -> option (list (list Q)))
    (documents : list Payload) (t : string) (a : Add) : Prop :=
  collection a = collection_name t
  /\ add_ids a = map doc_id (of_tenant t documents)
  /\ add_documents a = map content (of_tenant t documents)
  /\ add_metadatas a = map metadata (of_tenant t documents)
  /\ get_batch_embeddings (map content (of_tenant t documents))
     = Some (add_embeddings a).

End Ingest.

(** ** A small site, for the examples

    Two pages that link to each other, each with more than 100 characters
    of text. *)

Module ExampleSite.

Definition home : string := "https://example.test".
Definition about : string := "https://example.test/about".

Definition body : string :=
  String.concat " " (repeat "lorem ipsum dolor"%string 8).

Definition web : Crawler.Web :=
  Crawler.mkWeb
    (fun _ => true)
    (fun _ => true)
    (fun url =>
       if String.eqb url home
       then Some (Crawler.mkResponse 200 true "Home" body [about])
       else if String.eqb url about
       then Some (Crawler.mkResponse 200 true "About" body [home])
       else None).

(** A crawl job for the site, one level deep, limited to one page. *)
Definition job : Crawler.DataSource := Crawler.mkDataSource home 1 1.

End ExampleSite.

(** ** The fake backend of tests/test_embeddings.py

    [fake_embed_local_batch] returns [[float(len(t))]] for every text. *)

Module FakeBackend.

Definition fake_embed_local_batch (texts : list string) (model : option string)
    (batch_size : Z) : option (list (list Q)) :=
  Some (map (fun t => [inject_Z (Z.of_nat (String.length t))]) texts).

Definition backends : Embeddings.Backends :=
  Embeddings.mkBackends fake_embed_local_batch (fun _ _ => None) false.

Definition env : Embeddings.Env :=
  Embeddings.mkEnv (Some "local"%string) (Some "all-mpnet-base-v2"%string)
    None.

Definition texts : list string :=
  ["hello world"; "hello world"; "open-source model"]%string.

(** An empty dictionary as cache, no backend call made yet. *)
Definition world0 : Embeddings.World (gmap string (list Q)) :=
  Embeddings.mkWorld ∅ [].

End FakeBackend.

(** ** A small store, for the examples

    Four rows of one tenant without embedding; a first run with batches of
    two that is interrupted after nine actions, in its second batch. *)

Module ExampleBackfill.

Definition embed (text : string) : list Q :=
  [inject_Z (Z.of_nat (String.length text))].

Definition row (i : Z) : Reembed.Row :=
  Reembed.mkRow i "tn_prioritized" "some text" None.

Definition world0 : Reembed.World :=
  Reembed.mkWorld [row 3; row 1; row 4; row 2] None None.

Definition first_args : Reembed.Args :=
  Reembed.mkArgs (Some "tn_prioritized"%string) 2 0 false false.

Definition resume_args : Reembed.Args :=
  Reembed.mkArgs (Some "tn_prioritized"%string) 2 0 true false.

(** The world the interrupted first run leaves behind. *)
Definition interrupted : Reembed.World :=
  Reembed.world (Reembed.main embed first_args 9 world0).

End ExampleBackfill.
(* ================================================================== *)
(** * Properties *)
(* ================================================================== *)

(** ** Python slices *)

Section PySlices.
Import Py.

Lemma len_nonneg {A} (l : list A) : 0 <= len l.
Proof. unfold len. lia. Qed.

Lemma length_slice_inner {A} (l : list A) (a b : Z) :
  0 <= a -> a <= b -> b <= len l ->
  len (slice l a b) = b - a.
Proof.
  intros Ha Hab Hb. unfold slice, clip_index, len in *.
  destruct (Z.ltb_spec a 0); [lia|].
  destruct (Z.ltb_spec b 0); [lia|].
  rewrite length_firstn, length_skipn. lia.
Qed.

Lemma length_slice_clipped {A} (l : list A) (a b : Z) :
  0 <= a -> a <= len l -> len l <= b ->
  len (slice l a b) = len l - a.
Proof.
  intros Ha Hal Hb. unfold slice, clip_index, len in *.
  destruct (Z.ltb_spec a 0); [lia|].
  destruct (Z.ltb_spec b 0); [lia|].
  rewrite length_firstn, length_skipn. lia.
Qed.

End PySlices.

(** ** chunking.py *)

(** tests/test_chunking.py, [test_split_text_to_chunks_basic] *)
Example test_split_text_to_chunks_basic :
Chunking.split_text_to_chunks "abcdefghijklmnopqrstuvwxyz" 10 2
= Returns [("abcdefghij"%string, 0); ("ijklmnopqr"%string, 8);
           ("qrstuvwxyz"%string, 16)].
Proof. reflexivity. Qed.

(** tests/test_chunking.py, the contents expected by
  [test_chunk_document_payloads_metadata] *)
Example test_chunk_document_contents :
Chunking.split_text_to_chunks "abcdefghijabcdefghijabcdefghij" 10 2
= Returns [("abcdefghij"%string, 0); ("ijabcdefgh"%string, 8);
           ("ghijabcdef"%string, 16); ("efghij"%string, 24)].
Proof. reflexivity. Qed.

Section SplitLoop.
Import Chunking.

Variable text : string.
Variables chunk_size overlap : Z.
Hypothesis chunk_size_pos : 0 < chunk_size.
Hypothesis overlap_lt : overlap < chunk_size.

(** The loop returns whenever it is entered with fuel for the
    characters that are left: each round moves [start] forward. *)
Lemma split_loop_returns (fuel : nat) :
  forall start acc,
    0 <= start ->
    Z.max 0 (str_len text - start) < Z.of_nat fuel ->
    exists chunks,
      split_loop fuel text (str_len text) chunk_size overlap start acc
        = Returns chunks.
Proof.
  induction fuel as [|f IH]; intros start acc Hs Hf.
  - lia.
  - cbn [split_loop].
    destruct (Z.ltb_spec start (str_len text)); [|eauto].
    destruct (Z.geb_spec (start + chunk_size) (str_len text)); [eauto|].
    apply IH; lia.
Qed.

Hypothesis overlap_nonneg : 0 <= overlap.

Local Abbreviation step := (chunk_size - overlap).
Local Abbreviation L := (str_len text).
Local Abbreviation windows_from := (windows_from text chunk_size overlap).

Lemma split_loop_windows (fuel : nat) :
  forall start acc,
    0 <= start < L ->
    L - start < Z.of_nat fuel ->
    exists rest,
      split_loop fuel text L chunk_size overlap start acc
        = Returns (acc ++ rest)
      /\ windows_from start rest.
Proof.
  unfold Chunking.windows_from.
  induction fuel as [|f IH]; intros start acc Hs Hf; [lia|].
  cbn [split_loop].
  destruct (Z.ltb_spec start L) as [_|]; [|lia].
  destruct (Z.geb_spec (start + chunk_size) L) as [Hend|Hend].
  - exists [(str_slice text start (start + chunk_size), start)].
    split; [reflexivity|].
    split; [discriminate|]. split.
    + intros [|i] c o Hi; simplify_eq/=. split; [cbn; lia|split; [reflexivity|lia]].
    + split.
      * intros c o Hl; simplify_eq/=. lia.
      * intros p Hp. eexists _, start. split; [left; reflexivity|lia].
  - assert (Hmax : Z.max 0 (start + chunk_size - overlap) = start + step)
      by lia.
    rewrite Hmax.
    destruct (IH (start + step)
                (acc ++ [(str_slice text start (start + chunk_size), start)]))
      as (rest & Heq & Hne & Hidx & Hlast & Hcov); [lia..|].
    exists ((str_slice text start (start + chunk_size), start) :: rest).
    split; [rewrite Heq, <- app_assoc; reflexivity|].
    split; [discriminate|]. split.
    + intros [|i] c o Hi; simplify_eq/=.
      * split; [cbn; lia|split; [reflexivity|lia]].
      * destruct (Hidx i c o Hi) as (-> & -> & Ho).
        split; [rewrite Nat2Z.inj_succ; lia|split; [reflexivity|lia]].
    + split.
      * intros c o Hl. apply (Hlast c o).
        destruct rest; [congruence|exact Hl].
      * intros p Hp.
        destruct (Z_lt_le_dec p (start + step)) as [Hlt|Hge].
        -- eexists _, start. split; [left; reflexivity|lia].
        -- destruct (Hcov p) as (c & o & Hin & Ho); [lia|].
           exists c, o. split; [right; exact Hin|exact Ho].
Qed.

End SplitLoop.

(** ** The float division of the overlap clamp *)

Section FloatDivision.
Import PyFloat.

(** Rounding to nearest stays within half a unit of the quotient. *)
Lemma round_half_even_bounds (num den : Z) :
  0 < den ->
  num / den <= round_half_even num den
  /\ 2 * den * round_half_even num den <= 2 * num + den.
Proof.
  intros Hden. unfold round_half_even.
  pose proof (Z.div_mod num den ltac:(lia)) as Hdm.
  pose proof (Z.mod_pos_bound num den Hden) as Hr.
  set (q := num / den) in *. set (r := num mod den) in *.
  destruct (Z.ltb_spec (2 * r) den); [nia|].
  destruct (Z.ltb_spec den (2 * r)); [nia|].
  destruct (Z.even q); nia.
Qed.

(** Below [2 ^ 53] the float quotient by 10 truncates to the integer
    quotient: [int(n / 10) = n // 10]. *)
Lemma int_true_div_10_small (n : Z) :
  0 < n < 2 ^ 53 -> int_true_div n 10 = Returns (n ÷ 10).
Proof.
  intros Hn. unfold int_true_div, true_div.
  set (e := quotient_log2 n 10 - 52).
  assert (He : e <= -3).
  { unfold e, quotient_log2.
    assert (Z.log2 n < 53) by (apply Z.log2_lt_pow2; lia).
    change (Z.log2 10) with 3.
    destruct (scaled_le _ _ _); lia. }
  destruct (Z.leb_spec 0 e); [lia|].
  set (P := 2 ^ (- e)).
  assert (HP : 8 <= P).
  { unfold P. change 8 with (2 ^ 3). apply Z.pow_le_mono_r; lia. }
  destruct (round_half_even_bounds (n * P) 10 ltac:(lia)) as [Hlo Hhi].
  set (m := round_half_even (n * P) 10) in *.
  f_equal. rewrite Z.quot_div_nonneg by lia.
  pose proof (Z.div_mod n 10 ltac:(lia)) as Hdm.
  pose proof (Z.mod_pos_bound n 10 ltac:(lia)) as Hr.
  pose proof (Z.div_mod (n * P) 10 ltac:(lia)) as Hdm'.
  pose proof (Z.mod_pos_bound (n * P) 10 ltac:(lia)) as Hr'.
  set (a := n / 10) in *. set (r := n mod 10) in *.
  symmetry. apply (Z.div_unique m P a (m - P * a)); [|lia].
  left. nia.
Qed.

(** The overlap the loop runs with: the given one when it is below the
    chunk size, and [chunk_size // 10] for a chunk size below [2 ^ 53]. *)
Lemma clamp_overlap_returns (chunk_size overlap : Z) :
  0 < chunk_size ->
  overlap < chunk_size \/ chunk_size < 2 ^ 53 ->
  exists o,
    Chunking.clamp_overlap chunk_size overlap = Returns o
    /\ o < chunk_size
    /\ o = (if overlap >=? chunk_size then chunk_size ÷ 10 else overlap).
Proof.
  intros Hc Hdom. unfold Chunking.clamp_overlap.
  destruct (Z.geb_spec overlap chunk_size) as [Hge|Hlt].
  - rewrite int_true_div_10_small by lia. eexists. split; [reflexivity|].
    split; [apply Z.quot_lt; lia|reflexivity].
  - eexists. split; [reflexivity|]. split; [lia|reflexivity].
Qed.

End FloatDivision.

(** From [2 ^ 53] on the float quotient is rounded: the first chunk size at
    which [int(chunk_size / 10)] is not [chunk_size // 10]. *)
Example clamp_overlap_rounds :
  Chunking.clamp_overlap 11258999068426249 11258999068426249
  = Returns 1125899906842625
  /\ 11258999068426249 ÷ 10 = 1125899906842624.
Proof. split; reflexivity. Qed.

(** A chunk size whose tenth is no float: the division raises. *)
Example clamp_overlap_overflows :
  Chunking.clamp_overlap (10 ^ 400) (10 ^ 400)
  = Raises (OverflowError "integer division result too large for a float")
  /\ Chunking.split_text_to_chunks "hello world" (10 ^ 400) (10 ^ 400)
     = Raises (OverflowError "integer division result too large for a float").
Proof. split; vm_compute; reflexivity. Qed.

Section SplitText.
Import Chunking.

Lemma length_chars (s : string) : length (chars s) = String.length s.
Proof.
  unfold chars. induction s as [|a s IH]; cbn; [reflexivity|now f_equal].
Qed.

Lemma str_len_nonneg (s : string) : 0 <= str_len s.
Proof. apply len_nonneg. Qed.

Lemma str_len_empty (s : string) : str_len s = 0 -> s = EmptyString.
Proof. destruct s; [reflexivity|]. unfold str_len, Py.len. cbn. lia. Qed.

Lemma chars_str_slice (text : string) (a b : Z) :
  chars (str_slice text a b) = Py.slice (chars text) a b.
Proof. apply list_ascii_of_string_of_list_ascii. Qed.

(** A window that starts inside the text holds [chunk_size] characters, or
    what is left of the text. *)
Lemma str_len_window (text : string) (o chunk_size : Z) :
  0 <= o <= str_len text -> 0 <= chunk_size ->
  str_len (str_slice text o (o + chunk_size))
  = Z.min chunk_size (str_len text - o).
Proof.
  intros Ho Hc. unfold str_len. rewrite chars_str_slice.
  destruct (Z_le_gt_dec (o + chunk_size) (Py.len (chars text))).
  - rewrite length_slice_inner; unfold str_len in *; lia.
  - rewrite length_slice_clipped; unfold str_len in *; lia.
Qed.

(** [split_text_to_chunks] returns for every text and every positive chunk
    size, when the overlap is below the chunk size or the chunk size below
    [2 ^ 53]. *)
Lemma split_text_to_chunks_returns (text : string) (chunk_size overlap : Z) :
  0 < chunk_size ->
  overlap < chunk_size \/ chunk_size < 2 ^ 53 ->
  exists chunks, split_text_to_chunks text chunk_size overlap = Returns chunks.
Proof.
  intros Hc Hdom. unfold split_text_to_chunks.
  destruct text as [|a s]; [eauto|].
  destruct (Z.leb_spec chunk_size 0); [lia|].
  destruct (clamp_overlap_returns chunk_size overlap Hc Hdom)
    as (o & -> & Ho & _).
  apply split_loop_returns; [lia|exact Ho|lia|].
  unfold str_len, Py.len. rewrite length_chars. lia.
Qed.

End SplitText.

(** C10. For a non-empty text, a positive chunk size and an overlap
    [0 <= overlap < chunk_size], [split_text_to_chunks] returns a non-empty
    list; every pair [(chunk_text, offset)] in it has
    [chunk_text = text[offset : offset + chunk_size]]; the first offset is 0;
    consecutive offsets grow by exactly [chunk_size - overlap]; the last
    chunk ends at [len(text)]; and every position of the text lies in some
    returned chunk. *)
Theorem split_text_to_chunks_covers (text : string) (chunk_size overlap : Z) :
  text <> EmptyString ->
  0 < chunk_size ->
  0 <= overlap < chunk_size ->
  exists chunks,
    Chunking.split_text_to_chunks text chunk_size overlap = Returns chunks
    /\ chunks <> []
    /\ (forall c o, In (c, o) chunks ->
          c = Chunking.str_slice text o (o + chunk_size))
    /\ (exists c, head chunks = Some (c, 0))
    /\ (forall (i : nat) c1 o1 c2 o2,
          chunks !! i = Some (c1, o1) -> chunks !! S i = Some (c2, o2) ->
          o2 = o1 + (chunk_size - overlap))
    /\ (forall c o, last chunks = Some (c, o) ->
          o + Chunking.str_len c = Chunking.str_len text)
    /\ (forall p, 0 <= p < Chunking.str_len text ->
          exists c o, In (c, o) chunks /\ o <= p < o + Chunking.str_len c).
Proof.
  intros Hne Hc Ho. unfold Chunking.split_text_to_chunks.
  destruct text as [|a s] eqn:Et; [congruence|]. rewrite <- Et in *.
  destruct (Z.leb_spec chunk_size 0); [lia|].
  assert (Hpos : 0 < Chunking.str_len text).
  { pose proof (str_len_nonneg text). pose proof (str_len_empty text). 
    destruct (Z.eq_dec (Chunking.str_len text) 0); [tauto|lia]. }
  unfold Chunking.clamp_overlap.
  destruct (Z.geb_spec overlap chunk_size); [lia|]. cbn beta iota.
  destruct (split_loop_windows text chunk_size overlap Hc ltac:(lia) ltac:(lia)
              (S (String.length text)) 0 [])
    as (chunks & Heq & Hnil & Hidx & Hlast & Hcov); [lia| |].
  { unfold Chunking.str_len, Py.len. rewrite length_chars. lia. }
  cbn [app] in Heq. exists chunks. split; [exact Heq|].
  split; [exact Hnil|].
  assert (Hlen : forall c o, In (c, o) chunks ->
            c = Chunking.str_slice text o (o + chunk_size)
            /\ 0 <= o < Chunking.str_len text).
  { intros c o Hin. apply list_elem_of_In, list_elem_of_lookup in Hin.
    destruct Hin as [i Hi]. destruct (Hidx i c o Hi) as (_ & ? & ?). auto. }
  split; [intros c o Hin; apply Hlen, Hin|].
  split.
  { destruct chunks as [|[c o] rest]; [congruence|].
    exists c. destruct (Hidx 0%nat c o eq_refl) as (-> & _). reflexivity. }
  split.
  { intros i c1 o1 c2 o2 H1 H2.
    destruct (Hidx _ _ _ H1) as (-> & _).
    destruct (Hidx _ _ _ H2) as (-> & _).
    rewrite Nat2Z.inj_succ. lia. }
  split.
  { intros c o Hl. pose proof (Hlast c o Hl) as Hend.
    assert (Hin : In (c, o) chunks).
    { apply list_elem_of_In. apply last_Some in Hl as [l' ->].
      apply elem_of_app. right. apply list_elem_of_singleton. reflexivity. }
    destruct (Hlen c o Hin) as (-> & Hob).
    rewrite str_len_window by lia. lia. }
  intros p Hp. destruct (Hcov p Hp) as (c & o & Hin & Hpo).
  exists c, o. split; [exact Hin|].
  destruct (Hlen c o Hin) as (-> & Hob).
  rewrite str_len_window by lia. lia.
Qed.

(** The theorem at the text of the repository's chunking test. *)
Lemma split_text_to_chunks_covers_witness :
  exists chunks,
    Chunking.split_text_to_chunks "abcdefghijklmnopqrstuvwxyz" 10 2
      = Returns chunks
    /\ chunks <> []
    /\ (forall c o, In (c, o) chunks ->
          c = Chunking.str_slice "abcdefghijklmnopqrstuvwxyz" o (o + 10))
    /\ (exists c, head chunks = Some (c, 0))
    /\ (forall (i : nat) c1 o1 c2 o2,
          chunks !! i = Some (c1, o1) -> chunks !! S i = Some (c2, o2) ->
          o2 = o1 + (10 - 2))
    /\ (forall c o, last chunks = Some (c, o) ->
          o + Chunking.str_len c
          = Chunking.str_len "abcdefghijklmnopqrstuvwxyz")
    /\ (forall p, 0 <= p < Chunking.str_len "abcdefghijklmnopqrstuvwxyz" ->
          exists c o, In (c, o) chunks /\ o <= p < o + Chunking.str_len c).
Proof.
  apply (split_text_to_chunks_covers "abcdefghijklmnopqrstuvwxyz" 10 2);
    [discriminate|lia|lia].
Defined.

(** ** ingest_worker.py: word chunker *)

Example split_example :
  WorkerChunker.split "  the quick  brown fox "
  = ["the"; "quick"; "brown"; "fox"]%string.
Proof. reflexivity. Qed.

Example str_of_Z_example : str_of_Z 500 = "500"%string.
Proof. reflexivity. Qed.

Section WordChunker.
Import WorkerChunker.

Variable self : TextChunker.
Variable words : list string.
Variable source_url : string.
Variable md : gmap string string.

Local Abbreviation window := (WorkerChunker.window self words).

Lemma chunk_step_fold (starts : list Z) :
  forall acc,
    map text (fold_left (chunk_step self words source_url md) starts acc)
    = map text acc ++ map join (List.filter kept (map window starts)).
Proof.
  induction starts as [|i starts IH]; intros acc; cbn [fold_left map].
  - cbn. now rewrite app_nil_r.
  - rewrite IH. unfold chunk_step. cbn [List.filter].
    unfold kept at 2, WorkerChunker.window at 2 3.
    destruct (Py.len _ <? min_chunk_words); cbn [negb].
    + reflexivity.
    + rewrite map_app. cbn [map text]. now rewrite <- app_assoc.
Qed.

(** The chunk indexes count the chunks that were kept. *)
Lemma chunk_step_index (starts : list Z) :
  forall acc,
    (forall (j : nat) c, acc !! j = Some c -> chunk_index c = Z.of_nat j) ->
    forall (j : nat) c,
      fold_left (chunk_step self words source_url md) starts acc !! j
        = Some c ->
      chunk_index c = Z.of_nat j.
Proof.
  induction starts as [|i starts IH]; intros acc Hacc; cbn [fold_left].
  - exact Hacc.
  - apply IH. unfold chunk_step.
    destruct (Py.len _ <? min_chunk_words); [exact Hacc|].
    intros j c Hj. apply lookup_app_Some in Hj as [Hj|[Hlen Hj]].
    + now apply Hacc.
    + apply list_lookup_singleton_Some in Hj as [Hj <-]. cbn.
      unfold Py.len. lia.
Qed.

Lemma range0_pos (stop step : Z) :
  0 < step ->
  Py.range0 stop step = Returns (Py.range_pos (Z.to_nat stop) 0 stop step).
Proof.
  intros Hs. unfold Py.range0.
  destruct (Z.eqb_spec step 0); [lia|].
  destruct (Z.ltb_spec step 0); [lia|reflexivity].
Qed.

(** With [overlap = chunk_size] the step of [range] is zero and the call
    raises; with [overlap > chunk_size] the range is empty and nothing is
    returned. *)
Lemma chunk_words_overlap_equal :
  overlap self = chunk_size self ->
  chunk_words self words source_url md
  = Raises (ValueError "range() arg 3 must not be zero").
Proof.
  intros Heq. unfold chunk_words, Py.range0. rewrite Heq, Z.sub_diag.
  reflexivity.
Qed.

Lemma chunk_words_overlap_larger :
  chunk_size self < overlap self ->
  chunk_words self words source_url md = Returns [].
Proof.
  intros Hlt. unfold chunk_words, Py.range0.
  destruct (Z.eqb_spec (chunk_size self - overlap self) 0); [lia|].
  destruct (Z.ltb_spec (chunk_size self - overlap self) 0); [|lia].
  reflexivity.
Qed.

End WordChunker.

(** C5 (as the code has it). With [overlap < chunk_size], [chunk_text]
    returns, in order, exactly the windows of at least 50 words: every
    returned chunk, the last one included, has at least [min_chunk_words]
    words, every window below the threshold is dropped, the final window
    included, and [chunk_index] numbers the chunks that were kept. *)
Theorem chunk_text_keeps_long_windows
    (self : WorkerChunker.TextChunker) (text source_url : string)
    (md : gmap string string) :
  WorkerChunker.overlap self < WorkerChunker.chunk_size self ->
  let words := WorkerChunker.split text in
  exists starts chunks,
    Py.range0 (Py.len words)
      (WorkerChunker.chunk_size self - WorkerChunker.overlap self)
      = Returns starts
    /\ WorkerChunker.chunk_text self text source_url md = Returns chunks
    /\ map WorkerChunker.text chunks
        = map WorkerChunker.join
            (List.filter WorkerChunker.kept
               (map (WorkerChunker.window self words) starts))
    /\ (forall c, In c chunks ->
          exists i, In i starts
            /\ WorkerChunker.text c
                = WorkerChunker.join (WorkerChunker.window self words i)
            /\ WorkerChunker.min_chunk_words
                <= Py.len (WorkerChunker.window self words i))
    /\ (forall (j : nat) c, chunks !! j = Some c ->
          WorkerChunker.chunk_index c = Z.of_nat j).
Proof.
  intros Hov words. unfold WorkerChunker.chunk_text, WorkerChunker.chunk_words.
  fold words. rewrite range0_pos by lia.
  set (starts := Py.range_pos _ _ _ _).
  exists starts, (fold_left
                    (WorkerChunker.chunk_step self words source_url md)
                    starts []).
  split; [reflexivity|]. split; [reflexivity|].
  pose proof (chunk_step_fold self words source_url md starts []) as Hmap.
  cbn [map app] in Hmap.
  split; [exact Hmap|]. split.
  - intros c Hin. apply (in_map WorkerChunker.text) in Hin.
    rewrite Hmap in Hin. apply in_map_iff in Hin as (w & Hw & Hin).
    apply filter_In in Hin as [Hin Hk].
    apply in_map_iff in Hin as (i & <- & Hi).
    exists i. split; [exact Hi|]. split; [now symmetry|].
    unfold WorkerChunker.kept in Hk.
    destruct (Z.ltb_spec (Py.len (WorkerChunker.window self words i))
                WorkerChunker.min_chunk_words); [discriminate|lia].
  - apply chunk_step_index. intros j c Hj. destruct j; discriminate.
Qed.

(** The theorem at a text of seventy words, with [chunk_size = 60] and
    [overlap = 10]: the windows start at 0 and 50; the first has 60 words
    and is returned, the second has 20 and is not. *)
Lemma chunk_text_keeps_long_windows_witness :
  let self := WorkerChunker.mkTextChunker 60 10 in
  let text := WorkerChunker.join (repeat "w"%string 70) in
  let words := WorkerChunker.split text in
  exists starts chunks,
    Py.range0 (Py.len words)
      (WorkerChunker.chunk_size self - WorkerChunker.overlap self)
      = Returns starts
    /\ WorkerChunker.chunk_text self text "file://a.txt" ∅
       = Returns chunks
    /\ map WorkerChunker.text chunks
        = map WorkerChunker.join
            (List.filter WorkerChunker.kept
               (map (WorkerChunker.window self words) starts))
    /\ (forall c, In c chunks ->
          exists i, In i starts
            /\ WorkerChunker.text c
                = WorkerChunker.join (WorkerChunker.window self words i)
            /\ WorkerChunker.min_chunk_words
                <= Py.len (WorkerChunker.window self words i))
    /\ (forall (j : nat) c, chunks !! j = Some c ->
          WorkerChunker.chunk_index c = Z.of_nat j).
Proof.
  apply (chunk_text_keeps_long_windows
           (WorkerChunker.mkTextChunker 60 10)
           (WorkerChunker.join (repeat "w"%string 70)) "file://a.txt" ∅).
  cbn. lia.
Defined.

(** C5, the part the code does not do: a final window below the threshold is
    dropped like any other. Seventy words with [chunk_size = 60] and
    [overlap = 10] give the windows [0..60) and [50..70); the second, final
    window has 20 words and is not returned. *)
Lemma chunk_text_drops_short_final_window :
  let self := WorkerChunker.mkTextChunker 60 10 in
  let text := WorkerChunker.join (repeat "w"%string 70) in
  exists w chunks,
    WorkerChunker.final_window self (WorkerChunker.split text) = Some w
    /\ Py.len w = 20
    /\ WorkerChunker.chunk_text self text "file://a.txt" ∅ = Returns chunks
    /\ length chunks = 1%nat
    /\ ~ In (WorkerChunker.join w) (map WorkerChunker.text chunks).
Proof.
  eexists _, _. split; [vm_compute; reflexivity|].
  split; [reflexivity|]. split; [vm_compute; reflexivity|].
  split; [reflexivity|].
  cbn. intros [H|[]]. discriminate H.
Qed.

(** ** ingest-worker.py: token chunker *)

Lemma token_chunk_text_overlap_equal
    (max_tokens : Z) (self : TokenChunker.TextChunker) (text : string)
    (md : gmap string string) :
  TokenChunker.overlap self = TokenChunker.chunk_size self ->
  TokenChunker.chunk_text max_tokens self text md
  = Raises (ValueError "range() arg 3 must not be zero").
Proof.
  intros Heq. unfold TokenChunker.chunk_text, Py.range0.
  rewrite Heq, Z.sub_diag. reflexivity.
Qed.

(** ** The overlap clamp *)

(** [split_text_to_chunks] clamps an overlap that is not below the chunk
    size: for a chunk size below [2 ^ 53] the call returns, with the chunks
    of a call made with [chunk_size // 10]. *)
Lemma split_text_to_chunks_clamps (text : string) (chunk_size overlap : Z) :
  0 < chunk_size < 2 ^ 53 ->
  chunk_size <= overlap ->
  exists chunks,
    Chunking.split_text_to_chunks text chunk_size overlap = Returns chunks
    /\ Chunking.split_text_to_chunks text chunk_size (chunk_size ÷ 10)
       = Returns chunks.
Proof.
  intros Hc Hov.
  destruct (split_text_to_chunks_returns text chunk_size overlap
              ltac:(lia) ltac:(lia)) as [chunks Heq].
  exists chunks. split; [exact Heq|]. rewrite <- Heq.
  unfold Chunking.split_text_to_chunks. destruct text; [reflexivity|].
  destruct (chunk_size <=? 0); [reflexivity|].
  unfold Chunking.clamp_overlap.
  destruct (Z.geb_spec overlap chunk_size); [|lia].
  rewrite int_true_div_10_small by lia.
  destruct (Z.geb_spec (chunk_size ÷ 10) chunk_size) as [Hge|]; [|reflexivity].
  pose proof (Z.quot_lt chunk_size 10). lia.
Qed.

(** C4. The clamp is missing from [TextChunker.chunk_text] of the workers:
    with [overlap = chunk_size] the call raises [ValueError] (the step of
    [range] is zero) and with a larger overlap it returns no chunk at all,
    where [split_text_to_chunks] on the same input returns the chunks of
    overlap [chunk_size / 10]. *)
Theorem worker_chunk_text_overlap_not_clamped :
  WorkerChunker.chunk_text (WorkerChunker.mkTextChunker 600 600)
    "hello world" "https://example.test" ∅
  = Raises (ValueError "range() arg 3 must not be zero")
  /\ WorkerChunker.chunk_text (WorkerChunker.mkTextChunker 600 700)
       "hello world" "https://example.test" ∅
     = Returns []
  /\ Chunking.split_text_to_chunks "hello world" 600 600
     = Returns [("hello world"%string, 0)]
  /\ Chunking.split_text_to_chunks "hello world" 600 60
     = Returns [("hello world"%string, 0)].
Proof. repeat split; reflexivity. Qed.

(** ** FAISS search *)

Section Similarity.
Import Faiss.
Local Open Scope Q_scope.

Lemma similarity_pos (d : Q) : 0 <= d -> 0 < similarity d.
Proof.
  intros Hd. unfold similarity. apply Qlt_shift_div_l; lra.
Qed.

Lemma similarity_le_1 (d : Q) : 0 <= d -> similarity d <= 1.
Proof.
  intros Hd. unfold similarity. apply Qle_shift_div_r; lra.
Qed.

Lemma similarity_antitone (d1 d2 : Q) :
  0 <= d1 -> d1 <= d2 -> similarity d2 <= similarity d1.
Proof.
  intros H1 H2. unfold similarity.
  apply Qle_shift_div_r; [lra|].
  assert (H : 1 / (1 + d1) * (1 + d2) == (1 + d2) / (1 + d1))
    by (field; lra).
  rewrite H. apply Qle_shift_div_l; lra.
Qed.

End Similarity.

Section FaissSearch.
Import Faiss.
Context {C : Type}.
Variable chunks : list C.

(** [chunks[idx]] returns for every index from [-len(chunks)] up to
    [len(chunks) - 1]. *)
Lemma index_returns {A} (l : list A) (i : Z) :
  (- Py.len l <= i < Py.len l)%Z -> exists x, Py.index l i = Returns x.
Proof.
  intros Hi. unfold Py.index.
  set (j := if (i <? 0)%Z then (Py.len l + i)%Z else i).
  assert (Hj : (0 <= j < Py.len l)%Z)
    by (subst j; destruct (Z.ltb_spec i 0); lia).
  destruct (Z.ltb_spec j 0); [lia|].
  destruct (nth_error l (Z.to_nat j)) eqn:E; [eauto|].
  apply nth_error_None in E. unfold Py.len in Hj. lia.
Qed.

Local Abbreviation guard := (fun p : Q * Z => (snd p <? Py.len chunks)%Z).

Lemma search_loop_scores (pairs : list (Q * Z)) :
  forall results,
    Forall (fun p => (- Py.len chunks <= snd p)%Z) pairs ->
    exists rs,
      search_loop chunks pairs results = Returns (results ++ rs)
      /\ map score rs = map similarity (map fst (List.filter guard pairs)).
Proof.
  induction pairs as [|[d i] pairs IH]; intros results Hall.
  - exists []. now rewrite app_nil_r.
  - inversion Hall as [|? ? Hi Hrest]; subst. cbn [search_loop List.filter].
    cbn [snd] in *.
    destruct (Z.ltb_spec i (Py.len chunks)) as [Hlt|Hge].
    + destruct (index_returns chunks i) as [c Hc]; [lia|]. rewrite Hc.
      destruct (IH (results ++ [mkResult c (similarity d)]) Hrest)
        as (rs & Heq & Hsc).
      exists (mkResult c (similarity d) :: rs). split.
      * rewrite Heq, <- app_assoc. reflexivity.
      * cbn. now rewrite Hsc.
    + apply IH, Hrest.
Qed.

(** The results are built from the slots that pass the guard, one by one. *)
Lemma search_loop_results (pairs : list (Q * Z)) :
  forall results,
    Forall (fun p => (- Py.len chunks <= snd p)%Z) pairs ->
    exists rs,
      search_loop chunks pairs results = Returns (results ++ rs)
      /\ Forall2 (from_slot chunks) (List.filter guard pairs) rs.
Proof.
  induction pairs as [|[d i] pairs IH]; intros results Hall.
  - exists []. rewrite app_nil_r. split; [reflexivity|constructor].
  - inversion Hall as [|? ? Hi Hrest]; subst. cbn [search_loop List.filter].
    cbn [snd] in *.
    destruct (Z.ltb_spec i (Py.len chunks)) as [Hlt|Hge].
    + destruct (index_returns chunks i) as [c Hc]; [lia|]. rewrite Hc.
      destruct (IH (results ++ [mkResult c (similarity d)]) Hrest)
        as (rs & Heq & Hsc).
      exists (mkResult c (similarity d) :: rs). split.
      * rewrite Heq, <- app_assoc. reflexivity.
      * constructor; [|exact Hsc]. split; [exact Hc|reflexivity].
    + apply IH, Hrest.
Qed.

(** With every slot holding the distance [native idx] of its label [idx],
    a result built from a slot has the score of its entry. *)
Lemma from_slot_native (native : Z -> Q) (slots : list (Q * Z))
    (rs : list (Result C)) :
  Forall (fun p => fst p = native (snd p)) slots ->
  Forall2 (from_slot chunks) slots rs ->
  Forall2 (fun idx r => Py.index chunks idx = Returns (chunk r)
                        /\ score r = similarity (native idx))
    (map snd slots) rs
  /\ map score rs = map similarity (map fst slots)
  /\ map fst slots = map native (map snd slots).
Proof.
  intros Hnat H2. induction H2 as [|p r slots rs [Hc Hs] H2 IH].
  - repeat split; constructor.
  - inversion Hnat as [|? ? Hp Hrest]; subst.
    destruct (IH Hrest) as (IH1 & IH2 & IH3). cbn [map].
    split; [|split].
    + constructor; [|exact IH1]. split; [exact Hc|]. now rewrite Hs, Hp.
    + now rewrite Hs, IH2.
    + now rewrite Hp, IH3.
Qed.

(** The loop of [FAISSIndexManager.search] reads the same distances as the
    [zip] of [FAISSVectorStore.search] when the two arrays have one length. *)
Lemma manager_loop_zip (dists : list Q) (ls : list Z) :
  forall pre ds results,
    dists = pre ++ ds ->
    length ds = length ls ->
    manager_loop chunks dists (enumerate_from (Py.len pre) ls) results
    = search_loop chunks (zip ds ls) results.
Proof.
  induction ls as [|i ls IH]; intros pre ds results Hd Hlen.
  - destruct ds; reflexivity.
  - destruct ds as [|d ds]; [discriminate|].
    cbn [enumerate_from manager_loop zip zip_with search_loop].
    assert (Hidx : Py.index dists (Py.len pre) = Returns d).
    { unfold Py.index. pose proof (len_nonneg pre).
      destruct (Z.ltb_spec (Py.len pre) 0); [lia|].
      destruct (Z.ltb_spec (Py.len pre) 0); [lia|].
      unfold Py.len. rewrite Nat2Z.id, Hd, nth_error_app2 by lia.
      now rewrite Nat.sub_diag. }
    rewrite Hidx.
    assert (Hpre : (Py.len pre + 1)%Z = Py.len (pre ++ [d])).
    { unfold Py.len. rewrite length_app. cbn. lia. }
    rewrite Hpre.
    assert (Hd' : dists = (pre ++ [d]) ++ ds)
      by (rewrite <- app_assoc; exact Hd).
    cbn in Hlen.
    destruct (i <? Py.len chunks)%Z.
    + destruct (Py.index chunks i); try reflexivity.
      apply IH; [exact Hd'|lia].
    + apply IH; [exact Hd'|lia].
Qed.

Lemma manager_search_eq (out : search_output) :
  length (distances out) = length (labels out) ->
  FAISSIndexManager_search chunks out = FAISSVectorStore_search chunks out.
Proof.
  intros Hlen. unfold FAISSIndexManager_search, FAISSVectorStore_search.
  apply (manager_loop_zip (distances out) (labels out) []); auto.
Qed.

(** The distances of the accepted slots are still ascending. *)
Lemma accepted_sorted (ds : list Q) :
  forall ls,
    StronglySorted Qle ds ->
    StronglySorted Qle (map fst (List.filter guard (zip ds ls)))
    /\ Forall (fun d => In d ds)
         (map fst (List.filter guard (zip ds ls))).
Proof.
  induction ds as [|d ds IH]; intros ls Hs.
  - split; constructor.
  - destruct ls as [|l ls]; [split; constructor|].
    inversion Hs as [|? ? Hs' Hall]; subst.
    destruct (IH ls Hs') as [IHs IHin].
    assert (Hin' : Forall (fun x => In x (d :: ds))
                     (map fst (List.filter guard (zip ds ls)))).
    { eapply List.Forall_impl; [|exact IHin]. intros x Hx. now right. }
    cbn [zip zip_with List.filter]. cbn [snd].
    destruct (l <? Py.len chunks)%Z; [|split; assumption].
    cbn [map fst]. split.
    + constructor; [exact IHs|].
      eapply List.Forall_impl; [|exact IHin]. intros x Hx. cbn in Hx.
      rewrite Forall_forall in Hall. apply Hall.
      apply list_elem_of_In. exact Hx.
    + constructor; [now left|exact Hin'].
Qed.

Lemma similarity_sorted (ds : list Q) :
  Forall (fun d => 0 <= d)%Q ds ->
  StronglySorted Qle ds ->
  StronglySorted (fun s1 s2 => (s2 <= s1)%Q) (map similarity ds).
Proof.
  induction 2 as [|d ds Hs IH Hall]; cbn; constructor.
  - apply IH. now inversion H.
  - inversion H as [|? ? Hd Hds]; subst.
    rewrite Forall_forall in Hall. apply Forall_forall.
    intros s Hs'. apply list_elem_of_In, in_map_iff in Hs' as (d' & <- & Hd').
    apply similarity_antitone; [exact Hd|].
    apply Hall. now apply list_elem_of_In.
Qed.

End FaissSearch.

Lemma Forall_zip_snd {A B} (P : B -> Prop) (xs : list A) :
  forall ys, Forall P ys -> Forall (fun p => P (snd p)) (zip xs ys).
Proof.
  induction xs as [|x xs IH]; intros ys Hys; [constructor|].
  destruct ys as [|y ys]; [constructor|].
  inversion Hys; subst. constructor; [assumption|]. now apply IH.
Qed.

Lemma Forall_zip_native {B} (f : B -> Q) (ys : list B) :
  Forall (fun p => fst p = f (snd p)) (zip (map f ys) ys).
Proof. induction ys as [|y ys IH]; cbn; constructor; auto. Qed.

(** C2 (as the code has it). For the FAISS-backed searches,
    [FAISSVectorStore.search] and [FAISSIndexManager.search], on an answer
    of the index that holds stored entries only, nearest first: every label
    is at least 0 (no padding slot), every slot holds the native distance
    [native idx] of its label [idx], these distances are not negative and
    ascending. Then the search returns; the results are, in the order of
    the slots, the entries with a label below [len(chunks)]; each result is
    the chunk [chunks[idx]] of its label with the score
    [1 / (1 + native idx)] of that entry; every score lies in (0, 1]; and
    the scores are non-increasing along the returned list. *)
Theorem faiss_search_scores_normalised {C : Type} (chunks : list C)
    (native : Z -> Q) (out : Faiss.search_output) :
  Faiss.distances out = map native (Faiss.labels out) ->
  Forall (fun idx => 0 <= idx) (Faiss.labels out) ->
  Forall (fun idx => (0 <= native idx)%Q) (Faiss.labels out) ->
  Sorted Qle (Faiss.distances out) ->
  exists results,
    Faiss.FAISSVectorStore_search chunks out = Returns results
    /\ Faiss.FAISSIndexManager_search chunks out = Returns results
    /\ Forall2 (fun idx r =>
                  Py.index chunks idx = Returns (Faiss.chunk r)
                  /\ Faiss.score r = Faiss.similarity (native idx))
         (map snd (Faiss.accepted chunks out)) results
    /\ Forall (fun idx => 0 <= idx < Py.len chunks)
         (map snd (Faiss.accepted chunks out))
    /\ scores_normalised (map Faiss.score results)
         (map native (map snd (Faiss.accepted chunks out))).
Proof.
  intros Hnat Hlabels Hnonneg Hsorted.
  assert (Hlen : length (Faiss.distances out) = length (Faiss.labels out))
    by now rewrite Hnat, length_map.
  assert (Hpos : Forall (fun d => (0 <= d)%Q) (Faiss.distances out)).
  { rewrite Hnat. apply List.Forall_map. exact Hnonneg. }
  pose proof (len_nonneg chunks) as Hchunks.
  destruct (search_loop_results chunks
              (zip (Faiss.distances out) (Faiss.labels out)) [])
    as (rs & Heq & Hrs).
  { apply (Forall_zip_snd (fun i => - Py.len chunks <= i)).
    eapply List.Forall_impl; [|exact Hlabels]. cbn beta. intros i Hi. lia. }
  cbn [app] in Heq. fold (Faiss.accepted chunks out) in Hrs.
  assert (Hslots : Forall (fun p => fst p = native (snd p))
                     (Faiss.accepted chunks out)).
  { unfold Faiss.accepted. rewrite Hnat.
    pose proof (Forall_zip_native native (Faiss.labels out)) as Hz.
    rewrite List.Forall_forall in Hz. apply List.Forall_forall.
    intros p Hp. apply filter_In in Hp as [Hp _]. now apply Hz. }
  destruct (from_slot_native chunks native _ rs Hslots Hrs)
    as (Hres & Hsc & Hfst).
  exists rs. split; [exact Heq|]. split; [now rewrite manager_search_eq|].
  split; [exact Hres|]. split.
  { apply List.Forall_map. unfold Faiss.accepted.
    apply List.Forall_forall. intros [d i] Hin.
    apply filter_In in Hin as [Hin Hg]. cbn [snd] in *.
    apply Z.ltb_lt in Hg. split; [|exact Hg].
    assert (Hi : In i (Faiss.labels out)).
    { apply list_elem_of_In, elem_of_zip_r in Hin. now apply list_elem_of_In. }
    rewrite List.Forall_forall in Hlabels. now apply Hlabels. }
  assert (Hss : StronglySorted Qle (Faiss.distances out)).
  { apply Sorted_StronglySorted; [|exact Hsorted].
    intros x y z. apply Qle_trans. }
  destruct (accepted_sorted chunks (Faiss.distances out) (Faiss.labels out)
              Hss) as [Hacc Hin].
  fold (Faiss.accepted chunks out) in Hacc, Hin.
  assert (Hge : Forall (fun d => (0 <= d)%Q)
                  (map fst (Faiss.accepted chunks out))).
  { eapply List.Forall_impl; [|exact Hin]. intros d Hd.
    rewrite List.Forall_forall in Hpos. now apply Hpos. }
  unfold scores_normalised. rewrite Hsc, <- Hfst.
  split; [reflexivity|]. split.
  - apply List.Forall_forall. intros s Hs.
    apply in_map_iff in Hs as (d & <- & Hd).
    rewrite List.Forall_forall in Hge.
    split; [apply similarity_pos|apply similarity_le_1]; now apply Hge.
  - apply StronglySorted_Sorted. now apply similarity_sorted.
Qed.

(** The theorem at an index of three vectors, asked for the two nearest to
    the origin; the native distance of an entry is its squared Euclidean
    distance to the query. *)
Lemma faiss_search_scores_normalised_witness :
  let chunks := ["a"; "b"; "c"]%string in
  let xb := [[0; 0]; [3; 4]; [1; 0]]%Q in
  let native := fun idx : Z =>
    Faiss.l2_sqr [0; 0]%Q (nth (Z.to_nat idx) xb []) in
  let out := Faiss.IndexFlatL2_search xb [0; 0]%Q 2 in
  exists results,
    Faiss.FAISSVectorStore_search chunks out = Returns results
    /\ Faiss.FAISSIndexManager_search chunks out = Returns results
    /\ Forall2 (fun idx r =>
                  Py.index chunks idx = Returns (Faiss.chunk r)
                  /\ Faiss.score r = Faiss.similarity (native idx))
         (map snd (Faiss.accepted chunks out)) results
    /\ Forall (fun idx => 0 <= idx < Py.len chunks)
         (map snd (Faiss.accepted chunks out))
    /\ scores_normalised (map Faiss.score results)
         (map native (map snd (Faiss.accepted chunks out))).
Proof.
  apply (faiss_search_scores_normalised ["a"; "b"; "c"]%string
           (fun idx : Z =>
              Faiss.l2_sqr [0; 0]%Q
                (nth (Z.to_nat idx) [[0; 0]; [3; 4]; [1; 0]]%Q []))
           (Faiss.IndexFlatL2_search
              [[0; 0]; [3; 4]; [1; 0]]%Q [0; 0]%Q 2)).
  - vm_compute. reflexivity.
  - vm_compute. repeat constructor; intro H; discriminate H.
  - vm_compute. repeat constructor; intro H; discriminate H.
  - vm_compute. repeat constructor; intro H; discriminate H.
Defined.

Example faiss_search_example :
  Faiss.FAISSVectorStore_search ["a"; "b"; "c"]%string
    (Faiss.IndexFlatL2_search [[0; 0]; [3; 4]; [1; 0]]%Q [0; 0]%Q 2)
  = Returns [Faiss.mkResult "a"%string (1 / (1 + (0 # 1)))%Q;
             Faiss.mkResult "c"%string (1 / (1 + (1 # 1)))%Q].
Proof. vm_compute. reflexivity. Qed.

(** ** The reference model of the flat index meets the contract *)

Section FlatIndex.
Import Faiss.
Local Open Scope Q_scope.

Local Abbreviation by_distance := (fun p q : Q * Z => fst p <= fst q).

Lemma Qsquare_nonneg (a : Q) : 0 <= a * a.
Proof.
  destruct (Qlt_le_dec a 0) as [Hneg|Hpos].
  - assert (H : a * a == (- a) * (- a)) by ring. rewrite H.
    apply Qmult_le_0_compat; lra.
  - now apply Qmult_le_0_compat.
Qed.

Lemma l2_sqr_nonneg (x y : list Q) : 0 <= l2_sqr x y.
Proof.
  revert y. induction x as [|a x IH]; intros [|b y]; cbn; try lra.
  specialize (IH y). pose proof (Qsquare_nonneg (a - b)). lra.
Qed.

Lemma insert_by_distance_in (e x : Q * Z) (l : list (Q * Z)) :
  In x (insert_by_distance e l) <-> x = e \/ In x l.
Proof.
  induction l as [|y l IH]; cbn; [intuition|].
  destruct (Qle_bool (fst e) (fst y)); cbn; [intuition|].
  rewrite IH. intuition.
Qed.

Lemma sort_by_distance_in (x : Q * Z) (l : list (Q * Z)) :
  In x (sort_by_distance l) <-> In x l.
Proof.
  induction l as [|y l IH]; cbn; [reflexivity|].
  rewrite insert_by_distance_in, IH. intuition.
Qed.

Lemma insert_by_distance_sorted (e : Q * Z) (l : list (Q * Z)) :
  StronglySorted by_distance l ->
  StronglySorted by_distance (insert_by_distance e l).
Proof.
  induction 1 as [|y l Hs IH Hall]; cbn; [repeat constructor|].
  destruct (Qle_bool (fst e) (fst y)) eqn:E.
  - apply Qle_bool_iff in E. constructor; [now constructor|].
    constructor; [exact E|].
    eapply List.Forall_impl; [|exact Hall]. intros z Hz. cbn in *. lra.
  - assert (Hlt : fst y <= fst e).
    { destruct (Qlt_le_dec (fst y) (fst e)) as [Hlt|Hle]; [lra|].
      apply Qle_bool_iff in Hle. congruence. }
    constructor; [exact IH|].
    apply List.Forall_forall. intros z Hz.
    apply insert_by_distance_in in Hz as [->|Hz]; [exact Hlt|].
    rewrite List.Forall_forall in Hall. now apply Hall.
Qed.

Lemma sort_by_distance_sorted (l : list (Q * Z)) :
  StronglySorted by_distance (sort_by_distance l).
Proof.
  induction l as [|y l IH]; cbn; [constructor|].
  now apply insert_by_distance_sorted.
Qed.

Lemma in_firstn {A} (n : nat) (l : list A) (x : A) :
  In x (firstn n l) -> In x l.
Proof.
  revert n. induction l as [|y l IH]; intros [|n] Hin; cbn in *; try tauto.
  destruct Hin as [->|Hin]; [now left|right; eapply IH, Hin].
Qed.

Lemma firstn_sorted (n : nat) (l : list (Q * Z)) :
  StronglySorted by_distance l -> StronglySorted by_distance (firstn n l).
Proof.
  intros Hs. revert n. induction Hs as [|y l Hs IH Hall]; intros [|n]; cbn;
    try constructor.
  - apply IH.
  - apply List.Forall_forall. intros z Hz. apply in_firstn in Hz.
    rewrite List.Forall_forall in Hall. now apply Hall.
Qed.

Lemma padded_sorted (l : list (Q * Z)) (n : nat) :
  StronglySorted by_distance l ->
  Forall (fun p => fst p <= FLT_MAX) l ->
  StronglySorted by_distance (l ++ repeat (FLT_MAX, (-1)%Z) n).
Proof.
  induction 1 as [|y l Hs IH Hall]; intros Hmax; cbn.
  - induction n as [|n IHn]; cbn; constructor; [exact IHn|].
    apply List.Forall_forall. intros z Hz. apply repeat_spec in Hz.
    subst z. cbn. lra.
  - inversion Hmax as [|? ? Hy Hrest]; subst.
    constructor; [now apply IH|].
    apply Forall_app. split; [exact Hall|].
    apply List.Forall_forall. intros z Hz. apply repeat_spec in Hz.
    subst z. exact Hy.
Qed.

Lemma enumerate_from_labels {A} (l : list A) :
  forall (i : Z) e, In e (enumerate_from i l) ->
    (i <= fst e < i + Z.of_nat (length l))%Z.
Proof.
  induction l as [|x l IH]; intros i e Hin; [destruct Hin|].
  cbn [enumerate_from] in Hin. destruct Hin as [<-|Hin].
  - cbn. lia.
  - apply IH in Hin. cbn [length]. lia.
Qed.

(** What the searches of the repository assume of [index.search] holds of
    the reference model, for an index whose distances to the query do not
    exceed [FLT_MAX]. *)
Lemma IndexFlatL2_search_contract (xb : list (list Q)) (query : list Q)
    (k : nat) :
  Forall (fun x => l2_sqr query x <= FLT_MAX) xb ->
  let out := IndexFlatL2_search xb query k in
  length (distances out) = length (labels out)
  /\ length (labels out) = k
  /\ Sorted Qle (distances out)
  /\ Forall (fun d => 0 <= d) (distances out)
  /\ Forall (fun i => (-1 <= i < Z.of_nat (length xb))%Z) (labels out).
Proof.
  intros Hmax out. subst out. unfold IndexFlatL2_search.
  set (scored := map _ (enumerate_from 0%Z xb)).
  set (nearest := firstn k (sort_by_distance scored)).
  set (slots := nearest ++ repeat (FLT_MAX, (-1)%Z) (k - length nearest)).
  cbn [distances labels].
  assert (Hscored : forall p, In p scored ->
            0 <= fst p <= FLT_MAX
            /\ (0 <= snd p < Z.of_nat (length xb))%Z).
  { intros p Hp. unfold scored in Hp.
    apply in_map_iff in Hp as ([i x] & <- & Hin). cbn [fst snd].
    split.
    - split; [apply l2_sqr_nonneg|].
      rewrite List.Forall_forall in Hmax. apply Hmax.
      clear - Hin. revert Hin. generalize 0%Z.
      induction xb as [|y l IH]; intros z Hin; [destruct Hin|].
      cbn [enumerate_from] in Hin. destruct Hin as [Heq|Hin].
      + injection Heq as _ ->. now left.
      + right. eapply IH, Hin.
    - apply enumerate_from_labels in Hin. cbn in Hin. lia. }
  assert (Hnearest : forall p, In p nearest -> In p scored).
  { intros p Hp. unfold nearest in Hp. apply in_firstn in Hp.
    apply (proj1 (sort_by_distance_in p scored)), Hp. }
  assert (Hslots : forall p, In p slots ->
            0 <= fst p /\ (-1 <= snd p < Z.of_nat (length xb))%Z).
  { intros p Hp. unfold slots in Hp. apply in_app_or in Hp as [Hp|Hp].
    - destruct (Hscored p (Hnearest p Hp)) as [[? ?] ?]. split; [lra|lia].
    - apply repeat_spec in Hp. subst p. cbn. split; [unfold FLT_MAX; lra|].
      lia. }
  split; [now rewrite !length_map|]. split; [|split; [|split]].
  - rewrite length_map. unfold slots. rewrite length_app, repeat_length.
    assert (length nearest <= k)%nat
      by (unfold nearest; rewrite length_firstn; lia).
    lia.
  - apply StronglySorted_Sorted.
    assert (Hs : StronglySorted by_distance slots).
    { apply padded_sorted.
      - apply firstn_sorted, sort_by_distance_sorted.
      - apply List.Forall_forall. intros p Hp.
        now destruct (Hscored p (Hnearest p Hp)) as [[? ?] ?]. }
    clear - Hs. induction Hs as [|y l Hs IH Hall]; cbn; constructor.
    + exact IH.
    + apply List.Forall_forall. intros d Hd.
      apply in_map_iff in Hd as (p & <- & Hp).
      rewrite List.Forall_forall in Hall. now apply Hall.
  - apply List.Forall_forall. intros d Hd.
    apply in_map_iff in Hd as (p & <- & Hp). now apply Hslots.
  - apply List.Forall_forall. intros i Hi.
    apply in_map_iff in Hi as (p & <- & Hp). now apply Hslots.
Qed.

End FlatIndex.

(** A search with [k] above the number of stored entries returns [k]
    results, never fewer: every padding label passes the guard and is read
    as the last chunk. *)
Lemma faiss_search_returns_every_slot {C : Type} (chunks : list C)
    (xb : list (list Q)) (query : list Q) (k : nat) :
  chunks <> [] ->
  length chunks = length xb ->
  Forall (fun x => (Faiss.l2_sqr query x <= Faiss.FLT_MAX)%Q) xb ->
  exists results,
    Faiss.FAISSVectorStore_search chunks
      (Faiss.IndexFlatL2_search xb query k) = Returns results
    /\ length results = k.
Proof.
  intros Hne Hlen Hmax.
  destruct (IndexFlatL2_search_contract xb query k Hmax)
    as (Hl1 & Hl2 & Hsorted & Hpos & Hlabels).
  set (out := Faiss.IndexFlatL2_search xb query k) in *.
  assert (Hlen' : (0 < length chunks)%nat)
    by (destruct chunks; [congruence|cbn; lia]).
  destruct (search_loop_scores chunks
              (zip (Faiss.distances out) (Faiss.labels out)) [])
    as (results & Heq & Hsc).
  { apply (Forall_zip_snd (fun i => - Py.len chunks <= i)).
    eapply List.Forall_impl; [|exact Hlabels]. intros i Hi.
    unfold Py.len. cbn beta in Hi. lia. }
  cbn [app] in Heq. fold (Faiss.accepted chunks out) in Hsc.
  exists results. split; [exact Heq|].
  apply (f_equal (@length Q)) in Hsc. rewrite !length_map in Hsc.
  rewrite Hsc. unfold Faiss.accepted.
  rewrite List.forallb_filter_id.
  - rewrite length_zip_with. lia.
  - apply forallb_forall. intros [d i] Hin. cbn [snd].
    apply Z.ltb_lt.
    assert (Hi : In i (Faiss.labels out)).
    { apply list_elem_of_In, elem_of_zip_r in Hin. now apply list_elem_of_In. }
    rewrite List.Forall_forall in Hlabels. specialize (Hlabels i Hi).
    unfold Py.len. lia.
Qed.

(** ** Chroma search *)

Lemma index_nth {A} (l : list A) (n : nat) (x : A) :
  nth_error l n = Some x -> Py.index l (Z.of_nat n) = Returns x.
Proof.
  intros Hn. unfold Py.index.
  destruct (Z.ltb_spec (Z.of_nat n) 0); [lia|].
  destruct (Z.ltb_spec (Z.of_nat n) 0); [lia|].
  now rewrite Nat2Z.id, Hn.
Qed.

Lemma skipn_nth {A} (l : list A) (n : nat) (x : A) :
  nth_error l n = Some x -> skipn n l = x :: skipn (S n) l.
Proof.
  revert l. induction n as [|n IH]; intros [|y l] Hn; try discriminate.
  - now inversion Hn.
  - cbn [skipn]. now apply IH.
Qed.

Lemma hits_loop_scores (r : Chroma.QueryResult) (docs : list string) :
  forall (n : nat) hits,
    (length docs + n)%nat = length (Chroma.ids r) ->
    (length docs + n)%nat = length (Chroma.distances r) ->
    (length docs + n)%nat = length (Chroma.metadatas r) ->
    exists hs,
      Chroma.hits_loop r (Faiss.enumerate_from (Z.of_nat n) docs) hits
        = Returns (hits ++ hs)
      /\ map Chroma.score hs = skipn n (Chroma.distances r).
Proof.
  induction docs as [|doc docs IH]; intros n hits Hi Hd Hm.
  - exists []. rewrite app_nil_r. split; [reflexivity|].
    cbn in Hd. rewrite skipn_all2 by lia. reflexivity.
  - cbn [length] in *. cbn [Faiss.enumerate_from Chroma.hits_loop].
    destruct (nth_error (Chroma.ids r) n) as [i|] eqn:Ei;
      [|apply nth_error_None in Ei; lia].
    destruct (nth_error (Chroma.distances r) n) as [d|] eqn:Ed;
      [|apply nth_error_None in Ed; lia].
    destruct (nth_error (Chroma.metadatas r) n) as [m|] eqn:Em;
      [|apply nth_error_None in Em; lia].
    rewrite (index_nth _ _ _ Ei), (index_nth _ _ _ Ed), (index_nth _ _ _ Em).
    replace (Z.of_nat n + 1) with (Z.of_nat (S n)) by lia.
    destruct (IH (S n) (hits ++ [Chroma.mkHit i d doc m]))
      as (hs & Heq & Hsc); [lia..|].
    exists (Chroma.mkHit i d doc m :: hs). split.
    + rewrite Heq, <- app_assoc. reflexivity.
    + cbn [map Chroma.score]. rewrite Hsc. symmetry. now apply skipn_nth.
Qed.

(** [ChromaVectorStore.search] reports, as the score of a hit, the distance
    of the query result unchanged. *)
Lemma chroma_search_scores_are_distances (r : Chroma.QueryResult) :
  length (Chroma.documents r) = length (Chroma.ids r) ->
  length (Chroma.documents r) = length (Chroma.distances r) ->
  length (Chroma.documents r) = length (Chroma.metadatas r) ->
  exists hits,
    Chroma.search r = Returns hits
    /\ map Chroma.score hits = Chroma.distances r.
Proof.
  intros Hi Hd Hm.
  destruct (hits_loop_scores r (Chroma.documents r) 0 []) as (hs & Heq & Hsc);
    [lia..|].
  exists hs. split; [exact Heq|exact Hsc].
Qed.

(** C2, where it fails. A Chroma query answers nearest first, here an exact
    match at distance 0 and a second document at distance 3. The hits carry
    the scores 0 and 3: not [1 / (1 + distance)], not in (0, 1], and
    increasing along the list. *)
Lemma chroma_scores_not_normalised :
  let r := Chroma.mkQueryResult ["d1"; "d2"]%string
             ["first"; "second"]%string [∅; ∅] [0; 3]%Q in
  exists hits,
    Chroma.search r = Returns hits
    /\ map Chroma.score hits = [0; 3]%Q
    /\ ~ scores_normalised (map Chroma.score hits) (Chroma.distances r).
Proof.
  eexists. split; [reflexivity|]. split; [reflexivity|].
  intros (_ & Hrange & _). cbn in Hrange.
  inversion Hrange as [|? ? [Hpos _] _]; subst.
  revert Hpos. vm_compute. discriminate.
Qed.

(** ** A search for more neighbours than the index holds *)

(** The flat index pads its answer. *)
Example IndexFlatL2_search_pads :
  Faiss.IndexFlatL2_search [[1; 0]]%Q [0; 0]%Q 2
  = Faiss.mkOutput [1; Faiss.FLT_MAX]%Q [0; -1].
Proof. vm_compute. reflexivity. Qed.

(** C3. An index of one entry, searched with [k = 2]: FAISS answers the
    labels [0; -1], the guard [idx < len(chunks)] lets [-1] through, and
    [chunks[-1]] is the last chunk. Both searches return two results for the
    one stored entry. *)
Theorem faiss_search_k_above_count_returns_k :
  let chunks := ["only chunk"%string] in
  let out := Faiss.IndexFlatL2_search [[1; 0]]%Q [0; 0]%Q 2 in
  Faiss.FAISSVectorStore_search chunks out
  = Returns [Faiss.mkResult "only chunk"%string (Faiss.similarity 1);
             Faiss.mkResult "only chunk"%string
               (Faiss.similarity Faiss.FLT_MAX)]
  /\ Faiss.FAISSIndexManager_search chunks out
     = Faiss.FAISSVectorStore_search chunks out
  /\ length chunks = 1%nat.
Proof. vm_compute. repeat split; reflexivity. Qed.

(** ** Purge of expired trials *)

Section PurgeLoop.
Import Purge.

Variable now : Z.

(** The stems of the listed sidecars that are readable and expired. *)
Local Abbreviation expired_stems :=
  (fun listing : list (string * JsonFile) =>
     (filter (fun e => is_expired now e.2) listing).*1).

Lemma purge_step_expired (d : Dir) (n : Z) (stem : string) (md : Metadata) :
  expires_at md < now ->
  purge_step now (d, n) (stem, Some md)
  = (mkDir (delete stem (metas d)) (indexes d ∖ {[trial_token md]}), n + 1).
Proof.
  intros H. cbn. destruct (Z.gtb_spec now (expires_at md)); [reflexivity|lia].
Qed.

Lemma purge_step_kept (d : Dir) (n : Z) (stem : string) (file : JsonFile) :
  is_expired now file = false ->
  purge_step now (d, n) (stem, file) = (d, n).
Proof.
  intros H. destruct file as [md|]; [|reflexivity]. cbn in *.
  destruct (Z.ltb_spec (expires_at md) now); [discriminate|].
  destruct (Z.gtb_spec now (expires_at md)); [lia|reflexivity].
Qed.

Lemma purge_loop_fold (listing : list (string * JsonFile)) :
  forall d n,
    (forall stem md, (stem, Some md) ∈ listing -> trial_token md = stem) ->
    let r := foldl (purge_step now) (d, n) listing in
    (forall t, metas r.1 !! t
               = if decide (t ∈ expired_stems listing) then None
                 else metas d !! t)
    /\ (forall t, t ∈ indexes r.1
                  <-> t ∈ indexes d /\ t ∉ expired_stems listing)
    /\ r.2 = n + Z.of_nat (length (expired_stems listing)).
Proof.
  induction listing as [|[stem file] listing IH]; intros d n Hcons.
  - cbn. split; [|split].
    + intros t. rewrite decide_False; [reflexivity|set_solver].
    + set_solver.
    + lia.
  - cbn [foldl].
    assert (Hcons' : forall s md, (s, Some md) ∈ listing -> trial_token md = s)
      by (intros s md Hin; apply Hcons; set_solver).
    destruct (is_expired now file) eqn:Hexp.
    + destruct file as [md|]; [|discriminate]. cbn in Hexp.
      apply Z.ltb_lt in Hexp.
      assert (Htok : trial_token md = stem) by (apply Hcons; set_solver).
      rewrite purge_step_expired by exact Hexp. rewrite Htok.
      destruct (IH (mkDir (delete stem (metas d)) (indexes d ∖ {[stem]}))
                  (n + 1) Hcons') as (Hm & Hi & Hn).
      rewrite filter_cons_True by (cbn; now apply Is_true_true, Z.ltb_lt).
      cbn [fmap list_fmap fst length] in *. split; [|split].
      * intros t. rewrite Hm. cbn [metas].
        destruct (decide (t = stem)) as [->|Hne].
        -- rewrite (decide_True (P := stem ∈ stem :: _)) by set_solver.
           destruct (decide _); [reflexivity|apply lookup_delete_eq].
        -- rewrite lookup_delete_ne by congruence.
           destruct (decide (t ∈ _)) as [Hin|Hnin].
           ++ rewrite decide_True by set_solver. reflexivity.
           ++ rewrite decide_False by set_solver. reflexivity.
      * intros t. rewrite Hi. cbn [indexes]. set_solver.
      * rewrite Hn. lia.
    + rewrite purge_step_kept by exact Hexp.
      rewrite filter_cons_False
        by (cbn; rewrite Hexp; exact (fun H => H)).
      apply IH, Hcons'.
Qed.

End PurgeLoop.

Lemma save_consistent (token : string) (now : Z) (d : Purge.Dir) :
  Purge.consistent d -> Purge.consistent (Purge.save token now d).
Proof.
  intros Hc stem md. unfold Purge.save. cbn [Purge.metas].
  destruct (decide (stem = token)) as [->|Hne].
  - rewrite lookup_insert_eq. intros [= <-]. reflexivity.
  - rewrite lookup_insert_ne by congruence. apply Hc.
Qed.

Lemma elem_of_expired (now : Z) (d : Purge.Dir) (t : string) :
  t ∈ Purge.expired now d
  <-> exists md, Purge.metas d !! t = Some (Some md)
                 /\ Purge.expires_at md < now.
Proof.
  unfold Purge.expired. rewrite elem_of_dom. unfold is_Some.
  split.
  - intros [file Hf]. apply map_lookup_filter_Some in Hf as [Hl Hexp].
    cbn in Hexp. destruct file as [md|]; [|contradiction].
    exists md. split; [exact Hl|]. cbn in Hexp.
    apply Is_true_true, Z.ltb_lt in Hexp. exact Hexp.
  - intros (md & Hl & Hexp). exists (Some md).
    apply map_lookup_filter_Some. split; [exact Hl|].
    cbn. apply Is_true_true, Z.ltb_lt. exact Hexp.
Qed.

Lemma expired_stems_map_to_list (now : Z) (d : Purge.Dir) (t : string) :
  t ∈ (filter (fun e => Purge.is_expired now e.2)
         (map_to_list (Purge.metas d))).*1
  <-> t ∈ Purge.expired now d.
Proof.
  rewrite elem_of_expired, list_elem_of_fmap. split.
  - intros ([s file] & -> & Hin). apply list_elem_of_filter in Hin as [Hexp Hin].
    apply elem_of_map_to_list in Hin. cbn in *.
    destruct file as [md|]; [|contradiction].
    exists md. split; [exact Hin|].
    cbn in Hexp. apply Is_true_true, Z.ltb_lt in Hexp. exact Hexp.
  - intros (md & Hl & Hexp). exists (t, Some md). split; [reflexivity|].
    apply list_elem_of_filter. split.
    + cbn. apply Is_true_true, Z.ltb_lt. exact Hexp.
    + apply elem_of_map_to_list. exact Hl.
Qed.

(** C6. On a directory whose sidecars were written by [save] (the token
    inside is the stem of the file), a purge at time [now] leaves no sidecar
    and no index for a tenant whose [expires_at] is before [now]; it leaves
    the sidecar and the index of every other tenant as they were; and the
    count it returns is the number of tenants it deleted. *)
Theorem purge_expired_trials_correct (now : Z) (d : Purge.Dir) :
  Purge.consistent d ->
  let r := Purge.purge_expired_trials now d in
  (forall t md,
     Purge.metas d !! t = Some (Some md) -> Purge.expires_at md < now ->
     Purge.metas r.1 !! t = None /\ t ∉ Purge.indexes r.1)
  /\ (forall t md,
        Purge.metas d !! t = Some (Some md) -> now <= Purge.expires_at md ->
        Purge.metas r.1 !! t = Some (Some md)
        /\ (t ∈ Purge.indexes r.1 <-> t ∈ Purge.indexes d))
  /\ (forall t, t ∉ Purge.expired now d ->
        Purge.metas r.1 !! t = Purge.metas d !! t
        /\ (t ∈ Purge.indexes r.1 <-> t ∈ Purge.indexes d))
  /\ r.2 = Z.of_nat (size (Purge.expired now d))
  /\ Purge.expired now d = dom (Purge.metas d) ∖ dom (Purge.metas r.1).
Proof.
  intros Hcons r. subst r.
  unfold Purge.purge_expired_trials, Purge.purge_loop.
  destruct (purge_loop_fold now (map_to_list (Purge.metas d)) d 0)
    as (Hm & Hi & Hn).
  { intros stem md Hin. apply Hcons. now apply elem_of_map_to_list. }
  set (r := foldl (Purge.purge_step now) (d, 0) (map_to_list (Purge.metas d)))
    in *.
  assert (Hkeep : forall t, t ∉ Purge.expired now d ->
            Purge.metas r.1 !! t = Purge.metas d !! t
            /\ (t ∈ Purge.indexes r.1 <-> t ∈ Purge.indexes d)).
  { intros t Hnot. rewrite <- expired_stems_map_to_list in Hnot. split.
    - rewrite Hm. now rewrite decide_False.
    - rewrite Hi. tauto. }
  assert (Hgone : forall t, t ∈ Purge.expired now d ->
            Purge.metas r.1 !! t = None /\ t ∉ Purge.indexes r.1).
  { intros t Hexp. rewrite <- expired_stems_map_to_list in Hexp. split.
    - rewrite Hm. now rewrite decide_True.
    - rewrite Hi. tauto. }
  split; [|split; [|split; [|split]]].
  - intros t md Hl Hexp. apply Hgone, elem_of_expired. eauto.
  - intros t md Hl Hexp.
    destruct (Hkeep t) as [Hk1 Hk2].
    + rewrite elem_of_expired. intros (md' & Hl' & Hexp').
      rewrite Hl in Hl'. inversion Hl'; subst. lia.
    + rewrite Hk1. auto.
  - exact Hkeep.
  - rewrite Hn, Z.add_0_l. f_equal.
    rewrite <- (size_list_to_set (C := gset string)).
    + f_equal. apply set_eq. intros t.
      rewrite elem_of_list_to_set. apply expired_stems_map_to_list.
    + apply (sublist_NoDup _ (map_to_list (Purge.metas d)).*1).
      * apply NoDup_fst_map_to_list.
      * apply fmap_sublist, sublist_filter.
  - apply set_eq. intros t. rewrite elem_of_difference, !elem_of_dom. split.
    + intros Hexp. destruct (Hgone t Hexp) as [Hnone _].
      apply elem_of_expired in Hexp as (md & Hl & _).
      rewrite Hl, Hnone. split; [eauto|]. intros [? ?]; discriminate.
    + intros [Hin Hout].
      destruct (decide (t ∈ Purge.expired now d)) as [|Hnot]; [assumption|].
      destruct (Hkeep t Hnot) as [Heq _]. rewrite Heq in Hout. contradiction.
Qed.

Lemma empty_dir_consistent : Purge.consistent (Purge.mkDir ∅ ∅).
Proof. intros stem md H. cbn in H. rewrite lookup_empty in H. discriminate. Qed.

(** The theorem on a directory with one trial saved long ago and one saved
    just before the purge. *)
Lemma purge_expired_trials_correct_witness :
  let d := Purge.save "tr_new" 900000
             (Purge.save "tr_old" 100 (Purge.mkDir ∅ ∅)) in
  let r := Purge.purge_expired_trials 1000000 d in
  (forall t md,
     Purge.metas d !! t = Some (Some md) -> Purge.expires_at md < 1000000 ->
     Purge.metas r.1 !! t = None /\ t ∉ Purge.indexes r.1)
  /\ (forall t md,
        Purge.metas d !! t = Some (Some md) ->
        1000000 <= Purge.expires_at md ->
        Purge.metas r.1 !! t = Some (Some md)
        /\ (t ∈ Purge.indexes r.1 <-> t ∈ Purge.indexes d))
  /\ (forall t, t ∉ Purge.expired 1000000 d ->
        Purge.metas r.1 !! t = Purge.metas d !! t
        /\ (t ∈ Purge.indexes r.1 <-> t ∈ Purge.indexes d))
  /\ r.2 = Z.of_nat (size (Purge.expired 1000000 d))
  /\ Purge.expired 1000000 d = dom (Purge.metas d) ∖ dom (Purge.metas r.1).
Proof.
  apply (purge_expired_trials_correct 1000000
           (Purge.save "tr_new" 900000
              (Purge.save "tr_old" 100 (Purge.mkDir ∅ ∅)))).
  apply save_consistent, save_consistent, empty_dir_consistent.
Defined.

Example purge_example :
  let d := Purge.save "tr_new" 900000
             (Purge.save "tr_old" 100 (Purge.mkDir ∅ ∅)) in
  let r := Purge.purge_expired_trials 1000000 d in
  r.2 = 1
  /\ Purge.metas r.1 !! "tr_old"%string = None
  /\ Purge.metas r.1 !! "tr_new"%string
     = Some (Some (Purge.mkMetadata "tr_new" 900000 1159200))
  /\ Purge.indexes r.1 = {["tr_new"%string]}.
Proof. vm_compute. repeat split; reflexivity. Qed.

(** ** Crawlers *)

Section CrawlWeight.
Import Crawler.

Variable web : Web.
Variable depth_limit : Z.

Local Abbreviation weight := (frontier_weight web depth_limit).

Lemma frontier_weight_app (q1 q2 : list (string * Z)) :
  weight (q1 ++ q2) = (weight q1 + weight q2)%nat.
Proof. unfold frontier_weight. now rewrite map_app, list_sum_app. Qed.

Lemma subtree_weight_pos (n : nat) (url : string) :
  (1 <= subtree_weight web n url)%nat.
Proof. destruct n; cbn; lia. Qed.

Lemma list_sum_filter_le {A} (f : A -> nat) (p : A -> bool) (l : list A) :
  (list_sum (map f (List.filter p l)) <= list_sum (map f l))%nat.
Proof.
  unfold list_sum. induction l as [|x l IH]; cbn; [lia|].
  destruct (p x); cbn; lia.
Qed.

(** The entries a page enqueues weigh less than the page. *)
Lemma enqueue_weight (seen : gset string) (url : string) (depth : Z)
    (response : Response) :
  get web url = Some response ->
  depth < depth_limit ->
  (S (weight (enqueue seen depth (links response)))
   <= entry_weight web depth_limit (url, depth))%nat.
Proof.
  intros Hget Hd. unfold entry_weight, frontier_weight, enqueue. cbn [fst snd].
  replace (Z.to_nat (depth_limit - depth))
    with (S (Z.to_nat (depth_limit - (depth + 1)))) by lia.
  cbn [subtree_weight]. unfold links_of. rewrite Hget.
  apply le_n_S. rewrite map_map. cbn [fst snd].
  unfold entry_weight. cbn [fst snd].
  apply (list_sum_filter_le
           (subtree_weight web (Z.to_nat (depth_limit - (depth + 1))))).
Qed.

End CrawlWeight.

Section WebsiteCrawl.
Import Crawler.

Variable self : WebsiteCrawler.
Variable web : Web.

Local Abbreviation weight := (frontier_weight web (max_depth self)).

Lemma crawl_step_weight (st : State) :
  to_visit st <> [] ->
  (weight (to_visit (crawl_step self web st)) < weight (to_visit st))%nat.
Proof.
  intros Hne. unfold crawl_step.
  destruct (to_visit st) as [|[url depth] rest] eqn:Eq; [congruence|].
  assert (Hrest : (weight rest < weight ((url, depth) :: rest))%nat).
  { change ((url, depth) :: rest) with ([(url, depth)] ++ rest).
    rewrite frontier_weight_app.
    pose proof (subtree_weight_pos web
                  (Z.to_nat (max_depth self - depth)) url) as Hp.
    unfold frontier_weight at 2, entry_weight. cbn [map fst snd list_sum fold_right].
    unfold list_sum; cbn [fold_right]. lia. }
  cbn [to_visit visited crawled_pages].
  destruct (bool_decide _ || _); [exact Hrest|].
  destruct (negb (can_fetch web url)); [exact Hrest|].
  destruct (get web url) as [response|] eqn:Hget; [|exact Hrest].
  destruct (negb _); [exact Hrest|]. cbn [to_visit].
  destruct (Z.ltb_spec depth (max_depth self)) as [Hd|Hd]; [|exact Hrest].
  rewrite frontier_weight_app.
  pose proof (enqueue_weight web (max_depth self) ({[url]} ∪ visited st)
                url depth response Hget Hd) as Henq.
  change ((url, depth) :: rest) with ([(url, depth)] ++ rest).
  rewrite frontier_weight_app.
  unfold frontier_weight at 3. cbn [map]. unfold list_sum; cbn [fold_right].
  fold (list_sum (map (entry_weight web (max_depth self)) rest)).
  unfold frontier_weight in *. unfold list_sum in *. lia.
Qed.

Lemma crawl_step_pages (st : State) :
  Py.len (crawled_pages (crawl_step self web st))
  <= Py.len (crawled_pages st) + 1.
Proof.
  unfold crawl_step.
  destruct (to_visit st) as [|[url depth] rest]; [lia|].
  cbn [to_visit visited crawled_pages].
  destruct (bool_decide _ || _); [cbn; lia|].
  destruct (negb (can_fetch web url)); [cbn; lia|].
  destruct (get web url) as [response|]; [|cbn; lia].
  destruct (negb _); [cbn; lia|]. cbn [crawled_pages].
  destruct (_ >? 100); [|lia].
  unfold Py.len. rewrite length_app. cbn. lia.
Qed.

(** The loop returns once its fuel exceeds the weight of the frontier; the
    trace of its states ends in the returned state, the loop condition
    holds in every state before it and fails in it. *)
Lemma crawl_loop_returns (fuel : nat) :
  forall st,
    (weight (to_visit st) < fuel)%nat ->
    Py.len (crawled_pages st) <= Z.max 0 (max_pages self) ->
    exists states st',
      crawl_loop fuel self web st = Returns st'
      /\ crawl_trace fuel self web st = states ++ [st']
      /\ Forall (fun s => crawl_continues self s = true) states
      /\ crawl_continues self st' = false
      /\ Py.len (crawled_pages st') <= Z.max 0 (max_pages self).
Proof.
  induction fuel as [|f IH]; intros st Hw Hp; [lia|].
  cbn [crawl_loop crawl_trace].
  destruct (crawl_continues self st) eqn:Hc.
  - unfold crawl_continues in Hc. apply andb_true_iff in Hc as [Hq Hlen].
    apply Z.ltb_lt in Hlen.
    assert (Hne : to_visit st <> []).
    { intros E. rewrite E in Hq. discriminate. }
    destruct (IH (crawl_step self web st)) as (states & st' & H1 & H2 & H3 & H4).
    + pose proof (crawl_step_weight st Hne). lia.
    + pose proof (crawl_step_pages st). lia.
    + exists (st :: states), st'. split; [exact H1|].
      split; [now rewrite H2|]. split; [|exact H4].
      constructor; [|exact H3].
      unfold crawl_continues. apply andb_true_iff. split; [exact Hq|].
      now apply Z.ltb_lt.
  - exists [], st. repeat split; auto.
Qed.

End WebsiteCrawl.

Section WebCrawl.
Import Crawler.

Variable self : WebCrawler.
Variable web : Web.

Local Abbreviation weight := (frontier_weight web (wc_max_depth self)).

Lemma wc_step_weight (st : State) :
  to_visit st <> [] ->
  (weight (to_visit (wc_step self web st)) < weight (to_visit st))%nat.
Proof.
  intros Hne. unfold wc_step.
  destruct (to_visit st) as [|[url depth] rest] eqn:Eq; [congruence|].
  assert (Hrest : (weight rest < weight ((url, depth) :: rest))%nat).
  { change ((url, depth) :: rest) with ([(url, depth)] ++ rest).
    rewrite frontier_weight_app.
    pose proof (subtree_weight_pos web
                  (Z.to_nat (wc_max_depth self - depth)) url) as Hp.
    unfold frontier_weight at 2, entry_weight.
    cbn [map fst snd list_sum fold_right].
    unfold list_sum; cbn [fold_right]. lia. }
  cbn [to_visit visited crawled_pages].
  destruct (depth >? wc_max_depth self); [exact Hrest|].
  destruct (bool_decide _); [exact Hrest|].
  destruct (negb (same_domain web url)); [exact Hrest|].
  destruct (negb (can_fetch web url)); [exact Hrest|].
  destruct (get web url) as [response|] eqn:Hget; [|exact Hrest].
  destruct (raises_for_status response); [exact Hrest|].
  destruct (negb _); [exact Hrest|]. cbn [to_visit].
  destruct (Z.ltb_spec depth (wc_max_depth self)) as [Hd|Hd]; [|exact Hrest].
  rewrite frontier_weight_app.
  pose proof (enqueue_weight web (wc_max_depth self) ({[url]} ∪ visited st)
                url depth response Hget Hd) as Henq.
  change ((url, depth) :: rest) with ([(url, depth)] ++ rest).
  rewrite frontier_weight_app.
  unfold frontier_weight at 3. cbn [map]. unfold list_sum; cbn [fold_right].
  fold (list_sum (map (entry_weight web (wc_max_depth self)) rest)).
  unfold frontier_weight in *. unfold list_sum in *. lia.
Qed.

(** This loop is left with an empty frontier, and only then. *)
Lemma wc_loop_returns (fuel : nat) :
  forall st,
    (weight (to_visit st) < fuel)%nat ->
    exists st',
      wc_loop fuel self web st = Returns st' /\ to_visit st' = [].
Proof.
  induction fuel as [|f IH]; intros st Hw; [lia|].
  cbn [wc_loop]. unfold wc_continues.
  destruct (to_visit st) as [|e rest] eqn:Eq.
  - cbn. eauto.
  - cbn [length Nat.eqb negb]. apply IH.
    assert (Hne : to_visit st <> []) by congruence.
    pose proof (wc_step_weight st Hne) as Hlt. rewrite Eq in Hlt. lia.
Qed.

End WebCrawl.

(** C9 (as the code has it). [WebsiteCrawler.crawl] (ingest_worker.py), for
    a page limit that is not negative: the crawl returns; its loop goes on
    exactly while the frontier is not empty and fewer than [max_pages] pages
    were collected, so it is left with an empty frontier or with
    [max_pages] pages reached; and it returns at most [max_pages] pages.
    [WebCrawler.crawl] (ingest-worker.py) has no page limit: it returns, and
    its loop is left with an empty frontier only. *)
Theorem crawl_stops_at_empty_frontier_or_page_limit
    (self : Crawler.WebsiteCrawler) (web : Crawler.Web) :
  0 <= Crawler.max_pages self ->
  (exists states st,
     Crawler.crawl_final self web = Returns st
     /\ Crawler.crawl self web = Returns (Crawler.crawled_pages st)
     /\ Crawler.crawl_trace
          (S (Crawler.frontier_weight web (Crawler.max_depth self)
                [(Crawler.base_url self, 0)]))
          self web (Crawler.initial (Crawler.base_url self))
        = states ++ [st]
     /\ Forall (fun s => Crawler.to_visit s <> []
                         /\ Py.len (Crawler.crawled_pages s)
                            < Crawler.max_pages self) states
     /\ (Crawler.to_visit st = []
         \/ Crawler.max_pages self <= Py.len (Crawler.crawled_pages st))
     /\ Py.len (Crawler.crawled_pages st) <= Crawler.max_pages self)
  /\ (forall wc : Crawler.WebCrawler,
        exists st,
          Crawler.wc_crawl_final wc web = Returns st
          /\ Crawler.wc_crawl wc web = Returns (Crawler.crawled_pages st)
          /\ Crawler.to_visit st = []).
Proof.
  intros Hmax. split.
  - destruct (crawl_loop_returns self web
                (S (Crawler.frontier_weight web (Crawler.max_depth self)
                      [(Crawler.base_url self, 0)]))
                (Crawler.initial (Crawler.base_url self)))
      as (states & st & Hret & Htrace & Hcont & Hstop & Hlen).
    + cbn [Crawler.initial Crawler.to_visit]. lia.
    + unfold Py.len. cbn [Crawler.initial Crawler.crawled_pages length]. lia.
    + exists states, st. unfold Crawler.crawl, Crawler.crawl_final.
      rewrite Hret. split; [reflexivity|]. split; [reflexivity|].
      split; [exact Htrace|]. split; [|split; [|lia]].
      * eapply List.Forall_impl; [|exact Hcont]. intros s Hs.
        unfold Crawler.crawl_continues in Hs.
        apply andb_true_iff in Hs as [Hq Hl]. apply Z.ltb_lt in Hl.
        split; [|exact Hl]. intros E. rewrite E in Hq. discriminate.
      * unfold Crawler.crawl_continues in Hstop.
        apply andb_false_iff in Hstop as [Hq|Hl].
        -- left. destruct (Crawler.to_visit st); [reflexivity|discriminate].
        -- right. apply Z.ltb_ge in Hl. exact Hl.
  - intros wc.
    destruct (wc_loop_returns wc web
                (S (Crawler.frontier_weight web (Crawler.wc_max_depth wc)
                      [(Crawler.start_url wc, 0)]))
                (Crawler.initial (Crawler.start_url wc)))
      as (st & Hret & Hempty).
    + cbn [Crawler.initial Crawler.to_visit]. lia.
    + exists st. unfold Crawler.wc_crawl, Crawler.wc_crawl_final.
      rewrite Hret. auto.
Qed.

Lemma crawl_stops_at_empty_frontier_or_page_limit_witness :
  let self := Crawler.mkWebsiteCrawler ExampleSite.home 1 1 in
  let web := ExampleSite.web in
  (exists states st,
     Crawler.crawl_final self web = Returns st
     /\ Crawler.crawl self web = Returns (Crawler.crawled_pages st)
     /\ Crawler.crawl_trace
          (S (Crawler.frontier_weight web (Crawler.max_depth self)
                [(Crawler.base_url self, 0)]))
          self web (Crawler.initial (Crawler.base_url self))
        = states ++ [st]
     /\ Forall (fun s => Crawler.to_visit s <> []
                         /\ Py.len (Crawler.crawled_pages s)
                            < Crawler.max_pages self) states
     /\ (Crawler.to_visit st = []
         \/ Crawler.max_pages self <= Py.len (Crawler.crawled_pages st))
     /\ Py.len (Crawler.crawled_pages st) <= Crawler.max_pages self)
  /\ (forall wc : Crawler.WebCrawler,
        exists st,
          Crawler.wc_crawl_final wc web = Returns st
          /\ Crawler.wc_crawl wc web = Returns (Crawler.crawled_pages st)
          /\ Crawler.to_visit st = []).
Proof.
  apply (crawl_stops_at_empty_frontier_or_page_limit
           (Crawler.mkWebsiteCrawler ExampleSite.home 1 1) ExampleSite.web).
  cbn. lia.
Defined.

Example crawl_website_example :
  Crawler.crawl_website ExampleSite.job ExampleSite.web
  = Returns [Crawler.mkPage ExampleSite.home "Home" ExampleSite.body 0].
Proof. vm_compute. reflexivity. Qed.

(** C9, where it fails. The crawler of ingest-worker.py takes no page limit:
    on a job limited to one page it goes on after the first page and returns
    both pages of the site. *)
Lemma wc_crawl_ignores_page_limit :
  exists pages,
    Crawler.wc_crawl_website ExampleSite.job ExampleSite.web = Returns pages
    /\ length pages = 2%nat
    /\ Crawler.ds_max_pages ExampleSite.job = 1.
Proof. eexists. split; [vm_compute; reflexivity|]. split; reflexivity. Qed.

(** ** SHA-256 and the cache key *)

Example sha256_abc :
  Sha256.hexdigest (Embeddings.encode "abc")
  = "ba7816bf8f01cfea414140de5dae2223b00361a396177a9cb410ff61f20015ad"%string.
Proof. vm_compute. reflexivity. Qed.

Example sha256_empty :
  Sha256.hexdigest []
  = "e3b0c44298fc1c149afbf4c8996fb92427ae41e4649b934ca495991b7852b855"%string.
Proof. vm_compute. reflexivity. Qed.

(** Seventy bytes: two blocks. *)
Example sha256_two_blocks :
  Sha256.hexdigest (repeat 97 70)
  = "6bd5e5034855a11241f0dee8fc72850ffd9955b28347a86428b5fa19119f6ad0"%string.
Proof. vm_compute. reflexivity. Qed.

(** The key of tests/test_embeddings.py. *)
Example hash_key_example :
  Embeddings._hash_key "hello world" (Some "all-mpnet-base-v2"%string) "local"
  = "emb:4397237b2a5afc02333eb4f5453f5e333cdb146481bc85262e919f785e842006"%string.
Proof. vm_compute. reflexivity. Qed.

Section HashKey.
Import Embeddings.

Lemma encode_app (a b : string) :
  encode (String.append a b) = encode a ++ encode b.
Proof.
  unfold encode. induction a as [|c a IH]; [reflexivity|].
  simpl. f_equal. exact IH.
Qed.

Lemma encode_inj (a b : string) : encode a = encode b -> a = b.
Proof.
  unfold encode. revert b.
  induction a as [|c a IH]; intros [|c' b] H; cbn in H; try discriminate.
  - reflexivity.
  - inversion H as [[Hc Hrest]]. f_equal.
    + apply Nat2Z.inj in Hc.
      rewrite <- (ascii_nat_embedding c), <- (ascii_nat_embedding c').
      now rewrite Hc.
    + now apply IH.
Qed.

(** The first zero byte splits a byte string in one way only. *)
Lemma split_at_first_zero (l1 l2 r1 r2 : list Z) :
  ~ In 0 l1 -> ~ In 0 l2 ->
  l1 ++ [0] ++ r1 = l2 ++ [0] ++ r2 ->
  l1 = l2 /\ r1 = r2.
Proof.
  revert l2. induction l1 as [|x l1 IH]; intros [|y l2] H1 H2 Heq;
    cbn in Heq.
  - injection Heq as Htl. auto.
  - injection Heq as Hhd Htl. exfalso. apply H2. left. now symmetry.
  - injection Heq as Hhd Htl. exfalso. apply H1. now left.
  - injection Heq as Hhd Htl. subst y. destruct (IH l2) as [-> ->]; auto.
    + intros Hin. apply H1. now right.
    + intros Hin. apply H2. now right.
Qed.

Lemma hash_input_concat (text : string) (model : option string)
    (provider : string) :
  hash_input text model provider
  = encode (String.append provider (or_empty model)) ++ [0] ++ encode text.
Proof. unfold hash_input. rewrite encode_app, <- app_assoc. reflexivity. Qed.

End HashKey.

(** What the key does tell apart. The key is ["emb:"] and the SHA-256 of
    the bytes [provider ++ model ++ 0x00 ++ text]. When neither
    concatenation [provider ++ model] holds a zero byte, two lookups hash
    the same bytes exactly when their concatenations [provider ++ model]
    are equal and their texts are equal. *)
Lemma hash_input_separates_concatenations
    (t1 t2 : string) (m1 m2 : option string) (p1 p2 : string) :
  ~ In 0 (Embeddings.encode (String.append p1 (Embeddings.or_empty m1))) ->
  ~ In 0 (Embeddings.encode (String.append p2 (Embeddings.or_empty m2))) ->
  (Embeddings.hash_input t1 m1 p1 = Embeddings.hash_input t2 m2 p2
   <-> String.append p1 (Embeddings.or_empty m1)
       = String.append p2 (Embeddings.or_empty m2)
       /\ t1 = t2).
Proof.
  intros H1 H2. split.
  - rewrite !hash_input_concat. intros H.
    apply split_at_first_zero in H as [Hc Ht]; [|assumption..].
    split; [now apply encode_inj|now apply encode_inj].
  - intros [Hc Ht]. rewrite !hash_input_concat, Hc, Ht. reflexivity.
Qed.

Lemma append_cons_neq (p : string) (a : ascii) (b : string) :
  p <> String.append p (String a b).
Proof.
  induction p as [|c p IH]; cbn; [discriminate|].
  intros H. injection H as H. now apply IH.
Qed.

(** C7. [_hash_key] feeds provider and model to the hash back to back, with
    no separator between them. For every text, provider [p] with model
    [b ++ m] and provider [p ++ b] with model [m] get one key, and for a
    [b] that is not empty these are two distinct pairs; a missing model and
    the empty model get one key as well. So provider ["a"] with model
    ["bc"] and provider ["ab"] with model ["c"] share the key of every
    text, and a vector that the dictionary cache holds for the one pair is
    what a lookup for the other pair finds. *)
Theorem hash_key_collides_for_distinct_pairs :
  (forall (text p m : string) (a : ascii) (b' : string),
     let b := String a b' in
     (p, Some (String.append b m)) <> (String.append p b, Some m)
     /\ Embeddings._hash_key text (Some (String.append b m)) p
        = Embeddings._hash_key text (Some m) (String.append p b))
  /\ (forall text p : string,
        (p, @None string) <> (p, Some EmptyString)
        /\ Embeddings._hash_key text None p
           = Embeddings._hash_key text (Some EmptyString) p)
  /\ Embeddings._hash_key "hello" (Some "bc"%string) "a"
     = "emb:80e87ea89370f0e81d9b535fc85c3e78905fe022504b803fe359bbe5b9425317"%string
  /\ Embeddings._hash_key "hello" (Some "c"%string) "ab"
     = "emb:80e87ea89370f0e81d9b535fc85c3e78905fe022504b803fe359bbe5b9425317"%string
  /\ (forall (text : string) (v : list Q) (cache : gmap string (list Q)),
        Embeddings.get_cached
          (Embeddings.set_cached cache
             (Embeddings._hash_key text (Some "bc"%string) "a") v)
          (Embeddings._hash_key text (Some "c"%string) "ab")
        = Some v).
Proof.
  split; [|split; [|split; [|split]]].
  - intros text p m a b' b. split.
    + intros H. injection H as H _. now apply append_cons_neq in H.
    + unfold Embeddings._hash_key. f_equal. f_equal.
      rewrite !hash_input_concat. cbn [Embeddings.or_empty].
      rewrite !encode_app, <- !app_assoc. reflexivity.
  - intros text p. split; [discriminate|reflexivity].
  - vm_compute. reflexivity.
  - vm_compute. reflexivity.
  - intros text v cache. cbn [Embeddings.get_cached Embeddings.set_cached
                             Embeddings.dict_cache].
    assert (Heq : Embeddings._hash_key text (Some "c"%string) "ab"
                  = Embeddings._hash_key text (Some "bc"%string) "a")
      by (unfold Embeddings._hash_key, Embeddings.hash_input; reflexivity).
    rewrite Heq. apply lookup_insert_eq.
Qed.

(** ** Batch embeddings *)

Section Dedup.
Import Embeddings.

Lemma dedup_step_inv (acc : gmap string Z * list string * list Z)
    (seen : list string) (t : string) :
  dedup_inv acc seen -> dedup_inv (dedup_step acc t) (seen ++ [t]).
Proof.
  destruct acc as [[um ut] ix]. intros (Hnd & Hmap & Hmem & Hlen & Hix).
  unfold dedup_step.
  assert (Hix' : forall (n : nat) u, seen !! n = Some u ->
            exists k : nat, ix !! n = Some (Z.of_nat k)
                            /\ (ut ++ [t]) !! k = Some u).
  { intros n u Hn. destruct (Hix n u Hn) as (k & Hk1 & Hk2).
    exists k. split; [exact Hk1|]. now apply lookup_app_l_Some. }
  destruct (um !! t) as [k|] eqn:Hk.
  - apply Hmap in Hk as (n & -> & Hn).
    split; [exact Hnd|]. split; [exact Hmap|]. split; [|split].
    + intros u. rewrite Hmem, elem_of_app, list_elem_of_singleton.
      split; [auto|]. intros [Hu| ->]; [exact Hu|].
      apply Hmem. eapply list_elem_of_lookup_2, Hn.
    + rewrite !length_app, Hlen. reflexivity.
    + intros m u Hm. apply lookup_app_Some in Hm as [Hm|[Hge Hm]].
      * destruct (Hix m u Hm) as (k & Hk1 & Hk2). exists k.
        split; [now apply lookup_app_l_Some|exact Hk2].
      * apply list_lookup_singleton_Some in Hm as [Hm <-].
        assert (m = length seen) by lia. subst m.
        exists n. split; [|exact Hn].
        rewrite lookup_app_r by lia. rewrite Hlen, Nat.sub_diag. reflexivity.
  - assert (Hnot : t ∉ ut).
    { intros Hin. apply list_elem_of_lookup in Hin as [n Hn].
      assert (Hs : um !! t = Some (Z.of_nat n)) by (apply Hmap; eauto).
      congruence. }
    split; [|split; [|split; [|split]]].
    + apply NoDup_app. split; [exact Hnd|]. split.
      * intros u Hu Hu'. apply list_elem_of_singleton in Hu'. now subst.
      * apply NoDup_singleton.
    + intros u k. destruct (decide (u = t)) as [->|Hne].
      * rewrite lookup_insert_eq. split.
        -- intros [= <-]. exists (length ut). split; [reflexivity|].
           rewrite lookup_app_r by lia. now rewrite Nat.sub_diag.
        -- intros (n & -> & Hn). f_equal.
           apply lookup_app_Some in Hn as [Hn|[Hge Hn]].
           ++ exfalso. apply Hnot. eapply list_elem_of_lookup_2, Hn.
           ++ apply list_lookup_singleton_Some in Hn as [Hn _].
              unfold Py.len. lia.
      * rewrite lookup_insert_ne by congruence. rewrite Hmap. split.
        -- intros (n & -> & Hn). exists n. split; [reflexivity|].
           now apply lookup_app_l_Some.
        -- intros (n & -> & Hn). exists n. split; [reflexivity|].
           apply lookup_app_Some in Hn as [Hn|[Hge Hn]]; [exact Hn|].
           apply list_lookup_singleton_Some in Hn as [_ Hn]. congruence.
    + intros u. rewrite !elem_of_app, Hmem. reflexivity.
    + rewrite !length_app, Hlen. reflexivity.
    + intros m u Hm. apply lookup_app_Some in Hm as [Hm|[Hge Hm]].
      * destruct (Hix' m u Hm) as (k & Hk1 & Hk2). exists k.
        split; [now apply lookup_app_l_Some|exact Hk2].
      * apply list_lookup_singleton_Some in Hm as [Hm <-].
        assert (m = length seen) by lia. subst m.
        exists (length ut). split.
        -- rewrite lookup_app_r by lia. now rewrite Hlen, Nat.sub_diag.
        -- rewrite lookup_app_r by lia. now rewrite Nat.sub_diag.
Qed.

Lemma dedup_fold_inv (rest : list string) :
  forall acc seen,
    dedup_inv acc seen ->
    dedup_inv (fold_left dedup_step rest acc) (seen ++ rest).
Proof.
  induction rest as [|t rest IH]; intros acc seen Hinv; cbn [fold_left].
  - now rewrite app_nil_r.
  - replace (seen ++ t :: rest) with ((seen ++ [t]) ++ rest)
      by (now rewrite <- app_assoc).
    apply IH, dedup_step_inv, Hinv.
Qed.

Lemma dedup_spec (texts : list string) : dedup_inv (dedup texts) texts.
Proof.
  apply (dedup_fold_inv texts (∅, [], []) []).
  split; [constructor|]. split; [|split; [|split]].
  - intros t k. rewrite lookup_empty. split; [discriminate|].
    intros (n & _ & Hn). destruct n; discriminate.
  - reflexivity.
  - reflexivity.
  - intros n t Hn. destruct n; discriminate.
Qed.

End Dedup.

Section PyIndex.

Lemma nth_error_lookup' {A} (l : list A) (n : nat) : nth_error l n = l !! n.
Proof. revert n. induction l; intros [|n]; cbn; auto. Qed.

Lemma index_lookup {A} (l : list A) (n : nat) (x : A) :
  l !! n = Some x -> Py.index l (Z.of_nat n) = Returns x.
Proof. intros H. apply index_nth. now rewrite nth_error_lookup'. Qed.

Lemma setitem_lookup {A} (l : list A) (n : nat) (x : A) :
  (n < length l)%nat ->
  Py.setitem l (Z.of_nat n) x = Returns (<[n := x]> l).
Proof.
  intros Hn. unfold Py.setitem, Py.len.
  destruct (Z.ltb_spec (Z.of_nat n) 0); [lia|].
  destruct (Z.ltb_spec (Z.of_nat n) 0); [lia|].
  destruct (Z.leb_spec (Z.of_nat (length l)) (Z.of_nat n)); [lia|].
  cbn. now rewrite Nat2Z.id.
Qed.

End PyIndex.

Section FindMissing.
Import Embeddings.

(** The missing texts are the unique texts without a cached vector, in
    order, each with its position. *)
Lemma find_missing_spec (uniq_texts : list string) :
  forall (results : list (option Vec)) (i0 : nat),
    length results = length uniq_texts ->
    let r := find_missing (Z.of_nat i0) uniq_texts results in
    length r.1 = length r.2
    /\ (forall (n : nat) t, r.1 !! n = Some t ->
          exists k : nat,
            r.2 !! n = Some (Z.of_nat (i0 + k))
            /\ uniq_texts !! k = Some t /\ results !! k = Some None)
    /\ (forall (k : nat), results !! k = Some None ->
          exists n : nat, r.2 !! n = Some (Z.of_nat (i0 + k)))
    /\ (forall (n m : nat) a b, (n < m)%nat ->
          r.2 !! n = Some a -> r.2 !! m = Some b -> a < b)
    /\ (forall (n : nat) a, r.2 !! n = Some a -> Z.of_nat i0 <= a).
Proof.
  induction uniq_texts as [|t ts IH]; intros results i0 Hlen.
  - cbn. split; [reflexivity|]. split; [intros n t Hn; destruct n; discriminate|].
    split.
    + intros k Hk. destruct results; [destruct k|]; discriminate.
    + split; intros; destruct n; discriminate.
  - destruct results as [|v vs]; [discriminate|]. cbn in Hlen.
    cbn [find_missing].
    replace (Z.of_nat i0 + 1) with (Z.of_nat (S i0)) by lia.
    specialize (IH vs (S i0) ltac:(lia)).
    destruct (find_missing (Z.of_nat (S i0)) ts vs) as [m mi].
    cbn [fst snd] in IH. destruct IH as (IHl & IHm & IHk & IHo & IHb).
    destruct v as [v|]; cbn [fst snd].
    + split; [exact IHl|]. split; [|split; [|split]].
      * intros n u Hn. destruct (IHm n u Hn) as (k & H1 & H2 & H3).
        exists (S k). replace (i0 + S k)%nat with (S i0 + k)%nat by lia. auto.
      * intros [|k] Hk; [discriminate|]. destruct (IHk k Hk) as [n Hn].
        exists n. replace (i0 + S k)%nat with (S i0 + k)%nat by lia. auto.
      * exact IHo.
      * intros n a Hn. specialize (IHb n a Hn). lia.
    + split; [cbn; now rewrite IHl|]. split; [|split; [|split]].
      * intros [|n] u Hn.
        -- injection Hn as <-. exists 0%nat.
           rewrite Nat.add_0_r. auto.
        -- destruct (IHm n u Hn) as (k & H1 & H2 & H3).
           exists (S k). replace (i0 + S k)%nat with (S i0 + k)%nat by lia.
           auto.
      * intros [|k] Hk.
        -- exists 0%nat. now rewrite Nat.add_0_r.
        -- destruct (IHk k Hk) as [n Hn]. exists (S n).
           replace (i0 + S k)%nat with (S i0 + k)%nat by lia. auto.
      * intros [|n] [|n'] a b Hnm Ha Hb; try lia.
        -- injection Ha as <-. specialize (IHb n' b Hb). lia.
        -- apply (IHo n n' a b); [lia|assumption..].
      * intros [|n] a Hn.
        -- injection Hn as <-. lia.
        -- specialize (IHb n a Hn). lia.
Qed.

End FindMissing.

Section BatchLoops.
Import Embeddings.
Context {C : Type} `{Cache C}.
Variable backends : Backends.
Variables (prov : string) (model : option string) (batch_size : Z).
Variables (missing : list string) (missing_idxs : list Z).
Variable L : nat.

Hypothesis batch_size_pos : 0 < batch_size.
Hypothesis missing_lengths : length missing = length missing_idxs.
Hypothesis idxs_valid :
  forall (n : nat) a, missing_idxs !! n = Some a ->
    exists k : nat, a = Z.of_nat k /\ (k < L)%nat.
Hypothesis idxs_increasing :
  forall (n m : nat) a b, (n < m)%nat ->
    missing_idxs !! n = Some a -> missing_idxs !! m = Some b -> a < b.

Lemma slice_lookup {A} (l : list A) (a b : Z) (j : nat) :
  0 <= a -> Z.of_nat j < b - a ->
  Py.slice l a b !! j = l !! (Z.to_nat a + j)%nat.
Proof.
  intros Ha Hj. unfold Py.slice, Py.clip_index.
  destruct (Z.ltb_spec a 0); [lia|]. destruct (Z.ltb_spec b 0); [lia|].
  destruct (Z_le_gt_dec a (Py.len l)) as [Hal|Hal].
  - destruct (Z_le_gt_dec (a + Z.of_nat j + 1) (Py.len l)) as [Hin|Hout].
    + rewrite lookup_take_lt by lia. rewrite lookup_drop. f_equal. lia.
    + unfold Py.len in *. rewrite lookup_take_ge by lia.
      symmetry. apply lookup_ge_None. lia.
  - unfold Py.len in *. rewrite lookup_take_ge by lia.
    symmetry. apply lookup_ge_None. lia.
Qed.

Lemma length_slice (A : Type) (l : list A) (a b : Z) :
  0 <= a -> a <= b ->
  length (Py.slice l a b)
  = Z.to_nat (Z.min b (Py.len l) - Z.min a (Py.len l)).
Proof.
  intros Ha Hab. unfold Py.slice, Py.clip_index, Py.len.
  destruct (Z.ltb_spec a 0); [lia|]. destruct (Z.ltb_spec b 0); [lia|].
  rewrite length_take, length_drop. lia.
Qed.

Lemma assign_spec (s : nat) (embs : list Vec) :
  forall (j : nat) (results : list (option Vec)) (c : C),
    length results = L ->
    (s + j + length embs <= length missing)%nat ->
    exists results' c',
      assign prov model missing missing_idxs (Z.of_nat s) (Z.of_nat j)
        embs results c = (Returns results', c')
      /\ length results' = L
      /\ (forall (q : nat) v, embs !! q = Some v ->
            exists k : nat,
              missing_idxs !! (s + j + q)%nat = Some (Z.of_nat k)
              /\ results' !! k = Some (Some v))
      /\ (forall k : nat,
            (forall q : nat, (q < length embs)%nat ->
               missing_idxs !! (s + j + q)%nat <> Some (Z.of_nat k)) ->
            results' !! k = results !! k).
Proof.
  induction embs as [|emb embs IH]; intros j results c Hlen Hfit.
  - exists results, c. cbn. split; [reflexivity|]. split; [exact Hlen|].
    split; [intros q v Hq; destruct q; discriminate|auto].
  - cbn [length] in Hfit. cbn [assign].
    destruct (missing_idxs !! (s + j)%nat) as [a|] eqn:Ha;
      [|apply lookup_ge_None in Ha; lia].
    destruct (idxs_valid _ _ Ha) as (k0 & -> & Hk0).
    destruct (missing !! (s + j)%nat) as [t|] eqn:Ht;
      [|apply lookup_ge_None in Ht; lia].
    replace (Z.of_nat s + Z.of_nat j) with (Z.of_nat (s + j)) by lia.
    rewrite (index_lookup _ _ _ Ha).
    rewrite setitem_lookup by lia.
    rewrite (index_lookup _ _ _ Ht).
    replace (Z.of_nat j + 1) with (Z.of_nat (S j)) by lia.
    destruct (IH (S j) (<[k0 := Some emb]> results)
                (set_cached c (_hash_key t model prov) emb))
      as (results' & c' & Heq & Hlen' & Hset & Hkeep).
    { now rewrite length_insert. }
    { lia. }
    exists results', c'. split; [exact Heq|]. split; [exact Hlen'|].
    split.
    + intros [|q] v Hq.
      * injection Hq as <-. exists k0. rewrite Nat.add_0_r.
        split; [exact Ha|]. rewrite Hkeep.
        -- apply list_lookup_insert_eq. lia.
        -- intros q Hq Hcontra.
           pose proof (idxs_increasing (s + j) (s + S j + q) _ _
                         ltac:(lia) Ha Hcontra). lia.
      * destruct (Hset q v Hq) as (k & Hk1 & Hk2). exists k.
        replace (s + j + S q)%nat with (s + S j + q)%nat by lia. auto.
    + intros k Hk. rewrite Hkeep.
      * apply list_lookup_insert_ne. intros ->.
        apply (Hk 0%nat); [cbn; lia|]. now rewrite Nat.add_0_r.
      * intros q Hq. replace (s + S j + q)%nat with (s + j + S q)%nat by lia.
        apply Hk. cbn. lia.
Qed.

Hypothesis backend_answers :
  forall chunk, exists embs,
    primary_embed backends prov model batch_size chunk = Some embs
    /\ length embs = length chunk.

Lemma embed_chunk_primary (chunk : list string)
    (log : list (Backend * list string)) (embs : list Vec) :
  primary_embed backends prov model batch_size chunk = Some embs ->
  embed_chunk backends prov model batch_size chunk log
  = (Some embs, log ++ [(primary_backend prov, chunk)]).
Proof.
  unfold primary_embed, embed_chunk, primary_backend.
  destruct (String.eqb prov "local"); intros ->; reflexivity.
Qed.

Lemma embedded_by_app (log more : list (Backend * list string))
    (t : string) (v : Vec) :
  embedded_by backends prov model batch_size log t v ->
  embedded_by backends prov model batch_size (log ++ more) t v.
Proof.
  intros (chunk & embs & j & Hin & Hrest).
  exists chunk, embs, j. split; [|exact Hrest].
  apply in_or_app. now left.
Qed.

Local Abbreviation batch_call :=
  (fun i : Z => (primary_backend prov, Py.slice missing i (i + batch_size))).

Lemma embed_batches_spec (fuel : nat) :
  forall (s : nat) (results : list (option Vec)) (w : World C),
    length results = L ->
    (length missing - s <= fuel)%nat ->
    exists results' w',
      embed_batches backends prov model batch_size missing missing_idxs
        (Py.range_pos fuel (Z.of_nat s) (Py.len missing) batch_size)
        results w
      = (Returns results', w')
      /\ length results' = L
      /\ (forall (n : nat) t, (s <= n)%nat -> missing !! n = Some t ->
            exists (k : nat) v,
              missing_idxs !! n = Some (Z.of_nat k)
              /\ results' !! k = Some (Some v)
              /\ embedded_by backends prov model batch_size (calls w') t v)
      /\ (forall k : nat,
            (forall n : nat, (s <= n)%nat ->
               missing_idxs !! n <> Some (Z.of_nat k)) ->
            results' !! k = results !! k)
      /\ calls w'
         = calls w
           ++ map batch_call
                (Py.range_pos fuel (Z.of_nat s) (Py.len missing) batch_size).
Proof.
  induction fuel as [|f IH]; intros s results w Hlen Hfuel.
  - cbn. exists results, w. split; [reflexivity|]. split; [exact Hlen|].
    split; [|split; [auto|now rewrite app_nil_r]].
    intros n t Hn Ht. apply lookup_lt_Some in Ht. lia.
  - cbn [Py.range_pos].
    destruct (Z.ltb_spec (Z.of_nat s) (Py.len missing)) as [Hs|Hs];
      unfold Py.len in Hs.
    + cbn [embed_batches map]. set (chunk := Py.slice missing _ _).
      destruct (backend_answers chunk) as (embs & Hemb & Hembs).
      rewrite (embed_chunk_primary chunk (calls w) embs Hemb).
      assert (Hchunk : length chunk
                = Z.to_nat (Z.min (Z.of_nat s + batch_size) (Py.len missing)
                            - Z.of_nat s)).
      { unfold chunk. rewrite length_slice by lia. unfold Py.len. f_equal.
        lia. }
      destruct (assign_spec s embs 0 results (cache w) Hlen)
        as (results1 & c1 & Hassign & Hlen1 & Hset1 & Hkeep1).
      { rewrite Hembs, Hchunk. unfold Py.len. lia. }
      change (Z.of_nat 0) with 0 in Hassign. rewrite Hassign.
      replace (Z.of_nat s + batch_size)
        with (Z.of_nat (s + Z.to_nat batch_size)) by lia.
      destruct (IH (s + Z.to_nat batch_size)%nat results1
                  (mkWorld c1 (calls w ++ [(primary_backend prov, chunk)]))
                  Hlen1)
        as (results' & w' & Heq & Hlen' & Hset & Hkeep & Hcalls); [lia|].
      exists results', w'. split; [exact Heq|]. split; [exact Hlen'|].
      cbn [calls] in Hcalls.
      split; [|split].
      * intros n t Hn Ht.
        destruct (Nat.lt_ge_cases n (s + Z.to_nat batch_size)) as [Hin|Hout].
        -- assert (Hnlen : (n < length missing)%nat)
             by (now apply lookup_lt_Some in Ht).
           assert (Hq : chunk !! (n - s)%nat = Some t).
           { unfold chunk. rewrite slice_lookup by lia.
             rewrite <- Ht. f_equal. lia. }
           destruct (embs !! (n - s)%nat) as [v|] eqn:Hv.
           2:{ apply lookup_ge_None in Hv. apply lookup_lt_Some in Hq. lia. }
           destruct (Hset1 _ _ Hv) as (k & Hk1 & Hk2).
           replace (s + 0 + (n - s))%nat with n in Hk1 by lia.
           exists k, v. split; [exact Hk1|]. split.
           ++ rewrite Hkeep; [exact Hk2|].
              intros n' Hn' Hcontra.
              pose proof (idxs_increasing n n' _ _ ltac:(lia) Hk1 Hcontra).
              lia.
           ++ rewrite Hcalls. apply embedded_by_app.
              exists chunk, embs, (n - s)%nat.
              split; [|auto]. apply in_or_app. right. now left.
        -- apply Hset; assumption.
      * intros k Hk. rewrite Hkeep.
        -- apply Hkeep1. intros q Hq. apply Hk. lia.
        -- intros n Hn. apply Hk. lia.
      * rewrite Hcalls, <- app_assoc. reflexivity.
    + cbn. exists results, w. split; [reflexivity|]. split; [exact Hlen|].
      split; [|split; [auto|now rewrite app_nil_r]].
      intros n t Hn Ht. apply lookup_lt_Some in Ht. lia.
Qed.

End BatchLoops.

Section MapBack.
Import Embeddings.

Lemma map_back_spec (results : list (option Vec)) (indices : list Z) :
  (forall (n : nat) a, indices !! n = Some a ->
     exists k : nat, a = Z.of_nat k /\ (k < length results)%nat) ->
  exists final,
    map_back results indices = Returns final
    /\ length final = length indices
    /\ (forall (n k : nat), indices !! n = Some (Z.of_nat k) ->
          final !! n = results !! k).
Proof.
  induction indices as [|a indices IH]; intros Hvalid.
  - exists []. cbn. split; [reflexivity|]. split; [reflexivity|].
    intros n k Hn. destruct n; discriminate.
  - destruct (Hvalid 0%nat a eq_refl) as (k0 & -> & Hk0).
    destruct (results !! k0) as [v|] eqn:Hv;
      [|apply lookup_ge_None in Hv; lia].
    destruct IH as (final & Heq & Hlen & Hfinal).
    { intros n a Hn. apply (Hvalid (S n) a Hn). }
    exists (v :: final). cbn [map_back].
    rewrite (index_lookup _ _ _ Hv), Heq.
    split; [reflexivity|]. split; [cbn; now rewrite Hlen|].
    intros [|n] k Hn.
    + injection Hn as Hk. apply Nat2Z.inj in Hk. subst k. now rewrite Hv.
    + now apply Hfinal.
Qed.

Lemma slice_take_drop {A} (l : list A) (a b : Z) :
  0 <= a -> a <= b ->
  Py.slice l a b = take (Z.to_nat (b - a)) (drop (Z.to_nat a) l).
Proof.
  intros Ha Hab. unfold Py.slice, Py.clip_index, Py.len.
  destruct (Z.ltb_spec a 0); [lia|]. destruct (Z.ltb_spec b 0); [lia|].
  destruct (Z_le_gt_dec a (Z.of_nat (length l))) as [Hal|Hal].
  - replace (Z.to_nat (Z.min a (Z.of_nat (length l)))) with (Z.to_nat a)
      by lia.
    destruct (Z_le_gt_dec b (Z.of_nat (length l))) as [Hbl|Hbl].
    + f_equal. lia.
    + rewrite !take_ge; [reflexivity|rewrite length_drop; lia..].
  - rewrite !drop_ge by lia. now rewrite !take_nil.
Qed.

(** The batches cut the missing texts without loss and without overlap. *)
Lemma batches_concat (missing : list string) (batch_size : Z) (fuel : nat) :
  0 < batch_size ->
  forall s : nat,
    (length missing - s <= fuel)%nat ->
    concat (map (fun i => Py.slice missing i (i + batch_size))
              (Py.range_pos fuel (Z.of_nat s) (Py.len missing) batch_size))
    = drop s missing.
Proof.
  intros Hbs. induction fuel as [|f IH]; intros s Hfuel.
  - cbn. rewrite drop_ge by lia. reflexivity.
  - cbn [Py.range_pos].
    destruct (Z.ltb_spec (Z.of_nat s) (Py.len missing)) as [Hs|Hs];
      unfold Py.len in Hs.
    + cbn [map concat].
      replace (Z.of_nat s + batch_size)
        with (Z.of_nat (s + Z.to_nat batch_size)) at 2 by lia.
      rewrite IH by lia. rewrite slice_take_drop by lia.
      rewrite Nat2Z.id.
      replace (Z.to_nat (Z.of_nat s + batch_size - Z.of_nat s))
        with (Z.to_nat batch_size) by lia.
      rewrite <- drop_drop. apply take_drop.
    + cbn. rewrite drop_ge by lia. reflexivity.
Qed.

End MapBack.

(** C1. When the batch size in force is positive and the selected backend
    answers every batch with one vector per text, [get_batch_embeddings]
    returns one vector per input, in the order of the inputs: the cached
    vector of a text that was cached, the vector the backend returned for it
    otherwise, so equal texts get equal vectors. The backend is called on
    the batches that cut the list of missing texts, which holds each text of
    the input that was not cached exactly once and nothing else. On the
    empty list the call returns the empty list and touches nothing. *)
Theorem get_batch_embeddings_correct {C : Type} `{Embeddings.Cache C}
    (backends : Embeddings.Backends) (env : Embeddings.Env)
    (texts : list string) (provider model : option string)
    (batch_size : option Z) (w : Embeddings.World C) :
  let prov := Embeddings.effective_provider env provider in
  let mdl := Embeddings.effective_model env model in
  let bs := Embeddings.effective_batch_size env batch_size in
  0 < bs ->
  (forall chunk, exists embs,
     Embeddings.primary_embed backends prov mdl bs chunk = Some embs
     /\ length embs = length chunk) ->
  exists final w' missing,
    Embeddings.get_batch_embeddings backends env texts provider model
      batch_size w = (Returns final, w')
    /\ length final = length texts
    /\ (forall (n : nat) t, texts !! n = Some t ->
          exists v, final !! n = Some (Some v)
            /\ match Embeddings.get_cached (Embeddings.cache w)
                       (Embeddings._hash_key t mdl prov) with
               | Some cached => v = cached
               | None =>
                   Embeddings.embedded_by backends prov mdl bs
                     (Embeddings.calls w') t v
               end)
    /\ (forall (n m : nat) t, texts !! n = Some t -> texts !! m = Some t ->
          final !! n = final !! m)
    /\ Embeddings.calls w'
       = Embeddings.calls w
         ++ map (fun i => (Embeddings.primary_backend prov,
                           Py.slice missing i (i + bs)))
              (Py.range_pos (length missing) 0 (Py.len missing) bs)
    /\ concat (map (fun i => Py.slice missing i (i + bs))
                 (Py.range_pos (length missing) 0 (Py.len missing) bs))
       = missing
    /\ NoDup missing
    /\ (forall t, t ∈ missing
                  <-> t ∈ texts
                      /\ Embeddings.get_cached (Embeddings.cache w)
                           (Embeddings._hash_key t mdl prov) = None)
    /\ (texts = [] -> final = [] /\ w' = w).
Proof.
  intros prov mdl bs Hbs Hbackend.
  destruct texts as [|t0 texts0] eqn:Htexts.
  { exists [], w, []. cbn. split; [reflexivity|]. split; [reflexivity|].
    split; [intros n t Hn; destruct n; discriminate|].
    split; [intros n m t Hn; destruct n; discriminate|].
    split; [now rewrite app_nil_r|]. split; [reflexivity|].
    split; [constructor|]. split; [|auto].
    intros t. split; [intros Hin; inversion Hin|].
    intros [Hin _]. inversion Hin. }
  rewrite <- Htexts. assert (Hne : texts <> []) by (subst; discriminate).
  clear Htexts t0 texts0.
  unfold Embeddings.get_batch_embeddings.
  destruct texts as [|t0 texts0] eqn:Htexts; [congruence|].
  rewrite <- Htexts. clear Hne.
  fold prov. fold mdl. fold bs.
  pose proof (dedup_spec texts) as Hdedup.
  destruct (Embeddings.dedup texts) as [[um ut] ix].
  destruct Hdedup as (Hnd & _ & Hmem & Hixlen & Hix).
  set (key := fun t => Embeddings._hash_key t mdl prov).
  set (results0 := map (fun t => Embeddings.get_cached (Embeddings.cache w)
                                   (Embeddings._hash_key t mdl prov)) ut).
  assert (Hlen0 : length results0 = length ut)
    by (unfold results0; apply length_map).
  assert (Hres0 : forall (k : nat) t, ut !! k = Some t ->
            results0 !! k
            = Some (Embeddings.get_cached (Embeddings.cache w) (key t))).
  { intros k t Hk. unfold results0.
    change (map ?f ut) with (f <$> ut). rewrite list_lookup_fmap, Hk.
    reflexivity. }
  pose proof (find_missing_spec ut results0 0 Hlen0) as Hfm.
  change (Z.of_nat 0) with 0 in Hfm.
  destruct (Embeddings.find_missing 0 ut results0) as [missing mi].
  cbn [fst snd] in Hfm.
  destruct Hfm as (Hmlen & Hmiss & Hall & Hinc & _).
  (* the missing texts *)
  assert (Hmiss' : forall (n : nat) t, missing !! n = Some t ->
            exists k : nat, mi !! n = Some (Z.of_nat k)
              /\ ut !! k = Some t
              /\ Embeddings.get_cached (Embeddings.cache w) (key t) = None).
  { intros n t Hn. destruct (Hmiss n t Hn) as (k & H1 & H2 & H3).
    exists k. rewrite Nat.add_0_l in H1. split; [exact H1|].
    split; [exact H2|]. rewrite (Hres0 k t H2) in H3. congruence. }
  assert (Hvalid : forall (n : nat) a, mi !! n = Some a ->
            exists k : nat, a = Z.of_nat k /\ (k < length ut)%nat).
  { intros n a Hn.
    destruct (missing !! n) as [t|] eqn:Ht.
    - destruct (Hmiss' n t Ht) as (k & H1 & H2 & _).
      exists k. split; [congruence|]. now apply lookup_lt_Some in H2.
    - apply lookup_ge_None in Ht. apply lookup_lt_Some in Hn. lia. }
  assert (Hfind : forall (k : nat) t, ut !! k = Some t ->
            Embeddings.get_cached (Embeddings.cache w) (key t) = None ->
            exists n : nat, mi !! n = Some (Z.of_nat k)
                            /\ missing !! n = Some t).
  { intros k t Hk Hnone.
    destruct (Hall k) as [n Hn]; [rewrite (Hres0 k t Hk); congruence|].
    rewrite Nat.add_0_l in Hn. exists n. split; [exact Hn|].
    destruct (missing !! n) as [t'|] eqn:Ht'.
    - destruct (Hmiss' n t' Ht') as (k' & H1 & H2 & _).
      assert (k' = k) by (rewrite Hn in H1; injection H1; lia). subst k'.
      congruence.
    - apply lookup_ge_None in Ht'. apply lookup_lt_Some in Hn. lia. }
  assert (Hmissing_iff : forall t, t ∈ missing
            <-> t ∈ texts
                /\ Embeddings.get_cached (Embeddings.cache w) (key t)
                   = None).
  { intros t. split.
    - intros Hin. apply list_elem_of_lookup in Hin as [n Hn].
      destruct (Hmiss' n t Hn) as (k & _ & Hk & Hc).
      split; [|exact Hc]. apply Hmem. eapply list_elem_of_lookup_2, Hk.
    - intros [Hin Hc]. apply Hmem, list_elem_of_lookup in Hin as [k Hk].
      destruct (Hfind k t Hk Hc) as (n & _ & Hn).
      eapply list_elem_of_lookup_2, Hn. }
  assert (Hmnd : NoDup missing).
  { apply NoDup_alt. intros n m t Hn Hm.
    destruct (Hmiss' n t Hn) as (k & Hk1 & Hk2 & _).
    destruct (Hmiss' m t Hm) as (k' & Hk1' & Hk2' & _).
    assert (k = k') by (eapply NoDup_lookup; eauto). subst k'.
    destruct (Nat.lt_trichotomy n m) as [Hlt|[Heq|Hgt]]; [|exact Heq|].
    - pose proof (Hinc n m _ _ Hlt Hk1 Hk1'). lia.
    - pose proof (Hinc m n _ _ Hgt Hk1' Hk1). lia. }
  (* the batches *)
  assert (Hbatch : exists results' w',
            match missing with
            | [] => (Returns results0, w)
            | _ :: _ =>
                match Py.range0 (Py.len missing) bs with
                | Returns starts =>
                    Embeddings.embed_batches backends prov mdl bs missing mi
                      starts results0 w
                | Raises e => (Raises e, w)
                | OutOfFuel => (OutOfFuel, w)
                end
            end = (Returns results', w')
            /\ length results' = length ut
            /\ (forall (n : nat) t, missing !! n = Some t ->
                  exists (k : nat) v,
                    mi !! n = Some (Z.of_nat k)
                    /\ results' !! k = Some (Some v)
                    /\ Embeddings.embedded_by backends prov mdl bs
                         (Embeddings.calls w') t v)
            /\ (forall k : nat,
                  (forall n : nat, mi !! n <> Some (Z.of_nat k)) ->
                  results' !! k = results0 !! k)
            /\ Embeddings.calls w'
               = Embeddings.calls w
                 ++ map (fun i => (Embeddings.primary_backend prov,
                                   Py.slice missing i (i + bs)))
                      (Py.range_pos (length missing) 0 (Py.len missing) bs)).
  { destruct missing as [|m0 missing0] eqn:Hm.
    - exists results0, w. split; [reflexivity|]. split; [exact Hlen0|].
      split; [intros n t Hn; destruct n; discriminate|].
      split; [auto|]. cbn. now rewrite app_nil_r.
    - rewrite <- Hm in *. rewrite range0_pos by exact Hbs.
      unfold Py.len at 1. rewrite Nat2Z.id.
      destruct (embed_batches_spec backends prov mdl bs missing mi
                  (length ut) Hbs Hmlen Hvalid Hinc Hbackend
                  (length missing) 0 results0 w Hlen0 ltac:(lia))
        as (results' & w' & Heq & Hlen' & Hset & Hkeep & Hcalls).
      change (Z.of_nat 0) with 0 in *.
      exists results', w'. split; [exact Heq|]. split; [exact Hlen'|].
      split; [intros n t Hn; apply Hset; [lia|exact Hn]|].
      split; [|exact Hcalls].
      intros k Hk. apply Hkeep. intros n _. apply Hk. }
  destruct Hbatch as (results' & w' & Hbeq & Hlen' & Hset & Hkeep & Hcalls).
  rewrite Hbeq.
  destruct (map_back_spec results' ix) as (final & Hfeq & Hflen & Hfinal).
  { intros n a Hn.
    destruct (texts !! n) as [t|] eqn:Ht.
    - destruct (Hix n t Ht) as (k & Hk1 & Hk2).
      exists k. split; [congruence|].
      rewrite Hlen'. now apply lookup_lt_Some in Hk2.
    - apply lookup_ge_None in Ht. apply lookup_lt_Some in Hn. lia. }
  rewrite Hfeq. exists final, w', missing.
  split; [reflexivity|]. split; [lia|].
  assert (Hpoint : forall (n : nat) t, texts !! n = Some t ->
            exists (k : nat), ut !! k = Some t
                              /\ final !! n = results' !! k).
  { intros n t Hn. destruct (Hix n t Hn) as (k & Hk1 & Hk2).
    exists k. split; [exact Hk2|]. now apply Hfinal. }
  split.
  { intros n t Hn. destruct (Hpoint n t Hn) as (k & Hk & Hf).
    rewrite Hf. fold (key t).
    destruct (Embeddings.get_cached (Embeddings.cache w) (key t))
      as [cached|] eqn:Hc.
    - exists cached. split; [|reflexivity].
      rewrite Hkeep.
      + rewrite (Hres0 k t Hk), Hc. reflexivity.
      + intros n' Hn'.
        destruct (missing !! n') as [t'|] eqn:Ht'.
        * destruct (Hmiss' n' t' Ht') as (k' & H1 & H2 & H3).
          assert (k' = k) by (rewrite Hn' in H1; injection H1; lia).
          subst k'. congruence.
        * apply lookup_ge_None in Ht'. apply lookup_lt_Some in Hn'. lia.
    - destruct (Hfind k t Hk Hc) as (n' & Hn'1 & Hn'2).
      destruct (Hset n' t Hn'2) as (k' & v & H1 & H2 & H3).
      assert (k' = k) by (rewrite Hn'1 in H1; injection H1; lia). subst k'.
      exists v. split; [exact H2|exact H3]. }
  split.
  { intros n m t Hn Hm.
    destruct (Hpoint n t Hn) as (k & Hk & Hfn).
    destruct (Hpoint m t Hm) as (k' & Hk' & Hfm).
    rewrite Hfn, Hfm. f_equal. exact (NoDup_lookup ut k k' t Hnd Hk Hk'). }
  split; [exact Hcalls|]. split.
  { pose proof (batches_concat missing bs (length missing) Hbs 0
                  ltac:(lia)) as Hcat.
    change (Z.of_nat 0) with 0 in Hcat. rewrite Hcat. apply drop_0. }
  split; [exact Hmnd|]. split; [exact Hmissing_iff|].
  intros ->. discriminate.
Qed.

Lemma get_batch_embeddings_correct_witness :
  let prov := Embeddings.effective_provider FakeBackend.env
                (Some "local"%string) in
  let mdl := Embeddings.effective_model FakeBackend.env
               (Some "all-mpnet-base-v2"%string) in
  let bs := Embeddings.effective_batch_size FakeBackend.env (Some 16) in
  let w := FakeBackend.world0 in
  let texts := FakeBackend.texts in
  exists final w' missing,
    Embeddings.get_batch_embeddings FakeBackend.backends FakeBackend.env
      texts (Some "local"%string) (Some "all-mpnet-base-v2"%string)
      (Some 16) w = (Returns final, w')
    /\ length final = length texts
    /\ (forall (n : nat) t, texts !! n = Some t ->
          exists v, final !! n = Some (Some v)
            /\ match Embeddings.get_cached (Embeddings.cache w)
                       (Embeddings._hash_key t mdl prov) with
               | Some cached => v = cached
               | None =>
                   Embeddings.embedded_by FakeBackend.backends prov mdl bs
                     (Embeddings.calls w') t v
               end)
    /\ (forall (n m : nat) t, texts !! n = Some t -> texts !! m = Some t ->
          final !! n = final !! m)
    /\ Embeddings.calls w'
       = Embeddings.calls w
         ++ map (fun i => (Embeddings.primary_backend prov,
                           Py.slice missing i (i + bs)))
              (Py.range_pos (length missing) 0 (Py.len missing) bs)
    /\ concat (map (fun i => Py.slice missing i (i + bs))
                 (Py.range_pos (length missing) 0 (Py.len missing) bs))
       = missing
    /\ NoDup missing
    /\ (forall t, t ∈ missing
                  <-> t ∈ texts
                      /\ Embeddings.get_cached (Embeddings.cache w)
                           (Embeddings._hash_key t mdl prov) = None)
    /\ (texts = [] -> final = [] /\ w' = w).
Proof.
  apply (get_batch_embeddings_correct FakeBackend.backends FakeBackend.env
           FakeBackend.texts (Some "local"%string)
           (Some "all-mpnet-base-v2"%string) (Some 16) FakeBackend.world0).
  - cbn. lia.
  - intros chunk. eexists. split; [reflexivity|]. apply length_map.
Defined.

(** tests/test_embeddings.py: the first call embeds the two distinct texts
    in one backend call; the second call is served from the cache. *)
Example test_get_batch_embeddings_caches_and_deduplicates :
  let call w :=
    Embeddings.get_batch_embeddings FakeBackend.backends FakeBackend.env
      FakeBackend.texts (Some "local"%string)
      (Some "all-mpnet-base-v2"%string) (Some 16) w in
  let r1 := call FakeBackend.world0 in
  let r2 := call r1.2 in
  r1.1 = Returns [Some [11%Q]; Some [11%Q]; Some [17%Q]]
  /\ Embeddings.calls r1.2
     = [(Embeddings.Local, ["hello world"; "open-source model"]%string)]
  /\ r2.1 = r1.1
  /\ Embeddings.calls r2.2 = Embeddings.calls r1.2.
Proof. vm_compute. repeat split; reflexivity. Qed.

Lemma get_batch_embeddings_empty {C : Type} `{Embeddings.Cache C}
    (backends : Embeddings.Backends) (env : Embeddings.Env)
    (provider model : option string) (batch_size : option Z)
    (w : Embeddings.World C) :
  Embeddings.get_batch_embeddings backends env [] provider model batch_size w
  = (Returns [], w).
Proof. reflexivity. Qed.

(** ** The backfill runner *)

Section RunnerInvariants.
Import Reembed.

Variable embed : string -> list Q.
Variable args : Args.

Local Abbreviation key := (cursor_key args).

Lemma in_insert_by_id (x r : Row) (l : list Row) :
  In r (insert_by_id x l) <-> r = x \/ In r l.
Proof.
  induction l as [|y l IH]; cbn.
  - intuition.
  - destruct (id x <=? id y); cbn; [intuition|]. rewrite IH. intuition.
Qed.

Lemma in_sort_by_id (r : Row) (l : list Row) :
  In r (sort_by_id l) <-> In r l.
Proof.
  induction l as [|y l IH]; cbn; [reflexivity|].
  rewrite in_insert_by_id, IH. intuition.
Qed.

(** A fetched row has no embedding, and lies beyond a cursor that is not
    zero. *)
Lemma fetch_batch_selected (rows : list Row) (t : option string)
    (l : option Z) (n : Z) (r : Row) :
  In r (fetch_batch rows t l n) -> selected t l r = true.
Proof.
  unfold fetch_batch. intros Hin.
  apply list_elem_of_In, elem_of_take in Hin. destruct Hin as (i & Hi & _).
  apply list_elem_of_lookup_2, list_elem_of_In, in_sort_by_id, filter_In in Hi.
  apply Hi.
Qed.

Lemma fetch_batch_beyond (rows : list Row) (t : option string) (l n : Z)
    (r : Row) :
  l <> 0 -> In r (fetch_batch rows t (Some l) n) -> l < id r.
Proof.
  intros Hl Hin. apply fetch_batch_selected in Hin. unfold selected in Hin.
  destruct (embedding_768 r); [discriminate|].
  apply andb_true_iff in Hin as [_ Hin]. unfold truthy_int in Hin.
  destruct (Z.eqb_spec l 0); [contradiction|]. cbn in Hin.
  now apply Z.ltb_lt.
Qed.

Lemma last_of_in (batch : list Row) :
  batch <> [] -> exists r, In r batch /\ last_of batch = Some (id r).
Proof.
  intros Hne. destruct (exists_last Hne) as (b' & r & ->). exists r.
  split; [apply in_or_app; right; now left|].
  unfold last_of, ids_of. rewrite map_app. cbn. apply last_snoc.
Qed.

End RunnerInvariants.

Section RunnerSteps.
Import Reembed.

Variable embed : string -> list Q.
Variable args : Args.
Variable initial : option Z.

Local Abbreviation key := (cursor_key args).

Lemma step_run_inv (st : Run) :
  run_inv key initial st -> run_inv key initial (step embed args st).
Proof.
  intros (Hat & Hadv & Hck & Hpc). unfold step, run_inv.
  destruct (at_pc st) as [|b|b e|b|b|b|b|] eqn:Epc; cbn [at_pc trace checkpoint world tmp_file].
  - destruct (fetch_batch _ _ _ _) as [|r batch];
      [|destruct (dry_run args)];
      cbn [at_pc trace checkpoint world atomic_writes advanced_after_upsert];
      (split; [exact Hat|]; split; [exact Hadv|]; split;
       [destruct Hck as [Hck|(ids & Hin & Hck)];
        [now left|right; exists ids; split; [now right|exact Hck]]|]).
    + exact I.
    + unfold after_count. destruct (_ && _); exact I.
    + exact I.
  - cbn [atomic_writes advanced_after_upsert].
    split; [exact Hat|]. split; [exact Hadv|]. split; [|exact I].
    destruct Hck as [Hck|(ids & Hin & Hck)];
      [now left|right; exists ids; split; [now right|exact Hck]].
  - cbn [atomic_writes advanced_after_upsert].
    split; [exact Hat|]. split; [exact Hadv|]. split; [|now left].
    destruct Hck as [Hck|(ids & Hin & Hck)];
      [now left|right; exists ids; split; [now right|exact Hck]].
  - split; [exact Hat|]. split; [exact Hadv|]. split; [|exact I].
    unfold last_of. destruct (last (ids_of b)) as [l|] eqn:El.
    + right. exists (ids_of b). split; [exact Hpc|].
      rewrite lookup_insert_eq. now rewrite El.
    + exact Hck.
  - cbn [atomic_writes advanced_after_upsert].
    split; [exact Hat|]. split; [exact Hadv|]. split; [|eauto].
    destruct Hck as [Hck|(ids & Hin & Hck)];
      [now left|right; exists ids; split; [now right|exact Hck]].
  - destruct Hpc as (Htmp & rest & Htr). rewrite Htmp.
    cbn [at_pc trace checkpoint world atomic_writes advanced_after_upsert].
    split; [|split; [|split; [|exact I]]].
    + rewrite Htr at 1. split; [reflexivity|exact Hat].
    + split; [exact Hck|exact Hadv].
    + destruct Hck as [Hck|(ids & Hin & Hck)];
        [now left|right; exists ids; split; [now right|exact Hck]].
  - split; [exact Hat|]. split; [exact Hadv|]. split; [exact Hck|].
    unfold after_count. destruct (_ && _); exact I.
  - rewrite Epc. auto.
Qed.

Lemma steps_run_inv (n : nat) :
  forall st, run_inv key initial st ->
             run_inv key initial (steps embed args n st).
Proof.
  induction n as [|n IH]; intros st Hinv; [exact Hinv|].
  cbn [steps]. apply IH, step_run_inv, Hinv.
Qed.

Lemma handler_run_inv (st : Run) :
  run_inv key initial st ->
  atomic_writes (trace (handler st))
  /\ advanced_after_upsert key initial (trace (handler st)).
Proof.
  intros (Hat & Hadv & Hck & _). unfold handler.
  cbn [trace atomic_writes advanced_after_upsert]. split.
  - split; [reflexivity|exact Hat].
  - split; [|exact Hadv].
    destruct Hck as [Hck|(ids & Hin & Hck)]; [now left|].
    right. exists ids. split; [|exact Hck]. right. right. exact Hin.
Qed.

Variable c : Z.
Hypothesis c_pos : 0 < c.

Lemma step_resume_inv (st : Run) :
  resume_inv c st -> resume_inv c (step embed args st).
Proof.
  intros ((l & Hl & Hcl) & Htouched & Hbatch). unfold step, resume_inv.
  destruct (at_pc st) as [|b|b e|b|b|b|b|] eqn:Epc;
    cbn [pc_batch] in Hbatch.
  - assert (Hfetch : Forall (fun r => c < id r)
              (fetch_batch (store (world st)) (tenant args) (last_id st)
                 (batch_size args))).
    { apply List.Forall_forall. intros r Hin. rewrite Hl in Hin.
      apply fetch_batch_beyond in Hin; lia. }
    assert (Hids : Forall (fun i => c < i)
              (ids_of (fetch_batch (store (world st)) (tenant args)
                         (last_id st) (batch_size args)))).
    { unfold ids_of. apply List.Forall_forall. intros i Hi.
      apply in_map_iff in Hi as (r & <- & Hr).
      rewrite List.Forall_forall in Hfetch. now apply Hfetch. }
    destruct (fetch_batch _ _ _ _) as [|r batch] eqn:Ef.
    + cbn [last_id trace at_pc touched pc_batch].
      split; [eauto|]. split; [|exact I].
      apply Forall_app. split; [constructor|exact Htouched].
    + destruct (dry_run args);
        cbn [last_id trace at_pc touched pc_batch].
      * split; [|split].
        -- destruct (last_of_in (r :: batch)) as (r' & Hr' & ->);
             [discriminate|].
           exists (id r'). split; [reflexivity|].
           rewrite List.Forall_forall in Hfetch.
           specialize (Hfetch r' Hr'). lia.
        -- apply Forall_app. split; [exact Hids|exact Htouched].
        -- unfold after_count.
           destruct (_ && _); cbn [pc_batch]; exact I.
      * split; [eauto|]. split.
        -- apply Forall_app. split; [exact Hids|exact Htouched].
        -- split; [discriminate|exact Hfetch].
  - cbn [last_id trace at_pc touched pc_batch]. destruct Hbatch as [Hne Hb].
    split; [eauto|]. split; [|auto].
    apply Forall_app. split; [|exact Htouched].
    unfold ids_of. apply List.Forall_forall. intros i Hi.
    apply in_map_iff in Hi as (r & <- & Hr).
    rewrite List.Forall_forall in Hb. now apply Hb.
  - cbn [last_id trace at_pc touched pc_batch]. split; [eauto|]. auto.
  - cbn [last_id trace at_pc touched pc_batch]. destruct Hbatch as [Hne Hb].
    split; [|auto].
    destruct (last_of_in b Hne) as (r' & Hr' & ->).
    exists (id r'). split; [reflexivity|].
    rewrite List.Forall_forall in Hb. specialize (Hb r' Hr'). lia.
  - cbn [last_id trace at_pc touched pc_batch]. split; [eauto|]. auto.
  - destruct (tmp_file (world st));
      [|rewrite ?Epc; cbn [pc_batch]; split; [eauto|auto]; rewrite Epc; auto].
    cbn [last_id trace at_pc touched pc_batch]. split; [eauto|]. auto.
  - cbn [last_id trace at_pc touched pc_batch]. split; [eauto|].
    split; [exact Htouched|].
    unfold after_count. destruct (_ && _); cbn [pc_batch]; exact I.
  - rewrite Epc. cbn [pc_batch]. split; [eauto|]. auto.
Qed.

Lemma steps_resume_inv (n : nat) :
  forall st, resume_inv c st -> resume_inv c (steps embed args n st).
Proof.
  induction n as [|n IH]; intros st Hinv; [exact Hinv|].
  cbn [steps]. apply IH, step_resume_inv, Hinv.
Qed.

End RunnerSteps.

Lemma start_run_inv (args : Reembed.Args) (w : Reembed.World) :
  Reembed.run_inv (Reembed.cursor_key args)
    (Reembed.checkpoint (Reembed.start args w) !! Reembed.cursor_key args)
    (Reembed.start args w).
Proof.
  unfold Reembed.run_inv, Reembed.start. cbn. auto.
Qed.

(** Every run, resumed or not, interrupted or not: the checkpoint file is
    only ever replaced by a temporary file written just before, and the
    cursor in it is the one the run started with or the last id of a batch
    whose upsert is done. *)
Lemma main_checkpoint_discipline (embed : string -> list Q)
    (args : Reembed.Args) (budget : nat) (w : Reembed.World) :
  let st := Reembed.main embed args budget w in
  Reembed.atomic_writes (Reembed.trace st)
  /\ Reembed.advanced_after_upsert (Reembed.cursor_key args)
       (Reembed.checkpoint (Reembed.start args w)
          !! Reembed.cursor_key args)
       (Reembed.trace st).
Proof.
  cbn zeta. unfold Reembed.main.
  pose proof (steps_run_inv embed args _ budget _ (start_run_inv args w))
    as Hinv.
  destruct (Reembed.at_pc _) eqn:Epc;
    try (apply handler_run_inv; exact Hinv).
  destruct Hinv as (H1 & H2 & _). auto.
Qed.

(** C8. A run started with [--resume] from a checkpoint file that holds the
    cursor [c > 0] for its tenant, and interrupted after any number of
    actions or not at all: every id it fetches or embeds is above [c]; the
    cursor in the checkpoint file is only ever [c] or the last id of a batch
    whose upsert is done; and the file is only ever replaced by a temporary
    file written just before with the same data. *)
Theorem resumed_backfill_respects_checkpoint (embed : string -> list Q)
    (args : Reembed.Args) (w : Reembed.World) (data : gmap string Z)
    (c : Z) (budget : nat) :
  Reembed.resume args = true ->
  Reembed.path_file w = Some data ->
  data !! Reembed.cursor_key args = Some c ->
  0 < c ->
  let st := Reembed.main embed args budget w in
  Forall (fun i => c < i) (Reembed.touched (Reembed.trace st))
  /\ Reembed.advanced_after_upsert (Reembed.cursor_key args) (Some c)
       (Reembed.trace st)
  /\ Reembed.atomic_writes (Reembed.trace st).
Proof.
  intros Hresume Hfile Hdata Hc st.
  assert (Hstart : Reembed.checkpoint (Reembed.start args w)
                     !! Reembed.cursor_key args = Some c).
  { unfold Reembed.start, Reembed.load_checkpoint. rewrite Hresume, Hfile.
    exact Hdata. }
  pose proof (main_checkpoint_discipline embed args budget w) as [Hat Hadv].
  rewrite Hstart in Hadv. fold st in Hat, Hadv.
  split; [|split; [exact Hadv|exact Hat]].
  assert (Hinv0 : Reembed.resume_inv c (Reembed.start args w)).
  { unfold Reembed.resume_inv. split; [|split].
    - exists c. split; [|lia]. unfold Reembed.start. cbn [Reembed.last_id].
      unfold Reembed.start in Hstart. exact Hstart.
    - constructor.
    - exact I. }
  pose proof (steps_resume_inv embed args c Hc budget _ Hinv0)
    as (_ & Htouched & _).
  subst st. unfold Reembed.main.
  destruct (Reembed.at_pc _); exact Htouched.
Qed.

(** The theorem on the store of the example: the first run is interrupted
    in its second batch with the cursor 2 saved, and the run is resumed. *)
Lemma resumed_backfill_respects_checkpoint_witness :
  let st := Reembed.main ExampleBackfill.embed ExampleBackfill.resume_args 20
              ExampleBackfill.interrupted in
  Forall (fun i => 2 < i) (Reembed.touched (Reembed.trace st))
  /\ Reembed.advanced_after_upsert
       (Reembed.cursor_key ExampleBackfill.resume_args) (Some 2)
       (Reembed.trace st)
  /\ Reembed.atomic_writes (Reembed.trace st).
Proof.
  apply (resumed_backfill_respects_checkpoint ExampleBackfill.embed
           ExampleBackfill.resume_args ExampleBackfill.interrupted
           {["tn_prioritized"%string := 2]} 2 20).
  - reflexivity.
  - vm_compute. reflexivity.
  - vm_compute. reflexivity.
  - lia.
Defined.

(** The two runs of the example, oldest event first. *)
Example interrupted_then_resumed :
  rev (Reembed.trace
         (Reembed.main ExampleBackfill.embed ExampleBackfill.first_args 9
            ExampleBackfill.world0))
  = [Reembed.Fetched None [1; 2]; Reembed.Embedded [1; 2];
     Reembed.Upserted [1; 2];
     Reembed.WroteTmp {["tn_prioritized"%string := 2]};
     Reembed.Replaced {["tn_prioritized"%string := 2]};
     Reembed.Fetched (Some 2) [3; 4]; Reembed.Embedded [3; 4];
     Reembed.Interrupted;
     Reembed.WroteTmp {["tn_prioritized"%string := 2]};
     Reembed.Replaced {["tn_prioritized"%string := 2]}]
  /\ rev (Reembed.trace
            (Reembed.main ExampleBackfill.embed ExampleBackfill.resume_args
               20 ExampleBackfill.interrupted))
     = [Reembed.Fetched (Some 2) [3; 4]; Reembed.Embedded [3; 4];
        Reembed.Upserted [3; 4];
        Reembed.WroteTmp {["tn_prioritized"%string := 4]};
        Reembed.Replaced {["tn_prioritized"%string := 4]};
        Reembed.Fetched (Some 4) []].
Proof. vm_compute. split; reflexivity. Qed.

(* ================================================================== *)
(** * Further properties of the code around the claims *)
(* ================================================================== *)

(** ** chunking.py *)

Section SplitAnyOverlap.
Import Chunking.

Variable text : string.
Variables chunk_size overlap : Z.
Hypothesis chunk_size_pos : 0 < chunk_size.
Hypothesis overlap_lt : overlap < chunk_size.

(** Whatever the overlap below the chunk size, negative ones included, the
    loop appends only windows that start inside the text, and at least one
    when it is entered inside the text. *)
Lemma split_loop_chunks (fuel : nat) :
  forall start acc,
    0 <= start ->
    Z.max 0 (str_len text - start) < Z.of_nat fuel ->
    exists rest,
      split_loop fuel text (str_len text) chunk_size overlap start acc
        = Returns (acc ++ rest)
      /\ (start < str_len text -> rest <> [])
      /\ (forall c o, In (c, o) rest ->
            start <= o < str_len text
            /\ c = str_slice text o (o + chunk_size)).
Proof.
  induction fuel as [|f IH]; intros start acc Hs Hf; [lia|].
  cbn [split_loop].
  destruct (Z.ltb_spec start (str_len text)) as [Hlt|Hge].
  - destruct (Z.geb_spec (start + chunk_size) (str_len text)) as [Hend|Hend].
    + exists [(str_slice text start (start + chunk_size), start)].
      split; [reflexivity|]. split; [discriminate|].
      intros c o [[= <- <-]|[]]. split; [lia|reflexivity].
    + destruct (IH (Z.max 0 (start + chunk_size - overlap))
                  (acc ++ [(str_slice text start (start + chunk_size), start)]))
        as (rest & Heq & _ & Hin); [lia..|].
      exists ((str_slice text start (start + chunk_size), start) :: rest).
      split; [rewrite Heq, <- app_assoc; reflexivity|].
      split; [discriminate|].
      intros c o [[= <- <-]|Hc]; [split; [lia|reflexivity]|].
      destruct (Hin c o Hc) as [Ho Hc']. split; [lia|exact Hc'].
  - exists []. rewrite app_nil_r. split; [reflexivity|].
    split; [lia|]. intros c o [].
Qed.

End SplitAnyOverlap.

(** X1. For a positive chunk size and an overlap below it, negative ones
    included, [split_text_to_chunks] returns; so it does for an overlap that
    is too large when the chunk size is below [2 ^ 53], where the float
    quotient [chunk_size / 10] of the clamp is exact. The list is empty
    exactly for the empty text; every chunk starts inside the text, is the
    slice of [chunk_size] characters at its offset, and holds between 1 and
    [chunk_size] characters. *)
Theorem split_text_to_chunks_chunks_bounded
    (text : string) (chunk_size overlap : Z) :
  0 < chunk_size ->
  overlap < chunk_size \/ chunk_size < 2 ^ 53 ->
  exists chunks,
    Chunking.split_text_to_chunks text chunk_size overlap = Returns chunks
    /\ (chunks = [] <-> text = EmptyString)
    /\ (forall c o, In (c, o) chunks ->
          0 <= o < Chunking.str_len text
          /\ c = Chunking.str_slice text o (o + chunk_size)
          /\ 1 <= Chunking.str_len c <= chunk_size).
Proof.
  intros Hc Hdom. unfold Chunking.split_text_to_chunks.
  destruct text as [|a s] eqn:Et.
  { exists []. split; [reflexivity|]. split; [tauto|]. intros c o []. }
  rewrite <- Et. destruct (Z.leb_spec chunk_size 0); [lia|].
  assert (Hpos : 0 < Chunking.str_len text).
  { subst text. unfold Chunking.str_len, Py.len. cbn. lia. }
  destruct (clamp_overlap_returns chunk_size overlap Hc Hdom)
    as (ov & -> & Hov & _).
  destruct (split_loop_chunks text chunk_size ov Hc Hov
              (S (String.length text)) 0 [])
    as (chunks & Heq & Hne & Hin); [lia| |].
  { unfold Chunking.str_len, Py.len. rewrite length_chars. lia. }
  cbn [app] in Heq. exists chunks. split; [exact Heq|]. split.
  - split; [intros ->; exfalso; now apply Hne|subst text; discriminate].
  - intros c o Hco. destruct (Hin c o Hco) as [Ho ->].
    split; [exact Ho|]. split; [reflexivity|].
    rewrite str_len_window by lia. lia.
Qed.

Lemma split_text_to_chunks_chunks_bounded_witness :
  exists chunks,
    Chunking.split_text_to_chunks "abcdefghij" 4 (-2) = Returns chunks
    /\ (chunks = [] <-> "abcdefghij"%string = EmptyString)
    /\ (forall c o, In (c, o) chunks ->
          0 <= o < Chunking.str_len "abcdefghij"
          /\ c = Chunking.str_slice "abcdefghij" o (o + 4)
          /\ 1 <= Chunking.str_len c <= 4).
Proof.
  apply (split_text_to_chunks_chunks_bounded "abcdefghij" 4 (-2)); lia.
Defined.

(** A negative overlap leaves gaps: the characters between two windows are
    in no chunk. *)
Example split_text_to_chunks_negative_overlap :
  Chunking.split_text_to_chunks "abcdefghij" 4 (-2)
  = Returns [("abcd"%string, 0); ("ghij"%string, 6)].
Proof. reflexivity. Qed.

(** X2. An overlap that is not below the chunk size is replaced by
    [int(chunk_size / 10)], a float division. For a chunk size below
    [2 ^ 53] this is [chunk_size // 10]: the call returns the chunks of a
    call made with that overlap. *)
Theorem split_text_to_chunks_clamped_overlap
    (text : string) (chunk_size overlap : Z) :
  0 < chunk_size < 2 ^ 53 ->
  chunk_size <= overlap ->
  exists chunks,
    Chunking.split_text_to_chunks text chunk_size overlap = Returns chunks
    /\ Chunking.split_text_to_chunks text chunk_size (chunk_size ÷ 10)
       = Returns chunks.
Proof. exact (split_text_to_chunks_clamps text chunk_size overlap). Qed.

Lemma split_text_to_chunks_clamped_overlap_witness :
  exists chunks,
    Chunking.split_text_to_chunks "abcdefghijklmnopqrstuvwxyz" 10 25
      = Returns chunks
    /\ Chunking.split_text_to_chunks "abcdefghijklmnopqrstuvwxyz" 10 (10 ÷ 10)
       = Returns chunks.
Proof.
  apply (split_text_to_chunks_clamped_overlap
           "abcdefghijklmnopqrstuvwxyz" 10 25); lia.
Defined.

Section PayloadsLoop.
Import Payloads.

Lemma payloads_loop_lookup (tenant doc : string)
    (md : option (gmap string value)) (chunks : list Chunking.chunk) :
  forall (i : Z) (j : nat) c,
    chunks !! j = Some c ->
    payloads_loop tenant doc md i chunks !! j
    = Some (mkPayload tenant (doc ++ "::chunk::" ++ str_of_Z (i + Z.of_nat j))
              (fst c) (chunk_metadata md doc (i + Z.of_nat j) c)).
Proof.
  induction chunks as [|c0 chunks IH]; intros i j c Hj; [destruct j; discriminate|].
  destruct j as [|j]; cbn [payloads_loop].
  - injection Hj as ->. cbn. now rewrite Z.add_0_r.
  - cbn in Hj.
    change ((?x :: ?l) !! S j) with (l !! j).
    rewrite (IH (i + 1) j c Hj).
    replace (i + 1 + Z.of_nat j) with (i + Z.of_nat (S j)) by lia.
    reflexivity.
Qed.

Lemma payloads_loop_length (tenant doc : string)
    (md : option (gmap string value)) (chunks : list Chunking.chunk) :
  forall i, length (payloads_loop tenant doc md i chunks) = length chunks.
Proof.
  induction chunks as [|c chunks IH]; intros i; cbn; [reflexivity|].
  now rewrite IH.
Qed.

Lemma chunk_metadata_lookup (md : option (gmap string value)) (doc : string)
    (i : Z) (c : Chunking.chunk) :
  chunk_metadata md doc i c !! "parent_doc_id"%string = Some (VStr doc)
  /\ chunk_metadata md doc i c !! "chunk_index"%string = Some (VInt i)
  /\ chunk_metadata md doc i c !! "chunk_offset"%string = Some (VInt (snd c))
  /\ chunk_metadata md doc i c !! "chunk_length"%string
     = Some (VInt (Chunking.str_len (fst c)))
  /\ (forall k, ~ In k reserved_keys ->
        chunk_metadata md doc i c !! k = default ∅ md !! k).
Proof.
  unfold chunk_metadata. repeat split.
  - now rewrite !lookup_insert_ne, lookup_insert_eq by discriminate.
  - now rewrite !lookup_insert_ne, lookup_insert_eq by discriminate.
  - now rewrite lookup_insert_ne, lookup_insert_eq by discriminate.
  - now rewrite lookup_insert_eq.
  - intros k Hk. unfold reserved_keys in Hk. cbn in Hk.
    rewrite !lookup_insert_ne; [reflexivity|intros <-; tauto..].
Qed.

End PayloadsLoop.

(** X3. For a positive chunk size, and an overlap below it or a chunk size
    below [2 ^ 53], [chunk_document_payloads] returns one payload per
    chunk, in order. Payload [j] carries the tenant, the id
    [doc_id::chunk::j], the chunk text as content, and the document's
    metadata in which [parent_doc_id], [chunk_index], [chunk_offset] and
    [chunk_length] are set (replacing entries of the document under these
    keys) and every other key is as the document gave it;
    [chunk_length] is the length of the content. *)
Theorem chunk_document_payloads_fields
    (tenant doc content : string) (md : option (gmap string Payloads.value))
    (chunk_size overlap : Z) :
  0 < chunk_size ->
  overlap < chunk_size \/ chunk_size < 2 ^ 53 ->
  exists chunks payloads,
    Chunking.split_text_to_chunks content chunk_size overlap = Returns chunks
    /\ Payloads.chunk_document_payloads tenant doc content md chunk_size
         overlap = Returns payloads
    /\ length payloads = length chunks
    /\ (forall (j : nat) c o, chunks !! j = Some (c, o) ->
          exists p, payloads !! j = Some p
            /\ Payloads.tenant_id p = tenant
            /\ Payloads.doc_id p
               = (doc ++ "::chunk::" ++ str_of_Z (Z.of_nat j))%string
            /\ Payloads.content p = c
            /\ Payloads.metadata p !! "parent_doc_id"%string
               = Some (Payloads.VStr doc)
            /\ Payloads.metadata p !! "chunk_index"%string
               = Some (Payloads.VInt (Z.of_nat j))
            /\ Payloads.metadata p !! "chunk_offset"%string
               = Some (Payloads.VInt o)
            /\ Payloads.metadata p !! "chunk_length"%string
               = Some (Payloads.VInt (Chunking.str_len (Payloads.content p)))
            /\ (forall k, ~ In k Payloads.reserved_keys ->
                  Payloads.metadata p !! k = default ∅ md !! k)).
Proof.
  intros Hc Hdom.
  destruct (split_text_to_chunks_returns content chunk_size overlap Hc Hdom)
    as [chunks Heq].
  exists chunks, (Payloads.payloads_loop tenant doc md 0 chunks).
  split; [exact Heq|]. unfold Payloads.chunk_document_payloads. rewrite Heq.
  split; [reflexivity|]. split; [apply payloads_loop_length|].
  intros j c o Hj. eexists. split; [apply (payloads_loop_lookup _ _ _ _ 0 j _ Hj)|].
  cbn [Payloads.tenant_id Payloads.doc_id Payloads.content Payloads.metadata
       fst snd]. rewrite Z.add_0_l.
  destruct (chunk_metadata_lookup md doc (Z.of_nat j) (c, o))
    as (H1 & H2 & H3 & H4 & H5).
  repeat (split; [first [reflexivity|assumption]|]). exact H5.
Qed.

Lemma chunk_document_payloads_fields_witness :
  let md := Some {["title"%string := Payloads.VStr "Test";
                   "chunk_index"%string := Payloads.VStr "stale"]} in
  exists chunks payloads,
    Chunking.split_text_to_chunks "abcdefghijabcdefghijabcdefghij" 10 2
      = Returns chunks
    /\ Payloads.chunk_document_payloads "tn" "doc1"
         "abcdefghijabcdefghijabcdefghij" md 10 2 = Returns payloads
    /\ length payloads = length chunks
    /\ (forall (j : nat) c o, chunks !! j = Some (c, o) ->
          exists p, payloads !! j = Some p
            /\ Payloads.tenant_id p = "tn"%string
            /\ Payloads.doc_id p
               = ("doc1" ++ "::chunk::" ++ str_of_Z (Z.of_nat j))%string
            /\ Payloads.content p = c
            /\ Payloads.metadata p !! "parent_doc_id"%string
               = Some (Payloads.VStr "doc1")
            /\ Payloads.metadata p !! "chunk_index"%string
               = Some (Payloads.VInt (Z.of_nat j))
            /\ Payloads.metadata p !! "chunk_offset"%string
               = Some (Payloads.VInt o)
            /\ Payloads.metadata p !! "chunk_length"%string
               = Some (Payloads.VInt (Chunking.str_len (Payloads.content p)))
            /\ (forall k, ~ In k Payloads.reserved_keys ->
                  Payloads.metadata p !! k = default ∅ md !! k)).
Proof.
  apply (chunk_document_payloads_fields "tn" "doc1"
           "abcdefghijabcdefghijabcdefghij"); lia.
Defined.

(** tests/test_chunking.py, [test_chunk_document_payloads_metadata] *)
Example test_chunk_document_payloads_metadata :
  match Payloads.chunk_document_payloads "tn" "doc1"
          "abcdefghijabcdefghijabcdefghij"
          (Some {["title"%string := Payloads.VStr "Test"]}) 10 2 with
  | Returns payloads =>
      map Payloads.content payloads
      = ["abcdefghij"; "ijabcdefgh"; "ghijabcdef"; "efghij"]%string
      /\ map Payloads.doc_id payloads
         = ["doc1::chunk::0"; "doc1::chunk::1"; "doc1::chunk::2";
            "doc1::chunk::3"]%string
      /\ Forall (fun p => Payloads.metadata p !! "title"%string
                          = Some (Payloads.VStr "Test")) payloads
  | _ => False
  end.
Proof. vm_compute. repeat split; repeat constructor. Qed.

(** ** The loops over [range(0, n, step)] *)

Section Ranges.

Variables stop step : Z.
Hypothesis step_pos : 0 < step.

Lemma range_pos_lookup (fuel : nat) :
  forall (s : Z) (j : nat) i,
    Py.range_pos fuel s stop step !! j = Some i ->
    i = s + Z.of_nat j * step /\ i < stop.
Proof.
  induction fuel as [|f IH]; intros s j i Hj; [destruct j; discriminate|].
  cbn [Py.range_pos] in Hj.
  destruct (Z.ltb_spec s stop) as [Hlt|]; [|destruct j; discriminate].
  destruct j as [|j].
  - injection Hj as <-. lia.
  - change ((?x :: ?l) !! S j) with (l !! j) in Hj.
    destruct (IH _ _ _ Hj) as [-> Hi]. lia.
Qed.

Lemma range_pos_length (fuel : nat) :
  forall s : Z,
    stop - s <= Z.of_nat fuel ->
    Z.of_nat (length (Py.range_pos fuel s stop step))
    = Z.max 0 ((stop - s + step - 1) / step).
Proof.
  induction fuel as [|f IH]; intros s Hf.
  - cbn [Py.range_pos length].
    assert ((stop - s + step - 1) / step <= 0); [|lia].
    apply Z.lt_succ_r, Z.div_lt_upper_bound; lia.
  - cbn [Py.range_pos]. destruct (Z.ltb_spec s stop) as [Hlt|Hge].
    + cbn [length]. rewrite Nat2Z.inj_succ, IH by lia.
      replace (stop - s + step - 1) with (stop - (s + step) + step - 1 + 1 * step)
        by lia.
      rewrite Z.div_add by lia.
      assert (0 <= (stop - (s + step) + step - 1) / step)
        by (apply Z.div_pos; lia).
      lia.
    + cbn [length].
      assert ((stop - s + step - 1) / step <= 0); [|lia].
      apply Z.lt_succ_r, Z.div_lt_upper_bound; lia.
Qed.

End Ranges.

(** ** ingest-worker.py: token chunker *)

Section TokenChunks.
Import TokenChunker.

Variable self : TextChunker.
Variable tokens : list Z.
Variable md : gmap string string.

Lemma token_chunk_step_fold (starts : list Z) :
  forall acc,
    fold_left (chunk_step self tokens md) starts acc
    = acc ++ imap (fun j i =>
                     mkChunk
                       (decode (encoder self)
                          (Py.slice tokens i (i + chunk_size self)))
                       md (Py.len acc + Z.of_nat j)) starts.
Proof.
  induction starts as [|i starts IH]; intros acc; cbn [fold_left imap].
  - now rewrite app_nil_r.
  - rewrite IH. unfold chunk_step. rewrite <- app_assoc. cbn [app].
    rewrite Z.add_0_r. do 2 f_equal. apply imap_ext. intros j x _.
    cbn. unfold Py.len. rewrite length_app. cbn [length]. f_equal. lia.
Qed.

End TokenChunks.

(** X4. The token chunker, for [overlap < chunk_size]: the tokens beyond
    [max_tokens] are cut off, and the call returns one chunk per window of
    the tokens that are left, none dropped. There are
    [ceil(n / (chunk_size - overlap))] chunks for [n] tokens; chunk [j] has
    index [j] and decodes the tokens from [j * (chunk_size - overlap)] on,
    [chunk_size] of them at most. *)
Theorem token_chunk_text_windows
    (max_tokens : Z) (self : TokenChunker.TextChunker) (text : string)
    (md : gmap string string) :
  TokenChunker.overlap self < TokenChunker.chunk_size self ->
  0 <= max_tokens ->
  let step := TokenChunker.chunk_size self - TokenChunker.overlap self in
  let encoded := TokenChunker.encode (TokenChunker.encoder self) text in
  let tokens := take (Z.to_nat max_tokens) encoded in
  exists chunks,
    TokenChunker.chunk_text max_tokens self text md = Returns chunks
    /\ Z.of_nat (length chunks) = (Py.len tokens + step - 1) / step
    /\ (forall (j : nat) c, chunks !! j = Some c ->
          TokenChunker.chunk_index c = Z.of_nat j
          /\ TokenChunker.metadata c = md
          /\ TokenChunker.text c
             = TokenChunker.decode (TokenChunker.encoder self)
                 (Py.slice tokens (Z.of_nat j * step)
                    (Z.of_nat j * step + TokenChunker.chunk_size self))).
Proof.
  intros Hov Hmax step encoded tokens. unfold TokenChunker.chunk_text.
  fold encoded. assert (Hstep : 0 < step) by (unfold step; lia).
  assert (Htok : (if Py.len encoded >? max_tokens
                  then Py.slice encoded 0 max_tokens else encoded) = tokens).
  { unfold tokens. destruct (Z.gtb_spec (Py.len encoded) max_tokens) as [Hgt|Hle].
    - rewrite slice_take_drop by lia. cbn [Z.to_nat drop].
      now rewrite Z.sub_0_r.
    - unfold Py.len in Hle. rewrite take_ge by lia. reflexivity. }
  rewrite Htok. fold step. rewrite range0_pos by (unfold step; lia).
  set (starts := Py.range_pos _ _ _ _).
  rewrite token_chunk_step_fold. cbn [app].
  eexists. split; [reflexivity|]. split.
  - rewrite length_imap. unfold starts.
    rewrite (range_pos_length (Py.len tokens) step Hstep)
      by (unfold Py.len; lia).
    rewrite Z.sub_0_r.
    assert (0 <= (Py.len tokens + step - 1) / step)
      by (apply Z.div_pos; unfold step, Py.len; lia).
    lia.
  - intros j c Hj. rewrite list_lookup_imap in Hj.
    destruct (starts !! j) as [i|] eqn:Hi; [|discriminate].
    cbn in Hj. injection Hj as <-.
    apply range_pos_lookup in Hi as [-> _].
    cbn. rewrite !Z.add_0_l. auto.
Qed.

Lemma token_chunk_text_windows_witness :
  let self := TokenChunker.mkTextChunker 4 1
                (TokenChunker.mkEncoder
                   (fun s => map (fun c => Z.of_nat (nat_of_ascii c))
                               (list_ascii_of_string s))
                   (fun l => string_of_list_ascii
                               (map (fun i => ascii_of_nat (Z.to_nat i)) l))) in
  let step := TokenChunker.chunk_size self - TokenChunker.overlap self in
  let encoded := TokenChunker.encode (TokenChunker.encoder self)
                   "abcdefghijkl" in
  let tokens := take (Z.to_nat 8) encoded in
  exists chunks,
    TokenChunker.chunk_text 8 self "abcdefghijkl" ∅ = Returns chunks
    /\ Z.of_nat (length chunks) = (Py.len tokens + step - 1) / step
    /\ (forall (j : nat) c, chunks !! j = Some c ->
          TokenChunker.chunk_index c = Z.of_nat j
          /\ TokenChunker.metadata c = ∅
          /\ TokenChunker.text c
             = TokenChunker.decode (TokenChunker.encoder self)
                 (Py.slice tokens (Z.of_nat j * step)
                    (Z.of_nat j * step + TokenChunker.chunk_size self))).
Proof.
  apply (token_chunk_text_windows 8
           (TokenChunker.mkTextChunker 4 1
              (TokenChunker.mkEncoder
                 (fun s => map (fun c => Z.of_nat (nat_of_ascii c))
                             (list_ascii_of_string s))
                 (fun l => string_of_list_ascii
                             (map (fun i => ascii_of_nat (Z.to_nat i)) l))))
           "abcdefghijkl" ∅); cbn; lia.
Defined.

(** ** ingest_worker.py: word chunker *)

Section WordChunks.
Import WorkerChunker.

Variable self : TextChunker.
Variable words : list string.
Variable url : string.
Variable md : gmap string string.

Lemma chunk_step_in (starts : list Z) :
  forall acc c,
    In c (fold_left (chunk_step self words url md) starts acc) ->
    In c acc
    \/ exists i, In i starts
         /\ kept (window self words i) = true
         /\ id c = MD5 (url ++ ":" ++ str_of_Z i)
         /\ text c = join (window self words i)
         /\ source_url c = url
         /\ metadata c = md.
Proof.
  induction starts as [|i starts IH]; intros acc c Hin; cbn [fold_left] in Hin.
  - now left.
  - apply IH in Hin as [Hin|(i' & Hi' & Hrest)].
    + unfold chunk_step in Hin. fold (window self words i) in Hin.
      destruct (Py.len (window self words i) <? min_chunk_words) eqn:E;
        [now left|].
      apply in_app_or in Hin as [Hin|[<-|[]]]; [now left|].
      right. exists i. split; [now left|]. unfold kept. rewrite E. cbn. auto.
    + right. exists i'. split; [now right|exact Hrest].
Qed.

Lemma window_length_le (i : Z) :
  0 <= i -> 0 <= chunk_size self ->
  Py.len (window self words i) <= chunk_size self.
Proof.
  intros Hi Hc. unfold window, Py.slice, Py.clip_index, Py.len.
  destruct (Z.ltb_spec i 0); [lia|].
  destruct (Z.ltb_spec (i + chunk_size self) 0); [lia|].
  rewrite length_take, length_drop. lia.
Qed.

End WordChunks.

(** X5. The word chunker, for [overlap < chunk_size]: every returned chunk
    joins the words of one window of the text that starts at a multiple of
    [chunk_size - overlap], is named by the MD5 of ["<source_url>:<start>"],
    and holds at least 50 and at most [chunk_size] words. With a chunk size
    below 50, no text yields any chunk. (A negative [chunk_size] is left
    out: [words[i:i + chunk_size]] then counts its end from the back.) *)
Theorem chunk_text_word_bounds
    (self : WorkerChunker.TextChunker) (text source_url : string)
    (md : gmap string string) :
  0 <= WorkerChunker.chunk_size self ->
  WorkerChunker.overlap self < WorkerChunker.chunk_size self ->
  let words := WorkerChunker.split text in
  let step := WorkerChunker.chunk_size self - WorkerChunker.overlap self in
  exists chunks,
    WorkerChunker.chunk_text self text source_url md = Returns chunks
    /\ (forall c, In c chunks ->
          exists k : nat,
            let i := Z.of_nat k * step in
            i < Py.len words
            /\ WorkerChunker.id c = MD5 (source_url ++ ":" ++ str_of_Z i)
            /\ WorkerChunker.text c
               = WorkerChunker.join (WorkerChunker.window self words i)
            /\ WorkerChunker.source_url c = source_url
            /\ WorkerChunker.metadata c = md
            /\ WorkerChunker.min_chunk_words
               <= Py.len (WorkerChunker.window self words i)
               <= WorkerChunker.chunk_size self)
    /\ (WorkerChunker.chunk_size self < WorkerChunker.min_chunk_words ->
        chunks = []).
Proof.
  intros Hpos Hov words step.
  unfold WorkerChunker.chunk_text, WorkerChunker.chunk_words.
  fold words. fold step. rewrite range0_pos by (unfold step; lia).
  set (starts := Py.range_pos _ _ _ _).
  eexists. split; [reflexivity|].
  assert (Hin : forall c,
            In c (fold_left
                    (WorkerChunker.chunk_step self words source_url md)
                    starts []) ->
            exists k : nat,
              let i := Z.of_nat k * step in
              i < Py.len words
              /\ WorkerChunker.id c = MD5 (source_url ++ ":" ++ str_of_Z i)
              /\ WorkerChunker.text c
                 = WorkerChunker.join (WorkerChunker.window self words i)
              /\ WorkerChunker.source_url c = source_url
              /\ WorkerChunker.metadata c = md
              /\ WorkerChunker.min_chunk_words
                 <= Py.len (WorkerChunker.window self words i)
                 <= WorkerChunker.chunk_size self).
  { intros c Hc.
    apply chunk_step_in in Hc as [[]|(i & Hi & Hk & H1 & H2 & H3 & H4)].
    apply list_elem_of_In, list_elem_of_lookup in Hi as [k Hi].
    apply range_pos_lookup in Hi as [-> Hlt]. rewrite Z.add_0_l in *.
    exists k. cbn zeta. split; [exact Hlt|].
    repeat (split; [assumption|]).
    unfold WorkerChunker.kept in Hk.
    destruct (Z.ltb_spec (Py.len (WorkerChunker.window self words
                                    (Z.of_nat k * step)))
                WorkerChunker.min_chunk_words); [discriminate|].
    split; [lia|].
    apply window_length_le; [unfold step; nia|exact Hpos]. }
  split; [exact Hin|].
  intros Hsmall.
  destruct (fold_left _ starts []) as [|c rest] eqn:E; [reflexivity|].
  destruct (Hin c ltac:(now left)) as (k & _ & _ & _ & _ & _ & Hb). lia.
Qed.

(** Seventy words with [chunk_size = 60] and [overlap = 10]: the window
    [0..60) is returned, the window [50..70) is not. *)
Lemma chunk_text_word_bounds_witness :
  let self := WorkerChunker.mkTextChunker 60 10 in
  let text := WorkerChunker.join (repeat "w"%string 70) in
  let words := WorkerChunker.split text in
  let step := WorkerChunker.chunk_size self - WorkerChunker.overlap self in
  exists chunks,
    WorkerChunker.chunk_text self text "file://a.txt" ∅ = Returns chunks
    /\ (forall c, In c chunks ->
          exists k : nat,
            let i := Z.of_nat k * step in
            i < Py.len words
            /\ WorkerChunker.id c = MD5 ("file://a.txt" ++ ":" ++ str_of_Z i)
            /\ WorkerChunker.text c
               = WorkerChunker.join (WorkerChunker.window self words i)
            /\ WorkerChunker.source_url c = "file://a.txt"%string
            /\ WorkerChunker.metadata c = ∅
            /\ WorkerChunker.min_chunk_words
               <= Py.len (WorkerChunker.window self words i)
               <= WorkerChunker.chunk_size self)
    /\ (WorkerChunker.chunk_size self < WorkerChunker.min_chunk_words ->
        chunks = []).
Proof.
  apply (chunk_text_word_bounds (WorkerChunker.mkTextChunker 60 10)
           (WorkerChunker.join (repeat "w"%string 70)) "file://a.txt" ∅);
    cbn; lia.
Defined.

(** The chunks of that call: one, of 60 words, its id the MD5 of
    ["file://a.txt:0"]. *)
Example chunk_text_word_bounds_example :
  let self := WorkerChunker.mkTextChunker 60 10 in
  let text := WorkerChunker.join (repeat "w"%string 70) in
  exists c,
    WorkerChunker.chunk_text self text "file://a.txt" ∅ = Returns [c]
    /\ WorkerChunker.text c = WorkerChunker.join (repeat "w"%string 60)
    /\ WorkerChunker.id c = MD5 "file://a.txt:0"
    /\ WorkerChunker.chunk_index c = 0.
Proof.
  eexists. split; [vm_compute; reflexivity|]. repeat split; reflexivity.
Qed.

(** X6. Neither [TextChunker.chunk_text] guards the step of its [range]:
    with [overlap = chunk_size] both raise [ValueError] for every text, and
    with [overlap > chunk_size] both return no chunk for every text. *)
Theorem chunk_text_without_positive_step
    (self : WorkerChunker.TextChunker) (tself : TokenChunker.TextChunker)
    (max_tokens : Z) (text source_url : string) (md : gmap string string) :
  WorkerChunker.chunk_size self <= WorkerChunker.overlap self ->
  TokenChunker.chunk_size tself <= TokenChunker.overlap tself ->
  WorkerChunker.chunk_text self text source_url md
  = (if WorkerChunker.overlap self =? WorkerChunker.chunk_size self
     then Raises (ValueError "range() arg 3 must not be zero")
     else Returns [])
  /\ TokenChunker.chunk_text max_tokens tself text md
     = (if TokenChunker.overlap tself =? TokenChunker.chunk_size tself
        then Raises (ValueError "range() arg 3 must not be zero")
        else Returns []).
Proof.
  intros H1 H2. split.
  - unfold WorkerChunker.chunk_text.
    destruct (Z.eqb_spec (WorkerChunker.overlap self)
                (WorkerChunker.chunk_size self)) as [Heq|Hne].
    + now apply chunk_words_overlap_equal.
    + apply chunk_words_overlap_larger. lia.
  - destruct (Z.eqb_spec (TokenChunker.overlap tself)
                (TokenChunker.chunk_size tself)) as [Heq|Hne].
    + now apply token_chunk_text_overlap_equal.
    + unfold TokenChunker.chunk_text, Py.range0.
      destruct (Z.eqb_spec (TokenChunker.chunk_size tself
                            - TokenChunker.overlap tself) 0); [lia|].
      destruct (Z.ltb_spec (TokenChunker.chunk_size tself
                            - TokenChunker.overlap tself) 0); [|lia].
      reflexivity.
Qed.

Lemma chunk_text_without_positive_step_witness :
  let self := WorkerChunker.mkTextChunker 600 600 in
  let tself := TokenChunker.mkTextChunker 600 700
                 (TokenChunker.mkEncoder (fun _ => [1; 2; 3])
                    (fun _ => "x"%string)) in
  WorkerChunker.chunk_text self "hello world" "https://example.test" ∅
  = (if WorkerChunker.overlap self =? WorkerChunker.chunk_size self
     then Raises (ValueError "range() arg 3 must not be zero")
     else Returns [])
  /\ TokenChunker.chunk_text 100000 tself "hello world" ∅
     = (if TokenChunker.overlap tself =? TokenChunker.chunk_size tself
        then Raises (ValueError "range() arg 3 must not be zero")
        else Returns []).
Proof.
  apply (chunk_text_without_positive_step
           (WorkerChunker.mkTextChunker 600 600)
           (TokenChunker.mkTextChunker 600 700
              (TokenChunker.mkEncoder (fun _ => [1; 2; 3])
                 (fun _ => "x"%string)))
           100000 "hello world" "https://example.test" ∅); cbn; lia.
Defined.

(** ** The FAISS searches, result by result *)

Section FaissResults.
Import Faiss.
Context {C : Type}.
Variable chunks : list C.

Local Abbreviation guard := (fun p : Q * Z => (snd p <? Py.len chunks)%Z).

Lemma index_below_range (i : Z) :
  (i < - Py.len chunks)%Z -> Py.index chunks i = Raises IndexError.
Proof.
  intros Hi. unfold Py.index. pose proof (len_nonneg chunks).
  destruct (Z.ltb_spec i 0); [|lia].
  destruct (Z.ltb_spec (Py.len chunks + i) 0); [reflexivity|lia].
Qed.

Lemma search_loop_raises (pairs : list (Q * Z)) :
  forall results,
    Exists (fun p => (snd p < - Py.len chunks)%Z) pairs ->
    search_loop chunks pairs results = Raises IndexError.
Proof.
  induction pairs as [|[d i] pairs IH]; intros results Hex.
  - inversion Hex.
  - cbn [search_loop]. pose proof (len_nonneg chunks) as Hlen.
    destruct (Z_lt_le_dec i (- Py.len chunks)) as [Hbad|Hgood].
    + destruct (Z.ltb_spec i (Py.len chunks)); [|lia].
      now rewrite index_below_range.
    + assert (Hrest : Exists (fun p => (snd p < - Py.len chunks)%Z) pairs).
      { inversion Hex as [? ? Hh|? ? Ht]; subst; [cbn in Hh; lia|exact Ht]. }
      destruct (Z.ltb_spec i (Py.len chunks)) as [Hlt|Hge].
      * destruct (index_returns chunks i) as [c Hc]; [lia|]. rewrite Hc.
        apply IH, Hrest.
      * apply IH, Hrest.
Qed.

End FaissResults.

Lemma Exists_zip_snd {A B} (P : B -> Prop) (ys : list B) :
  forall xs : list A,
    length xs = length ys ->
    Exists P ys -> Exists (fun p => P (snd p)) (zip xs ys).
Proof.
  induction ys as [|y ys IH]; intros xs Hlen Hex; [inversion Hex|].
  destruct xs as [|x xs]; [discriminate|]. cbn in Hlen.
  cbn [zip zip_with].
  inversion Hex as [? ? Hh|? ? Ht]; subst.
  - now constructor 1.
  - constructor 2. apply IH; [lia|exact Ht].
Qed.

(** X7. When the index answers as many distances as labels and no label is
    below [-len(chunks)], [FAISSVectorStore.search] and
    [FAISSIndexManager.search] return the same list: one result for each
    slot whose label passes the guard [idx < len(chunks)], in the order of
    the slots, holding the chunk [chunks[idx]] and the score
    [1 / (1 + dist)] of that slot. At most one result per slot comes
    back. *)
Theorem faiss_searches_return_accepted_slots {C : Type} (chunks : list C)
    (out : Faiss.search_output) :
  length (Faiss.distances out) = length (Faiss.labels out) ->
  Forall (fun idx => - Py.len chunks <= idx) (Faiss.labels out) ->
  exists results,
    Faiss.FAISSVectorStore_search chunks out = Returns results
    /\ Faiss.FAISSIndexManager_search chunks out = Returns results
    /\ Forall2 (Faiss.from_slot chunks) (Faiss.accepted chunks out) results
    /\ (length results <= length (Faiss.labels out))%nat.
Proof.
  intros Hlen Hall.
  destruct (search_loop_results chunks
              (zip (Faiss.distances out) (Faiss.labels out)) [])
    as (rs & Heq & Hrs).
  { now apply (Forall_zip_snd (fun i => - Py.len chunks <= i)). }
  cbn [app] in Heq. exists rs.
  split; [exact Heq|]. split; [now rewrite manager_search_eq|].
  split; [exact Hrs|].
  apply Forall2_length in Hrs. rewrite <- Hrs. unfold Faiss.accepted.
  etransitivity; [apply List.filter_length_le|].
  rewrite length_zip_with. lia.
Qed.

Lemma faiss_searches_return_accepted_slots_witness :
  let chunks := ["a"; "b"; "c"]%string in
  let out := Faiss.mkOutput [0; 1; 2; 5]%Q [2; 7; -1; 0] in
  exists results,
    Faiss.FAISSVectorStore_search chunks out = Returns results
    /\ Faiss.FAISSIndexManager_search chunks out = Returns results
    /\ Forall2 (Faiss.from_slot chunks) (Faiss.accepted chunks out) results
    /\ (length results <= length (Faiss.labels out))%nat.
Proof.
  apply (faiss_searches_return_accepted_slots ["a"; "b"; "c"]%string
           (Faiss.mkOutput [0; 1; 2; 5]%Q [2; 7; -1; 0])).
  - reflexivity.
  - do 4 (constructor; [unfold Py.len; cbn; lia|]). constructor.
Defined.

(** X8. A label below [-len(chunks)] passes the guard [idx < len(chunks)]
    and is out of range for [chunks[idx]]: both searches raise
    [IndexError], whatever the other slots hold. A store with no chunk
    raises so for every answer that has a padding label [-1]. *)
Theorem faiss_search_label_below_range_raises {C : Type} (chunks : list C)
    (out : Faiss.search_output) :
  length (Faiss.distances out) = length (Faiss.labels out) ->
  Exists (fun idx => idx < - Py.len chunks) (Faiss.labels out) ->
  Faiss.FAISSVectorStore_search chunks out = Raises IndexError
  /\ Faiss.FAISSIndexManager_search chunks out = Raises IndexError.
Proof.
  intros Hlen Hex.
  assert (Hs : Faiss.FAISSVectorStore_search chunks out = Raises IndexError).
  { apply search_loop_raises.
    now apply (Exists_zip_snd (fun i => i < - Py.len chunks)). }
  split; [exact Hs|]. now rewrite manager_search_eq.
Qed.

Lemma faiss_search_label_below_range_raises_witness :
  let chunks : list string := [] in
  let out := Faiss.IndexFlatL2_search [] [0; 0]%Q 1 in
  Faiss.FAISSVectorStore_search chunks out = Raises IndexError
  /\ Faiss.FAISSIndexManager_search chunks out = Raises IndexError.
Proof.
  apply (faiss_search_label_below_range_raises (@nil string)
           (Faiss.IndexFlatL2_search [] [0; 0]%Q 1)).
  - reflexivity.
  - constructor 1. unfold Py.len. cbn. lia.
Defined.

(** ** The Chroma search, hit by hit *)

Section ChromaHits.
Import Chroma.
Variable r : QueryResult.

Lemma hits_loop_rows (docs : list string) :
  forall (n : nat) hits,
    (forall (j : nat) d, docs !! j = Some d ->
       documents r !! (n + j)%nat = Some d) ->
    (n + length docs <= length (ids r))%nat ->
    (n + length docs <= length (distances r))%nat ->
    (n + length docs <= length (metadatas r))%nat ->
    exists hs,
      hits_loop r (Faiss.enumerate_from (Z.of_nat n) docs) hits
        = Returns (hits ++ hs)
      /\ length hs = length docs
      /\ (forall (j : nat) h, hs !! j = Some h -> hit_of_row r (n + j) h).
Proof.
  induction docs as [|doc docs IH]; intros n hits Hdocs Hi Hd Hm.
  - exists []. rewrite app_nil_r. split; [reflexivity|].
    split; [reflexivity|]. intros j h Hj. discriminate.
  - cbn [length] in *. cbn [Faiss.enumerate_from hits_loop].
    destruct (nth_error (ids r) n) as [i|] eqn:Ei;
      [|apply nth_error_None in Ei; lia].
    destruct (nth_error (distances r) n) as [d|] eqn:Ed;
      [|apply nth_error_None in Ed; lia].
    destruct (nth_error (metadatas r) n) as [m|] eqn:Em;
      [|apply nth_error_None in Em; lia].
    rewrite (index_nth _ _ _ Ei), (index_nth _ _ _ Ed), (index_nth _ _ _ Em).
    replace (Z.of_nat n + 1) with (Z.of_nat (S n)) by lia.
    destruct (IH (S n) (hits ++ [mkHit i d doc m]))
      as (hs & Heq & Hlen & Hrows); [|lia..|].
    { intros j d' Hj. replace (S n + j)%nat with (n + S j)%nat by lia.
      apply Hdocs. exact Hj. }
    exists (mkHit i d doc m :: hs). split; [|split].
    + rewrite Heq, <- app_assoc. reflexivity.
    + cbn. now rewrite Hlen.
    + intros [|j] h Hj.
      * injection Hj as <-. rewrite Nat.add_0_r. unfold hit_of_row.
        cbn [id score document metadata].
        rewrite <- !nth_error_lookup'. repeat split; try assumption.
        rewrite nth_error_lookup'.
        specialize (Hdocs 0%nat doc eq_refl). now rewrite Nat.add_0_r in Hdocs.
      * replace (n + S j)%nat with (S n + j)%nat by lia.
        apply Hrows. exact Hj.
Qed.

Lemma hits_loop_raises (docs : list string) :
  forall (n : nat) hits,
    docs <> [] ->
    (n <= length (ids r))%nat ->
    (n <= length (distances r))%nat ->
    (n <= length (metadatas r))%nat ->
    (length (ids r) < n + length docs
     \/ length (distances r) < n + length docs
     \/ length (metadatas r) < n + length docs)%nat ->
    hits_loop r (Faiss.enumerate_from (Z.of_nat n) docs) hits
    = Raises IndexError.
Proof.
  assert (Hidx : forall A (l : list A) (n : nat),
            nth_error l n = None ->
            Py.index l (Z.of_nat n) = Raises IndexError).
  { intros A l n Hn. unfold Py.index.
    destruct (Z.ltb_spec (Z.of_nat n) 0); [lia|].
    destruct (Z.ltb_spec (Z.of_nat n) 0); [lia|].
    now rewrite Nat2Z.id, Hn. }
  induction docs as [|doc docs IH]; intros n hits Hne Hi Hd Hm Hshort;
    [congruence|].
  cbn [length] in *. cbn [Faiss.enumerate_from hits_loop].
  destruct (nth_error (ids r) n) as [i|] eqn:Ei;
    [rewrite (index_nth _ _ _ Ei)|now rewrite (Hidx _ _ _ Ei)].
  destruct (nth_error (distances r) n) as [d|] eqn:Ed;
    [rewrite (index_nth _ _ _ Ed)|now rewrite (Hidx _ _ _ Ed)].
  destruct (nth_error (metadatas r) n) as [m|] eqn:Em;
    [rewrite (index_nth _ _ _ Em)|now rewrite (Hidx _ _ _ Em)].
  assert (Hi' : (n < length (ids r))%nat)
    by (apply nth_error_Some; congruence).
  assert (Hd' : (n < length (distances r))%nat)
    by (apply nth_error_Some; congruence).
  assert (Hm' : (n < length (metadatas r))%nat)
    by (apply nth_error_Some; congruence).
  replace (Z.of_nat n + 1) with (Z.of_nat (S n)) by lia.
  apply IH; try lia.
  destruct docs; [cbn in Hshort; lia|discriminate].
Qed.

End ChromaHits.

(** X9. [ChromaVectorStore.search], when the query answers at least as many
    ids, distances and metadatas as documents: it returns one hit per
    document, in order, and hit [j] holds [ids[j]], [distances[j]] (as its
    score, unchanged), [documents[j]] and [metadatas[j]]. Entries of the
    other lists beyond the documents are not read. *)
Theorem chroma_search_hits_follow_rows (r : Chroma.QueryResult) :
  (length (Chroma.documents r) <= length (Chroma.ids r))%nat ->
  (length (Chroma.documents r) <= length (Chroma.distances r))%nat ->
  (length (Chroma.documents r) <= length (Chroma.metadatas r))%nat ->
  exists hits,
    Chroma.search r = Returns hits
    /\ length hits = length (Chroma.documents r)
    /\ (forall (j : nat) h, hits !! j = Some h -> Chroma.hit_of_row r j h).
Proof.
  intros Hi Hd Hm.
  destruct (hits_loop_rows r (Chroma.documents r) 0 [])
    as (hs & Heq & Hlen & Hrows); [auto|cbn; lia..|].
  exists hs. split; [exact Heq|]. split; [exact Hlen|exact Hrows].
Qed.

Lemma chroma_search_hits_follow_rows_witness :
  let r := Chroma.mkQueryResult ["d1"; "d2"; "d3"]%string
             ["first"; "second"]%string [∅; ∅] [0; 3]%Q in
  exists hits,
    Chroma.search r = Returns hits
    /\ length hits = length (Chroma.documents r)
    /\ (forall (j : nat) h, hits !! j = Some h -> Chroma.hit_of_row r j h).
Proof.
  apply (chroma_search_hits_follow_rows
           (Chroma.mkQueryResult ["d1"; "d2"; "d3"]%string
              ["first"; "second"]%string [∅; ∅] [0; 3]%Q)); cbn; lia.
Defined.

(** X10. [ChromaVectorStore.search], when the query answers fewer ids,
    distances or metadatas than documents: the loop raises [IndexError] and
    no hit is returned, not the hits of the complete rows either. *)
Theorem chroma_search_short_row_raises (r : Chroma.QueryResult) :
  (length (Chroma.ids r) < length (Chroma.documents r)
   \/ length (Chroma.distances r) < length (Chroma.documents r)
   \/ length (Chroma.metadatas r) < length (Chroma.documents r))%nat ->
  Chroma.search r = Raises IndexError.
Proof.
  intros Hshort. unfold Chroma.search.
  apply (hits_loop_raises r (Chroma.documents r) 0 []); try (cbn; lia).
  destruct (Chroma.documents r); [cbn in Hshort; lia|discriminate].
Qed.

Lemma chroma_search_short_row_raises_witness :
  Chroma.search
    (Chroma.mkQueryResult ["d1"; "d2"]%string ["first"; "second"]%string
       [∅] [0; 3]%Q)
  = Raises IndexError.
Proof.
  apply (chroma_search_short_row_raises
           (Chroma.mkQueryResult ["d1"; "d2"]%string
              ["first"; "second"]%string [∅] [0; 3]%Q)).
  right. right. cbn. lia.
Defined.

(** ** The purge on any directory *)

Section PurgeAnyDir.
Import Purge.

Variable now : Z.

Local Abbreviation expired_stems :=
  (fun listing : list (string * JsonFile) =>
     (filter (fun e => is_expired now e.2) listing).*1).

(** The loop without the assumption that a sidecar names its own stem: the
    sidecar is deleted by its file name, the index by the token inside. *)
Lemma purge_loop_any (listing : list (string * JsonFile)) :
  forall d n,
    let r := foldl (purge_step now) (d, n) listing in
    (forall t, metas r.1 !! t
               = if decide (t ∈ expired_stems listing) then None
                 else metas d !! t)
    /\ (forall t, t ∈ indexes r.1
                  <-> t ∈ indexes d
                      /\ ~ exists stem md,
                            (stem, Some md) ∈ listing
                            /\ expires_at md < now /\ trial_token md = t)
    /\ r.2 = n + Z.of_nat (length (expired_stems listing)).
Proof.
  induction listing as [|[stem file] listing IH]; intros d n.
  - cbn. split; [|split].
    + intros t. rewrite decide_False; [reflexivity|set_solver].
    + intros t. split; [|tauto]. intros Hin. split; [exact Hin|].
      intros (s & md & Hs & _). set_solver.
    + lia.
  - cbn [foldl].
    destruct (is_expired now file) eqn:Hexp.
    + destruct file as [md|]; [|discriminate]. cbn in Hexp.
      apply Z.ltb_lt in Hexp.
      rewrite purge_step_expired by exact Hexp.
      destruct (IH (mkDir (delete stem (metas d))
                      (indexes d ∖ {[trial_token md]})) (n + 1))
        as (Hm & Hi & Hn).
      rewrite filter_cons_True by (cbn; now apply Is_true_true, Z.ltb_lt).
      cbn [fmap list_fmap fst length] in *. split; [|split].
      * intros t. rewrite Hm. cbn [metas].
        destruct (decide (t = stem)) as [->|Hne].
        -- rewrite (decide_True (P := stem ∈ stem :: _)) by set_solver.
           destruct (decide _); [reflexivity|apply lookup_delete_eq].
        -- rewrite lookup_delete_ne by congruence.
           destruct (decide (t ∈ _)) as [Hin|Hnin].
           ++ rewrite decide_True by set_solver. reflexivity.
           ++ rewrite decide_False by set_solver. reflexivity.
      * intros t. rewrite Hi. cbn [indexes].
        rewrite elem_of_difference, elem_of_singleton. split.
        -- intros [[Hin Hne] Hno]. split; [exact Hin|].
           intros (s & md' & Hs & Hlt & Htok).
           apply elem_of_cons in Hs as [Heq|Hs];
             [injection Heq as -> ->; congruence|].
           apply Hno. eauto.
        -- intros [Hin Hno]. split; [split; [exact Hin|]|].
           ++ intros ->. apply Hno. exists stem, md.
              split; [left|]; auto.
           ++ intros (s & md' & Hs & Hlt & Htok). apply Hno.
              exists s, md'. split; [now right|]. auto.
      * rewrite Hn. lia.
    + rewrite purge_step_kept by exact Hexp.
      rewrite filter_cons_False
        by (cbn; rewrite Hexp; exact (fun H => H)).
      destruct (IH d n) as (Hm & Hi & Hn). split; [exact Hm|].
      split; [|exact Hn].
      intros t. rewrite Hi. split; intros [Hin Hno]; (split; [exact Hin|]).
      * intros (s & md' & Hs & Hlt & Htok).
        apply elem_of_cons in Hs as [Heq|Hs].
        -- injection Heq as -> <-. cbn in Hexp. apply Z.ltb_ge in Hexp. lia.
        -- apply Hno. eauto.
      * intros (s & md' & Hs & Hlt & Htok). apply Hno.
        exists s, md'. split; [now right|]. auto.
Qed.

(** A listing without a readable, expired sidecar is left alone. *)
Lemma purge_loop_nothing_expired (listing : list (string * JsonFile)) :
  forall d n,
    (forall e, e ∈ listing -> is_expired now e.2 = false) ->
    foldl (purge_step now) (d, n) listing = (d, n).
Proof.
  induction listing as [|[stem file] listing IH]; intros d n Hall;
    [reflexivity|].
  cbn [foldl]. rewrite purge_step_kept.
  - apply IH. intros e He. apply Hall. now right.
  - apply (Hall (stem, file)). now left.
Qed.

End PurgeAnyDir.

Lemma purge_any_dir (now : Z) (d : Purge.Dir) :
  let r := Purge.purge_expired_trials now d in
  (forall t, Purge.metas r.1 !! t
             = if decide (t ∈ Purge.expired now d) then None
               else Purge.metas d !! t)
  /\ (forall t, t ∈ Purge.indexes r.1
                <-> t ∈ Purge.indexes d
                    /\ ~ exists stem md,
                          Purge.metas d !! stem = Some (Some md)
                          /\ Purge.expires_at md < now
                          /\ Purge.trial_token md = t)
  /\ r.2 = Z.of_nat (size (Purge.expired now d)).
Proof.
  unfold Purge.purge_expired_trials, Purge.purge_loop.
  destruct (purge_loop_any now (map_to_list (Purge.metas d)) d 0)
    as (Hm & Hi & Hn).
  set (r := foldl (Purge.purge_step now) (d, 0) (map_to_list (Purge.metas d)))
    in *.
  cbn zeta. split; [|split].
  - intros t. rewrite Hm.
    destruct (decide (t ∈ Purge.expired now d)) as [Hin|Hnot].
    + rewrite decide_True; [reflexivity|].
      now apply expired_stems_map_to_list.
    + rewrite decide_False; [reflexivity|].
      now rewrite expired_stems_map_to_list.
  - intros t. rewrite Hi.
    split; intros [Hin Hno]; (split; [exact Hin|]);
      intros (s & md & Hs & Hrest); apply Hno; exists s, md;
      (split; [|exact Hrest]).
    + now apply elem_of_map_to_list.
    + now apply elem_of_map_to_list in Hs.
  - rewrite Hn, Z.add_0_l. f_equal.
    rewrite <- (size_list_to_set (C := gset string)).
    + f_equal. apply set_eq. intros t.
      rewrite elem_of_list_to_set. apply expired_stems_map_to_list.
    + apply (sublist_NoDup _ (map_to_list (Purge.metas d)).*1).
      * apply NoDup_fst_map_to_list.
      * apply fmap_sublist, sublist_filter.
Qed.

(** X11. [purge_expired_trials] on any directory, also one whose sidecars
    name a token other than their own file name or cannot be read: exactly
    the readable sidecars with [expires_at] before [now] are deleted; an
    unreadable sidecar and an unexpired one stay as they are, and no file
    appears; an index file is deleted exactly when some deleted sidecar
    names its token (so a sidecar that names another tenant deletes that
    tenant's index and leaves its own); the count is the number of deleted
    sidecars. *)
Theorem purge_expired_trials_any_directory (now : Z) (d : Purge.Dir) :
  let r := Purge.purge_expired_trials now d in
  (forall t md,
     Purge.metas d !! t = Some (Some md) -> Purge.expires_at md < now ->
     Purge.metas r.1 !! t = None)
  /\ (forall t md,
        Purge.metas d !! t = Some (Some md) -> now <= Purge.expires_at md ->
        Purge.metas r.1 !! t = Some (Some md))
  /\ (forall t, Purge.metas d !! t = Some None ->
        Purge.metas r.1 !! t = Some None)
  /\ (forall t, Purge.metas d !! t = None -> Purge.metas r.1 !! t = None)
  /\ (forall t, t ∈ Purge.indexes r.1
                <-> t ∈ Purge.indexes d
                    /\ ~ exists stem md,
                          Purge.metas d !! stem = Some (Some md)
                          /\ Purge.expires_at md < now
                          /\ Purge.trial_token md = t)
  /\ r.2 = Z.of_nat (size (dom (Purge.metas d) ∖ dom (Purge.metas r.1))).
Proof.
  destruct (purge_any_dir now d) as (Hm & Hi & Hn).
  set (r := Purge.purge_expired_trials now d) in *. cbn zeta in *.
  assert (Hkeep : forall t file,
            Purge.metas d !! t = Some file ->
            Purge.is_expired now file = false ->
            Purge.metas r.1 !! t = Some file).
  { intros t file Hl Hexp. rewrite Hm, decide_False; [exact Hl|].
    rewrite elem_of_expired. intros (md & Hl' & Hlt).
    rewrite Hl in Hl'. injection Hl' as ->. cbn in Hexp.
    apply Z.ltb_ge in Hexp. lia. }
  split; [|split; [|split; [|split; [|split]]]].
  - intros t md Hl Hlt. rewrite Hm, decide_True; [reflexivity|].
    apply elem_of_expired. eauto.
  - intros t md Hl Hge. apply Hkeep; [exact Hl|]. cbn. now apply Z.ltb_ge.
  - intros t Hl. now apply Hkeep.
  - intros t Hl. rewrite Hm. destruct (decide _); [reflexivity|exact Hl].
  - exact Hi.
  - rewrite Hn. do 2 f_equal. apply set_eq. intros t.
    rewrite elem_of_difference, !elem_of_dom. split.
    + intros Hexp. pose proof Hexp as Hexp'.
      apply elem_of_expired in Hexp as (md & Hl & _).
      rewrite Hl, Hm, decide_True by exact Hexp'.
      split; [eauto|]. intros [? ?]; discriminate.
    + intros [Hin Hout].
      destruct (decide (t ∈ Purge.expired now d)) as [|Hnot]; [assumption|].
      rewrite Hm, decide_False in Hout by exact Hnot. contradiction.
Qed.

(** A sidecar [a.json] that names the token ["b"]: the purge deletes
    [a.json] and [b.index], and leaves [a.index]. *)
Example purge_follows_the_token_inside :
  let d := Purge.mkDir {["a"%string := Some (Purge.mkMetadata "b" 0 10)]}
             {["a"%string; "b"%string]} in
  Purge.purge_expired_trials 11 d
  = (Purge.mkDir ∅ {["a"%string]}, 1).
Proof. vm_compute. reflexivity. Qed.

(** X12. A purge leaves nothing to purge: a second run at the same instant
    changes nothing in the directory and returns 0, on any directory. *)
Theorem purge_expired_trials_idempotent (now : Z) (d : Purge.Dir) :
  Purge.purge_expired_trials now (Purge.purge_expired_trials now d).1
  = ((Purge.purge_expired_trials now d).1, 0).
Proof.
  destruct (purge_any_dir now d) as (Hm & _ & _).
  set (r := Purge.purge_expired_trials now d) in *. cbn zeta in Hm.
  unfold Purge.purge_expired_trials at 1. unfold Purge.purge_loop.
  apply purge_loop_nothing_expired.
  intros [t file] Hin. apply elem_of_map_to_list in Hin. cbn [snd].
  rewrite Hm in Hin.
  destruct (decide (t ∈ Purge.expired now d)) as [|Hnot]; [discriminate|].
  destruct (Purge.is_expired now file) eqn:Hexp; [|reflexivity].
  exfalso. apply Hnot. apply elem_of_expired.
  destruct file as [md|]; [|discriminate]. cbn in Hexp.
  apply Z.ltb_lt in Hexp. eauto.
Qed.

(** X13. Two purges in a row, the second not earlier than the first, leave
    the directory that one purge at the later instant leaves, and their
    counts add up to its count. *)
Theorem purge_expired_trials_composes (now1 now2 : Z) (d : Purge.Dir) :
  now1 <= now2 ->
  let r1 := Purge.purge_expired_trials now1 d in
  let r2 := Purge.purge_expired_trials now2 r1.1 in
  let r := Purge.purge_expired_trials now2 d in
  r2.1 = r.1 /\ r1.2 + r2.2 = r.2.
Proof.
  intros Hle r1 r2 r.
  destruct (purge_any_dir now1 d) as (Hm1 & Hi1 & Hn1).
  destruct (purge_any_dir now2 r1.1) as (Hm2 & Hi2 & Hn2).
  destruct (purge_any_dir now2 d) as (Hm & Hi & Hn).
  fold r1 in Hm1, Hi1, Hn1. fold r2 in Hm2, Hi2, Hn2. fold r in Hm, Hi, Hn.
  cbn zeta in *.
  assert (Hexp1 : forall t, t ∈ Purge.expired now2 r1.1
                  <-> t ∈ Purge.expired now2 d /\ t ∉ Purge.expired now1 d).
  { intros t. split.
    - intros Hin. apply elem_of_expired in Hin as (md & Hl & Hlt).
      rewrite Hm1 in Hl.
      destruct (decide (t ∈ Purge.expired now1 d)) as [|Hnot];
        [discriminate|].
      split; [|exact Hnot]. apply elem_of_expired. eauto.
    - intros [Hin Hnot]. apply elem_of_expired in Hin as (md & Hl & Hlt).
      apply elem_of_expired. exists md. rewrite Hm1.
      rewrite decide_False by exact Hnot. auto. }
  assert (Hsub : forall t, t ∈ Purge.expired now1 d ->
                           t ∈ Purge.expired now2 d).
  { intros t. rewrite !elem_of_expired. intros (md & Hl & Hlt).
    exists md. split; [exact Hl|lia]. }
  split.
  - destruct r2 as [[m2 i2] n2], r as [[m i] n]. cbn [fst snd] in *.
    cbn [Purge.metas Purge.indexes] in *. f_equal.
    + apply map_eq. intros t. rewrite Hm2, Hm, Hm1.
      destruct (decide (t ∈ Purge.expired now2 r1.1)) as [H2|H2].
      * apply Hexp1 in H2 as [H2 _]. now rewrite decide_True.
      * destruct (decide (t ∈ Purge.expired now1 d)) as [H1|H1].
        -- rewrite decide_True by auto. reflexivity.
        -- rewrite decide_False; [reflexivity|].
           intros Hin. apply H2, Hexp1. auto.
    + apply set_eq. intros t. rewrite Hi2, Hi, Hi1. split.
      * intros [[Hin Hno1] Hno2]. split; [exact Hin|].
        intros (s & md & Hl & Hlt & Htok).
        destruct (Z_lt_le_dec (Purge.expires_at md) now1) as [Hlt1|Hge1].
        -- apply Hno1. eauto.
        -- apply Hno2. exists s, md. split; [|auto].
           rewrite Hm1, decide_False; [exact Hl|].
           rewrite elem_of_expired. intros (md' & Hl' & Hlt').
           rewrite Hl in Hl'. injection Hl' as ->. lia.
      * intros [Hin Hno]. split; [split; [exact Hin|]|].
        -- intros (s & md & Hl & Hlt & Htok). apply Hno.
           exists s, md. split; [exact Hl|]. split; [lia|exact Htok].
        -- intros (s & md & Hl & Hlt & Htok). apply Hno.
           exists s, md. split; [|auto]. rewrite Hm1 in Hl.
           destruct (decide _); [discriminate|exact Hl].
  - rewrite Hn1, Hn2, Hn. rewrite <- Nat2Z.inj_add. f_equal.
    rewrite <- size_union.
    + f_equal. apply set_eq. intros t. rewrite elem_of_union, Hexp1.
      split.
      * intros [H1|[H2 _]]; auto.
      * intros H2.
        destruct (decide (t ∈ Purge.expired now1 d)); [left|right]; auto.
    + intros t H1 H2. apply Hexp1 in H2 as [_ H2]. contradiction.
Qed.

Lemma purge_expired_trials_composes_witness :
  let d := Purge.save "tr_new" 900000
             (Purge.save "tr_old" 100 (Purge.mkDir ∅ ∅)) in
  let r1 := Purge.purge_expired_trials 1000000 d in
  let r2 := Purge.purge_expired_trials 2000000 r1.1 in
  let r := Purge.purge_expired_trials 2000000 d in
  r2.1 = r.1 /\ r1.2 + r2.2 = r.2.
Proof.
  apply (purge_expired_trials_composes 1000000 2000000
           (Purge.save "tr_new" 900000
              (Purge.save "tr_old" 100 (Purge.mkDir ∅ ∅)))).
  lia.
Defined.

(** X14. [save] followed by a purge, on a directory whose sidecars name
    their own stems: the trial saved at [t] keeps its sidecar and its index
    through every purge up to and including [t + 3 days], and loses both in
    every later one. *)
Theorem saved_trial_lives_three_days (token : string) (t now : Z)
    (d : Purge.Dir) :
  Purge.consistent d ->
  let r := Purge.purge_expired_trials now (Purge.save token t d) in
  (now <= t + 3 * 24 * 3600 ->
   Purge.metas r.1 !! token
   = Some (Some (Purge.mkMetadata token t (t + 3 * 24 * 3600)))
   /\ token ∈ Purge.indexes r.1)
  /\ (t + 3 * 24 * 3600 < now ->
      Purge.metas r.1 !! token = None /\ token ∉ Purge.indexes r.1).
Proof.
  intros Hcons r.
  destruct (purge_any_dir now (Purge.save token t d)) as (Hm & Hi & _).
  fold r in Hm, Hi. cbn zeta in *.
  pose proof (save_consistent token t d Hcons) as Hcons'.
  assert (Hl : Purge.metas (Purge.save token t d) !! token
               = Some (Some (Purge.mkMetadata token t (t + 3 * 24 * 3600)))).
  { unfold Purge.save. cbn [Purge.metas]. now rewrite lookup_insert_eq. }
  assert (Hin : token ∈ Purge.indexes (Purge.save token t d)).
  { unfold Purge.save. cbn [Purge.indexes]. set_solver. }
  split.
  - intros Hle. split.
    + rewrite Hm, decide_False; [exact Hl|].
      rewrite elem_of_expired. intros (md & Hl' & Hlt).
      rewrite Hl in Hl'. injection Hl' as <-. cbn in Hlt. lia.
    + apply Hi. split; [exact Hin|].
      intros (s & md & Hs & Hlt & Htok).
      pose proof (Hcons' s md Hs) as Heq. rewrite Htok in Heq. subst s.
      rewrite Hl in Hs. injection Hs as <-. cbn in Hlt. lia.
  - intros Hlt. split.
    + rewrite Hm, decide_True; [reflexivity|].
      apply elem_of_expired. eexists. split; [exact Hl|]. cbn. lia.
    + rewrite Hi. intros [_ Hno]. apply Hno.
      eexists token, _. split; [exact Hl|]. cbn. split; [lia|reflexivity].
Qed.

Lemma saved_trial_lives_three_days_witness :
  let d := Purge.save "tr_old" 100 (Purge.mkDir ∅ ∅) in
  let r := Purge.purge_expired_trials 1000000
             (Purge.save "tr_new" 900000 d) in
  (1000000 <= 900000 + 3 * 24 * 3600 ->
   Purge.metas r.1 !! "tr_new"%string
   = Some (Some (Purge.mkMetadata "tr_new" 900000
                   (900000 + 3 * 24 * 3600)))
   /\ "tr_new"%string ∈ Purge.indexes r.1)
  /\ (900000 + 3 * 24 * 3600 < 1000000 ->
      Purge.metas r.1 !! "tr_new"%string = None
      /\ "tr_new"%string ∉ Purge.indexes r.1).
Proof.
  apply (saved_trial_lives_three_days "tr_new" 900000 1000000
           (Purge.save "tr_old" 100 (Purge.mkDir ∅ ∅))).
  apply save_consistent, empty_dir_consistent.
Defined.

(** ** chunking.py: a negative overlap, a chunk size that is not positive *)

(** X15. A negative overlap is not clamped: each window then starts
    [-overlap] characters after the end of the one before, and the
    characters in between are in no chunk. For a text longer than
    [chunk_size], no returned chunk covers a position from [chunk_size] up
    to [chunk_size - overlap - 1]. *)
Theorem split_text_to_chunks_negative_overlap_skips
    (text : string) (chunk_size overlap : Z) :
  0 < chunk_size ->
  overlap < 0 ->
  chunk_size < Chunking.str_len text ->
  exists chunks,
    Chunking.split_text_to_chunks text chunk_size overlap = Returns chunks
    /\ (forall p c o,
          chunk_size <= p < chunk_size - overlap ->
          In (c, o) chunks ->
          ~ (o <= p < o + chunk_size)).
Proof.
  intros Hc Hov Hlen. unfold Chunking.split_text_to_chunks.
  destruct text as [|a s] eqn:Et.
  { unfold Chunking.str_len, Py.len in Hlen. cbn in Hlen. lia. }
  rewrite <- Et in *. destruct (Z.leb_spec chunk_size 0); [lia|].
  unfold Chunking.clamp_overlap.
  destruct (Z.geb_spec overlap chunk_size); [lia|]. cbn beta iota.
  cbn [Chunking.split_loop].
  destruct (Z.ltb_spec 0 (Chunking.str_len text)); [|lia].
  rewrite Z.add_0_l.
  destruct (Z.geb_spec chunk_size (Chunking.str_len text)); [lia|].
  assert (Hlt : overlap < chunk_size) by lia.
  destruct (split_loop_chunks text chunk_size overlap Hc Hlt
              (String.length text) (Z.max 0 (chunk_size - overlap))
              ([] ++ [(Chunking.str_slice text 0 chunk_size, 0)]))
    as (rest & Heq & _ & Hin); [lia| |].
  { unfold Chunking.str_len, Py.len in *. rewrite length_chars in *. lia. }
  exists (([] ++ [(Chunking.str_slice text 0 chunk_size, 0)]) ++ rest).
  split; [exact Heq|].
  intros p c o Hp Hco Hcov. cbn [app] in Hco.
  destruct Hco as [[= <- <-]|Hco]; [lia|].
  destruct (Hin c o Hco) as [Ho _]. lia.
Qed.

Lemma split_text_to_chunks_negative_overlap_skips_witness :
  exists chunks,
    Chunking.split_text_to_chunks "abcdefghij" 4 (-2) = Returns chunks
    /\ (forall p c o,
          4 <= p < 4 - (-2) ->
          In (c, o) chunks ->
          ~ (o <= p < o + 4)).
Proof.
  apply (split_text_to_chunks_negative_overlap_skips "abcdefghij" 4 (-2));
    [lia|lia|vm_compute; reflexivity].
Defined.

(** X16. The emptiness test comes before the test of the chunk size: with
    [chunk_size <= 0] the empty text still gives the empty list, and every
    other text raises [ValueError]. [chunk_document_payloads] does the
    same, as it builds no payload before the split has returned. *)
Theorem split_text_to_chunks_chunk_size_not_positive
    (tenant doc text : string) (md : option (gmap string Payloads.value))
    (chunk_size overlap : Z) :
  chunk_size <= 0 ->
  let expected {A} : outcome (list A) :=
    if String.eqb text "" then Returns []
    else Raises (ValueError "chunk_size must be > 0") in
  Chunking.split_text_to_chunks text chunk_size overlap = expected
  /\ Payloads.chunk_document_payloads tenant doc text md chunk_size overlap
     = expected.
Proof.
  intros Hc. cbn zeta.
  unfold Payloads.chunk_document_payloads, Chunking.split_text_to_chunks.
  destruct text as [|a s]; [split; reflexivity|].
  destruct (Z.leb_spec chunk_size 0); [|lia].
  split; reflexivity.
Qed.

Lemma split_text_to_chunks_chunk_size_not_positive_witness :
  Chunking.split_text_to_chunks "abc" 0 200
  = Raises (ValueError "chunk_size must be > 0")
  /\ Payloads.chunk_document_payloads "t1" "doc1" "abc" None 0 200
     = Raises (ValueError "chunk_size must be > 0").
Proof.
  apply (split_text_to_chunks_chunk_size_not_positive "t1" "doc1" "abc"
           None 0 200).
  lia.
Defined.

(** ** The crawls as breadth-first walks *)

Lemma StronglySorted_app_intro {A} (R : A -> A -> Prop) (l1 l2 : list A) :
  StronglySorted R l1 -> StronglySorted R l2 ->
  (forall x y, In x l1 -> In y l2 -> R x y) ->
  StronglySorted R (l1 ++ l2).
Proof.
  induction l1 as [|a l1 IH]; intros H1 H2 H12; [exact H2|].
  inversion H1 as [|? ? Hs Hall]; subst. cbn. constructor.
  - apply IH; [exact Hs|exact H2|]. intros x y Hx Hy. apply H12; [now right|exact Hy].
  - apply List.Forall_forall. intros y Hy. apply in_app_or in Hy as [Hy|Hy].
    + rewrite List.Forall_forall in Hall. now apply Hall.
    + apply H12; [now left|exact Hy].
Qed.

Lemma StronglySorted_constant (l : list Z) (d : Z) :
  (forall x, In x l -> x = d) -> StronglySorted Z.le l.
Proof.
  induction l as [|a l IH]; intros Hall; constructor.
  - apply IH. intros x Hx. apply Hall. now right.
  - apply List.Forall_forall. intros x Hx.
    rewrite (Hall a) by now left. rewrite (Hall x) by now right. lia.
Qed.

Section BreadthFirst.
Import Crawler.

Variable web : Web.
Variable base : string.

Lemma linked_nonneg (d : Z) (u : string) : linked web base d u -> 0 <= d.
Proof. induction 1; lia. Qed.

Lemma linked_zero (u : string) : linked web base 0 u -> u = base.
Proof.
  intros H. inversion H as [|d u' v r Hl Hg Hin Hd]; [reflexivity|].
  apply linked_nonneg in Hl. lia.
Qed.

Lemma enqueue_entries (seen : gset string) (depth : Z) (url : string)
    (r : Response) :
  linked web base depth url -> get web url = Some r ->
  Forall (fun e => snd e = depth + 1 /\ linked web base (snd e) (fst e))
    (enqueue seen depth (links r)).
Proof.
  intros Hl Hg. apply List.Forall_forall. intros e He.
  unfold enqueue in He. apply in_map_iff in He as (link & <- & Hin).
  apply filter_In in Hin as [Hin _]. cbn [fst snd].
  split; [reflexivity|]. eapply linked_step; eauto.
Qed.

Lemma initial_bfs_inv : bfs_inv web base (initial base).
Proof.
  unfold bfs_inv, initial. cbn [crawled_pages to_visit visited map].
  split; [intros p []|]. split; [constructor|].
  split; [repeat constructor|]. split; [constructor|].
  split; [repeat constructor|]. split; [intros p e []|].
  intros e e' [<-|[]] [<-|[]]. cbn. lia.
Qed.

(** One round: the head of the frontier is taken off, a page for it may be
    stored, and entries one level down may be appended. *)
Lemma bfs_round (url : string) (depth : Z) (rest new : list (string * Z))
    (pages : list Page) (seen seen' : gset string) (add_page : bool)
    (pg : Page) :
  bfs_inv web base (mkState ((url, depth) :: rest) pages seen) ->
  seen ⊆ seen' ->
  (add_page = true ->
   (url ∉ seen) /\ (url ∈ seen') /\ page_url pg = url
   /\ page_depth pg = depth) ->
  Forall (fun e => snd e = depth + 1 /\ linked web base (snd e) (fst e)) new ->
  bfs_inv web base
    (mkState (rest ++ new) (if add_page then pages ++ [pg] else pages) seen').
Proof.
  intros (Hvis & Hnd & Hlink & Hps & Hfs & Hpf & Hff) Hsub Hadd Hnew.
  cbn [crawled_pages to_visit visited map] in *.
  inversion Hlink as [|? ? Hl0 Hlrest]; subst.
  inversion Hfs as [|? ? Hsrest Hhd]; subst. cbn [fst snd] in *.
  rewrite List.Forall_forall in Hhd, Hnew.
  assert (Hrest_ge : forall e, In e rest -> depth <= snd e).
  { intros e He. apply Hhd. now apply in_map. }
  assert (Hrest_le : forall e, In e rest -> snd e <= depth + 1).
  { intros e He. apply (Hff (url, depth) e); [now left|now right]. }
  assert (Hpd : forall p, In p pages -> page_depth p <= depth).
  { intros p Hp. apply (Hpf p (url, depth) Hp). now left. }
  unfold bfs_inv. cbn [crawled_pages to_visit visited].
  split; [|split; [|split; [|split; [|split; [|split]]]]].
  - intros p Hp. destruct add_page.
    + apply in_app_or in Hp as [Hp|[<-|[]]].
      * apply Hsub, Hvis, Hp.
      * destruct (Hadd eq_refl) as (_ & Hin & -> & _). exact Hin.
    + apply Hsub, Hvis, Hp.
  - destruct add_page; [|exact Hnd].
    destruct (Hadd eq_refl) as (Hnot & _ & Hu & _).
    rewrite map_app. cbn [map]. apply NoDup_app. split; [exact Hnd|].
    split; [|apply NoDup_singleton].
    intros x Hx Hx'. apply list_elem_of_singleton in Hx'. subst x.
    apply list_elem_of_In, in_map_iff in Hx as (p & Hp & Hin).
    apply Hnot. rewrite <- Hu, <- Hp. apply Hvis, Hin.
  - apply Forall_app. split; [exact Hlrest|].
    apply List.Forall_forall. intros e He. apply (Hnew e He).
  - destruct add_page; [|exact Hps].
    destruct (Hadd eq_refl) as (_ & _ & _ & Hd).
    rewrite map_app. cbn [map].
    apply StronglySorted_app_intro; [exact Hps|repeat constructor|].
    intros x y Hx [<-|[]]. apply in_map_iff in Hx as (p & <- & Hp).
    rewrite Hd. now apply Hpd.
  - rewrite map_app. apply StronglySorted_app_intro; [exact Hsrest| |].
    + apply (StronglySorted_constant _ (depth + 1)).
      intros x Hx. apply in_map_iff in Hx as (e & <- & He).
      apply (Hnew e He).
    + intros x y Hx Hy. apply in_map_iff in Hx as (e & <- & He).
      apply in_map_iff in Hy as (e' & <- & He').
      destruct (Hnew e' He') as [-> _]. now apply Hrest_le.
  - intros p e Hp He.
    assert (Hp' : page_depth p <= depth).
    { destruct add_page; [|now apply Hpd].
      apply in_app_or in Hp as [Hp|[<-|[]]]; [now apply Hpd|].
      destruct (Hadd eq_refl) as (_ & _ & _ & ->). lia. }
    apply in_app_or in He as [He|He].
    + pose proof (Hrest_ge e He). lia.
    + destruct (Hnew e He) as [-> _]. lia.
  - intros e e' He He'.
    apply in_app_or in He as [He|He]; apply in_app_or in He' as [He'|He'].
    + apply Hff; now right.
    + destruct (Hnew e' He') as [-> _]. pose proof (Hrest_ge e He). lia.
    + destruct (Hnew e He) as [-> _]. pose proof (Hrest_le e' He'). lia.
    + destruct (Hnew e He) as [-> _]. destruct (Hnew e' He') as [-> _]. lia.
Qed.

(** The head is dropped and nothing else changes. *)
Lemma bfs_skip (url : string) (depth : Z) (rest : list (string * Z))
    (pages : list Page) (seen seen' : gset string) :
  bfs_inv web base (mkState ((url, depth) :: rest) pages seen) ->
  seen ⊆ seen' ->
  bfs_inv web base (mkState rest pages seen').
Proof.
  intros Hinv Hsub.
  pose proof (bfs_round url depth rest [] pages seen seen' false
                (mkPage url "" "" depth) Hinv Hsub) as H.
  rewrite app_nil_r in H. apply H; [discriminate|constructor].
Qed.

End BreadthFirst.

Section WebsiteCrawlPages.
Import Crawler.

Variable self : WebsiteCrawler.
Variable web : Web.

Local Abbreviation inv :=
  (fun st => Forall (page_ok self web) (crawled_pages st)
             /\ bfs_inv web (base_url self) st).

Lemma crawl_step_inv (st : State) : inv st -> inv (crawl_step self web st).
Proof.
  intros [Hok Hbfs]. unfold crawl_step.
  destruct st as [frontier pages seen]. cbn [to_visit crawled_pages visited] in *.
  destruct frontier as [|[url depth] rest]; [split; assumption|].
  cbn [to_visit crawled_pages visited].
  assert (Hlink : linked web (base_url self) depth url).
  { destruct Hbfs as (_ & _ & Hl & _). cbn in Hl.
    inversion Hl; subst. assumption. }
  destruct (bool_decide (url ∈ seen)) eqn:Hseen; cbn [orb].
  { split; [exact Hok|]. apply (bfs_skip _ _ url depth _ _ _ _ Hbfs); reflexivity. }
  apply bool_decide_eq_false in Hseen.
  destruct (Z.gtb_spec depth (max_depth self)) as [Hdeep|Hdepth].
  { split; [exact Hok|]. apply (bfs_skip _ _ url depth _ _ _ _ Hbfs); reflexivity. }
  destruct (can_fetch web url) eqn:Hcan; cbn [negb].
  2:{ split; [exact Hok|]. apply (bfs_skip _ _ url depth _ _ _ _ Hbfs); reflexivity. }
  assert (Hsub : seen ⊆ ({[url]} ∪ seen)) by set_solver.
  destruct (get web url) as [response|] eqn:Hget.
  2:{ split; [exact Hok|]. apply (bfs_skip _ _ url depth _ _ _ _ Hbfs); exact Hsub. }
  destruct (Z.eqb_spec (status_code response) 200) as [Hst|Hst]; cbn [negb].
  2:{ split; [exact Hok|]. apply (bfs_skip _ _ url depth _ _ _ _ Hbfs); exact Hsub. }
  set (pg := mkPage url (title response) (text response) depth).
  set (long := Z.of_nat (String.length (text response)) >? 100).
  assert (Hpages : Forall (page_ok self web)
                     (if long then pages ++ [pg] else pages)).
  { destruct long eqn:Hlong; [|exact Hok].
    apply Forall_app. split; [exact Hok|]. repeat constructor.
    - cbn. apply (linked_nonneg web (base_url self) depth url Hlink).
    - cbn. lia.
    - exact Hcan.
    - exact Hlink.
    - exists response. cbn. repeat split; try assumption; try reflexivity.
      subst long. apply Z.gtb_lt in Hlong. lia. }
  split; [exact Hpages|].
  assert (Hadd : long = true ->
            (url ∉ seen) /\ (url ∈ {[url]} ∪ seen)
            /\ page_url pg = url /\ page_depth pg = depth).
  { intros _. repeat split; [exact Hseen|set_solver]. }
  destruct (depth <? max_depth self).
  - apply (bfs_round web (base_url self) url depth rest _ pages seen _ long pg
             Hbfs Hsub Hadd).
    apply (enqueue_entries web _ _ depth url response Hlink Hget).
  - pose proof (bfs_round web (base_url self) url depth rest [] pages seen _
                  long pg Hbfs Hsub Hadd) as H.
    rewrite app_nil_r in H. apply H. constructor.
Qed.

Lemma crawl_loop_inv (fuel : nat) :
  forall st st',
    crawl_loop fuel self web st = Returns st' -> inv st -> inv st'.
Proof.
  induction fuel as [|f IH]; intros st st' Hrun Hinv; [discriminate|].
  cbn [crawl_loop] in Hrun. destruct (crawl_continues self st).
  - eapply IH; [exact Hrun|]. now apply crawl_step_inv.
  - injection Hrun as <-. exact Hinv.
Qed.

(** What [crawl] returns, for every site and every setting. *)
Lemma crawl_returns_pages :
  exists pages,
    crawl self web = Returns pages
    /\ Forall (page_ok self web) pages
    /\ NoDup (map page_url pages)
    /\ StronglySorted Z.le (map page_depth pages)
    /\ Py.len pages <= Z.max 0 (max_pages self).
Proof.
  destruct (crawl_loop_returns self web
              (S (frontier_weight web (max_depth self) [(base_url self, 0)]))
              (initial (base_url self)))
    as (states & st & Hret & _ & _ & _ & Hlen).
  { cbn [initial to_visit]. lia. }
  { unfold Py.len. cbn [initial crawled_pages length]. lia. }
  destruct (crawl_loop_inv _ _ _ Hret) as (Hok & _ & Hnd & _ & Hs & _).
  { split; [constructor|apply initial_bfs_inv]. }
  exists (crawled_pages st). unfold crawl, crawl_final. rewrite Hret.
  repeat split; assumption.
Qed.

End WebsiteCrawlPages.

Section WebCrawlPages.
Import Crawler.

Variable self : WebCrawler.
Variable web : Web.

Local Abbreviation inv :=
  (fun st => Forall (wc_page_ok self web) (crawled_pages st)
             /\ bfs_inv web (start_url self) st).

Lemma wc_step_inv (st : State) : inv st -> inv (wc_step self web st).
Proof.
  intros [Hok Hbfs]. unfold wc_step.
  destruct st as [frontier pages seen]. cbn [to_visit crawled_pages visited] in *.
  destruct frontier as [|[url depth] rest]; [split; assumption|].
  cbn [to_visit crawled_pages visited].
  assert (Hlink : linked web (start_url self) depth url).
  { destruct Hbfs as (_ & _ & Hl & _). cbn in Hl.
    inversion Hl; subst. assumption. }
  assert (Hskip : inv (mkState rest pages seen)).
  { split; [exact Hok|]. apply (bfs_skip _ _ url depth _ _ _ _ Hbfs); reflexivity. }
  destruct (Z.gtb_spec depth (wc_max_depth self)) as [Hdeep|Hdepth];
    [exact Hskip|].
  destruct (bool_decide (url ∈ seen)) eqn:Hseen; [exact Hskip|].
  apply bool_decide_eq_false in Hseen.
  destruct (same_domain web url) eqn:Hdom; cbn [negb]; [|exact Hskip].
  destruct (can_fetch web url) eqn:Hcan; cbn [negb]; [|exact Hskip].
  destruct (get web url) as [response|] eqn:Hget; [|exact Hskip].
  destruct (raises_for_status response) eqn:Hst; [exact Hskip|].
  destruct (is_html response) eqn:Hhtml; cbn [negb]; [|exact Hskip].
  assert (Hsub : seen ⊆ ({[url]} ∪ seen)) by set_solver.
  set (pg := mkPage url "" (text response) depth).
  set (full := has_text (text response)).
  assert (Hpages : Forall (wc_page_ok self web)
                     (if full then pages ++ [pg] else pages)).
  { destruct full eqn:Hfull; [|exact Hok].
    apply Forall_app. split; [exact Hok|]. repeat constructor.
    - cbn. apply (linked_nonneg web (start_url self) depth url Hlink).
    - cbn. lia.
    - exact Hdom.
    - exact Hcan.
    - exact Hlink.
    - exists response. cbn. repeat split; try assumption; reflexivity. }
  split; [exact Hpages|].
  assert (Hadd : full = true ->
            (url ∉ seen) /\ (url ∈ {[url]} ∪ seen)
            /\ page_url pg = url /\ page_depth pg = depth).
  { intros _. repeat split; [exact Hseen|set_solver]. }
  destruct (depth <? wc_max_depth self).
  - apply (bfs_round web (start_url self) url depth rest _ pages seen _ full pg
             Hbfs Hsub Hadd).
    apply (enqueue_entries web _ _ depth url response Hlink Hget).
  - pose proof (bfs_round web (start_url self) url depth rest [] pages seen _
                  full pg Hbfs Hsub Hadd) as H.
    rewrite app_nil_r in H. apply H. constructor.
Qed.

Lemma wc_loop_inv (fuel : nat) :
  forall st st',
    wc_loop fuel self web st = Returns st' -> inv st -> inv st'.
Proof.
  induction fuel as [|f IH]; intros st st' Hrun Hinv; [discriminate|].
  cbn [wc_loop] in Hrun. destruct (wc_continues st).
  - eapply IH; [exact Hrun|]. now apply wc_step_inv.
  - injection Hrun as <-. exact Hinv.
Qed.

Lemma wc_crawl_returns_pages :
  exists pages,
    wc_crawl self web = Returns pages
    /\ Forall (wc_page_ok self web) pages
    /\ NoDup (map page_url pages)
    /\ StronglySorted Z.le (map page_depth pages).
Proof.
  destruct (wc_loop_returns self web
              (S (frontier_weight web (wc_max_depth self)
                    [(start_url self, 0)]))
              (initial (start_url self)))
    as (st & Hret & _).
  { cbn [initial to_visit]. lia. }
  destruct (wc_loop_inv _ _ _ Hret) as (Hok & _ & Hnd & _ & Hs & _).
  { split; [constructor|apply initial_bfs_inv]. }
  exists (crawled_pages st). unfold wc_crawl, wc_crawl_final. rewrite Hret.
  repeat split; assumption.
Qed.

End WebCrawlPages.

Lemma NoDup_constant_length {A} (l : list A) (a : A) :
  NoDup l -> (forall x, In x l -> x = a) -> (length l <= 1)%nat.
Proof.
  intros Hnd Hall. destruct l as [|x [|y l]]; cbn; try lia.
  exfalso. inversion Hnd as [|? ? Hnot _]; subst. apply Hnot.
  rewrite (Hall x) by now left. rewrite (Hall y) by (right; now left).
  now left.
Qed.

(** X17. [WebsiteCrawler.crawl] (ingest_worker.py), for every site and every
    setting: it returns, with at most [max_pages] pages. Every page was
    fetched with status 200 from a URL that robots.txt allows, carries the
    text and title of that response, has more than 100 characters of text,
    and sits at a depth from 0 to [max_depth] at which a chain of links
    leads to it from the base URL. No URL is stored twice, and the pages
    come in the order of their depths (the walk is breadth-first). *)
Theorem website_crawl_pages_breadth_first
    (self : Crawler.WebsiteCrawler) (web : Crawler.Web) :
  exists pages,
    Crawler.crawl self web = Returns pages
    /\ Forall (Crawler.page_ok self web) pages
    /\ NoDup (map Crawler.page_url pages)
    /\ StronglySorted Z.le (map Crawler.page_depth pages)
    /\ Py.len pages <= Z.max 0 (Crawler.max_pages self).
Proof. exact (crawl_returns_pages self web). Qed.

(** X18. [WebCrawler.crawl] (ingest-worker.py), for every site and every
    setting: it returns. Every page was fetched from a URL of the base
    domain that robots.txt allows, with a status for which
    [raise_for_status] does not raise (none from 400 to 599) and an HTML
    content type, carries the text of that response, which is not blank,
    and sits at a depth from 0 to [max_depth] at which a chain of links
    leads to it from the start URL. No URL is stored twice, and the pages
    come in the order of their depths. *)
Theorem web_crawl_pages_breadth_first
    (self : Crawler.WebCrawler) (web : Crawler.Web) :
  exists pages,
    Crawler.wc_crawl self web = Returns pages
    /\ Forall (Crawler.wc_page_ok self web) pages
    /\ NoDup (map Crawler.page_url pages)
    /\ StronglySorted Z.le (map Crawler.page_depth pages).
Proof. exact (wc_crawl_returns_pages self web). Qed.

(** X19. A depth limit of 0 keeps both crawls on the first URL: they return
    at most one page, and it is the page of the base URL at depth 0. A
    negative depth limit makes both return no page. *)
Theorem crawl_depth_limit_zero
    (self : Crawler.WebsiteCrawler) (wc : Crawler.WebCrawler)
    (web : Crawler.Web) :
  Crawler.max_depth self <= 0 ->
  Crawler.wc_max_depth wc <= 0 ->
  (exists pages,
     Crawler.crawl self web = Returns pages
     /\ (length pages <= 1)%nat
     /\ (forall p, In p pages ->
           Crawler.page_url p = Crawler.base_url self
           /\ Crawler.page_depth p = 0)
     /\ (Crawler.max_depth self < 0 -> pages = []))
  /\ (exists pages,
        Crawler.wc_crawl wc web = Returns pages
        /\ (length pages <= 1)%nat
        /\ (forall p, In p pages ->
              Crawler.page_url p = Crawler.start_url wc
              /\ Crawler.page_depth p = 0)
        /\ (Crawler.wc_max_depth wc < 0 -> pages = [])).
Proof.
  intros Hd Hw. split.
  - destruct (crawl_returns_pages self web) as (pages & Hret & Hok & Hnd & _).
    rewrite List.Forall_forall in Hok.
    assert (Hbase : forall p, In p pages ->
              Crawler.page_url p = Crawler.base_url self
              /\ Crawler.page_depth p = 0).
    { intros p Hp. destruct (Hok p Hp) as (Hdep & _ & Hl & _).
      assert (Hz : Crawler.page_depth p = 0) by lia.
      rewrite Hz in Hl. split; [|exact Hz].
      now apply (linked_zero web (Crawler.base_url self)). }
    exists pages. split; [exact Hret|]. split; [|split; [exact Hbase|]].
    + rewrite <- (length_map Crawler.page_url).
      apply (NoDup_constant_length _ (Crawler.base_url self) Hnd).
      intros x Hx. apply in_map_iff in Hx as (p & <- & Hp). now apply Hbase.
    + intros Hneg. destruct pages as [|p pages]; [reflexivity|].
      destruct (Hok p ltac:(now left)) as (Hdep & _). lia.
  - destruct (wc_crawl_returns_pages wc web) as (pages & Hret & Hok & Hnd & _).
    rewrite List.Forall_forall in Hok.
    assert (Hbase : forall p, In p pages ->
              Crawler.page_url p = Crawler.start_url wc
              /\ Crawler.page_depth p = 0).
    { intros p Hp. destruct (Hok p Hp) as (Hdep & _ & _ & Hl & _).
      assert (Hz : Crawler.page_depth p = 0) by lia.
      rewrite Hz in Hl. split; [|exact Hz].
      now apply (linked_zero web (Crawler.start_url wc)). }
    exists pages. split; [exact Hret|]. split; [|split; [exact Hbase|]].
    + rewrite <- (length_map Crawler.page_url).
      apply (NoDup_constant_length _ (Crawler.start_url wc) Hnd).
      intros x Hx. apply in_map_iff in Hx as (p & <- & Hp). now apply Hbase.
    + intros Hneg. destruct pages as [|p pages]; [reflexivity|].
      destruct (Hok p ltac:(now left)) as (Hdep & _). lia.
Qed.

Lemma crawl_depth_limit_zero_witness :
  let self := Crawler.mkWebsiteCrawler ExampleSite.home 0 50 in
  let wc := Crawler.mkWebCrawler ExampleSite.home 0 in
  let web := ExampleSite.web in
  (exists pages,
     Crawler.crawl self web = Returns pages
     /\ (length pages <= 1)%nat
     /\ (forall p, In p pages ->
           Crawler.page_url p = Crawler.base_url self
           /\ Crawler.page_depth p = 0)
     /\ (Crawler.max_depth self < 0 -> pages = []))
  /\ (exists pages,
        Crawler.wc_crawl wc web = Returns pages
        /\ (length pages <= 1)%nat
        /\ (forall p, In p pages ->
              Crawler.page_url p = Crawler.start_url wc
              /\ Crawler.page_depth p = 0)
        /\ (Crawler.wc_max_depth wc < 0 -> pages = [])).
Proof.
  apply (crawl_depth_limit_zero
           (Crawler.mkWebsiteCrawler ExampleSite.home 0 50)
           (Crawler.mkWebCrawler ExampleSite.home 0) ExampleSite.web);
    cbn; lia.
Defined.

(** ** embeddings.py: calls that reach no backend *)

Section LookupOnly.
Import Embeddings.
Context {C : Type} `{Cache C}.

Variable backends : Backends.
Variable env : Env.
Variable w : World C.
Variable prov : string.
Variable mdl : option string.

Local Abbreviation cached :=
  (fun t => get_cached (cache w) (_hash_key t mdl prov)).

(** Mapping the cache lookups of the unique texts back to the order of the
    input gives, at every position, the lookup of the text there. *)
Lemma map_back_lookups (texts : list string) :
  exists final,
    map_back (map cached (dedup texts).1.2) (dedup texts).2 = Returns final
    /\ length final = length texts
    /\ (forall (n : nat) t, texts !! n = Some t ->
          final !! n = Some (cached t)).
Proof.
  pose proof (dedup_spec texts) as Hdedup.
  destruct (dedup texts) as [[um ut] ix]. cbn [fst snd].
  destruct Hdedup as (_ & _ & _ & Hixlen & Hix).
  destruct (map_back_spec (map cached ut) ix) as (final & Heq & Hlen & Hfinal).
  { intros n a Hn.
    destruct (texts !! n) as [t|] eqn:Ht.
    - destruct (Hix n t Ht) as (k & Hk & Hut). rewrite Hk in Hn.
      injection Hn as <-. exists k. split; [reflexivity|].
      rewrite length_map. apply lookup_lt_Some in Hut. exact Hut.
    - apply lookup_ge_None in Ht. apply lookup_lt_Some in Hn. lia. }
  exists final. split; [exact Heq|]. split; [lia|].
  intros n t Ht. destruct (Hix n t Ht) as (k & Hk & Hut).
  rewrite (Hfinal n k Hk), list_lookup_fmap_Some_2 with (x := t);
    [reflexivity|exact Hut].
Qed.

(** No unique text is missing exactly when every text has a cached
    vector. *)
Lemma find_missing_none (texts : list string) :
  (find_missing 0 (dedup texts).1.2 (map cached (dedup texts).1.2)).1 = []
  <-> (forall t, In t texts -> cached t <> None).
Proof.
  pose proof (dedup_spec texts) as Hdedup.
  destruct (dedup texts) as [[um ut] ix]. cbn [fst snd].
  destruct Hdedup as (_ & _ & Hmem & _ & _).
  pose proof (find_missing_spec ut (map cached ut) 0 (length_map _ _))
    as (Hlen & Hmiss & Hall & _).
  change (Z.of_nat 0) with 0 in *.
  destruct (find_missing 0 ut (map cached ut)) as [missing idxs].
  cbn [fst snd] in *. split.
  - intros -> t Ht Hnone.
    assert (Hin : t ∈ ut) by (apply Hmem, list_elem_of_In, Ht).
    apply list_elem_of_lookup in Hin as [k Hk].
    destruct (Hall k) as [n Hn].
    { rewrite list_lookup_fmap, Hk. cbn. now rewrite Hnone. }
    destruct idxs; [destruct n; discriminate|discriminate].
  - intros Hc. destruct missing as [|t missing]; [reflexivity|].
    destruct (Hmiss 0%nat t eq_refl) as (k & _ & Hk & Hres).
    rewrite list_lookup_fmap, Hk in Hres. cbn in Hres.
    injection Hres as Hres. exfalso. apply (Hc t); [|exact Hres].
    apply list_elem_of_In, Hmem, list_elem_of_lookup. eauto.
Qed.

End LookupOnly.

Section NoBackend.
Import Embeddings.
Context {C : Type} `{Cache C}.

Variable backends : Backends.
Variable env : Env.
Variables provider model : option string.
Variable batch_size : option Z.
Variable w : World C.

Local Abbreviation prov := (effective_provider env provider).
Local Abbreviation mdl := (effective_model env model).
Local Abbreviation bs := (effective_batch_size env batch_size).
Local Abbreviation cached :=
  (fun t => get_cached (cache w) (_hash_key t mdl prov)).

(** The call when nothing is missing, or when the batch size is negative
    and the range of batches is empty: the world is left as it was and the
    answer is the list of the cache lookups. *)
Lemma get_batch_embeddings_lookups (texts : list string) :
  (forall t, In t texts -> cached t <> None) \/ bs < 0 ->
  exists final,
    get_batch_embeddings backends env texts provider model batch_size w
    = (Returns final, w)
    /\ length final = length texts
    /\ (forall (n : nat) t, texts !! n = Some t ->
          final !! n = Some (cached t)).
Proof.
  intros Hcase.
  destruct texts as [|t0 texts0] eqn:Htexts.
  { exists []. split; [reflexivity|]. split; [reflexivity|].
    intros n t Hn. destruct n; discriminate. }
  rewrite <- Htexts in *. unfold get_batch_embeddings.
  destruct texts as [|t1 texts1] eqn:Htexts'; [discriminate|].
  rewrite <- Htexts' in *. clear Htexts Htexts' t0 texts0 t1 texts1.
  destruct (map_back_lookups w prov mdl texts) as (final & Hback & Hlen & Hfin).
  pose proof (find_missing_none w prov mdl texts) as Hnone.
  destruct (dedup texts) as [[um ut] ix]. cbn [fst snd] in *.
  destruct (find_missing 0 ut _) as [missing idxs]. cbn [fst snd] in *.
  assert (Hemb :
    match missing with
    | [] => (Returns (map cached ut), w)
    | _ :: _ =>
        match Py.range0 (Py.len missing) bs with
        | Returns starts =>
            embed_batches backends prov mdl bs missing idxs starts
              (map cached ut) w
        | Raises e => (Raises e, w)
        | OutOfFuel => (OutOfFuel, w)
        end
    end = (Returns (map cached ut), w)).
  { destruct missing as [|m missing]; [reflexivity|].
    destruct Hcase as [Hall|Hneg].
    - apply Hnone in Hall. discriminate.
    - unfold Py.range0. destruct (Z.eqb_spec bs 0); [lia|].
      destruct (Z.ltb_spec bs 0); [reflexivity|lia]. }
  rewrite Hemb, Hback. exists final. auto.
Qed.

(** A batch size of zero, with a text that is not cached: the [range] of
    batches raises before any backend is called. *)
Lemma get_batch_embeddings_zero_step (texts : list string) :
  bs = 0 ->
  (exists t, In t texts /\ cached t = None) ->
  get_batch_embeddings backends env texts provider model batch_size w
  = (Raises (ValueError "range() arg 3 must not be zero"), w).
Proof.
  intros Hbs (t & Hin & Hmiss).
  destruct texts as [|t0 texts0] eqn:Htexts; [destruct Hin|].
  rewrite <- Htexts in *. unfold get_batch_embeddings.
  destruct texts as [|t1 texts1] eqn:Htexts'; [discriminate|].
  rewrite <- Htexts' in *. clear Htexts Htexts' t0 texts0 t1 texts1.
  pose proof (find_missing_none w prov mdl texts) as Hnone.
  destruct (dedup texts) as [[um ut] ix]. cbn [fst snd] in *.
  destruct (find_missing 0 ut _) as [missing idxs]. cbn [fst snd] in *.
  destruct missing as [|m missing].
  - exfalso. destruct Hnone as [Hnone _].
    apply (Hnone eq_refl t Hin Hmiss).
  - rewrite Hbs. reflexivity.
Qed.

End NoBackend.

(** X20. When every text of the input has a cached vector,
    [get_batch_embeddings] returns the cached vectors in the order of the
    input, calls no backend and writes nothing to the cache, whatever the
    batch size (zero and negative ones included). *)
Theorem get_batch_embeddings_all_cached {C : Type} `{Embeddings.Cache C}
    (backends : Embeddings.Backends) (env : Embeddings.Env)
    (texts : list string) (provider model : option string)
    (batch_size : option Z) (w : Embeddings.World C) :
  let prov := Embeddings.effective_provider env provider in
  let mdl := Embeddings.effective_model env model in
  (forall t, In t texts ->
     Embeddings.get_cached (Embeddings.cache w)
       (Embeddings._hash_key t mdl prov) <> None) ->
  exists final,
    Embeddings.get_batch_embeddings backends env texts provider model
      batch_size w = (Returns final, w)
    /\ length final = length texts
    /\ (forall (n : nat) t, texts !! n = Some t ->
          final !! n
          = Some (Embeddings.get_cached (Embeddings.cache w)
                    (Embeddings._hash_key t mdl prov))).
Proof.
  intros prov mdl Hall.
  apply get_batch_embeddings_lookups. left. exact Hall.
Qed.

Lemma get_batch_embeddings_all_cached_witness :
  let provider := Some "local"%string in
  let model := Some "all-mpnet-base-v2"%string in
  let prov := Embeddings.effective_provider FakeBackend.env provider in
  let mdl := Embeddings.effective_model FakeBackend.env model in
  let w : Embeddings.World (gmap string (list Q)) :=
    Embeddings.mkWorld
      {[Embeddings._hash_key "hello world" mdl prov := [1%Q]]} [] in
  let texts := ["hello world"; "hello world"]%string in
  exists final,
    Embeddings.get_batch_embeddings FakeBackend.backends FakeBackend.env
      texts provider model (Some 0) w = (Returns final, w)
    /\ length final = length texts
    /\ (forall (n : nat) t, texts !! n = Some t ->
          final !! n
          = Some (Embeddings.get_cached (Embeddings.cache w)
                    (Embeddings._hash_key t mdl prov))).
Proof.
  apply (get_batch_embeddings_all_cached FakeBackend.backends FakeBackend.env
           ["hello world"; "hello world"]%string (Some "local"%string)
           (Some "all-mpnet-base-v2"%string) (Some 0)).
  intros t [<-|[<-|[]]]; vm_compute; discriminate.
Defined.

(** X21. A batch size in force that is not positive, with a text that is
    not cached: for zero the call raises [ValueError] (the step of [range])
    and for a negative one it returns, with [None] in the place of every
    text that is not cached. In both cases no backend is called and the
    cache is left as it was. *)
Theorem get_batch_embeddings_batch_size_not_positive
    {C : Type} `{Embeddings.Cache C}
    (backends : Embeddings.Backends) (env : Embeddings.Env)
    (texts : list string) (provider model : option string)
    (batch_size : option Z) (w : Embeddings.World C) :
  let prov := Embeddings.effective_provider env provider in
  let mdl := Embeddings.effective_model env model in
  let bs := Embeddings.effective_batch_size env batch_size in
  bs <= 0 ->
  (exists t, In t texts
     /\ Embeddings.get_cached (Embeddings.cache w)
          (Embeddings._hash_key t mdl prov) = None) ->
  if bs =? 0 then
    Embeddings.get_batch_embeddings backends env texts provider model
      batch_size w
    = (Raises (ValueError "range() arg 3 must not be zero"), w)
  else
    exists final,
      Embeddings.get_batch_embeddings backends env texts provider model
        batch_size w = (Returns final, w)
      /\ length final = length texts
      /\ (forall (n : nat) t, texts !! n = Some t ->
            final !! n
            = Some (Embeddings.get_cached (Embeddings.cache w)
                      (Embeddings._hash_key t mdl prov))).
Proof.
  intros prov mdl bs Hbs Hmiss.
  destruct (Z.eqb_spec bs 0) as [Hz|Hnz].
  - now apply get_batch_embeddings_zero_step.
  - apply get_batch_embeddings_lookups. right. fold bs. lia.
Qed.

Lemma get_batch_embeddings_batch_size_not_positive_witness :
  let provider := Some "local"%string in
  let model := Some "all-mpnet-base-v2"%string in
  let prov := Embeddings.effective_provider FakeBackend.env provider in
  let mdl := Embeddings.effective_model FakeBackend.env model in
  let w := FakeBackend.world0 in
  let texts := FakeBackend.texts in
  exists final,
    Embeddings.get_batch_embeddings FakeBackend.backends FakeBackend.env
      texts provider model (Some (-1)) w = (Returns final, w)
    /\ length final = length texts
    /\ (forall (n : nat) t, texts !! n = Some t ->
          final !! n
          = Some (Embeddings.get_cached (Embeddings.cache w)
                    (Embeddings._hash_key t mdl prov))).
Proof.
  apply (get_batch_embeddings_batch_size_not_positive FakeBackend.backends
           FakeBackend.env FakeBackend.texts (Some "local"%string)
           (Some "all-mpnet-base-v2"%string) (Some (-1)) FakeBackend.world0).
  - cbn. lia.
  - exists "hello world"%string. split; [now left|reflexivity].
Defined.

(** A negative batch size on an empty cache: every entry comes back as
    [None], and nothing was embedded. *)
Example get_batch_embeddings_negative_batch_size :
  Embeddings.get_batch_embeddings FakeBackend.backends FakeBackend.env
    FakeBackend.texts (Some "local"%string)
    (Some "all-mpnet-base-v2"%string) (Some (-1)) FakeBackend.world0
  = (Returns [None; None; None], FakeBackend.world0).
Proof. vm_compute. reflexivity. Qed.

(** ** embeddings.py: [get_embedding] *)

(** X22. [get_embedding] of one text, with a positive batch size in force.
    A cached vector is returned as it is, without a backend call or a cache
    write. Otherwise the backend (with its fallback) is called once, on
    [[text]]: if it raises, the call raises and the cache is as before; if
    it answers one vector, that vector is cached under the key of the text
    and returned; if it answers no vector, [None] is returned and nothing is
    cached; if it answers more than one, the first is cached and the call
    raises [IndexError]. *)
Theorem get_embedding_single_text {C : Type} `{Embeddings.Cache C}
    (backends : Embeddings.Backends) (env : Embeddings.Env)
    (text : string) (provider model : option string)
    (w : Embeddings.World C) :
  let prov := Embeddings.effective_provider env provider in
  let mdl := Embeddings.effective_model env model in
  let bs := Embeddings.effective_batch_size env None in
  let key := Embeddings._hash_key text mdl prov in
  let call := Embeddings.embed_chunk backends prov mdl bs [text]
                (Embeddings.calls w) in
  0 < bs ->
  Embeddings.get_embedding backends env text provider model w
  = match Embeddings.get_cached (Embeddings.cache w) key with
    | Some v => (Returns (Some v), w)
    | None =>
        match call with
        | (None, log) =>
            (Raises BackendError, Embeddings.mkWorld (Embeddings.cache w) log)
        | (Some [], log) =>
            (Returns None, Embeddings.mkWorld (Embeddings.cache w) log)
        | (Some [v], log) =>
            (Returns (Some v),
             Embeddings.mkWorld
               (Embeddings.set_cached (Embeddings.cache w) key v) log)
        | (Some (v :: _ :: _), log) =>
            (Raises IndexError,
             Embeddings.mkWorld
               (Embeddings.set_cached (Embeddings.cache w) key v) log)
        end
    end.
Proof.
  intros prov mdl bs key call Hbs. subst key call.
  unfold Embeddings.get_embedding, Embeddings.get_batch_embeddings.
  fold prov. fold mdl. fold bs. clearbody prov mdl bs.
  unfold Embeddings.dedup. cbn [fold_left Embeddings.dedup_step].
  rewrite lookup_empty. cbn [app map Embeddings.find_missing].
  destruct (Embeddings.get_cached (Embeddings.cache w)
              (Embeddings._hash_key text mdl prov)) as [v|] eqn:Hc.
  { reflexivity. }
  rewrite range0_pos by exact Hbs.
  change (Py.len [text]) with 1. change (Z.to_nat 1) with 1%nat.
  cbn [Py.range_pos].
  destruct (Z.ltb_spec 0 1); [|lia].
  cbn [Embeddings.embed_batches].
  assert (Hslice : Py.slice [text] 0 (0 + bs) = [text]).
  { rewrite slice_take_drop by lia. change (Z.to_nat 0) with 0%nat.
    cbn [drop]. rewrite take_ge; [reflexivity|]. cbn [length]. lia. }
  rewrite Hslice.
  destruct (Embeddings.embed_chunk backends prov mdl bs [text]
              (Embeddings.calls w)) as [[embs|] log]; [|reflexivity].
  destruct embs as [|v embs]; [reflexivity|].
  cbn [Embeddings.assign]. rewrite Z.add_0_l.
  change (Py.len (@nil string)) with 0.
  change (Py.index [0] 0) with (Returns 0).
  change (Py.setitem [None] 0 (Some v))
    with (Returns [Some v] : outcome (list (option (list Q)))).
  change (Py.index [text] 0) with (Returns text).
  cbn iota.
  destruct embs as [|v' embs]; [reflexivity|].
  cbn [Embeddings.assign]. reflexivity.
Qed.

Lemma get_embedding_single_text_witness :
  let backends := FakeBackend.backends in
  let env := FakeBackend.env in
  let w := FakeBackend.world0 in
  let text := "hello world"%string in
  let prov := Embeddings.effective_provider env (Some "local"%string) in
  let mdl := Embeddings.effective_model env None in
  let bs := Embeddings.effective_batch_size env None in
  let key := Embeddings._hash_key text mdl prov in
  let call := Embeddings.embed_chunk backends prov mdl bs [text]
                (Embeddings.calls w) in
  0 < bs
  /\ Embeddings.get_embedding backends env text (Some "local"%string) None w
     = match Embeddings.get_cached (Embeddings.cache w) key with
       | Some v => (Returns (Some v), w)
       | None =>
           match call with
           | (None, log) =>
               (Raises BackendError,
                Embeddings.mkWorld (Embeddings.cache w) log)
           | (Some [], log) =>
               (Returns None, Embeddings.mkWorld (Embeddings.cache w) log)
           | (Some [v], log) =>
               (Returns (Some v),
                Embeddings.mkWorld
                  (Embeddings.set_cached (Embeddings.cache w) key v) log)
           | (Some (v :: _ :: _), log) =>
               (Raises IndexError,
                Embeddings.mkWorld
                  (Embeddings.set_cached (Embeddings.cache w) key v) log)
           end
       end.
Proof.
  split; [cbn; lia|].
  apply (get_embedding_single_text FakeBackend.backends FakeBackend.env
           "hello world" (Some "local"%string) None FakeBackend.world0).
  cbn. lia.
Defined.

(** The call of the witness: the text is embedded by the local backend and
    its vector is returned. *)
Example get_embedding_example :
  fst (Embeddings.get_embedding FakeBackend.backends FakeBackend.env
         "hello world" (Some "local"%string) None FakeBackend.world0)
  = Returns (Some [11%Q]).
Proof. vm_compute. reflexivity. Qed.

(** ** embeddings.py: the shape of a cache key *)

Section KeyShape.
Import Sha256.

Lemma hex_length (n : nat) : forall x, length (hex n x) = n.
Proof.
  induction n as [|n IH]; intros x; [reflexivity|].
  cbn [hex]. rewrite length_app, IH. cbn. lia.
Qed.

Lemma hex_digit_lower (d : Z) :
  0 <= d < 16 -> Embeddings.is_lower_hex (hex_digit d) = true.
Proof.
  intros Hd.
  assert (Hcases : d = 0 \/ d = 1 \/ d = 2 \/ d = 3 \/ d = 4 \/ d = 5
                   \/ d = 6 \/ d = 7 \/ d = 8 \/ d = 9 \/ d = 10 \/ d = 11
                   \/ d = 12 \/ d = 13 \/ d = 14 \/ d = 15) by lia.
  repeat (destruct Hcases as [->|Hcases]; [reflexivity|]).
  subst d. reflexivity.
Qed.

Lemma hex_lower (n : nat) :
  forall x, forallb Embeddings.is_lower_hex (hex n x) = true.
Proof.
  induction n as [|n IH]; intros x; [reflexivity|].
  cbn [hex]. rewrite forallb_app, IH. cbn [forallb andb].
  rewrite hex_digit_lower; [reflexivity|]. apply Z.mod_pos_bound. lia.
Qed.

Lemma length_string_of_list_ascii (l : list ascii) :
  String.length (string_of_list_ascii l) = length l.
Proof. induction l as [|c l IH]; cbn; [reflexivity|now rewrite IH]. Qed.

End KeyShape.

(** X23. Every cache key is ["emb:"] followed by 64 lower-case hexadecimal
    digits: 68 characters, whatever the length and the content of the text,
    the model and the provider. *)
Theorem hash_key_shape (text : string) (model : option string)
    (provider : string) :
  exists digest,
    Embeddings._hash_key text model provider = ("emb:" ++ digest)%string
    /\ String.length digest = 64%nat
    /\ forallb Embeddings.is_lower_hex (list_ascii_of_string digest) = true
    /\ String.length (Embeddings._hash_key text model provider) = 68%nat.
Proof.
  unfold Embeddings._hash_key.
  set (msg := Embeddings.hash_input text model provider).
  assert (Hlen : String.length (Sha256.hexdigest msg) = 64%nat).
  { unfold Sha256.hexdigest, Sha256.digest_words.
    rewrite length_string_of_list_ascii. cbn [flat_map].
    rewrite !length_app, !hex_length. reflexivity. }
  exists (Sha256.hexdigest msg). split; [reflexivity|].
  split; [exact Hlen|]. split.
  - unfold Sha256.hexdigest, Sha256.digest_words.
    rewrite list_ascii_of_string_of_list_ascii. cbn [flat_map].
    rewrite !forallb_app, !hex_lower. reflexivity.
  - change (String.length ("emb:" ++ Sha256.hexdigest msg))
      with (4 + String.length (Sha256.hexdigest msg))%nat.
    now rewrite Hlen.
Qed.

(** ** reembed_runner.py: dry runs, and the cursors of other tenants *)

Section DryRun.
Import Reembed.

Variable embed : string -> list Q.
Variable args : Args.
Variable w : World.
Hypothesis dry : dry_run args = true.

Local Abbreviation init := (if resume args then load_checkpoint w else ∅).

Local Abbreviation only_fetches :=
  (Forall (fun e => match e with Fetched _ _ => True | _ => False end)).

Local Abbreviation dry_inv :=
  (fun st : Run =>
     world st = w /\ checkpoint st = init
     /\ (at_pc st = AtFetch \/ at_pc st = Finished)
     /\ only_fetches (trace st)).

Lemma step_dry_inv (st : Run) : dry_inv st -> dry_inv (step embed args st).
Proof.
  intros (Hw & Hck & Hpc & Htr). unfold step.
  destruct Hpc as [Hpc|Hpc]; rewrite Hpc; [|repeat split; auto].
  destruct (fetch_batch _ _ _ _) as [|r batch] eqn:Eb.
  - cbn. repeat split; auto.
  - rewrite dry. cbn [world checkpoint at_pc trace].
    split; [exact Hw|]. split; [exact Hck|]. split.
    + unfold after_count. destruct (_ && _); auto.
    + constructor; [exact I|exact Htr].
Qed.

Lemma steps_dry_inv (n : nat) :
  forall st, dry_inv st -> dry_inv (steps embed args n st).
Proof.
  induction n as [|n IH]; intros st Hinv; [exact Hinv|].
  cbn [steps]. apply IH, step_dry_inv, Hinv.
Qed.

Lemma main_dry_run (budget : nat) :
  let st := main embed args budget w in
  store (world st) = store w
  /\ (forall ids, ~ In (Embedded ids) (trace st)
                  /\ ~ In (Upserted ids) (trace st))
  /\ (at_pc (steps embed args budget (start args w)) = Finished ->
      world st = w /\ only_fetches (trace st))
  /\ (at_pc (steps embed args budget (start args w)) <> Finished ->
      path_file (world st) = Some init).
Proof.
  cbn zeta. unfold main.
  destruct (steps_dry_inv budget (start args w)) as (Hw & Hck & Hpc & Htr).
  { unfold start. cbn. repeat split; auto. }
  set (st := steps embed args budget (start args w)) in *.
  assert (Hno : forall ids, ~ In (Embedded ids) (trace st)
                            /\ ~ In (Upserted ids) (trace st)).
  { intros ids. rewrite List.Forall_forall in Htr.
    split; intros Hin; apply (Htr _ Hin). }
  destruct Hpc as [Hpc|Hpc]; rewrite Hpc.
  - unfold handler. cbn [world store trace path_file at_pc].
    split; [now rewrite Hw|]. split.
    + intros ids. destruct (Hno ids) as [H1 H2].
      split; intros [Hin|[Hin|[Hin|Hin]]]; try discriminate; auto.
    + split; [discriminate|]. intros _. now rewrite Hck.
  - split; [now rewrite Hw|]. split; [exact Hno|].
    split; [auto|]. intros Hne. contradiction.
Qed.

End DryRun.

(** X24. A run with [--dry-run], for any budget of actions before it is
    interrupted: it never embeds and never upserts, and the store is as it
    was. When its loop ends by itself it has written no file either. When
    it is interrupted, the handler still saves the checkpoint: the file
    then holds the checkpoint that was loaded, or the empty dictionary when
    the run was started without [--resume]. *)
Theorem dry_run_leaves_the_store (embed : string -> list Q)
    (args : Reembed.Args) (w : Reembed.World) (budget : nat) :
  Reembed.dry_run args = true ->
  let st := Reembed.main embed args budget w in
  let finished :=
    Reembed.at_pc (Reembed.steps embed args budget (Reembed.start args w)) in
  Reembed.store (Reembed.world st) = Reembed.store w
  /\ (forall ids, ~ In (Reembed.Embedded ids) (Reembed.trace st)
                  /\ ~ In (Reembed.Upserted ids) (Reembed.trace st))
  /\ (finished = Reembed.Finished -> Reembed.world st = w)
  /\ (finished <> Reembed.Finished ->
      Reembed.path_file (Reembed.world st)
      = Some (if Reembed.resume args then Reembed.load_checkpoint w else ∅)).
Proof.
  intros Hdry. cbn zeta.
  destruct (main_dry_run embed args w Hdry budget) as (H1 & H2 & H3 & H4).
  split; [exact H1|]. split; [exact H2|]. split; [|exact H4].
  intros Hfin. now apply H3.
Qed.

Lemma dry_run_leaves_the_store_witness :
  let args := Reembed.mkArgs (Some "tn_prioritized"%string) 2 0 false true in
  let w := Reembed.mkWorld (Reembed.store ExampleBackfill.world0)
             (Some {["tn_other"%string := 7]}) None in
  let st := Reembed.main ExampleBackfill.embed args 1 w in
  let finished :=
    Reembed.at_pc (Reembed.steps ExampleBackfill.embed args 1
                     (Reembed.start args w)) in
  Reembed.store (Reembed.world st) = Reembed.store w
  /\ (forall ids, ~ In (Reembed.Embedded ids) (Reembed.trace st)
                  /\ ~ In (Reembed.Upserted ids) (Reembed.trace st))
  /\ (finished = Reembed.Finished -> Reembed.world st = w)
  /\ (finished <> Reembed.Finished ->
      Reembed.path_file (Reembed.world st)
      = Some (if Reembed.resume args then Reembed.load_checkpoint w else ∅)).
Proof.
  apply (dry_run_leaves_the_store ExampleBackfill.embed
           (Reembed.mkArgs (Some "tn_prioritized"%string) 2 0 false true)
           (Reembed.mkWorld (Reembed.store ExampleBackfill.world0)
              (Some {["tn_other"%string := 7]}) None) 1).
  reflexivity.
Defined.

(** A dry run without [--resume], interrupted after its first fetch: the
    cursor of the other tenant is gone from the checkpoint file. *)
Example interrupted_dry_run_empties_the_checkpoint :
  let args := Reembed.mkArgs (Some "tn_prioritized"%string) 2 0 false true in
  let w := Reembed.mkWorld (Reembed.store ExampleBackfill.world0)
             (Some {["tn_other"%string := 7]}) None in
  Reembed.path_file
    (Reembed.world (Reembed.main ExampleBackfill.embed args 1 w))
  = Some ∅.
Proof. vm_compute. reflexivity. Qed.

Section OtherCursors.
Import Reembed.

Variable embed : string -> list Q.
Variable args : Args.
Variable w : World.

Local Abbreviation key := (cursor_key args).
Local Abbreviation init := (if resume args then load_checkpoint w else ∅).

(** [d] has the cursors the run started with, its own apart. *)
Local Abbreviation others_as_loaded :=
  (fun d : Checkpoint => forall k, k <> key -> d !! k = init !! k).

Local Abbreviation cursors_inv :=
  (fun st : Run =>
     others_as_loaded (checkpoint st)
     /\ (path_file (world st) = path_file w
         \/ exists d, path_file (world st) = Some d /\ others_as_loaded d)
     /\ match at_pc st with
        | AtReplace _ => tmp_file (world st) = Some (checkpoint st)
        | _ => True
        end).

Lemma step_cursors_inv (st : Run) :
  cursors_inv st -> cursors_inv (step embed args st).
Proof.
  intros (Hck & Hfile & Hpc). unfold step.
  destruct (at_pc st) as [|b|b e|b|b|b|b|] eqn:Epc;
    cbn [at_pc checkpoint world path_file tmp_file].
  - destruct (fetch_batch _ _ _ _) as [|r batch];
      [|destruct (dry_run args)];
      cbn [at_pc checkpoint world path_file tmp_file];
      (split; [exact Hck|]); (split; [exact Hfile|]); auto.
    unfold after_count. destruct (_ && _); exact I.
  - auto.
  - auto.
  - split; [|split; [exact Hfile|exact I]].
    destruct (last_of b) as [l|]; [|exact Hck].
    intros k Hk. rewrite lookup_insert_ne by congruence. now apply Hck.
  - split; [exact Hck|]. split; [exact Hfile|reflexivity].
  - rewrite Hpc. cbn [at_pc checkpoint world path_file tmp_file].
    split; [exact Hck|]. split; [|exact I]. right. eauto.
  - split; [exact Hck|]. split; [exact Hfile|].
    unfold after_count. destruct (_ && _); exact I.
  - rewrite Epc. auto.
Qed.

Lemma steps_cursors_inv (n : nat) :
  forall st, cursors_inv st -> cursors_inv (steps embed args n st).
Proof.
  induction n as [|n IH]; intros st Hinv; [exact Hinv|].
  cbn [steps]. apply IH, step_cursors_inv, Hinv.
Qed.

Lemma main_cursors (budget : nat) :
  let st := main embed args budget w in
  others_as_loaded (checkpoint st)
  /\ (path_file (world st) = path_file w
      \/ exists d, path_file (world st) = Some d /\ others_as_loaded d).
Proof.
  cbn zeta. unfold main.
  destruct (steps_cursors_inv budget (start args w)) as (Hck & Hfile & _).
  { unfold start. cbn. split; [auto|]. split; [now left|exact I]. }
  destruct (at_pc _); try (split; [exact Hck|exact Hfile]);
    unfold handler; cbn [checkpoint world path_file];
    (split; [exact Hck|right; eauto]).
Qed.

End OtherCursors.

(** X25. Whatever a run does and whenever it is interrupted, it changes no
    cursor but its own: every checkpoint it puts in the file has, under
    every other key, what the run started with. With [--resume] that is
    the cursor the file held; without it the run starts from the empty
    dictionary, so each save leaves no other tenant's cursor in the
    file. *)
Theorem run_keeps_other_cursors (embed : string -> list Q)
    (args : Reembed.Args) (w : Reembed.World) (budget : nat) :
  let st := Reembed.main embed args budget w in
  let loaded :=
    if Reembed.resume args then Reembed.load_checkpoint w else ∅ in
  Reembed.path_file (Reembed.world st) = Reembed.path_file w
  \/ exists d,
       Reembed.path_file (Reembed.world st) = Some d
       /\ (forall k, k <> Reembed.cursor_key args -> d !! k = loaded !! k)
       /\ (Reembed.resume args = false ->
           dom d ⊆ {[Reembed.cursor_key args]}).
Proof.
  cbn zeta. destruct (main_cursors embed args w budget) as [_ [Hsame|Hd]];
    [now left|].
  destruct Hd as (d & Hfile & Hothers). right. exists d.
  split; [exact Hfile|]. split; [exact Hothers|].
  intros Hres k Hk. apply elem_of_singleton.
  destruct (decide (k = Reembed.cursor_key args)) as [|Hne]; [assumption|].
  exfalso. apply elem_of_dom in Hk as [v Hv].
  rewrite (Hothers k Hne), Hres, lookup_empty in Hv. discriminate.
Qed.

(** ** reembed_runner.py: [request_with_retries] *)

Section RetryLoop.
Import Retries.

Variable session : nat -> reply.
Variable max_retries : Z.
Variable backoff : Q.

Lemma backoffs_succ (k : nat) :
  backoffs backoff (S k)
  = backoffs backoff k ++ [sleep_of backoff (Z.of_nat k + 1)].
Proof.
  unfold backoffs. rewrite seq_S, map_app. reflexivity.
Qed.

(** The sleeps of a backoff that is not negative grow with the attempt:
    when the last of them is followed, all are. *)
Lemma pause_of_slept (a last : Z) :
  (0 <= backoff)%Q ->
  (1 <= a <= last)%Z -> (last <= 1024)%Z ->
  (sleep_of backoff last <= max_sleep)%Q ->
  pause_of backoff a = Slept (sleep_of backoff a).
Proof.
  intros Hb Ha Hlast Hmax. unfold pause_of.
  destruct (Z.leb_spec 1024 (a - 1)); [lia|]. cbn zeta.
  assert (H0 : (0 <= sleep_of backoff a)%Q).
  { unfold sleep_of. apply Qmult_le_0_compat; [exact Hb|].
    change 0%Q with (inject_Z 0). rewrite <- Zle_Qle.
    apply Z.pow_nonneg. lia. }
  assert (Hle : (sleep_of backoff a <= sleep_of backoff last)%Q).
  { unfold sleep_of.
    rewrite (Qmult_comm backoff (inject_Z (2 ^ (a - 1)))),
            (Qmult_comm backoff (inject_Z (2 ^ (last - 1)))).
    apply Qmult_le_compat_r; [|exact Hb].
    rewrite <- Zle_Qle. apply Z.pow_le_mono_r; lia. }
  assert (H1 : Qle_bool (- max_sleep) (sleep_of backoff a) = true).
  { apply Qle_bool_iff. apply Qle_trans with 0%Q; [|exact H0].
    vm_compute. discriminate. }
  assert (H2 : Qle_bool (sleep_of backoff a) max_sleep = true).
  { apply Qle_bool_iff. now apply Qle_trans with (sleep_of backoff last). }
  assert (H3 : Qle_bool 0 (sleep_of backoff a) = true)
    by now apply Qle_bool_iff.
  rewrite H1, H2, H3. reflexivity.
Qed.

(** [j] transient replies in a row, with attempts left for all of them and
    sleeps that [time.sleep] takes: the loop sleeps after each and is back
    at its head. *)
Lemma request_loop_transient (j : nat) :
  forall (fuel n : nat) (a : Z) (slept : list Q),
    (forall i : nat, (i < j)%nat -> transient (session (n + i)) = true) ->
    (forall i : nat, (i < j)%nat ->
       pause_of backoff (a + Z.of_nat i + 1)
       = Slept (sleep_of backoff (a + Z.of_nat i + 1))) ->
    (a + Z.of_nat j <= max_retries)%Z ->
    request_loop (j + fuel) session max_retries backoff n a slept
    = request_loop fuel session max_retries backoff (n + j)
        (a + Z.of_nat j)
        (slept ++ map (fun i => sleep_of backoff (a + Z.of_nat i + 1))
                    (seq 0 j)).
Proof.
  induction j as [|j IH]; intros fuel n a slept Htr Hsl Ha.
  - cbn. now rewrite Nat.add_0_r, Z.add_0_r, app_nil_r.
  - cbn [Nat.add request_loop].
    pose proof (Htr 0%nat ltac:(lia)) as H0. rewrite Nat.add_0_r in H0.
    pose proof (Hsl 0%nat ltac:(lia)) as Hp0.
    change (Z.of_nat 0) with 0%Z in Hp0. rewrite Z.add_0_r in Hp0.
    assert (Hnext :
      request_loop fuel session max_retries backoff (n + S j)
        (a + Z.of_nat (S j))
        (slept ++ map (fun i => sleep_of backoff (a + Z.of_nat i + 1))
                    (seq 0 (S j)))
      = request_loop (j + fuel) session max_retries backoff (S n) (a + 1)
          (slept ++ [sleep_of backoff (a + 1)])).
    { rewrite IH.
      - replace (S n + j)%nat with (n + S j)%nat by lia.
        replace (a + 1 + Z.of_nat j)%Z with (a + Z.of_nat (S j))%Z by lia.
        f_equal. rewrite <- app_assoc. f_equal. cbn [seq map app].
        rewrite Z.add_0_r. f_equal. rewrite <- seq_shift, map_map.
        apply map_ext. intros i. f_equal. lia.
      - intros i Hi. replace (S n + i)%nat with (n + S i)%nat by lia.
        apply Htr. lia.
      - intros i Hi.
        replace (a + 1 + Z.of_nat i + 1)%Z with (a + Z.of_nat (S i) + 1)%Z
          by lia.
        apply Hsl. lia.
      - lia. }
    rewrite Hnext.
    destruct (session n) as [|code]; cbn [transient] in H0.
    + destruct (Z.gtb_spec (a + 1) max_retries); [lia|].
      rewrite Hp0. reflexivity.
    + assert (Hacc : accepted code = false).
      { unfold accepted. apply orb_true_iff in H0 as [H0|H0].
        - apply Z.eqb_eq in H0. subst code. reflexivity.
        - apply andb_true_iff in H0 as [H0 _]. apply Z.leb_le in H0.
          repeat (apply orb_false_iff; split); apply Z.eqb_neq; lia. }
      assert (Hret : retried code = true).
      { unfold retried. apply orb_true_iff in H0 as [H0|H0].
        - rewrite H0. apply orb_true_r.
        - apply andb_true_iff in H0 as [H0 _]. now rewrite H0. }
      rewrite Hacc, Hret.
      destruct (Z.gtb_spec (a + 1) max_retries); [lia|].
      cbn [andb]. rewrite Hp0. reflexivity.
Qed.

Lemma transient_raises (r : reply) (n : nat) (a : Z) (slept : list Q)
    (fuel : nat) :
  transient r = true -> session n = r -> (max_retries < a + 1)%Z ->
  request_loop (S fuel) session max_retries backoff n a slept
  = mkCall (gives_up r) (S n) slept.
Proof.
  intros Htr Hr Ha. cbn [request_loop]. rewrite Hr.
  destruct r as [|code]; cbn [transient gives_up] in *.
  - destruct (Z.gtb_spec (a + 1) max_retries); [reflexivity|lia].
  - assert (Hacc : accepted code = false).
    { unfold accepted. apply orb_true_iff in Htr as [H0|H0].
      - apply Z.eqb_eq in H0. subst code. reflexivity.
      - apply andb_true_iff in H0 as [H0 _]. apply Z.leb_le in H0.
        repeat (apply orb_false_iff; split); apply Z.eqb_neq; lia. }
    assert (Hret : retried code = true).
    { unfold retried. apply orb_true_iff in Htr as [H0|H0].
      - rewrite H0. apply orb_true_r.
      - apply andb_true_iff in H0 as [H0 _]. now rewrite H0. }
    assert (Hrfs : raises_for_status code = true).
    { unfold raises_for_status. apply orb_true_iff in Htr as [H0|H0].
      - apply Z.eqb_eq in H0. subst code. reflexivity.
      - apply andb_true_iff in H0 as [H1 H2]. apply Z.leb_le in H1.
        apply andb_true_iff. split; [apply Z.leb_le; lia|exact H2]. }
    rewrite Hacc, Hret, Hrfs.
    destruct (Z.gtb_spec (a + 1) max_retries); [reflexivity|lia].
Qed.

End RetryLoop.

(** X26. [request_with_retries] on a session whose first [k] replies are
    transient (a network error, 429, or a status from 500 to 599), with
    [k <= max_retries], and with a backoff that is not negative and whose
    sleeps [time.sleep] takes: [k <= 1024], so that the powers of two are
    floats, and the longest sleep is at most [2 ** 32] seconds. If reply
    [k] has status 200, 201 or 204, the call
    returns that response after [k + 1] requests. If it is a status from
    400 to 499 other than 429, the call raises for it at once. If
    [k = max_retries] and reply [k] is transient too, the call gives up
    and raises what that reply gives, after [max_retries + 1] requests. In
    each case it has slept [backoff], [2 * backoff], ...,
    [2^(k-1) * backoff], once after each of the first [k] requests. *)
Theorem request_with_retries_schedule (session : nat -> Retries.reply)
    (max_retries : Z) (backoff : Q) (k fuel : nat) :
  (forall i : nat, (i < k)%nat -> Retries.transient (session i) = true) ->
  Z.of_nat k <= max_retries ->
  (k < fuel)%nat ->
  (0 <= backoff)%Q ->
  (k <= 1024)%nat ->
  (Retries.sleep_of backoff (Z.of_nat k) <= Retries.max_sleep)%Q ->
  let call := Retries.request_with_retries fuel session max_retries backoff in
  (forall code,
     session k = Retries.Status code -> Retries.accepted code = true ->
     call = Retries.mkCall (Retries.Response code) (S k)
              (Retries.backoffs backoff k))
  /\ (forall code,
        session k = Retries.Status code ->
        400 <= code < 500 -> code <> 429 ->
        call = Retries.mkCall (Retries.RaisedHTTPError code) (S k)
                 (Retries.backoffs backoff k))
  /\ (Z.of_nat k = max_retries ->
      Retries.transient (session k) = true ->
      call = Retries.mkCall (Retries.gives_up (session k)) (S k)
               (Retries.backoffs backoff k)).
Proof.
  intros Htr Hk Hfuel Hb Hpow Hmax. cbn zeta.
  unfold Retries.request_with_retries.
  replace fuel with (k + S (fuel - S k))%nat by lia.
  assert (Hsl : forall i : nat, (i < k)%nat ->
            Retries.pause_of backoff (0 + Z.of_nat i + 1)
            = Retries.Slept (Retries.sleep_of backoff (0 + Z.of_nat i + 1))).
  { intros i Hi.
    apply (pause_of_slept backoff _ (Z.of_nat k)); [exact Hb|lia|lia|exact Hmax]. }
  rewrite (request_loop_transient session max_retries backoff k) by
    first [exact Hsl | cbn [Nat.add]; auto; lia].
  cbn [Nat.add app]. rewrite Z.add_0_l.
  change (map (fun i => Retries.sleep_of backoff (0 + Z.of_nat i + 1))
            (seq 0 k)) with (Retries.backoffs backoff k).
  split; [|split].
  - intros code Hr Hacc. cbn [Retries.request_loop]. now rewrite Hr, Hacc.
  - intros code Hr Hcode Hne. cbn [Retries.request_loop]. rewrite Hr.
    assert (Hacc : Retries.accepted code = false).
    { unfold Retries.accepted.
      repeat (apply orb_false_iff; split); apply Z.eqb_neq; lia. }
    assert (Hret : Retries.retried code = false).
    { unfold Retries.retried. apply orb_false_iff.
      split; [apply Z.leb_gt; lia|apply Z.eqb_neq; lia]. }
    assert (Hrfs : Retries.raises_for_status code = true).
    { unfold Retries.raises_for_status. apply andb_true_iff.
      split; [apply Z.leb_le; lia|apply Z.ltb_lt; lia]. }
    now rewrite Hacc, Hret, Hrfs.
  - intros Heq Ht.
    apply (transient_raises session max_retries backoff (session k));
      auto; lia.
Qed.

Lemma request_with_retries_schedule_witness :
  let session := fun n : nat =>
    match n with
    | 0%nat => Retries.NetworkError
    | 1%nat => Retries.Status 503
    | _ => Retries.Status 200
    end in
  let call := Retries.request_with_retries 10 session 5 1 in
  (forall code,
     session 2%nat = Retries.Status code -> Retries.accepted code = true ->
     call = Retries.mkCall (Retries.Response code) 3
              (Retries.backoffs 1 2))
  /\ (forall code,
        session 2%nat = Retries.Status code ->
        400 <= code < 500 -> code <> 429 ->
        call = Retries.mkCall (Retries.RaisedHTTPError code) 3
                 (Retries.backoffs 1 2))
  /\ (Z.of_nat 2 = 5 ->
      Retries.transient (session 2%nat) = true ->
      call = Retries.mkCall (Retries.gives_up (session 2%nat)) 3
               (Retries.backoffs 1 2)).
Proof.
  apply (request_with_retries_schedule
           (fun n : nat =>
              match n with
              | 0%nat => Retries.NetworkError
              | 1%nat => Retries.Status 503
              | _ => Retries.Status 200
              end) 5 1 2 10).
  - intros [|[|i]] Hi; [reflexivity|reflexivity|lia].
  - lia.
  - lia.
  - vm_compute. discriminate.
  - lia.
  - vm_compute. discriminate.
Defined.

(** The call of the witness: two transient replies, then 200. *)
Example request_with_retries_example :
  Retries.request_with_retries 10
    (fun n : nat =>
       match n with
       | 0%nat => Retries.NetworkError
       | 1%nat => Retries.Status 503
       | _ => Retries.Status 200
       end) 5 1
  = Retries.mkCall (Retries.Response 200) 3 [1; 2]%Q.
Proof. reflexivity. Qed.

(** With a negative backoff the first sleep raises: the call ends in
    [ValueError] after one request. *)
Example request_with_retries_negative_backoff :
  Retries.request_with_retries 10
    (fun n : nat =>
       match n with
       | 0%nat => Retries.NetworkError
       | _ => Retries.Status 200
       end) 5 (-1)
  = Retries.mkCall
      (Retries.Raised (ValueError "sleep length must be non-negative")) 1 [].
Proof. reflexivity. Qed.

(** X27. A status below 400 other than 200, 201 and 204 (202 Accepted, say)
    is neither returned nor raised for, and is not counted as an attempt:
    while the server repeats it the loop asks again at once, without
    sleeping, and the call never ends, whatever [max_retries]. *)
Theorem request_with_retries_unhandled_status_spins
    (session : nat -> Retries.reply) (code : Z) (max_retries : Z)
    (backoff : Q) (fuel : nat) :
  code < 400 ->
  Retries.accepted code = false ->
  (forall n, session n = Retries.Status code) ->
  Retries.request_with_retries fuel session max_retries backoff
  = Retries.mkCall Retries.Running fuel [].
Proof.
  intros Hcode Hacc Hs. unfold Retries.request_with_retries.
  assert (Hgen : forall f n a,
            Retries.request_loop f session max_retries backoff n a []
            = Retries.mkCall Retries.Running (n + f) []).
  { induction f as [|f IH]; intros n a.
    - cbn. now rewrite Nat.add_0_r.
    - cbn [Retries.request_loop]. rewrite Hs, Hacc.
      assert (Hret : Retries.retried code = false).
      { unfold Retries.retried. apply orb_false_iff.
        split; [apply Z.leb_gt; lia|apply Z.eqb_neq; lia]. }
      assert (Hrfs : Retries.raises_for_status code = false).
      { unfold Retries.raises_for_status. apply andb_false_iff. left.
        apply Z.leb_gt. lia. }
      rewrite Hret, Hrfs, IH. f_equal. lia. }
  apply Hgen.
Qed.

Lemma request_with_retries_unhandled_status_spins_witness :
  Retries.request_with_retries 1000 (fun _ => Retries.Status 202) 5 1
  = Retries.mkCall Retries.Running 1000 [].
Proof.
  apply (request_with_retries_unhandled_status_spins
           (fun _ => Retries.Status 202) 202 5 1 1000).
  - lia.
  - reflexivity.
  - reflexivity.
Defined.

(** ** reembed_runner.py: a fresh run to its end *)

Section SortById.
Import Reembed.

Local Abbreviation by_id := (fun a b : Row => id a <= id b).

Lemma insert_by_id_sorted (x : Row) (l : list Row) :
  StronglySorted by_id l -> StronglySorted by_id (insert_by_id x l).
Proof.
  induction 1 as [|y l Hs IH Hall]; cbn [insert_by_id].
  - repeat constructor.
  - destruct (Z.leb_spec (id x) (id y)) as [Hle|Hgt].
    + constructor; [now constructor|].
      constructor; [exact Hle|].
      eapply List.Forall_impl; [|exact Hall]. cbn. intros z Hz. lia.
    + constructor; [exact IH|].
      apply List.Forall_forall. intros z Hz.
      apply in_insert_by_id in Hz as [->|Hz]; [lia|].
      rewrite List.Forall_forall in Hall. now apply Hall.
Qed.

Lemma sort_by_id_sorted (l : list Row) : StronglySorted by_id (sort_by_id l).
Proof.
  induction l as [|x l IH]; cbn; [constructor|].
  now apply insert_by_id_sorted.
Qed.

Lemma StronglySorted_app_le {A} (R : A -> A -> Prop) (l1 l2 : list A) :
  StronglySorted R (l1 ++ l2) ->
  forall x y, In x l1 -> In y l2 -> R x y.
Proof.
  induction l1 as [|a l1 IH]; intros Hs x y Hx Hy; [destruct Hx|].
  cbn in Hs. inversion Hs as [|? ? Hs' Hall]; subst.
  destruct Hx as [<-|Hx].
  - rewrite List.Forall_forall in Hall. apply Hall.
    apply in_or_app. now right.
  - now apply IH.
Qed.

Lemma NoDup_id_inj (l : list Row) (r r' : Row) :
  NoDup (map id l) -> In r l -> In r' l -> id r = id r' -> r = r'.
Proof.
  induction l as [|x l IH]; intros Hnd Hr Hr' Hid; [destruct Hr|].
  cbn in Hnd. inversion Hnd as [|? ? Hnot Hnd']; subst.
  destruct Hr as [<-|Hr], Hr' as [<-|Hr']; try reflexivity.
  - exfalso. apply Hnot. rewrite Hid. apply list_elem_of_In. now apply in_map.
  - exfalso. apply Hnot. rewrite <- Hid. apply list_elem_of_In.
    now apply in_map.
  - now apply IH.
Qed.

Lemma lookup_id_map (g : Row -> list Q) (b : list Row) (i : Z) :
  match lookup_id i (ids_of b) (map g b) with
  | Some e => exists r, In r b /\ id r = i /\ e = g r
  | None => ~ In i (ids_of b)
  end.
Proof.
  unfold ids_of. induction b as [|x b IH]; cbn [map lookup_id];
    [intros []|].
  destruct (Z.eqb_spec i (id x)) as [->|Hne].
  - exists x. split; [now left|auto].
  - destruct (lookup_id i (map id b) (map g b)) as [e|].
    + destruct IH as (r & Hr & Hid & He). exists r.
      split; [now right|auto].
    + intros [Heq|Hin]; [congruence|contradiction].
Qed.

End SortById.

Section FreshRun.
Import Reembed.

Variable embed : string -> list Q.
Variable args : Args.
Variable w : World.

Hypothesis not_dry : dry_run args = false.
Hypothesis unlimited : max_rows args = 0.
Hypothesis batch_pos : 0 < batch_size args.
Hypothesis ids_unique : NoDup (map id (store w)).

Local Abbreviation t := (tenant args).
Local Abbreviation upd := (embedded_row embed).

(** A row of the store, against the row it was at the start. *)
Local Abbreviation rel :=
  (fun r0 r : Row => r = r0 \/ (selected t None r0 = true /\ r = upd r0)).

Local Abbreviation fresh_inv :=
  (fun st : Run =>
     at_pc st = AtFetch
     /\ Forall2 rel (store w) (store (world st))
     /\ (forall r, In r (store (world st)) -> selected t None r = true ->
           selected t (last_id st) r = true)).

Lemma selected_any_cursor (l : option Z) (r : Row) :
  selected t l r = true -> selected t None r = true.
Proof.
  unfold selected. destruct (embedding_768 r); [discriminate|].
  intros H. apply andb_true_iff in H as [H _]. now rewrite H.
Qed.

Lemma rel_id (r0 r : Row) : rel r0 r -> id r = id r0.
Proof. intros [->|[_ ->]]; reflexivity. Qed.

Lemma rel_ids (l0 l : list Row) : Forall2 rel l0 l -> map id l = map id l0.
Proof.
  induction 1 as [|r0 r l0 l Hr _ IH]; [reflexivity|].
  cbn. now rewrite IH, (rel_id r0 r Hr).
Qed.

Lemma steps_succ (n : nat) (st : Run) :
  steps embed args (S n) st = steps embed args n (step embed args st).
Proof. reflexivity. Qed.

(** The six actions that follow the fetch of a batch, one by one. *)
Lemma step_at_embed (w0 : World) (ck : Checkpoint) (L : option Z) (pr : Z)
    (b : list Row) (tr : list event) :
  step embed args (mkRun w0 ck L pr (AtEmbed b) tr)
  = mkRun w0 ck L pr (AtUpsert b (map (fun r => embed (content r)) b))
      (Embedded (ids_of b) :: tr).
Proof. reflexivity. Qed.

Lemma step_at_upsert (w0 : World) (ck : Checkpoint) (L : option Z) (pr : Z)
    (b : list Row) (e : list (list Q)) (tr : list event) :
  step embed args (mkRun w0 ck L pr (AtUpsert b e) tr)
  = mkRun (mkWorld (upsert_embeddings (store w0) (ids_of b) e)
             (path_file w0) (tmp_file w0))
      ck L pr (AtAdvance b) (Upserted (ids_of b) :: tr).
Proof. reflexivity. Qed.

Lemma step_at_advance (w0 : World) (ck : Checkpoint) (L : option Z) (pr : Z)
    (b : list Row) (tr : list event) :
  step embed args (mkRun w0 ck L pr (AtAdvance b) tr)
  = mkRun w0
      match last_of b with
      | Some l => <[cursor_key args := l]> ck
      | None => ck
      end (last_of b) pr (AtWriteTmp b) tr.
Proof. reflexivity. Qed.

Lemma step_at_write_tmp (w0 : World) (ck : Checkpoint) (L : option Z)
    (pr : Z) (b : list Row) (tr : list event) :
  step embed args (mkRun w0 ck L pr (AtWriteTmp b) tr)
  = mkRun (mkWorld (store w0) (path_file w0) (Some ck)) ck L pr
      (AtReplace b) (WroteTmp ck :: tr).
Proof. reflexivity. Qed.

Lemma step_at_replace (rows : list Row) (file : option Checkpoint)
    (data ck : Checkpoint) (L : option Z) (pr : Z) (b : list Row)
    (tr : list event) :
  step embed args
    (mkRun (mkWorld rows file (Some data)) ck L pr (AtReplace b) tr)
  = mkRun (mkWorld rows (Some data) None) ck L pr (AtCount b)
      (Replaced data :: tr).
Proof. reflexivity. Qed.

Lemma step_at_count (w0 : World) (ck : Checkpoint) (L : option Z) (pr : Z)
    (b : list Row) (tr : list event) :
  step embed args (mkRun w0 ck L pr (AtCount b) tr)
  = mkRun w0 ck L (pr + Py.len b) AtFetch tr.
Proof.
  unfold step. cbn [at_pc world checkpoint last_id processed trace].
  unfold after_count. now rewrite unlimited.
Qed.

Lemma round_tail (w0 : World) (ck : Checkpoint) (L : option Z) (pr : Z)
    (b : list Row) (tr : list event) :
  let st' := steps embed args 6 (mkRun w0 ck L pr (AtEmbed b) tr) in
  at_pc st' = AtFetch
  /\ store (world st')
     = upsert_embeddings (store w0) (ids_of b)
         (map (fun r => embed (content r)) b)
  /\ last_id st' = last_of b.
Proof.
  cbn zeta. cbn [steps].
  rewrite step_at_embed, step_at_upsert, step_at_advance, step_at_write_tmp.
  cbn [store path_file]. rewrite step_at_replace, step_at_count.
  cbn [at_pc world store last_id]. auto.
Qed.

(** The seven actions of one round of the loop, fetch to fetch. *)
Lemma round (st : Run) :
  at_pc st = AtFetch ->
  let b := fetch_batch (store (world st)) t (last_id st) (batch_size args) in
  b <> [] ->
  let st' := steps embed args 7 st in
  at_pc st' = AtFetch
  /\ store (world st')
     = upsert_embeddings (store (world st)) (ids_of b)
         (map (fun r => embed (content r)) b)
  /\ last_id st' = last_of b.
Proof.
  intros Hpc b Hne. destruct st as [w0 ck L pr pc tr]. cbn in Hpc. subst pc.
  cbn [world last_id] in *.
  assert (H1 : step embed args (mkRun w0 ck L pr AtFetch tr)
               = mkRun w0 ck L pr (AtEmbed b)
                   (Fetched L (ids_of b) :: tr)).
  { unfold step. cbn [at_pc world last_id checkpoint processed trace].
    fold b. destruct b; [congruence|]. now rewrite not_dry. }
  rewrite (steps_succ 6), H1. apply round_tail.
Qed.

(** An empty fetch ends the loop. *)
Lemma last_fetch (st : Run) :
  at_pc st = AtFetch ->
  fetch_batch (store (world st)) t (last_id st) (batch_size args) = [] ->
  at_pc (step embed args st) = Finished
  /\ store (world (step embed args st)) = store (world st).
Proof.
  intros Hpc Hb. unfold step. rewrite Hpc, Hb. cbn. auto.
Qed.

Lemma fetch_batch_nil (rows : list Row) (l : option Z) :
  fetch_batch rows t l (batch_size args) = [] ->
  forall r, In r rows -> selected t l r = false.
Proof.
  unfold fetch_batch. intros Hb r Hr.
  destruct (selected t l r) eqn:Hsel; [|reflexivity]. exfalso.
  assert (Hin : In r (sort_by_id (List.filter (selected t l) rows))).
  { apply in_sort_by_id, filter_In. auto. }
  destruct (sort_by_id _) as [|x s]; [destruct Hin|].
  destruct (Z.to_nat (batch_size args)) eqn:En; [lia|]. discriminate.
Qed.

(** A row that is selected and not in the batch lies after the batch. *)
Lemma beyond_batch (rows : list Row) (l : option Z) (r : Row) :
  let b := fetch_batch rows t l (batch_size args) in
  NoDup (map id rows) ->
  In r rows -> selected t l r = true -> ~ In (id r) (ids_of b) ->
  forall c, last_of b = Some c -> c < id r.
Proof.
  intros b Hnd Hr Hsel Hnot c Hc.
  set (s := sort_by_id (List.filter (selected t l) rows)) in *.
  assert (Hs : StronglySorted (fun a b => id a <= id b) s)
    by apply sort_by_id_sorted.
  assert (Hsplit : s = b ++ drop (Z.to_nat (batch_size args)) s)
    by (symmetry; apply take_drop).
  assert (Hrs : In r s) by (apply in_sort_by_id, filter_In; auto).
  assert (Hrb : ~ In r b).
  { intros Hin. apply Hnot. unfold ids_of. now apply in_map. }
  rewrite Hsplit in Hrs, Hs. apply in_app_or in Hrs as [Hrs|Hrs];
    [contradiction|].
  assert (Hbne : b <> []).
  { intros E. rewrite E in Hc. discriminate. }
  destruct (last_of_in b Hbne) as (x & Hx & Hlast).
  rewrite Hlast in Hc. injection Hc as <-.
  pose proof (StronglySorted_app_le _ _ _ Hs x r Hx Hrs) as Hle.
  cbn in Hle.
  assert (Hne : id x <> id r).
  { intros Heq. apply Hnot. rewrite <- Heq. unfold ids_of. now apply in_map. }
  lia.
Qed.

Lemma fetch_batch_in (rows : list Row) (l : option Z) (r : Row) :
  In r (fetch_batch rows t l (batch_size args)) -> In r rows.
Proof.
  unfold fetch_batch. intros Hin.
  apply list_elem_of_In, elem_of_take in Hin. destruct Hin as (i & Hi & _).
  apply list_elem_of_lookup_2, list_elem_of_In, in_sort_by_id, filter_In in Hi.
  apply Hi.
Qed.

(** What the upsert of a fetched batch does to one row of the store. *)
Lemma upsert_row (rows : list Row) (l : option Z) (r : Row) :
  let b := fetch_batch rows t l (batch_size args) in
  NoDup (map id rows) -> In r rows ->
  match lookup_id (id r) (ids_of b) (map (fun r => embed (content r)) b) with
  | Some e => selected t l r = true /\ e = embed (content r)
  | None => ~ In (id r) (ids_of b)
  end.
Proof.
  intros b Hnd Hr.
  pose proof (lookup_id_map (fun r => embed (content r)) b (id r)) as H.
  destruct (lookup_id _ _ _) as [e|]; [|exact H].
  destruct H as (r' & Hr' & Hid & ->).
  assert (r' = r).
  { apply (NoDup_id_inj rows); auto. now apply fetch_batch_in in Hr'. }
  subst r'. split; [|reflexivity]. now apply fetch_batch_selected in Hr'.
Qed.

Lemma rel_map (f : Row -> Row) (L : option Z) (l0 l : list Row) :
  Forall2 rel l0 l ->
  (forall r, In r l ->
     f r = r \/ (selected t L r = true /\ f r = upd r)) ->
  Forall2 rel l0 (map f l).
Proof.
  induction 1 as [|r0 r l0 l Hr _ IH]; intros Hf; [constructor|].
  cbn [map]. constructor.
  - destruct (Hf r ltac:(now left)) as [->|[Hs ->]]; [exact Hr|].
    destruct Hr as [->|[_ ->]].
    + right. split; [|reflexivity]. now apply selected_any_cursor in Hs.
    + unfold selected in Hs. cbn in Hs. discriminate.
  - apply IH. intros x Hx. apply Hf. now right.
Qed.

Lemma filter_map_le {A} (p : A -> bool) (f : A -> A) (l : list A) :
  (forall x, In x l -> p (f x) = true -> p x = true) ->
  (length (List.filter p (map f l)) <= length (List.filter p l))%nat.
Proof.
  induction l as [|y l IH]; intros Hmono; [cbn; lia|].
  cbn [map List.filter].
  assert (IH' := IH (fun x Hx => Hmono x (or_intror Hx))).
  pose proof (Hmono y (or_introl eq_refl)) as Hy.
  destruct (p (f y)).
  - rewrite Hy by reflexivity. cbn [length]. lia.
  - destruct (p y); cbn [length]; lia.
Qed.

Lemma filter_map_lt {A} (p : A -> bool) (f : A -> A) (l : list A) :
  (forall x, In x l -> p (f x) = true -> p x = true) ->
  (exists x, In x l /\ p x = true /\ p (f x) = false) ->
  (length (List.filter p (map f l)) < length (List.filter p l))%nat.
Proof.
  induction l as [|y l IH]; intros Hmono (x & Hx & Hp & Hpf);
    [destruct Hx|].
  cbn [map List.filter].
  pose proof (filter_map_le p f l (fun z Hz => Hmono z (or_intror Hz)))
    as Hle.
  destruct Hx as [<-|Hx].
  - rewrite Hp, Hpf. cbn [length]. lia.
  - assert (Hlt := IH (fun z Hz => Hmono z (or_intror Hz))
                      (ex_intro _ x (conj Hx (conj Hp Hpf)))).
    pose proof (Hmono y (or_introl eq_refl)) as Hy.
    destruct (p (f y)).
    + rewrite Hy by reflexivity. cbn [length]. lia.
    + destruct (p y); cbn [length]; lia.
Qed.

Lemma round_inv (st : Run) :
  fresh_inv st ->
  fetch_batch (store (world st)) t (last_id st) (batch_size args) <> [] ->
  fresh_inv (steps embed args 7 st)
  /\ (length (pending t (store (world (steps embed args 7 st))))
      < length (pending t (store (world st))))%nat.
Proof.
  intros (Hpc & Hrel & Hsel) Hne.
  destruct (round st Hpc Hne) as (Hpc' & Hstore & Hlast).
  set (b := fetch_batch (store (world st)) t (last_id st) (batch_size args))
    in *.
  set (rows := store (world st)) in *.
  assert (Hnd : NoDup (map id rows)).
  { rewrite (rel_ids _ _ Hrel). exact ids_unique. }
  set (f := fun r => match lookup_id (id r) (ids_of b)
                             (map (fun r => embed (content r)) b) with
                     | Some e => mkRow (id r) (tenant_id r) (content r) (Some e)
                     | None => r
                     end).
  assert (Hf : forall r, In r rows ->
            (f r = r /\ ~ In (id r) (ids_of b))
            \/ (selected t (last_id st) r = true /\ f r = upd r)).
  { intros r Hr. pose proof (upsert_row rows (last_id st) r Hnd Hr) as H.
    fold b in H. unfold f.
    destruct (lookup_id _ _ _) as [e|]; [right|left; auto].
    destruct H as [H ->]. auto. }
  assert (Hstore' : store (world (steps embed args 7 st)) = map f rows)
    by exact Hstore.
  split; [split; [exact Hpc'|split]|].
  - rewrite Hstore'. apply (rel_map f (last_id st) _ _ Hrel).
    intros r Hr. destruct (Hf r Hr) as [[H1 _]|H2]; auto.
  - intros r Hr Hnone. rewrite Hstore' in Hr. rewrite Hlast.
    apply in_map_iff in Hr as (r1 & Hfr & Hr1).
    destruct (Hf r1 Hr1) as [[Heq Hnot]|[_ Heq]]; rewrite Heq in Hfr; subst r.
    + pose proof (Hsel r1 Hr1 Hnone) as Hold.
      destruct (last_of b) as [c|] eqn:Hc; [|exact Hnone].
      pose proof (beyond_batch rows (last_id st) r1 Hnd Hr1 Hold Hnot c Hc)
        as Hlt.
      unfold selected in *. destruct (embedding_768 r1); [discriminate|].
      apply andb_true_iff in Hnone as [Hten _]. rewrite Hten. cbn [andb].
      destruct (truthy_int c); [now apply Z.ltb_lt|reflexivity].
    + unfold selected in Hnone. cbn in Hnone. discriminate.
  - rewrite Hstore'. unfold pending. apply filter_map_lt.
    + intros r Hr Hs. destruct (Hf r Hr) as [[Heq _]|[_ Heq]];
        rewrite Heq in Hs; [exact Hs|].
      unfold selected in Hs. cbn in Hs. discriminate.
    + destruct b as [|x b'] eqn:Eb; [congruence|].
      assert (Hx : In x (fetch_batch rows t (last_id st) (batch_size args))).
      { fold b. rewrite Eb. now left. }
      exists x. split; [now apply fetch_batch_in in Hx|].
      pose proof (fetch_batch_selected _ _ _ _ _ Hx) as Hs.
      split; [now apply selected_any_cursor in Hs|].
      destruct (Hf x (fetch_batch_in _ _ _ Hx)) as [[_ Hnot]|[_ ->]].
      * exfalso. apply Hnot. now left.
      * reflexivity.
Qed.

Lemma steps_add (n m : nat) (st : Run) :
  steps embed args (n + m) st = steps embed args m (steps embed args n st).
Proof.
  revert st. induction n as [|n IH]; intros st; [reflexivity|].
  cbn [Nat.add steps]. apply IH.
Qed.

Lemma steps_finished (n : nat) (st : Run) :
  at_pc st = Finished -> steps embed args n st = st.
Proof.
  intros Hpc. induction n as [|n IH]; [reflexivity|].
  assert (Hstep : step embed args st = st) by (unfold step; now rewrite Hpc).
  now rewrite steps_succ, Hstep.
Qed.

(** From a fetch with [m] rows pending at most, the loop ends within
    [7 * m + 1] actions, and all rows selected at the start are done. *)
Lemma fresh_run_ends (m : nat) :
  forall st,
    fresh_inv st ->
    (length (pending t (store (world st))) <= m)%nat ->
    exists k st',
      (k <= 7 * m + 1)%nat
      /\ steps embed args k st = st'
      /\ at_pc st' = Finished
      /\ store (world st') = backfilled embed t (store w).
Proof.
  induction m as [|m IH]; intros st Hinv Hm.
  - destruct Hinv as (Hpc & Hrel & Hsel).
    assert (Hb : fetch_batch (store (world st)) t (last_id st)
                   (batch_size args) = []).
    { destruct (fetch_batch _ _ _ _) as [|x b] eqn:Eb; [reflexivity|].
      exfalso.
      assert (Hx : In x (fetch_batch (store (world st)) t (last_id st)
                           (batch_size args))) by (rewrite Eb; now left).
      pose proof (fetch_batch_in _ _ _ Hx) as Hin.
      apply fetch_batch_selected, selected_any_cursor in Hx.
      assert (Hp : In x (pending t (store (world st))))
        by (apply filter_In; auto).
      destruct (pending t (store (world st))); [destruct Hp|cbn in Hm; lia]. }
    destruct (last_fetch st Hpc Hb) as [Hfin Hstore].
    exists 1%nat, (step embed args st). split; [lia|].
    split; [reflexivity|]. split; [exact Hfin|].
    rewrite Hstore. unfold backfilled.
    pose proof (fetch_batch_nil _ _ Hb) as Hnone.
    clear Hb Hfin Hstore Hm Hpc. revert Hrel Hsel Hnone.
    generalize (store (world st)) (store w). intros l l0 Hrel.
    induction Hrel as [|r0 r l0 l Hr _ IHl]; intros Hsel Hnone;
      [reflexivity|].
    cbn [map]. f_equal.
    + destruct Hr as [->|[-> ->]]; [|reflexivity].
      destruct (selected t None r0) eqn:Hs; [|reflexivity].
      pose proof (Hsel r0 ltac:(now left) Hs) as H1.
      rewrite (Hnone r0 ltac:(now left)) in H1. discriminate.
    + apply IHl.
      * intros x Hx. apply Hsel. now right.
      * intros x Hx. apply Hnone. now right.
  - destruct (fetch_batch (store (world st)) t (last_id st) (batch_size args))
      as [|x b] eqn:Eb.
    + destruct (IH st Hinv) as (k & st' & Hk & Hrest).
      * destruct Hinv as (Hpc & Hrel & Hsel).
        pose proof (fetch_batch_nil _ _ Eb) as Hnone.
        assert (Hp : pending t (store (world st)) = []).
        { unfold pending.
          destruct (List.filter _ _) as [|y p] eqn:Ep; [reflexivity|].
          assert (Hy : In y (List.filter (selected t None)
                               (store (world st))))
            by (rewrite Ep; now left).
          apply filter_In in Hy as [Hy Hs].
          specialize (Hsel y Hy Hs). rewrite (Hnone y Hy) in Hsel.
          discriminate. }
        rewrite Hp. cbn. lia.
      * exists k, st'. split; [lia|exact Hrest].
    + destruct (round_inv st Hinv) as [Hinv' Hlt]; [rewrite Eb; discriminate|].
      destruct (IH (steps embed args 7 st) Hinv') as (k & st' & Hk & Hst & Hrest);
        [lia|].
      exists (7 + k)%nat, st'. split; [lia|].
      split; [|exact Hrest]. rewrite steps_add. exact Hst.
Qed.

Lemma fresh_run_complete (budget : nat) :
  resume args = false ->
  (7 * length (pending t (store w)) + 1 <= budget)%nat ->
  main embed args budget w = steps embed args budget (start args w)
  /\ at_pc (main embed args budget w) = Finished
  /\ store (world (main embed args budget w)) = backfilled embed t (store w).
Proof.
  intros Hres Hbudget.
  destruct (fresh_run_ends (length (pending t (store w))) (start args w))
    as (k & st' & Hk & Hst & Hfin & Hstore).
  { unfold start. cbn [at_pc world last_id]. split; [reflexivity|]. split.
    - clear. induction (store w) as [|r l IH]; constructor; auto.
    - intros r _ Hs. rewrite Hres. cbn. rewrite lookup_empty. exact Hs. }
  { unfold start. cbn [world]. lia. }
  assert (Hsteps : steps embed args budget (start args w) = st').
  { replace budget with (k + (budget - k))%nat by lia.
    rewrite steps_add, Hst. now apply steps_finished. }
  unfold main. rewrite Hsteps, Hfin. auto.
Qed.

End FreshRun.

Lemma backfilled_none_pending (embed : string -> list Q)
    (tenant : option string) (rows : list Reembed.Row) :
  Reembed.pending tenant (Reembed.backfilled embed tenant rows) = [].
Proof.
  unfold Reembed.pending, Reembed.backfilled.
  induction rows as [|r rows IH]; [reflexivity|].
  cbn [map List.filter].
  destruct (Reembed.selected tenant None r) eqn:Hs.
  - unfold Reembed.selected at 1. cbn. exact IH.
  - rewrite Hs. exact IH.
Qed.

(** X28. A fresh backfill run to its end: started without [--resume] and
    without [--dry-run], with no row limit, a positive batch size and a
    store whose ids are distinct, the loop ends by itself within
    [7 * pending + 1] actions (seven per batch, and the last fetch). When
    it is given that many, the run is not interrupted; every row that had
    no embedding and belongs to the tenant (every such row, without a
    tenant) has the embedding of its own content; every other row is as it
    was; and no row is left to do. *)
Theorem fresh_backfill_completes (embed : string -> list Q)
    (args : Reembed.Args) (w : Reembed.World) (budget : nat) :
  Reembed.dry_run args = false ->
  Reembed.resume args = false ->
  Reembed.max_rows args = 0 ->
  0 < Reembed.batch_size args ->
  NoDup (map Reembed.id (Reembed.store w)) ->
  (7 * length (Reembed.pending (Reembed.tenant args) (Reembed.store w)) + 1
   <= budget)%nat ->
  let st := Reembed.main embed args budget w in
  st = Reembed.steps embed args budget (Reembed.start args w)
  /\ Reembed.at_pc st = Reembed.Finished
  /\ Reembed.store (Reembed.world st)
     = Reembed.backfilled embed (Reembed.tenant args) (Reembed.store w)
  /\ Reembed.pending (Reembed.tenant args) (Reembed.store (Reembed.world st))
     = [].
Proof.
  intros Hdry Hres Hmax Hbs Hnd Hbudget. cbn zeta.
  destruct (fresh_run_complete embed args w Hdry Hmax Hbs Hnd budget Hres
              Hbudget) as (H1 & H2 & H3).
  split; [exact H1|]. split; [exact H2|]. split; [exact H3|].
  rewrite H3. apply backfilled_none_pending.
Qed.

Lemma fresh_backfill_completes_witness :
  let args := ExampleBackfill.first_args in
  let w := ExampleBackfill.world0 in
  let st := Reembed.main ExampleBackfill.embed args 40 w in
  st = Reembed.steps ExampleBackfill.embed args 40 (Reembed.start args w)
  /\ Reembed.at_pc st = Reembed.Finished
  /\ Reembed.store (Reembed.world st)
     = Reembed.backfilled ExampleBackfill.embed (Reembed.tenant args)
         (Reembed.store w)
  /\ Reembed.pending (Reembed.tenant args) (Reembed.store (Reembed.world st))
     = [].
Proof.
  apply (fresh_backfill_completes ExampleBackfill.embed
           ExampleBackfill.first_args ExampleBackfill.world0 40).
  - reflexivity.
  - reflexivity.
  - reflexivity.
  - cbn. lia.
  - apply (bool_decide_unpack
             (NoDup (map Reembed.id (Reembed.store ExampleBackfill.world0)))).
    vm_compute. exact I.
  - vm_compute. lia.
Defined.

(** ** vector_store.py and main.py: ingesting documents *)

Section Grouping.
Import Payloads Ingest.

Lemma existsb_eqb_In (t : string) (ks : list string) :
  existsb (String.eqb t) ks = true <-> In t ks.
Proof.
  rewrite existsb_exists. split.
  - intros (x & Hx & Heq). apply String.eqb_eq in Heq. now subst.
  - intros Hin. exists t. split; [exact Hin|apply String.eqb_refl].
Qed.

Lemma tenants_snoc (p : list Payload) (d : Payload) :
  tenants (p ++ [d]) = add_key (tenants p) d.
Proof. unfold tenants. now rewrite fold_left_app. Qed.

Lemma tenants_spec (p : list Payload) :
  NoDup (tenants p)
  /\ (forall t, In t (tenants p) <-> exists d, In d p /\ tenant_id d = t).
Proof.
  induction p as [|d p IH] using rev_ind.
  - split; [constructor|]. intros t. split; [intros []|intros (d & [] & _)].
  - destruct IH as [Hnd Hin]. rewrite tenants_snoc. unfold add_key.
    destruct (existsb _ _) eqn:Hex.
    + split; [exact Hnd|]. intros t. rewrite Hin. split.
      * intros (x & Hx & Ht). exists x. split; [|exact Ht].
        apply in_or_app. now left.
      * intros (x & Hx & Ht). apply in_app_or in Hx as [Hx|[<-|[]]]; [eauto|].
        apply Hin. rewrite <- Ht. now apply existsb_eqb_In.
    + assert (Hnot : ~ In (tenant_id d) (tenants p)).
      { intros H. apply existsb_eqb_In in H. congruence. }
      split.
      * apply NoDup_app. split; [exact Hnd|]. split; [|apply NoDup_singleton].
        intros x Hx Hx'. apply list_elem_of_singleton in Hx'. subst x.
        apply Hnot. now apply list_elem_of_In.
      * intros t. rewrite in_app_iff, Hin. split.
        -- intros [(x & Hx & Ht)|[<-|[]]].
           ++ exists x. split; [apply in_or_app; now left|exact Ht].
           ++ exists d. split; [apply in_or_app; right; now left|reflexivity].
        -- intros (x & Hx & Ht). apply in_app_or in Hx as [Hx|[<-|[]]].
           ++ left. eauto.
           ++ right. now left.
Qed.

Lemma of_tenant_snoc (t : string) (p : list Payload) (d : Payload) :
  of_tenant t (p ++ [d])
  = of_tenant t p ++ (if String.eqb (tenant_id d) t then [d] else []).
Proof. unfold of_tenant. rewrite List.filter_app. reflexivity. Qed.

(** [group_append] on groups given by their keys. *)
Lemma group_append_keys (F : string -> list Payload) (d : Payload)
    (ks : list string) :
  NoDup ks ->
  group_append (map (fun t => (t, F t)) ks) d
  = map (fun t => (t, F t ++ (if String.eqb (tenant_id d) t then [d] else [])))
      ks
    ++ (if existsb (String.eqb (tenant_id d)) ks then []
        else [(tenant_id d, [d])]).
Proof.
  induction ks as [|k ks IH]; intros Hnd; [reflexivity|].
  inversion Hnd as [|? ? Hnot Hnd']; subst.
  cbn [map group_append existsb].
  rewrite (String.eqb_sym (tenant_id d) k).
  destruct (String.eqb_spec k (tenant_id d)) as [->|Hne]; cbn [orb].
  - cbn [app]. f_equal. rewrite app_nil_r.
    apply map_ext_in. intros t Ht.
    destruct (String.eqb_spec (tenant_id d) t) as [<-|_];
      [|now rewrite app_nil_r].
    exfalso. apply Hnot. now apply list_elem_of_In.
  - rewrite IH by exact Hnd'. cbn [app]. now rewrite app_nil_r.
Qed.

(** The dictionary after the grouping loop. *)
Lemma group_by_tenant_closed (documents : list Payload) :
  group_by_tenant documents
  = map (fun t => (t, of_tenant t documents)) (tenants documents).
Proof.
  unfold group_by_tenant.
  induction documents as [|d p IH] using rev_ind; [reflexivity|].
  rewrite fold_left_app. cbn [fold_left]. rewrite IH, tenants_snoc.
  destruct (tenants_spec p) as [Hnd Hin].
  rewrite group_append_keys by exact Hnd. unfold add_key.
  destruct (existsb _ _) eqn:Hex.
  - rewrite app_nil_r. apply map_ext. intros t. now rewrite of_tenant_snoc.
  - rewrite map_app. cbn [map]. f_equal.
    + apply map_ext. intros t. now rewrite of_tenant_snoc.
    + f_equal. f_equal. rewrite of_tenant_snoc, String.eqb_refl.
      assert (Hnone : of_tenant (tenant_id d) p = []).
      { unfold of_tenant.
        destruct (List.filter _ p) as [|x l] eqn:Ef; [reflexivity|].
        assert (Hx : In x (List.filter
                             (fun d0 => String.eqb (tenant_id d0) (tenant_id d))
                             p)) by (rewrite Ef; now left).
        apply filter_In in Hx as [Hx Heq]. apply String.eqb_eq in Heq.
        assert (Hk : In (tenant_id d) (tenants p)) by (apply Hin; eauto).
        apply existsb_eqb_In in Hk. congruence. }
      now rewrite Hnone.
Qed.

Lemma group_append_count (g : list (string * list Payload)) (d : Payload) :
  list_sum (map (fun e => length (snd e)) (group_append g d))
  = S (list_sum (map (fun e => length (snd e)) g)).
Proof.
  assert (Hc : forall a l, list_sum (a :: l) = (a + list_sum l)%nat)
    by reflexivity.
  induction g as [|[t ds] g IH]; [reflexivity|].
  cbn [group_append]. destruct (String.eqb t (tenant_id d)).
  - cbn [map snd]. rewrite !Hc, length_app. cbn [length]. lia.
  - cbn [map snd]. rewrite !Hc, IH. lia.
Qed.

Lemma group_by_tenant_count (documents : list Payload) :
  list_sum (map (fun e => length (snd e)) (group_by_tenant documents))
  = length documents.
Proof.
  unfold group_by_tenant.
  induction documents as [|d p IH] using rev_ind; [reflexivity|].
  rewrite fold_left_app. cbn [fold_left].
  rewrite group_append_count, IH, length_app. cbn. lia.
Qed.

End Grouping.

Section AddLoop.
Import Payloads Ingest.

Variable get_batch_embeddings : list string -> option (list (list Q)).
Hypothesis answers : forall texts, exists embs,
  get_batch_embeddings texts = Some embs.

Variable documents : list Payload.

Lemma add_loop_groups (ks : list string) :
  forall total log,
    exists more,
      add_loop get_batch_embeddings
        (map (fun t => (t, of_tenant t documents)) ks) total log
      = (Added (total
                + Z.of_nat
                    (list_sum (map (fun t => length (of_tenant t documents))
                                 ks))),
         log ++ more)
      /\ Forall2 (adds_tenant get_batch_embeddings documents) ks more.
Proof.
  induction ks as [|k ks IH]; intros total log.
  - exists []. cbn. rewrite Z.add_0_r, app_nil_r. split; [reflexivity|constructor].
  - cbn [map add_loop].
    destruct (answers (map content (of_tenant k documents))) as [embs Hembs].
    rewrite Hembs.
    destruct (IH (total + Py.len (of_tenant k documents))
                (log ++ [mkAdd (collection_name k)
                           (map doc_id (of_tenant k documents))
                           (map content (of_tenant k documents))
                           (map metadata (of_tenant k documents)) embs]))
      as (more & Heq & Hall).
    exists (mkAdd (collection_name k) (map doc_id (of_tenant k documents))
              (map content (of_tenant k documents))
              (map metadata (of_tenant k documents)) embs :: more).
    split.
    + rewrite Heq, <- app_assoc. cbn [app map].
      assert (Hc : forall a l, list_sum (a :: l) = (a + list_sum l)%nat)
        by reflexivity.
      rewrite Hc, Nat2Z.inj_add, Z.add_assoc. reflexivity.
    + constructor; [|exact Hall]. repeat split; assumption.
Qed.

End AddLoop.

(** X29. [ChromaVectorStore.add_documents_batch], when the embedding
    provider is available and answers: it reports as many documents added
    as it was given, and makes one [col.add] per tenant of the input, in
    the order in which the tenants first appear. The call for a tenant goes
    to the collection [tenant_<id>] and carries the ids, contents and
    metadata of exactly the documents of that tenant, in the order of the
    input, with the embeddings of those contents. *)
Theorem add_documents_batch_by_tenant
    (get_batch_embeddings : list string -> option (list (list Q)))
    (documents : list Payloads.Payload) :
  (forall texts, exists embs, get_batch_embeddings texts = Some embs) ->
  exists log,
    Ingest.add_documents_batch true get_batch_embeddings documents
    = (Ingest.Added (Py.len documents), log)
    /\ Forall2 (Ingest.adds_tenant get_batch_embeddings documents)
         (Ingest.tenants documents) log
    /\ NoDup (Ingest.tenants documents)
    /\ (forall t, In t (Ingest.tenants documents)
                  <-> exists d, In d documents /\ Payloads.tenant_id d = t).
Proof.
  intros Hans. unfold Ingest.add_documents_batch. cbn [negb].
  pose proof (group_by_tenant_count documents) as Hcount.
  rewrite group_by_tenant_closed in *.
  destruct (add_loop_groups get_batch_embeddings Hans documents
              (Ingest.tenants documents) 0 []) as (log & Heq & Hall).
  exists log. split.
  - rewrite Heq. cbn [app]. f_equal. f_equal. rewrite map_map in Hcount.
    cbn [snd] in Hcount. rewrite Hcount. reflexivity.
  - split; [exact Hall|]. apply tenants_spec.
Qed.

Lemma add_documents_batch_by_tenant_witness :
  let embed := fun texts : list string =>
    Some (map (fun t => [inject_Z (Z.of_nat (String.length t))]) texts) in
  let documents :=
    [Payloads.mkPayload "tn_a" "d1" "alpha" ∅;
     Payloads.mkPayload "tn_b" "d2" "beta" ∅;
     Payloads.mkPayload "tn_a" "d3" "gamma" ∅] in
  exists log,
    Ingest.add_documents_batch true embed documents
    = (Ingest.Added (Py.len documents), log)
    /\ Forall2 (Ingest.adds_tenant embed documents)
         (Ingest.tenants documents) log
    /\ NoDup (Ingest.tenants documents)
    /\ (forall t, In t (Ingest.tenants documents)
                  <-> exists d, In d documents /\ Payloads.tenant_id d = t).
Proof.
  apply (add_documents_batch_by_tenant
           (fun texts : list string =>
              Some (map (fun t => [inject_Z (Z.of_nat (String.length t))])
                      texts))
           [Payloads.mkPayload "tn_a" "d1" "alpha" ∅;
            Payloads.mkPayload "tn_b" "d2" "beta" ∅;
            Payloads.mkPayload "tn_a" "d3" "gamma" ∅]).
  intros texts. eexists. reflexivity.
Defined.

(** The calls of the witness: the two documents of [tn_a] go together. *)
Example add_documents_batch_example :
  map (fun a => (Ingest.collection a, Ingest.add_ids a))
    (snd (Ingest.add_documents_batch true
            (fun texts : list string =>
               Some (map (fun t => [inject_Z (Z.of_nat (String.length t))])
                       texts))
            [Payloads.mkPayload "tn_a" "d1" "alpha" ∅;
             Payloads.mkPayload "tn_b" "d2" "beta" ∅;
             Payloads.mkPayload "tn_a" "d3" "gamma" ∅]))
  = [("tenant_tn_a", ["d1"; "d3"]); ("tenant_tn_b", ["d2"])]%string.
Proof. reflexivity. Qed.

Section IngestEndpoint.
Import Payloads Ingest.

Lemma split_text_to_chunks_nil_iff (text : string) (chunk_size overlap : Z) :
  0 < chunk_size ->
  overlap < chunk_size \/ chunk_size < 2 ^ 53 ->
  exists chunks,
    Chunking.split_text_to_chunks text chunk_size overlap = Returns chunks
    /\ (chunks = [] <-> text = EmptyString).
Proof.
  intros Hc Hdom. unfold Chunking.split_text_to_chunks.
  destruct text as [|a s] eqn:Et.
  { exists []. split; [reflexivity|tauto]. }
  rewrite <- Et. destruct (Z.leb_spec chunk_size 0); [lia|].
  assert (Hpos : 0 < Chunking.str_len text).
  { subst text. unfold Chunking.str_len, Py.len. cbn. lia. }
  destruct (clamp_overlap_returns chunk_size overlap Hc Hdom)
    as (ov & -> & Hov & _).
  destruct (split_loop_chunks text chunk_size ov Hc Hov
              (S (String.length text)) 0 [])
    as (chunks & Heq & Hne & _); [lia| |].
  { unfold Chunking.str_len, Py.len. rewrite length_chars. lia. }
  cbn [app] in Heq. exists chunks. split; [exact Heq|].
  split; [intros ->; exfalso; now apply Hne|subst text; discriminate].
Qed.

Lemma payloads_loop_tenant (tenant doc : string)
    (md : option (gmap string value)) (chunks : list Chunking.chunk) :
  forall i p, In p (payloads_loop tenant doc md i chunks) ->
              tenant_id p = tenant.
Proof.
  induction chunks as [|c chunks IH]; intros i p Hp; [destruct Hp|].
  cbn [payloads_loop] in Hp. destruct Hp as [<-|Hp]; [reflexivity|].
  now apply (IH (i + 1)).
Qed.

(** Documents of one tenant make one group. *)
Lemma group_one_tenant (t : string) (l : list Payload) :
  forall acc,
    (forall p, In p l -> tenant_id p = t) ->
    fold_left group_append l [(t, acc)] = [(t, acc ++ l)].
Proof.
  induction l as [|d l IH]; intros acc Hall; [now rewrite app_nil_r|].
  cbn [fold_left group_append].
  rewrite (Hall d ltac:(now left)), String.eqb_refl.
  rewrite IH by (intros p Hp; apply Hall; now right).
  now rewrite <- app_assoc.
Qed.

Lemma ingest_chunked
    (get_batch_embeddings : list string -> option (list (list Q)))
    (tenant doc text : string) (md : option (gmap string value))
    (chunk_size overlap : Z) :
  (forall texts, exists embs, get_batch_embeddings texts = Some embs) ->
  0 < chunk_size ->
  overlap < chunk_size \/ chunk_size < 2 ^ 53 ->
  exists payloads,
    chunk_document_payloads tenant doc text (Some (default ∅ md)) chunk_size
      overlap = Returns payloads
    /\ (payloads = [] <-> text = EmptyString)
    /\ match payloads with
       | [] =>
           ingest true get_batch_embeddings tenant doc text md true
             chunk_size overlap = (Success 0, [])
       | _ :: _ =>
           exists embs,
             get_batch_embeddings (map content payloads) = Some embs
             /\ ingest true get_batch_embeddings tenant doc text md true
                  chunk_size overlap
                = (Success (Py.len payloads),
                   [mkAdd (collection_name tenant) (map doc_id payloads)
                      (map content payloads) (map metadata payloads) embs])
       end.
Proof.
  intros Hans Hc Hdom.
  destruct (split_text_to_chunks_nil_iff text chunk_size overlap Hc Hdom)
    as (chunks & Hsplit & Hnil).
  set (payloads := payloads_loop tenant doc (Some (default ∅ md)) 0 chunks).
  assert (Hpay : chunk_document_payloads tenant doc text
                   (Some (default ∅ md)) chunk_size overlap
                 = Returns payloads).
  { unfold chunk_document_payloads. now rewrite Hsplit. }
  exists payloads. split; [exact Hpay|]. split.
  - rewrite <- Hnil. unfold payloads.
    destruct chunks; cbn; split; intros H; try reflexivity; discriminate.
  - unfold ingest. rewrite Hpay. unfold add_documents_batch. cbn [negb].
    assert (Hten : forall p, In p payloads -> tenant_id p = tenant)
      by (intros p; apply payloads_loop_tenant).
    destruct payloads as [|d l] eqn:Ep; [reflexivity|].
    destruct (Hans (map content (d :: l))) as [embs Hembs].
    exists embs. split; [exact Hembs|].
    unfold group_by_tenant. cbn [fold_left group_append].
    rewrite (Hten d ltac:(now left)).
    rewrite group_one_tenant by (intros p Hp; apply Hten; now right).
    cbn [app add_loop]. rewrite Hembs. cbn [add_loop app].
    rewrite Z.add_0_l. reflexivity.
Qed.

End IngestEndpoint.

(** X30. [POST /ingest] with chunking, a positive chunk size, an overlap
    below it or a chunk size below [2 ^ 53], and an embedding provider that
    is available and answers: the document is split by
    [chunk_document_payloads]; for the empty content nothing is
    added and the answer reports 0; otherwise all chunks go to the
    collection of the document's tenant in one [col.add], with the chunk
    ids, the chunk texts, the chunk metadata and the embeddings of the
    chunk texts, and the answer reports the number of chunks. *)
Theorem ingest_adds_the_chunks
    (get_batch_embeddings : list string -> option (list (list Q)))
    (tenant doc text : string) (md : option (gmap string Payloads.value))
    (chunk_size overlap : Z) :
  (forall texts, exists embs, get_batch_embeddings texts = Some embs) ->
  0 < chunk_size ->
  overlap < chunk_size \/ chunk_size < 2 ^ 53 ->
  exists payloads,
    Payloads.chunk_document_payloads tenant doc text (Some (default ∅ md))
      chunk_size overlap = Returns payloads
    /\ (payloads = [] <-> text = EmptyString)
    /\ match payloads with
       | [] =>
           Ingest.ingest true get_batch_embeddings tenant doc text md true
             chunk_size overlap = (Ingest.Success 0, [])
       | _ :: _ =>
           exists embs,
             get_batch_embeddings (map Payloads.content payloads) = Some embs
             /\ Ingest.ingest true get_batch_embeddings tenant doc text md
                  true chunk_size overlap
                = (Ingest.Success (Py.len payloads),
                   [Ingest.mkAdd (Ingest.collection_name tenant)
                      (map Payloads.doc_id payloads)
                      (map Payloads.content payloads)
                      (map Payloads.metadata payloads) embs])
       end.
Proof. exact (ingest_chunked get_batch_embeddings tenant doc text md
                chunk_size overlap). Qed.

Lemma ingest_adds_the_chunks_witness :
  let embed := fun texts : list string =>
    Some (map (fun t => [inject_Z (Z.of_nat (String.length t))]) texts) in
  let md := Some {["title"%string := Payloads.VStr "TestDoc"]} in
  let text := "abcdefghijklmnopqrstuvwxyz0123456789"%string in
  exists payloads,
    Payloads.chunk_document_payloads "tn_example" "doc1" text
      (Some (default ∅ md)) 1000 200 = Returns payloads
    /\ (payloads = [] <-> text = EmptyString)
    /\ match payloads with
       | [] =>
           Ingest.ingest true embed "tn_example" "doc1" text md true 1000 200
           = (Ingest.Success 0, [])
       | _ :: _ =>
           exists embs,
             embed (map Payloads.content payloads) = Some embs
             /\ Ingest.ingest true embed "tn_example" "doc1" text md true
                  1000 200
                = (Ingest.Success (Py.len payloads),
                   [Ingest.mkAdd (Ingest.collection_name "tn_example")
                      (map Payloads.doc_id payloads)
                      (map Payloads.content payloads)
                      (map Payloads.metadata payloads) embs])
       end.
Proof.
  apply (ingest_adds_the_chunks
           (fun texts : list string =>
              Some (map (fun t => [inject_Z (Z.of_nat (String.length t))])
                      texts))
           "tn_example" "doc1" "abcdefghijklmnopqrstuvwxyz0123456789"
           (Some {["title"%string := Payloads.VStr "TestDoc"]}) 1000 200).
  - intros texts. eexists. reflexivity.
  - lia.
  - lia.
Defined.

(** tests/test_ingest_flow.py, the request with chunking: one chunk, one
    call on the collection of the tenant. *)
Example test_ingest_and_chunking_flow :
  let r := Ingest.ingest true
             (fun texts : list string =>
                Some (map (fun t => [inject_Z (Z.of_nat (String.length t))])
                        texts))
             "tn_example" "doc1" "abcdefghijklmnopqrstuvwxyz0123456789"
             (Some {["title"%string := Payloads.VStr "TestDoc"]})
             true 1000 200 in
  fst r = Ingest.Success 1
  /\ map (fun a => (Ingest.collection a, Ingest.add_ids a)) (snd r)
     = [("tenant_tn_example", ["doc1::chunk::0"])]%string.
Proof. vm_compute. split; reflexivity. Qed.
